(** * Brass posting lists: a shallow embedding of brass_postlist.cc

    The development follows the source file top-down: the integer codec
    the file relies on, the chunk headers, the posting chunk reader and
    writer, the fixed-width doclen chunk codec, the doclen chunk writer,
    the posting list cursor and the posting list table.

    Conventions.
    - [Xapian::docid], [Xapian::termcount], [Xapian::doccount] and
      [unsigned] are 32-bit unsigned integers: they are values of [Z] and
      every C++ operation that can wrap is written with [u32].
    - [std::string] is [list byte]; a [const char *] into a string is the
      suffix of the string that starts at the pointer.
    - [std::map<docid, termcount>] is a list of pairs in ascending key
      order, the order its iterators deliver.
    - A C++ exception is a value of [error]; code that can throw returns
      [result].
    - [Assert] is the macro of a build without XAPIAN_ASSERTIONS: it
      expands to nothing and its operand is not evaluated. *)

From Stdlib Require Import ZArith List Bool Lia Sorted.
From Stdlib Require Import Strings.Byte.
Import ListNotations.
Local Open Scope Z_scope.

(** ** Machine integers and bytes *)

Definition u32 (z : Z) : Z := z mod 2 ^ 32.

Definition is_u32 (z : Z) : Prop := 0 <= z < 2 ^ 32.

Definition Z_of_byte (b : byte) : Z := Z.of_N (Byte.to_N b).

Definition byte_of_Z (z : Z) : byte :=
  match Byte.of_N (Z.to_N (z mod 256)) with
  | Some b => b
  | None => x00
  end.

Definition bytes := list byte.

(** ** Errors *)

Inductive error : Type :=
| DatabaseCorruptError   (* Xapian::DatabaseCorruptError *)
| RangeError             (* Xapian::RangeError *)
| DocNotFoundError       (* Xapian::DocNotFoundError *)
| UndefinedBehaviour     (* the C++ has no defined result here *)
| LoopBoundReached.      (* the bound on the turns of a loop was reached:
                            the C++ is still running *)

Inductive result (A : Type) : Type :=
| Ok (a : A)
| Err (e : error).
Arguments Ok {A} a.
Arguments Err {A} e.

Definition bind {A B : Type} (r : result A) (k : A -> result B) : result B :=
  match r with
  | Ok a => k a
  | Err e => Err e
  end.

Notation "x <- r ;; k" := (bind r (fun x => k))
  (at level 61, r at next level, right associativity).
Notation "' pat <- r ;; k" := (bind r (fun x => match x with pat => k end))
  (at level 61, pat pattern, r at next level, right associativity).

(** ** The integer codec of pack.h *)

Module Pack.

(** Modelled from the spec: [pack_uint] of pack.h is not part of the
    sources at hand.  The spec asks for a self-delimiting encoding of an
    unsigned integer; this is the usual one, seven bits per byte, least
    significant group first, the top bit set on every byte but the last. *)
Fixpoint pack_uint_loop (fuel : nat) (value : Z) : bytes :=
  match fuel with
  | O => []
  | S fuel' =>
      if 128 <=? value
      then byte_of_Z (value mod 128 + 128)
             :: pack_uint_loop fuel' (Z.shiftr value 7)
      else [byte_of_Z value]
  end.

Definition pack_uint (value : Z) : bytes :=
  pack_uint_loop (S (Z.to_nat (Z.log2 value))) value.

(** The outcome of an unpack: the value and the advanced pointer, or the
    two failures [report_read_error] tells apart (pointer null: the data
    ran out; pointer not null: the value does not fit). *)
Inductive unpacked : Type :=
| Unpacked (value : Z) (rest : bytes)
| RanOut
| TooLarge.

(** Modelled from the spec: [unpack_uint] of pack.h, the inverse of
    [pack_uint] for a 32-bit target.  [shift] is the weight of the next
    group and [acc] the value read so far. *)
Fixpoint unpack_uint_loop (p : bytes) (shift acc : Z) : unpacked :=
  match p with
  | [] => RanOut
  | b :: p' =>
      let acc' := acc + (Z_of_byte b mod 128) * shift in
      if Z_of_byte b <? 128
      then (if acc' <? 2 ^ 32 then Unpacked acc' p' else TooLarge)
      else unpack_uint_loop p' (shift * 128) acc'
  end.

Definition unpack_uint (p : bytes) : unpacked := unpack_uint_loop p 1 0.

(** Modelled from the spec: [pack_uint_in_bytes(v, n, out)] of pack.h
    "writes exactly n bytes": the [n] low bytes of [v], most significant
    first. *)
Fixpoint pack_uint_in_bytes (value : Z) (n_bytes : nat) : bytes :=
  match n_bytes with
  | O => []
  | S n' => byte_of_Z (Z.shiftr value (8 * Z.of_nat n'))
              :: pack_uint_in_bytes value n'
  end.

(** Modelled from the spec: [unpack_uint_in_bytes(&pos, n, &v)] of pack.h
    reads [n] bytes back.  It is given no end pointer: reading past the
    end of the string has no defined result, here [None]. *)
Fixpoint unpack_uint_in_bytes_loop (p : bytes) (n_bytes : nat) (acc : Z)
  {struct n_bytes} : option (Z * bytes) :=
  match n_bytes with
  | O => Some (acc, p)
  | S n' =>
      match p with
      | [] => None
      | b :: p' => unpack_uint_in_bytes_loop p' n' (acc * 256 + Z_of_byte b)
      end
  end.

Definition unpack_uint_in_bytes (p : bytes) (n_bytes : nat)
  : option (Z * bytes) :=
  unpack_uint_in_bytes_loop p n_bytes 0.

(** Modelled from the spec: [pack_bool] and [unpack_bool] of pack.h, one
    byte holding '0' or '1'. *)
Definition pack_bool (value : bool) : bytes :=
  [if value then x31 else x30].

Definition unpack_bool (p : bytes) : option (bool * bytes) :=
  match p with
  | [] => None
  | b :: p' =>
      if Z_of_byte b =? 49 then Some (true, p')
      else if Z_of_byte b =? 48 then Some (false, p')
      else None
  end.

End Pack.

Import Pack.

(** ** Types and constants of brass_postlist.h *)

Definition docid := Z.
Definition termcount := Z.
Definition doccount := Z.

(** [std::map<Xapian::docid, Xapian::termcount>], in iteration order. *)
Definition doclen_map := list (docid * termcount).

(** How big should chunks in the posting list be? *)
Definition CHUNKSIZE : Z := 2000.

(** Modelled from the spec: the constant [SEPERATOR] is declared in
    brass_postlist.h, which is not part of the sources at hand.  The spec
    reserves the tombstone -1 (max unsigned) in change deltas, and the
    source tests a changed length against [SEPERATOR] under the comment
    "the doc length is -1": the constant is the largest 32-bit value. *)
Definition SEPERATOR : Z := 4294967295.

(** The tuning constants of brass_postlist.h, which is not part of the
    sources at hand; the spec leaves their values to the implementation,
    so they are parameters.  [DOCLEN_CHUNK_MIN_GOOD_BYTES_RATIO] is the
    fraction [RATIO_NUM / RATIO_DEN]. *)
Class Tunables : Type := {
  DOCLEN_CHUNK_MIN_CONTIGUOUS_LENGTH : Z;
  RATIO_NUM : Z;
  RATIO_DEN : Z;
  MAX_ENTRIES_IN_CHUNK : Z
}.

(** The test [(double)good_bytes/used_bytes <
    DOCLEN_CHUNK_MIN_GOOD_BYTES_RATIO], cross-multiplied.  Both counters
    are 32-bit, so the quotient of the two doubles orders against the
    constant as the exact fractions do; with [used_bytes = 0] the C++
    quotient is an infinity or a NaN and the test is false, as here. *)
Definition ratio_too_small {T : Tunables} (good_bytes used_bytes : Z) : bool :=
  good_bytes * RATIO_DEN <? RATIO_NUM * used_bytes.

(** ** Static functions *)

(** The idiom "if unpack_uint fails, report_read_error" of the source. *)
Definition read_uint (p : bytes) : result (Z * bytes) :=
  match unpack_uint p with
  | Unpacked v rest => Ok (v, rest)
  | RanOut => Err DatabaseCorruptError
  | TooLarge => Err RangeError
  end.

(** The same idiom for [unpack_bool]: a failed [unpack_bool] nulls the
    pointer, which [report_read_error] reports as data that ran out. *)
Definition read_bool (p : bytes) : result (bool * bytes) :=
  match unpack_bool p with
  | Some r => Ok r
  | None => Err DatabaseCorruptError
  end.

(** BrassPostList::read_number_of_entries *)
Definition read_number_of_entries (p : bytes)
  : result (doccount * termcount * bytes) :=
  '(number_of_entries, p) <- read_uint p ;;
  '(collection_freq, p) <- read_uint p ;;
  Ok (number_of_entries, collection_freq, p).

(** Read the start of the first chunk in the posting list: the counts,
    the first docid and the advanced pointer. *)
Definition read_start_of_first_chunk (p : bytes)
  : result (doccount * termcount * docid * bytes) :=
  '(number_of_entries, collection_freq, p) <- read_number_of_entries p ;;
  '(did, p) <- read_uint p ;;
  Ok (number_of_entries, collection_freq, u32 (did + 1), p).

Definition read_did_increase (p : bytes) (did : docid)
  : result (docid * bytes) :=
  '(did_increase, p) <- read_uint p ;;
  Ok (u32 (did + (did_increase + 1)), p).

(** Read the wdf for an entry. *)
Definition read_wdf (p : bytes) : result (termcount * bytes) := read_uint p.

(** Read the start of a chunk: the is_last_chunk flag, the last docid in
    the chunk and the advanced pointer. *)
Definition read_start_of_chunk (p : bytes) (first_did_in_chunk : docid)
  : result (bool * docid * bytes) :=
  '(is_last_chunk, p) <- read_bool p ;;
  '(increase_to_last, p) <- read_uint p ;;
  Ok (is_last_chunk, u32 (first_did_in_chunk + increase_to_last), p).

(** Calculate the number of bytes we need to encode an integer.  An
    [unsigned] has four bytes, so the loop runs at most four times. *)
Fixpoint get_max_bytes_loop (fuel : nat) (n l : Z) : Z :=
  match fuel with
  | O => l
  | S fuel' =>
      if n =? 0 then l
      else get_max_bytes_loop fuel' (Z.shiftr n 8) (l + 1)
  end.

Definition get_max_bytes (n : Z) : Z :=
  if n =? 0 then 1 else get_max_bytes_loop 4 n 0.

(** Make the data to go at the start of the very first chunk. *)
Definition make_start_of_first_chunk
  (entries : doccount) (collectionfreq : termcount) (new_did : docid) : bytes :=
  pack_uint entries ++ pack_uint collectionfreq ++ pack_uint (u32 (new_did - 1)).

(** Make the data to go at the start of a standard chunk. *)
Definition make_start_of_chunk
  (new_is_last_chunk : bool) (new_first_did new_final_did : docid) : bytes :=
  pack_bool new_is_last_chunk ++ pack_uint (u32 (new_final_did - new_first_did)).

(** ** Keys of the postlist table *)

Module Key.

(** Modelled from the spec: [pack_string_preserving_sort] of pack.h is not
    part of the sources at hand.  The encoding keeps the byte order of
    strings: a zero byte of the value is followed by 0xff, and unless the
    string is the last component of the key a lone zero byte ends it. *)
Fixpoint escape (value : bytes) : bytes :=
  match value with
  | [] => []
  | b :: value' =>
      if Z_of_byte b =? 0 then b :: xff :: escape value'
      else b :: escape value'
  end.

Definition pack_string_preserving_sort (value : bytes) (last : bool) : bytes :=
  escape value ++ (if last then [] else [x00]).

(** Modelled from the spec: [unpack_string_preserving_sort] of pack.h, the
    inverse: it reads up to a zero byte that 0xff does not follow, or to
    the end of the key, and cannot fail. *)
Fixpoint unpack_string_preserving_sort (p : bytes) : bytes * bytes :=
  match p with
  | [] => ([], [])
  | ch :: p' =>
      if Z_of_byte ch =? 0
      then
        match p' with
        | [] => ([], [])
        | ch2 :: p'' =>
            if Z_of_byte ch2 =? 255
            then let '(tname, rest) := unpack_string_preserving_sort p'' in
                 (ch :: tname, rest)
            else ([], p')
        end
      else let '(tname, rest) := unpack_string_preserving_sort p' in
           (ch :: tname, rest)
  end.

(** Modelled from the spec: [pack_uint_preserving_sort] of pack.h keeps
    the order of the values in the byte order of the encodings: a length
    byte, then the value's bytes, most significant first. *)
Definition pack_uint_preserving_sort (value : Z) : bytes :=
  let len := get_max_bytes value in
  byte_of_Z len :: pack_uint_in_bytes value (Z.to_nat len).

(** Modelled from the spec: [unpack_uint_preserving_sort] of pack.h. *)
Definition unpack_uint_preserving_sort (p : bytes) : unpacked :=
  match p with
  | [] => RanOut
  | len_byte :: p' =>
      match unpack_uint_in_bytes p' (Z.to_nat (Z_of_byte len_byte)) with
      | None => RanOut
      | Some (value, rest) =>
          if 4 <? Z_of_byte len_byte then TooLarge else Unpacked value rest
      end
  end.

(** The idiom "if unpack_uint_preserving_sort fails, report_read_error". *)
Definition read_uint_preserving_sort (p : bytes) : result (Z * bytes) :=
  match unpack_uint_preserving_sort p with
  | Unpacked v rest => Ok (v, rest)
  | RanOut => Err DatabaseCorruptError
  | TooLarge => Err RangeError
  end.

(** Modelled from the spec: [BrassPostListTable::make_key] is declared in
    brass_postlist.h.  The key of a first chunk is the encoded term, the
    key of a later chunk is the encoded term followed by the encoded first
    docid of the chunk, and the empty term of the doclen list is encoded
    as the two bytes 0x00 0xe0. *)
Definition make_key (term : bytes) : bytes :=
  match term with
  | [] => [x00; xe0]
  | _ :: _ => pack_string_preserving_sort term true
  end.

Definition make_key_did (term : bytes) (did : docid) : bytes :=
  match term with
  | [] => [x00; xe0] ++ pack_uint_preserving_sort did
  | _ :: _ =>
      pack_string_preserving_sort term false ++ pack_uint_preserving_sort did
  end.

Definition bytes_eqb (a b : bytes) : bool :=
  if list_eq_dec Byte.byte_eq_dec a b then true else false.

Definition get_tname_from_key (src : bytes) : bytes * bytes :=
  unpack_string_preserving_sort src.

(** [check_tname_in_key_lite]: whether the key carries [tname], and the
    advanced key pointer. *)
Definition check_tname_in_key_lite (keypos : bytes) (tname : bytes)
  : bool * bytes :=
  let '(tname_in_key, keypos') :=
    match keypos with
    | b0 :: b1 :: rest =>
        if (Z_of_byte b0 =? 0) && (Z_of_byte b1 =? 224)
        then ([], rest)
        else get_tname_from_key keypos
    | _ => get_tname_from_key keypos
    end in
  (bytes_eqb tname_in_key tname, keypos').

Definition check_tname_in_key (keypos : bytes) (tname : bytes)
  : bool * bytes :=
  match keypos with
  | [] => (false, keypos)
  | _ :: _ => check_tname_in_key_lite keypos tname
  end.

End Key.

(** ** The table and its cursors *)

Module BrassTable.

(** Modelled from the spec: the table is the ordered map that the spec
    takes as given; its classes are not part of the sources at hand.  It
    holds its entries in ascending order of their keys, which compare
    byte by byte. *)
Definition t : Type := list (bytes * bytes).

Fixpoint key_compare (a b : bytes) : comparison :=
  match a, b with
  | [], [] => Eq
  | [], _ :: _ => Lt
  | _ :: _, [] => Gt
  | x :: a', y :: b' =>
      match Z_of_byte x ?= Z_of_byte y with
      | Eq => key_compare a' b'
      | c => c
      end
  end.

Definition key_ltb (a b : bytes) : bool :=
  match key_compare a b with Lt => true | _ => false end.

Fixpoint get_exact_entry (key : bytes) (table : t) : option bytes :=
  match table with
  | [] => None
  | (k, tag) :: table' =>
      match key_compare key k with
      | Eq => Some tag
      | Lt => None
      | Gt => get_exact_entry key table'
      end
  end.

Definition key_exists (key : bytes) (table : t) : bool :=
  match get_exact_entry key table with Some _ => true | None => false end.

(** [add]: insert the entry, or replace the tag the key has. *)
Fixpoint add (key tag : bytes) (table : t) : t :=
  match table with
  | [] => [(key, tag)]
  | (k, tg) :: table' =>
      match key_compare key k with
      | Eq => (key, tag) :: table'
      | Lt => (key, tag) :: table
      | Gt => (k, tg) :: add key tag table'
      end
  end.

Fixpoint del (key : bytes) (table : t) : t :=
  match table with
  | [] => []
  | (k, tg) :: table' =>
      match key_compare key k with
      | Eq => table'
      | Lt => table
      | Gt => (k, tg) :: del key table'
      end
  end.

(** The entries of a table are in strictly ascending order of their
    keys. *)
Fixpoint sorted_from (key : bytes) (table : t) : bool :=
  match table with
  | [] => true
  | (k, _) :: table' => key_ltb key k && sorted_from k table'
  end.

Definition sorted (table : t) : bool :=
  match table with
  | [] => true
  | (k, _) :: table' => sorted_from k table'
  end.

End BrassTable.

Module BrassCursor.

(** Modelled from the spec: a cursor of the table.  A cursor that no entry
    precedes stands on the table's null entry, whose key and tag are
    empty. *)
Record t : Type := mk {
  current_key : bytes;
  current_tag : bytes;
  is_after_end : bool
}.

Definition cursor_get : t := mk [] [] false.

(** The largest entry whose key is at most [key], as a key and a tag. *)
Fixpoint floor_entry (key : bytes) (table : BrassTable.t) (best : bytes * bytes)
  : bytes * bytes :=
  match table with
  | [] => best
  | (k, tag) :: table' =>
      match BrassTable.key_compare k key with
      | Gt => best
      | _ => floor_entry key table' (k, tag)
      end
  end.

(** [find_entry(key)]: stand on the largest key that is at most [key];
    the result tells whether that key is [key] itself. *)
Definition find_entry (table : BrassTable.t) (key : bytes) : bool * t :=
  let '(k, tag) := floor_entry key table ([], []) in
  (BrassTable.key_exists key table, mk k tag false).

(** The first entry whose key is greater than [key]. *)
Fixpoint higher_entry (key : bytes) (table : BrassTable.t)
  : option (bytes * bytes) :=
  match table with
  | [] => None
  | (k, tag) :: table' =>
      if BrassTable.key_ltb key k then Some (k, tag)
      else higher_entry key table'
  end.

Definition next (table : BrassTable.t) (c : t) : t :=
  match higher_entry (current_key c) table with
  | Some (k, tag) => mk k tag false
  | None => mk (current_key c) (current_tag c) true
  end.

Definition after_end (c : t) : bool := is_after_end c.

(** [MutableBrassCursor::del()]: delete the entry under the cursor and
    move to the entry after it; false when there is none. *)
Definition del (table : BrassTable.t) (c : t) : bool * BrassTable.t * t :=
  let table' := BrassTable.del (current_key c) table in
  let c' := next table' c in
  (negb (is_after_end c'), table', c').

End BrassCursor.

(** ** PostlistChunkReader: an iterator over the entries of a chunk *)

Module PostlistChunkReader.

Record t : Type := mk {
  pos : bytes;
  at_end : bool;
  did : docid;
  wdf : termcount
}.

(** The constructor: [data] is the tag with the header removed. *)
Definition make (first_did : docid) (data : bytes) : result t :=
  match data with
  | [] => Ok (mk [] true first_did 0)
  | _ :: _ =>
      '(wdf', pos') <- read_wdf data ;;
      Ok (mk pos' false first_did wdf')
  end.

Definition get_docid (r : t) : docid := did r.
Definition get_wdf (r : t) : termcount := wdf r.
Definition is_at_end (r : t) : bool := at_end r.

(** Advance to the next entry.  Set at_end if we run off the end. *)
Definition next (r : t) : result t :=
  match pos r with
  | [] => Ok (mk (pos r) true (did r) (wdf r))
  | _ :: _ =>
      '(did', pos') <- read_did_increase (pos r) (did r) ;;
      '(wdf', pos') <- read_wdf pos' ;;
      Ok (mk pos' (at_end r) did' wdf')
  end.

End PostlistChunkReader.

(** ** PostlistChunkWriter: an output iterator on a postlist chunk *)

Module PostlistChunkWriter.

Record t : Type := mk {
  orig_key : bytes;
  tname : bytes;
  is_first_chunk : bool;
  is_last_chunk : bool;
  started : bool;
  first_did : docid;
  current_did : docid;
  chunk : bytes
}.

(** The constructor; the two docids have no value yet. *)
Definition make (orig_key_ : bytes) (is_first_chunk_ : bool)
  (tname_ : bytes) (is_last_chunk_ : bool) : t :=
  mk orig_key_ tname_ is_first_chunk_ is_last_chunk_ false 0 0 [].

(** Append a block of raw entries to this chunk. *)
Definition raw_append (first_did_ current_did_ : docid) (s : bytes) (w : t) : t :=
  match s with
  | [] =>
      mk (orig_key w) (tname w) (is_first_chunk w) (is_last_chunk w)
         (started w) first_did_ current_did_ (chunk w)
  | _ :: _ =>
      mk (orig_key w) (tname w) (is_first_chunk w) (is_last_chunk w)
         true first_did_ current_did_ (chunk w ++ s)
  end.

(** [write_start_of_chunk]: replace the chunk header that the tag has
    between the two offsets. *)
Definition write_start_of_chunk (tag : bytes)
  (start_of_chunk_header end_of_chunk_header : nat)
  (is_last_chunk_ : bool) (first_did_in_chunk last_did_in_chunk : docid)
  : bytes :=
  firstn start_of_chunk_header tag
    ++ make_start_of_chunk is_last_chunk_ first_did_in_chunk last_did_in_chunk
    ++ skipn end_of_chunk_header tag.

(** The branch of [flush] for an empty first chunk that is not the last:
    the next chunk is rewritten as the first chunk. *)
Definition flush_promote_next (table : BrassTable.t) (w : t)
  : result BrassTable.t :=
  let '(found, cursor) := BrassCursor.find_entry table (orig_key w) in
  if negb found then Err DatabaseCorruptError
  else
    '(num_ent, coll_freq, _, _) <-
      read_start_of_first_chunk (BrassCursor.current_tag cursor) ;;
    let cursor := BrassCursor.next table cursor in
    if BrassCursor.after_end cursor then Err DatabaseCorruptError
    else
      let '(same_term, kpos) :=
        Key.check_tname_in_key (BrassCursor.current_key cursor) (tname w) in
      if negb same_term then Err DatabaseCorruptError
      else
        '(new_first_did, _) <- Key.read_uint_preserving_sort kpos ;;
        '(new_is_last_chunk, new_last_did_in_chunk, chunk_data) <-
          read_start_of_chunk (BrassCursor.current_tag cursor) new_first_did ;;
        let table := BrassTable.del (BrassCursor.current_key cursor) table in
        let tag :=
          make_start_of_first_chunk num_ent coll_freq new_first_did
            ++ make_start_of_chunk new_is_last_chunk new_first_did
                                   new_last_did_in_chunk
            ++ chunk_data in
        Ok (BrassTable.add (orig_key w) tag table).

(** The branch of [flush] for an empty last chunk that is not the first,
    after the chunk is deleted: the chunk before it becomes the last. *)
Definition flush_update_previous (table : BrassTable.t) (w : t)
  : result BrassTable.t :=
  let '(found, cursor) := BrassCursor.find_entry table (orig_key w) in
  if found then Err DatabaseCorruptError
  else
    let '(same_term, keypos) :=
      Key.check_tname_in_key (BrassCursor.current_key cursor) (tname w) in
    if negb same_term then Err DatabaseCorruptError
    else
      let is_prev_first_chunk :=
        match keypos with [] => true | _ :: _ => false end in
      let tag := BrassCursor.current_tag cursor in
      '(first_did_in_chunk, tagpos) <-
        (if is_prev_first_chunk
         then '(_, _, did, tagpos) <- read_start_of_first_chunk tag ;;
              Ok (did, tagpos)
         else '(did, _) <- Key.read_uint_preserving_sort keypos ;;
              Ok (did, tag)) ;;
      let start_of_chunk_header := (length tag - length tagpos)%nat in
      '(_, last_did_in_chunk, tagpos) <-
        read_start_of_chunk tagpos first_did_in_chunk ;;
      let end_of_chunk_header := (length tag - length tagpos)%nat in
      let tag :=
        write_start_of_chunk tag start_of_chunk_header end_of_chunk_header
                             true first_did_in_chunk last_did_in_chunk in
      Ok (BrassTable.add (BrassCursor.current_key cursor) tag table).

(** Flush the chunk to the buffered table.  Note: this may write it with
    a different key to the original one, if for example the first entry
    has changed. *)
Definition flush (table : BrassTable.t) (w : t) : result BrassTable.t :=
  if negb (started w)
  then
    if is_first_chunk w
    then
      if is_last_chunk w
      then Ok (BrassTable.del (orig_key w) table)
      else flush_promote_next table w
    else
      let table := BrassTable.del (orig_key w) table in
      if is_last_chunk w
      then flush_update_previous table w
      else Ok table
  else
    if is_first_chunk w
    then
      let key := Key.make_key (tname w) in
      let tag :=
        match BrassTable.get_exact_entry key table with
        | Some tag => tag
        | None => []
        end in
      '(num_ent, coll_freq, _, _) <- read_start_of_first_chunk tag ;;
      let tag :=
        make_start_of_first_chunk num_ent coll_freq (first_did w)
          ++ make_start_of_chunk (is_last_chunk w) (first_did w) (current_did w)
          ++ chunk w in
      Ok (BrassTable.add key tag table)
    else
      let '(same_term, keypos) :=
        Key.check_tname_in_key (orig_key w) (tname w) in
      if negb same_term then Err DatabaseCorruptError
      else
        '(initial_did, _) <- Key.read_uint_preserving_sort keypos ;;
        let '(new_key, table) :=
          if negb (initial_did =? first_did w)
          then (Key.make_key_did (tname w) (first_did w),
                BrassTable.del (orig_key w) table)
          else (orig_key w, table) in
        let tag :=
          make_start_of_chunk (is_last_chunk w) (first_did w) (current_did w)
            ++ chunk w in
        Ok (BrassTable.add new_key tag table).

(** Append an entry to this chunk. *)
Definition append (table : BrassTable.t) (did : docid) (wdf : termcount)
  (w : t) : result (BrassTable.t * t) :=
  '(table, w) <-
    (if negb (started w)
     then
       Ok (table,
           mk (orig_key w) (tname w) (is_first_chunk w) (is_last_chunk w)
              true did (current_did w) (chunk w))
     else
       (* Start a new chunk if this one has grown to the threshold. *)
       if CHUNKSIZE <=? Z.of_nat (length (chunk w))
       then
         let save_is_last_chunk := is_last_chunk w in
         table <- flush table
                    (mk (orig_key w) (tname w) (is_first_chunk w) false
                        (started w) (first_did w) (current_did w) (chunk w)) ;;
         Ok (table,
             mk (Key.make_key_did (tname w) did) (tname w) false
                save_is_last_chunk (started w) did (current_did w) [])
       else
         Ok (table,
             mk (orig_key w) (tname w) (is_first_chunk w) (is_last_chunk w)
                (started w) (first_did w) (current_did w)
                (chunk w ++ pack_uint (u32 (did - current_did w - 1))))) ;;
  Ok (table,
      mk (orig_key w) (tname w) (is_first_chunk w) (is_last_chunk w)
         (started w) (first_did w) did (chunk w ++ pack_uint wdf)).

End PostlistChunkWriter.

(** ** FixedWidthChunk: encoding a doclen chunk body *)

Section FixedWidthChunk.
Context {T : Tunables}.

(** The inner loop of [FixedWidthChunk::encode]: [it] scans on from the
    entry after [start_pos].  It returns [length_contiguous],
    [used_bytes], [good_bytes], the entries it advanced over and the
    final [it]. *)
Fixpoint encode_scan (it : doclen_map)
  (last_docid : docid) (max_bytes used_bytes good_bytes length_contiguous : Z)
  : Z * Z * Z * doclen_map * doclen_map :=
  match it with
  | [] => (length_contiguous, used_bytes, good_bytes, [], [])
  | (cur_docid, len) :: it' =>
      let cur_bytes := get_max_bytes len in
      if negb (cur_docid =? u32 (last_docid + 1)) || (max_bytes <? cur_bytes)
      then (length_contiguous, used_bytes, good_bytes, [], it)
      else
        let used_bytes := u32 (used_bytes + max_bytes) in
        let good_bytes := u32 (good_bytes + cur_bytes) in
        if ratio_too_small good_bytes used_bytes
        then (length_contiguous, 0, 0, [], it)
        else
          let '(n, u, g, passed, it_end) :=
            encode_scan it' cur_docid max_bytes used_bytes good_bytes
                        (u32 (length_contiguous + 1)) in
          (n, u, g, (cur_docid, len) :: passed, it_end)
  end.

(** The loop [while (start_pos != it)] of the fixed width branch, over
    the entries from [start_pos] up to [it]. *)
Fixpoint encode_fixed_width (block : doclen_map) (max_bytes : Z) : bytes :=
  match block with
  | [] => []
  | (_, len) :: block' =>
      pack_uint_in_bytes len (Z.to_nat max_bytes)
        ++ encode_fixed_width block' max_bytes
  end.

(** The loop [while (start_pos != it)] of the normal branch. *)
Fixpoint encode_normal (block : doclen_map) (docid_before_start_pos : docid)
  : bytes :=
  match block with
  | [] => []
  | (did, len) :: block' =>
      pack_uint (u32 (did - docid_before_start_pos)) ++ pack_uint len
        ++ encode_normal block' did
  end.

(** [docid_before_start_pos] after either loop: the last docid written. *)
Definition last_docid_of (block : doclen_map) (docid_before_start_pos : docid)
  : docid :=
  fst (last block (docid_before_start_pos, 0)).

(** The outer loop [while (it != pl_end)]; the bytes are those appended to
    [desired_chunk].  Every turn advances [it], so [length it] turns
    suffice. *)
Fixpoint encode_loop (fuel : nat) (it : doclen_map)
  (docid_before_start_pos : docid) : bytes :=
  match fuel with
  | O => []
  | S fuel' =>
      match it with
      | [] => []
      | (start_docid, start_len) :: it1 =>
          let max_bytes := get_max_bytes start_len in
          let '(length_contiguous, _, _, passed, it') :=
            encode_scan it1 start_docid max_bytes 0 0 1 in
          let block := (start_docid, start_len) :: passed in
          (if DOCLEN_CHUNK_MIN_CONTIGUOUS_LENGTH <? length_contiguous
           then
             pack_uint SEPERATOR
               ++ pack_uint (u32 (start_docid - docid_before_start_pos))
               ++ pack_uint_in_bytes length_contiguous 2
               ++ pack_uint_in_bytes max_bytes 1
               ++ encode_fixed_width block max_bytes
           else encode_normal block docid_before_start_pos)
            ++ encode_loop fuel' it' (last_docid_of block docid_before_start_pos)
      end
  end.

(** [FixedWidthChunk::encode]: the map is [pl_start .. pl_end]. *)
Definition encode (pl : doclen_map) (desired_chunk : bytes) : bool * bytes :=
  match pl with
  | [] => (false, desired_chunk)
  | (first_docid, _) :: _ =>
      (true, desired_chunk ++ encode_loop (length pl) pl first_docid)
  end.

End FixedWidthChunk.

(** ** FixedWidthChunkReader: reading a doclen chunk body *)

Module FixedWidthChunkReader.

(** The members of the class.  The three pointers into the body are the
    suffixes they point at; [end] is where every suffix ends, so
    [pos == end] is [pos = []]. *)
Record t : Type := mk {
  pos : bytes;
  ori_pos : bytes;
  pos_of_block : bytes;
  cur_did : docid;
  did_before_block : docid;
  cur_length : termcount;
  is_at_end : bool;
  is_in_block : bool;
  len_info : Z;
  bytes_info : Z;
  first_did_in_chunk : docid
}.

(** The reads of the class ignore what [unpack_uint] returns.  After a
    failed read the C++ goes on with a null or a stray pointer; the model
    stops there. *)
Definition unchecked_uint (p : bytes) : result (Z * bytes) :=
  match unpack_uint p with
  | Unpacked v rest => Ok (v, rest)
  | _ => Err UndefinedBehaviour
  end.

Definition unchecked_uint_in_bytes (p : bytes) (n_bytes : Z)
  : result (Z * bytes) :=
  match unpack_uint_in_bytes p (Z.to_nat n_bytes) with
  | Some r => Ok r
  | None => Err UndefinedBehaviour
  end.

(** [pos += n]: defined while the sum stays inside the string. *)
Definition advance (p : bytes) (n : Z) : result bytes :=
  if n <=? Z.of_nat (length p)
  then Ok (skipn (Z.to_nat n) p)
  else Err UndefinedBehaviour.

(** Move to next did in the chunk.  If no more did, set is_at_end. *)
Definition next (r : t) : result (bool * t) :=
  if is_at_end r then Ok (false, r)
  else
    match pos r with
    | [] =>
        Ok (false,
            mk (pos r) (ori_pos r) (pos_of_block r) (cur_did r)
               (did_before_block r) (cur_length r) true (is_in_block r)
               (len_info r) (bytes_info r) (first_did_in_chunk r))
    | _ :: _ =>
        if is_in_block r && negb (len_info r =? 0)
        then
          let cur_did' := u32 (cur_did r + 1) in
          let len_info' := u32 (len_info r - 1) in
          let is_in_block' :=
            if len_info' =? 0 then false else is_in_block r in
          '(cur_length', pos') <- unchecked_uint_in_bytes (pos r) (bytes_info r) ;;
          Ok (true,
              mk pos' (ori_pos r) (pos_of_block r) cur_did'
                 (did_before_block r) cur_length' (is_at_end r) is_in_block'
                 len_info' (bytes_info r) (first_did_in_chunk r))
        else
          let pos_of_block' := pos r in
          '(incre_did, p) <- unchecked_uint (pos r) ;;
          if negb (incre_did =? SEPERATOR)
          then
            let cur_did' := u32 (cur_did r + incre_did) in
            '(cur_length', p) <- unchecked_uint p ;;
            Ok (true,
                mk p (ori_pos r) pos_of_block' cur_did'
                   (did_before_block r) cur_length' (is_at_end r) false
                   (len_info r) (bytes_info r) (first_did_in_chunk r))
          else
            '(incre_did, p) <- unchecked_uint p ;;
            '(len_info', p) <- unchecked_uint_in_bytes p 2 ;;
            '(bytes_info', p) <- unchecked_uint_in_bytes p 1 ;;
            let did_before_block' := cur_did r in
            let cur_did' := u32 (cur_did r + incre_did) in
            '(cur_length', p) <- unchecked_uint_in_bytes p bytes_info' ;;
            let len_info' := u32 (len_info' - 1) in
            let is_in_block' := if len_info' =? 0 then false else true in
            Ok (true,
                mk p (ori_pos r) pos_of_block' cur_did'
                   did_before_block' cur_length' (is_at_end r) is_in_block'
                   len_info' bytes_info' (first_did_in_chunk r))
    end.

(** The loop [while (pos != end)] of [jump_to].  Every turn reads at
    least one byte, so [length pos] turns suffice; the members that the
    loop does not touch are taken from [r]. *)
Fixpoint jump_to_loop (fuel : nat) (desired_did : docid) (r : t)
  : result (bool * t) :=
  match fuel with
  | O => Ok (false, r)
  | S fuel' =>
      match pos r with
      | [] => Ok (false, r)
      | _ :: _ =>
          let pos_of_block' := pos r in
          '(incre_did, p) <- unchecked_uint (pos r) ;;
          if negb (incre_did =? SEPERATOR)
          then
            let cur_did' := u32 (cur_did r + incre_did) in
            '(cur_length', p) <- unchecked_uint p ;;
            let r' := mk p (ori_pos r) pos_of_block' cur_did'
                         (did_before_block r) cur_length' (is_at_end r) false
                         (len_info r) (bytes_info r) (first_did_in_chunk r) in
            if cur_did' =? desired_did then Ok (true, r')
            else if desired_did <? cur_did' then Ok (false, r')
            else jump_to_loop fuel' desired_did r'
          else
            '(incre_did, p) <- unchecked_uint p ;;
            '(len_info', p) <- unchecked_uint_in_bytes p 2 ;;
            '(bytes_info', p) <- unchecked_uint_in_bytes p 1 ;;
            let did_before_block' := cur_did r in
            let cur_did' := u32 (cur_did r + incre_did) in
            if desired_did <? cur_did'
            then
              '(cur_length', p) <- unchecked_uint_in_bytes p bytes_info' ;;
              Ok (false,
                  mk p (ori_pos r) pos_of_block' cur_did'
                     did_before_block' cur_length' (is_at_end r) true
                     (u32 (len_info' - 1)) bytes_info' (first_did_in_chunk r))
            else if desired_did <=? u32 (cur_did' + len_info' - 1)
            then
              p <- advance p (u32 (bytes_info' * u32 (desired_did - cur_did'))) ;;
              '(cur_length', p) <- unchecked_uint_in_bytes p bytes_info' ;;
              let len_info'' := u32 (len_info' - u32 (desired_did - cur_did' + 1)) in
              let is_in_block' := if len_info'' =? 0 then false else true in
              Ok (true,
                  mk p (ori_pos r) pos_of_block' desired_did
                     did_before_block' cur_length' (is_at_end r) is_in_block'
                     len_info'' bytes_info' (first_did_in_chunk r))
            else
              p <- advance p (u32 (bytes_info' * len_info')) ;;
              jump_to_loop fuel' desired_did
                (mk p (ori_pos r) pos_of_block' (u32 (cur_did' + u32 (len_info' - 1)))
                    did_before_block' (cur_length r) (is_at_end r) false
                    len_info' bytes_info' (first_did_in_chunk r))
      end
  end.

(** Jump to desired did; if it fails, it will arrive at the exact did
    just after [desired_did]. *)
Definition jump_to (desired_did : docid) (r : t) : result (bool * t) :=
  if cur_did r =? desired_did then Ok (true, r)
  else
    let rewound (p : bytes) (did : docid) :=
      mk p (ori_pos r) (pos_of_block r) did
         (did_before_block r) (cur_length r) (is_at_end r) (is_in_block r)
         (len_info r) (bytes_info r) (first_did_in_chunk r) in
    let r' :=
      if is_in_block r
      then
        if desired_did <=? did_before_block r
        then rewound (ori_pos r) (first_did_in_chunk r)
        else rewound (pos_of_block r) (did_before_block r)
      else if desired_did <? cur_did r
      then rewound (ori_pos r) (first_did_in_chunk r)
      else r in
    jump_to_loop (length (pos r')) desired_did r'.

(** Modelled from the spec: the accessors and the constructor are defined
    in brass_postlist.h, which is not part of the sources at hand.  The
    spec lists [get_docid()], [get_doclen()] and [at_end()] over the state
    [cur_did], [cur_length] and the flag that [next] sets; the cursor
    reads all three right after it builds a reader, so the constructor
    leaves the reader on the first entry of the body, by a call of
    [next], or at the end when the body is empty. *)
Definition get_docid (r : t) : docid := cur_did r.

Definition get_doclen (r : t) : termcount := cur_length r.

Definition at_end (r : t) : bool := is_at_end r.

Definition init (body : bytes) (first_did_in_chunk_ : docid) : t :=
  mk body body body first_did_in_chunk_ 0 0 false false 0 0 first_did_in_chunk_.

Definition make (body : bytes) (first_did_in_chunk_ : docid) : result t :=
  '(_, r) <- next (init body first_did_in_chunk_) ;;
  Ok r.

End FixedWidthChunkReader.

(** ** [std::map<docid, termcount>] and its iterators

    An iterator of a map points at a node, which stays where it is while
    other nodes come and go: it is the key of its node, and [None] is
    [end()]. *)

Module DocMap.

(** [m.insert(hint, (k, v))]: the map is unchanged when it has the key;
    the hint does not change the result. *)
Fixpoint insert (k : docid) (v : termcount) (m : doclen_map) : doclen_map :=
  match m with
  | [] => [(k, v)]
  | (k', v') :: m' =>
      if k <? k' then (k, v) :: m
      else if k =? k' then m
      else (k', v') :: insert k v m'
  end.

(** [m.erase(it)] for the iterator at key [k]. *)
Fixpoint erase (k : docid) (m : doclen_map) : doclen_map :=
  match m with
  | [] => []
  | (k', v') :: m' => if k =? k' then m' else (k', v') :: erase k m'
  end.

(** [it->second = v] for the iterator at key [k]. *)
Fixpoint assign (k : docid) (v : termcount) (m : doclen_map) : doclen_map :=
  match m with
  | [] => []
  | (k', v') :: m' =>
      if k =? k' then (k, v) :: m' else (k', v') :: assign k v m'
  end.

Definition begin (m : doclen_map) : option docid :=
  match m with
  | [] => None
  | (k, _) :: _ => Some k
  end.

(** [++it] for the iterator at key [k]. *)
Fixpoint next (k : docid) (m : doclen_map) : option docid :=
  match m with
  | [] => None
  | (k', _) :: m' => if k =? k' then begin m' else next k m'
  end.

(** The nodes from the iterator at key [k] to the end. *)
Fixpoint from (k : docid) (m : doclen_map) : doclen_map :=
  match m with
  | [] => []
  | (k', v') :: m' => if k =? k' then m else from k m'
  end.

Fixpoint find (k : docid) (m : doclen_map) : option termcount :=
  match m with
  | [] => None
  | (k', v') :: m' => if k =? k' then Some v' else find k m'
  end.

End DocMap.

(** ** DoclenChunkWriter: merging doclen changes into a chunk *)

Module DoclenChunkWriter.

Import FixedWidthChunkReader (unchecked_uint, unchecked_uint_in_bytes).

(** The loop [while (len--)] over a fixed width block. *)
Fixpoint read_block (len : nat) (bytes_ : Z) (pos : bytes)
  (cur_did : docid) (new_doclen : doclen_map)
  : result (bytes * docid * doclen_map) :=
  match len with
  | O => Ok (pos, cur_did, new_doclen)
  | S len' =>
      '(doc_len, pos) <- unchecked_uint_in_bytes pos bytes_ ;;
      read_block len' bytes_ pos (u32 (cur_did + 1))
                 (DocMap.insert cur_did doc_len new_doclen)
  end.

(** Read old map of <docid,length> from original chunk: the loop
    [while (pos != end)].  Every turn reads at least one byte. *)
Fixpoint read_old_map (fuel : nat) (pos : bytes)
  (cur_did : docid) (new_doclen : doclen_map) : result doclen_map :=
  match fuel with
  | O => Ok new_doclen
  | S fuel' =>
      match pos with
      | [] => Ok new_doclen
      | _ :: _ =>
          '(inc_did, pos) <- unchecked_uint pos ;;
          if negb (inc_did =? SEPERATOR)
          then
            let cur_did := u32 (cur_did + inc_did) in
            '(doc_len, pos) <- unchecked_uint pos ;;
            read_old_map fuel' pos cur_did
                         (DocMap.insert cur_did doc_len new_doclen)
          else
            '(inc_did, pos) <- unchecked_uint pos ;;
            '(len, pos) <- unchecked_uint_in_bytes pos 2 ;;
            '(bytes_, pos) <- unchecked_uint_in_bytes pos 1 ;;
            let cur_did := u32 (cur_did + inc_did) in
            '(pos, cur_did, new_doclen) <-
              read_block (Z.to_nat len) bytes_ pos cur_did new_doclen ;;
            read_old_map fuel' pos (u32 (cur_did - 1)) new_doclen
      end
  end.

(** Decoding a chunk body as [get_new_doclen] does, into an empty map. *)
Definition decode (body : bytes) (first_did_in_chunk : docid)
  : result doclen_map :=
  read_old_map (length body) body first_did_in_chunk [].

(** The inner loop [while (chg_it->first > ori_it->first)] of the merge,
    over the nodes from [ori_it] on: [++ori_it], and out when it reaches
    [end()]. *)
Fixpoint skip_smaller_from (chg_did : docid) (from_ori_it : doclen_map)
  : option docid :=
  match from_ori_it with
  | [] => None
  | (ori_did, _) :: rest =>
      if ori_did <? chg_did then skip_smaller_from chg_did rest
      else Some ori_did
  end.

(** The loop tests [ori_it->first] first, also when [ori_it] is [end()]
    already, which [std::map] does not define. *)
Definition skip_smaller (chg_did : docid) (ori_it : option docid)
  (new_doclen : doclen_map) : result (option docid) :=
  match ori_it with
  | None => Err UndefinedBehaviour
  | Some ori_did =>
      Ok (skip_smaller_from chg_did (DocMap.from ori_did new_doclen))
  end.

(** The loop that appends what is left of the changes once [ori_it] has
    reached [end()]. *)
Fixpoint insert_rest (chg : doclen_map) (new_doclen : doclen_map)
  : doclen_map :=
  match chg with
  | [] => new_doclen
  | (chg_did, chg_len) :: chg' =>
      if chg_len =? SEPERATOR
      then insert_rest chg' new_doclen
      else insert_rest chg' (DocMap.insert chg_did chg_len new_doclen)
  end.

(** The merge loop [while (chg_it != changes_end)]. *)
Fixpoint merge (chg : doclen_map) (ori_it : option docid)
  (new_doclen : doclen_map) : result doclen_map :=
  match chg with
  | [] => Ok new_doclen
  | (chg_did, chg_len) :: chg' =>
      ori_it <- skip_smaller chg_did ori_it new_doclen ;;
      match ori_it with
      | None => Ok (insert_rest chg new_doclen)
      | Some ori_did =>
          if ori_did =? chg_did
          then
            if negb (chg_len =? SEPERATOR)
            then merge chg' ori_it (DocMap.assign ori_did chg_len new_doclen)
            else merge chg' (DocMap.next ori_did new_doclen)
                       (DocMap.erase ori_did new_doclen)
          else if negb (chg_len =? SEPERATOR)
          then merge chg' ori_it (DocMap.insert chg_did chg_len new_doclen)
          else merge chg' ori_it new_doclen
      end
  end.

(** The members of the class that [get_new_doclen] reads and writes;
    [changes] is the range [changes_start .. changes_end]. *)
Record t : Type := mk {
  chunk_from : bytes;
  changes : doclen_map;
  is_first_chunk : bool;
  first_did_in_chunk : docid;
  new_doclen : doclen_map;
  is_last_chunk : bool
}.

(** The branch for an empty original chunk: the changes that are not
    deletions, inserted at the end. *)
Fixpoint insert_changes (chg : doclen_map) (new_doclen : doclen_map)
  : doclen_map :=
  match chg with
  | [] => new_doclen
  | (chg_did, chg_len) :: chg' =>
      if negb (chg_len =? SEPERATOR)
      then insert_changes chg' (DocMap.insert chg_did chg_len new_doclen)
      else insert_changes chg' new_doclen
  end.

(** Merge old map and new map; afterwards [new_doclen] is valid. *)
Definition get_new_doclen (w : t) : result (bool * t) :=
  pos <- (if is_first_chunk w
          then '(_, _, _, pos) <- read_start_of_first_chunk (chunk_from w) ;;
               Ok pos
          else Ok (chunk_from w)) ;;
  '(is_last_chunk', _, pos) <- read_start_of_chunk pos 0 ;;
  let updated (m : doclen_map) :=
    mk (chunk_from w) (changes w) (is_first_chunk w) (first_did_in_chunk w)
       m is_last_chunk' in
  match pos with
  | [] =>
      let m := insert_changes (changes w) (new_doclen w) in
      match m with
      | [] => Ok (false, updated m)
      | _ :: _ => Ok (true, updated m)
      end
  | _ :: _ =>
      old <- read_old_map (length pos) pos (first_did_in_chunk w) (new_doclen w) ;;
      m <- merge (changes w) (DocMap.begin old) old ;;
      Ok (true, updated m)
  end.

Section MergeDoclenChanges.
Context {T : Tunables}.

(** One chunk of [DoclenChunkWriter::merge_doclen_changes]: the entries
    [start_pos .. end_pos], written under the key their place asks for. *)
Definition write_chunk (table : BrassTable.t) (entries : doclen_map)
  (as_first_chunk as_last_chunk : bool) : BrassTable.t :=
  let first := fst (hd (0, 0) entries) in
  let last_ := fst (last entries (0, 0)) in
  let cur_chunk := make_start_of_chunk as_last_chunk first last_ in
  let cur_chunk := snd (encode entries cur_chunk) in
  if as_first_chunk
  then BrassTable.add (Key.make_key [])
                      (make_start_of_first_chunk 0 0 first ++ cur_chunk) table
  else BrassTable.add (Key.make_key_did [] first) cur_chunk table.

(** The loop [while (!is_done)] of the branch for more than one chunk.
    [from_end_pos] are the entries from [end_pos] on, [run] the entries
    [start_pos .. end_pos], [at_begin] is [start_pos == new_doclen.begin()].
    On entry [end_pos] is not [end()]. *)
Fixpoint split_chunks (from_end_pos run : doclen_map) (count : Z)
  (at_begin is_first_chunk_ is_last_chunk_ : bool) (table : BrassTable.t)
  : BrassTable.t :=
  match from_end_pos with
  | [] => table
  | entry :: from_end_pos' =>
      let run := run ++ [entry] in
      let is_done := match from_end_pos' with [] => true | _ :: _ => false end in
      let count := count + 1 in
      if is_done || (count =? MAX_ENTRIES_IN_CHUNK)
      then
        let table :=
          write_chunk table run (at_begin && is_first_chunk_)
                      (is_done && is_last_chunk_) in
        if is_done then table
        else split_chunks from_end_pos' [] 0 false
                          is_first_chunk_ is_last_chunk_ table
      else split_chunks from_end_pos' run count at_begin
                        is_first_chunk_ is_last_chunk_ table
  end.

(** [DoclenChunkWriter::merge_doclen_changes]; the table is the member
    [postlist_table]. *)
Definition merge_doclen_changes (table : BrassTable.t) (w : t)
  : result BrassTable.t :=
  '(_, w) <- get_new_doclen w ;;
  match new_doclen w with
  | [] => Ok table
  | _ :: _ =>
      if Z.of_nat (length (new_doclen w)) <=? MAX_ENTRIES_IN_CHUNK
      then Ok (write_chunk table (new_doclen w)
                           (is_first_chunk w) (is_last_chunk w))
      else Ok (split_chunks (new_doclen w) [] 0 true
                            (is_first_chunk w) (is_last_chunk w) table)
  end.

End MergeDoclenChanges.

End DoclenChunkWriter.

(** ** DoclenChunkReader: the header, then a FixedWidthChunkReader *)

Module DoclenChunkReader.

Definition t : Type := FixedWidthChunkReader.t.

(** The constructor skips the header of the chunk. *)
Definition make (chunk : bytes) (is_first_chunk : bool)
  (first_did_in_chunk : docid) : result t :=
  pos <- (if is_first_chunk
          then '(_, _, _, pos) <- read_start_of_first_chunk chunk ;; Ok pos
          else Ok chunk) ;;
  '(_, _, pos) <- read_start_of_chunk pos 0 ;;
  FixedWidthChunkReader.make pos first_did_in_chunk.

(** Modelled from the spec: the members below are defined in
    brass_postlist.h, which is not part of the sources at hand.  They
    hand on to the FixedWidthChunkReader; [get_doclen(desired_did)] is
    the random access of the spec, whose miss the cursor recognises by
    the value -1. *)
Definition get_docid (r : t) : docid := FixedWidthChunkReader.get_docid r.

Definition get_doclen (r : t) : termcount := FixedWidthChunkReader.get_doclen r.

Definition at_end (r : t) : bool := FixedWidthChunkReader.at_end r.

Definition next (r : t) : result (bool * t) := FixedWidthChunkReader.next r.

Definition get_doclen_of (desired_did : docid) (r : t) : result (termcount * t) :=
  '(found, r) <- FixedWidthChunkReader.jump_to desired_did r ;;
  Ok (if found then FixedWidthChunkReader.get_doclen r else u32 (-1), r).

End DoclenChunkReader.

(** ** BrassPostList: the cursor over the chunks of one term *)

Module BrassPostList.

(** The members of the class; [pos] is [None] for the null pointer of an
    empty list, and the cursor carries the key and the tag it stands
    on. *)
Record t : Type := mk {
  term : bytes;
  have_started : bool;
  is_at_end : bool;
  cursor : BrassCursor.t;
  pos : option bytes;
  did : docid;
  wdf : termcount;
  number_of_entries : doccount;
  first_did_in_chunk : docid;
  last_did_in_chunk : docid;
  is_first_chunk : bool;
  is_last_chunk : bool;
  p_doclen_chunk_reader : option DoclenChunkReader.t;
  is_doclen_list : bool
}.

Definition is_empty (s : bytes) : bool :=
  match s with [] => true | _ :: _ => false end.

(** What every function does once it stands on a chunk whose header is
    read: read the first wdf of a term list, or build the reader of a
    doclen list and take docid, length and end flag from it. *)
Definition enter_chunk (l : t) (cursor_ : BrassCursor.t)
  (is_first_chunk_ is_last_chunk_ : bool) (did_ last_did_in_chunk_ : docid)
  (number_of_entries_ : doccount) (pos_ : bytes) : result t :=
  if negb (is_doclen_list l)
  then
    '(wdf_, pos_) <- read_wdf pos_ ;;
    Ok (mk (term l) (have_started l) (is_at_end l) cursor_ (Some pos_)
           did_ wdf_ number_of_entries_ did_ last_did_in_chunk_
           is_first_chunk_ is_last_chunk_
           (p_doclen_chunk_reader l) (is_doclen_list l))
  else
    r <- DoclenChunkReader.make (BrassCursor.current_tag cursor_)
                                is_first_chunk_ did_ ;;
    Ok (mk (term l) (have_started l) (DoclenChunkReader.at_end r) cursor_
           (Some pos_) (DoclenChunkReader.get_docid r)
           (DoclenChunkReader.get_doclen r) number_of_entries_ did_
           last_did_in_chunk_ is_first_chunk_ is_last_chunk_
           (Some r) (is_doclen_list l)).

(** The constructors, which end in [init()]. *)
Definition init (table : BrassTable.t) (term_ : bytes) : result t :=
  let l0 := mk term_ false false BrassCursor.cursor_get None 0 0 0 0 0
               false false None (is_empty term_) in
  let key := Key.make_key term_ in
  let '(found, cursor_) := BrassCursor.find_entry table key in
  if negb found
  then Ok (mk term_ false true cursor_ None 0 0 0 0 0 false true None
              (is_empty term_))
  else
    '(number_of_entries_, _, did_, pos_) <-
      read_start_of_first_chunk (BrassCursor.current_tag cursor_) ;;
    '(is_last_chunk_, last_did_in_chunk_, pos_) <-
      read_start_of_chunk pos_ did_ ;;
    enter_chunk l0 cursor_ true is_last_chunk_ did_ last_did_in_chunk_
                number_of_entries_ pos_.

(** [next_chunk]: move to the next chunk of the list. *)
Definition next_chunk (table : BrassTable.t) (l : t) : result t :=
  if is_last_chunk l
  then Ok (mk (term l) (have_started l) true (cursor l) (pos l) (did l)
              (wdf l) (number_of_entries l) (first_did_in_chunk l)
              (last_did_in_chunk l) (is_first_chunk l) (is_last_chunk l)
              (p_doclen_chunk_reader l) (is_doclen_list l))
  else
    let cursor_ := BrassCursor.next table (cursor l) in
    if BrassCursor.after_end cursor_ then Err DatabaseCorruptError
    else
      (* Check we're still in same postlist *)
      let '(same_term, keypos) :=
        Key.check_tname_in_key_lite (BrassCursor.current_key cursor_) (term l) in
      if negb same_term then Err DatabaseCorruptError
      else
        '(newdid, _) <- Key.read_uint_preserving_sort keypos ;;
        if newdid <=? did l then Err DatabaseCorruptError
        else
          '(is_last_chunk_, last_did_in_chunk_, pos_) <-
            read_start_of_chunk (BrassCursor.current_tag cursor_) newdid ;;
          enter_chunk l cursor_ false is_last_chunk_ newdid last_did_in_chunk_
                      (number_of_entries l) pos_.

Definition current_chunk_contains (desired_did : docid) (l : t) : bool :=
  (first_did_in_chunk l <=? desired_did) && (desired_did <=? last_did_in_chunk l).

(** [move_to_chunk_containing]. *)
Definition move_to_chunk_containing (table : BrassTable.t)
  (desired_did : docid) (l : t) : result t :=
  let '(_, cursor_) :=
    BrassCursor.find_entry table (Key.make_key_did (term l) desired_did) in
  let '(same_term, keypos) :=
    Key.check_tname_in_key_lite (BrassCursor.current_key cursor_) (term l) in
  if negb same_term
  then
    (* This should only happen if the postlist doesn't exist at all. *)
    Ok (mk (term l) (have_started l) true cursor_ (pos l) (did l)
           (wdf l) (number_of_entries l) (first_did_in_chunk l)
           (last_did_in_chunk l) (is_first_chunk l) true
           (p_doclen_chunk_reader l) (is_doclen_list l))
  else
    let is_first_chunk_ := is_empty keypos in
    let tag := BrassCursor.current_tag cursor_ in
    '(did_, pos_) <-
      (if is_first_chunk_
       then '(_, _, did_, pos_) <- read_start_of_first_chunk tag ;;
            Ok (did_, pos_)
       else '(did_, _) <- Key.read_uint_preserving_sort keypos ;;
            Ok (did_, tag)) ;;
    '(is_last_chunk_, last_did_in_chunk_, pos_) <-
      read_start_of_chunk pos_ did_ ;;
    let l_ := mk (term l) (have_started l) false (cursor l) (pos l) (did l)
                 (wdf l) (number_of_entries l) (first_did_in_chunk l)
                 (last_did_in_chunk l) (is_first_chunk l) (is_last_chunk l)
                 (p_doclen_chunk_reader l) (is_doclen_list l) in
    l' <- enter_chunk l_ cursor_ is_first_chunk_ is_last_chunk_ did_
                      last_did_in_chunk_ (number_of_entries l) pos_ ;;
    (* Possible, since desired_did might be after end of this chunk and
       before the next. *)
    if last_did_in_chunk l' <? desired_did then next_chunk table l'
    else Ok l'.

(** [jump_to]: used for doclens. *)
Definition jump_to (table : BrassTable.t) (desired_did : docid) (l : t)
  : result (bool * t) :=
  let l := mk (term l) true (is_at_end l) (cursor l) (pos l) (did l)
              (wdf l) (number_of_entries l) (first_did_in_chunk l)
              (last_did_in_chunk l) (is_first_chunk l) (is_last_chunk l)
              (p_doclen_chunk_reader l) (is_doclen_list l) in
  (* If the list is empty, give up right away. *)
  match pos l with
  | None => Ok (false, l)
  | Some _ =>
      l <- (if is_at_end l || negb (current_chunk_contains desired_did l)
               || (desired_did <? did l)
            then
              move_to_chunk_containing table desired_did
                (mk (term l) (have_started l) false (cursor l) (pos l) (did l)
                    (wdf l) (number_of_entries l) (first_did_in_chunk l)
                    (last_did_in_chunk l) (is_first_chunk l) (is_last_chunk l)
                    (p_doclen_chunk_reader l) (is_doclen_list l))
            else Ok l) ;;
      if is_at_end l then Ok (false, l)
      else
        match p_doclen_chunk_reader l with
        | None => Err UndefinedBehaviour
        | Some r =>
            '(wdf_, r) <- DoclenChunkReader.get_doclen_of desired_did r ;;
            let at_end_ := DoclenChunkReader.at_end r in
            if wdf_ =? u32 (-1)
            then Ok (false,
                     mk (term l) (have_started l) at_end_ (cursor l) (pos l)
                        (DoclenChunkReader.get_docid r)
                        (DoclenChunkReader.get_doclen r)
                        (number_of_entries l) (first_did_in_chunk l)
                        (last_did_in_chunk l) (is_first_chunk l)
                        (is_last_chunk l) (Some r) (is_doclen_list l))
            else Ok (true,
                     mk (term l) (have_started l) at_end_ (cursor l) (pos l)
                        (DoclenChunkReader.get_docid r) wdf_
                        (number_of_entries l) (first_did_in_chunk l)
                        (last_did_in_chunk l) (is_first_chunk l)
                        (is_last_chunk l) (Some r) (is_doclen_list l))
        end
  end.

(** [next_in_chunk]: move to the next entry of the chunk; false when the
    chunk has none.  A term list reads on in the tag, where [pos == end]
    holds for the two null pointers of an empty list as well; a doclen
    list asks its reader. *)
Definition next_in_chunk (l : t) : result (bool * t) :=
  if is_doclen_list l
  then
    match p_doclen_chunk_reader l with
    | None => Err UndefinedBehaviour
    | Some r =>
        '(moved, r) <- DoclenChunkReader.next r ;;
        if moved
        then Ok (true,
                 mk (term l) (have_started l) (DoclenChunkReader.at_end r)
                    (cursor l) (pos l) (DoclenChunkReader.get_docid r)
                    (DoclenChunkReader.get_doclen r) (number_of_entries l)
                    (first_did_in_chunk l) (last_did_in_chunk l)
                    (is_first_chunk l) (is_last_chunk l) (Some r)
                    (is_doclen_list l))
        else Ok (false,
                 mk (term l) (have_started l) (DoclenChunkReader.at_end r)
                    (cursor l) (pos l) (did l) (wdf l) (number_of_entries l)
                    (first_did_in_chunk l) (last_did_in_chunk l)
                    (is_first_chunk l) (is_last_chunk l) (Some r)
                    (is_doclen_list l))
    end
  else
    match pos l with
    | None | Some [] => Ok (false, l)
    | Some ((_ :: _) as p) =>
        '(did_, p) <- read_did_increase p (did l) ;;
        '(wdf_, p) <- read_wdf p ;;
        Ok (true,
            mk (term l) (have_started l) (is_at_end l) (cursor l) (Some p)
               did_ wdf_ (number_of_entries l) (first_did_in_chunk l)
               (last_did_in_chunk l) (is_first_chunk l) (is_last_chunk l)
               (p_doclen_chunk_reader l) (is_doclen_list l))
    end.

(** [next]: the first call starts the list where the constructor left
    it, a later call moves on in the chunk or to the next chunk. *)
Definition next (table : BrassTable.t) (l : t) : result t :=
  if negb (have_started l)
  then Ok (mk (term l) true (is_at_end l) (cursor l) (pos l) (did l)
              (wdf l) (number_of_entries l) (first_did_in_chunk l)
              (last_did_in_chunk l) (is_first_chunk l) (is_last_chunk l)
              (p_doclen_chunk_reader l) (is_doclen_list l))
  else
    '(moved, l) <- next_in_chunk l ;;
    if moved then Ok l else next_chunk table l.

(** The loop [while (pos != end)] of [move_forward_in_chunk_to_at_least]:
    the pointer, the docid and the wdf it leaves, and whether it returned
    from inside.  The wdf of an entry it passes is read and dropped.
    Every turn reads at least one byte. *)
Fixpoint move_forward_loop (fuel : nat) (desired_did : docid) (p : bytes)
  (did_ : docid) (wdf_ : termcount)
  : result (bool * bytes * docid * termcount) :=
  match fuel with
  | O => Ok (false, p, did_, wdf_)
  | S fuel' =>
      match p with
      | [] => Ok (false, p, did_, wdf_)
      | _ :: _ =>
          '(did_, p) <- read_did_increase p did_ ;;
          if desired_did <=? did_
          then '(wdf_, p) <- read_wdf p ;; Ok (true, p, did_, wdf_)
          else '(_, p) <- read_wdf p ;;
               move_forward_loop fuel' desired_did p did_ wdf_
      end
  end.

(** [move_forward_in_chunk_to_at_least]: when the loop runs off the chunk
    the [Assert(false)] after it is nothing, and the function goes on to
    [pos = end] as it does for a docid past the chunk. *)
Definition move_forward_in_chunk_to_at_least (desired_did : docid) (l : t)
  : result (bool * t) :=
  if desired_did <=? did l then Ok (true, l)
  else
    let at_end_of_chunk (did_ : docid) (wdf_ : termcount) :=
      mk (term l) (have_started l) (is_at_end l) (cursor l)
         (match pos l with None => None | Some _ => Some [] end)
         did_ wdf_ (number_of_entries l) (first_did_in_chunk l)
         (last_did_in_chunk l) (is_first_chunk l) (is_last_chunk l)
         (p_doclen_chunk_reader l) (is_doclen_list l) in
    if desired_did <=? last_did_in_chunk l
    then
      match pos l with
      | None => Ok (false, at_end_of_chunk (did l) (wdf l))
      | Some p =>
          '(found, p, did_, wdf_) <-
            move_forward_loop (length p) desired_did p (did l) (wdf l) ;;
          if found
          then Ok (true,
                   mk (term l) (have_started l) (is_at_end l) (cursor l)
                      (Some p) did_ wdf_ (number_of_entries l)
                      (first_did_in_chunk l) (last_did_in_chunk l)
                      (is_first_chunk l) (is_last_chunk l)
                      (p_doclen_chunk_reader l) (is_doclen_list l))
          else Ok (false, at_end_of_chunk did_ wdf_)
      end
    else Ok (false, at_end_of_chunk (did l) (wdf l)).

(** [skip_to]: for a doclen list it hands on to [jump_to]; what
    [move_forward_in_chunk_to_at_least] returns is dropped. *)
Definition skip_to (table : BrassTable.t) (desired_did : docid) (l : t)
  : result t :=
  if is_doclen_list l
  then '(_, l) <- jump_to table desired_did l ;; Ok l
  else
    let l := mk (term l) true (is_at_end l) (cursor l) (pos l) (did l)
                (wdf l) (number_of_entries l) (first_did_in_chunk l)
                (last_did_in_chunk l) (is_first_chunk l) (is_last_chunk l)
                (p_doclen_chunk_reader l) (is_doclen_list l) in
    (* Don't skip back, and don't need to do anything if already there. *)
    if is_at_end l || (desired_did <=? did l) then Ok l
    else
      (* Move to correct chunk *)
      l <- (if negb (current_chunk_contains desired_did l)
            then move_to_chunk_containing table desired_did l
            else Ok l) ;;
      if is_at_end l then Ok l
      else
        (* Move to correct position in chunk *)
        '(_, l) <- move_forward_in_chunk_to_at_least desired_did l ;;
        Ok l.

End BrassPostList.

(** ** BrassPostListTable *)

Module BrassPostListTable.

(** [Inverter::PostingChanges]: the two deltas and the changed postings,
    where the wdf -1 marks a deletion. *)
Record PostingChanges : Type := mkChanges {
  tfdelta : Z;
  cfdelta : Z;
  pl_changes : doclen_map
}.

(** The table with its member [doclen_pl], the cached doclen list. *)
Record t : Type := mk {
  entries : BrassTable.t;
  doclen_pl : option BrassPostList.t
}.

(** [get_freqs]: the termfreq and the collfreq of a term. *)
Definition get_freqs (table : t) (term : bytes) : result (doccount * termcount) :=
  match BrassTable.get_exact_entry (Key.make_key term) (entries table) with
  | None => Ok (0, 0)
  | Some tag =>
      '(termfreq, collfreq, _) <- read_number_of_entries tag ;;
      Ok (termfreq, collfreq)
  end.

(** [get_chunk]: returns the last did to allow in this chunk, the reader
    [from] and the writer [to], either of which may be null. *)
Definition get_chunk (table : t) (tname : bytes) (did : docid) (adding : bool)
  : result (docid * option PostlistChunkReader.t * option PostlistChunkWriter.t) :=
  match tname with
  | [] =>
      (* When current chunk is for doc length, this function shouldn't be
         called. *)
      Ok (u32 (-1), None, None)
  | _ :: _ =>
      let key := Key.make_key_did tname did in
      let '(_, cursor) := BrassCursor.find_entry (entries table) key in
      let '(same_term, keypos) :=
        Key.check_tname_in_key (BrassCursor.current_key cursor) tname in
      if negb same_term
      then
        (* Postlist for this termname doesn't exist. *)
        if negb adding then Err DatabaseCorruptError
        else Ok (u32 (-1), None,
                 Some (PostlistChunkWriter.make [] true tname true))
      else
        let is_first_chunk := BrassPostList.is_empty keypos in
        let tag := BrassCursor.current_tag cursor in
        '(first_did_in_chunk, pos) <-
          (if is_first_chunk
           then '(_, _, first_did, pos) <- read_start_of_first_chunk tag ;;
                Ok (first_did, pos)
           else '(first_did, _) <- Key.read_uint_preserving_sort keypos ;;
                Ok (first_did, tag)) ;;
        '(is_last_chunk, last_did_in_chunk, pos) <-
          read_start_of_chunk pos first_did_in_chunk ;;
        let to := PostlistChunkWriter.make (BrassCursor.current_key cursor)
                                           is_first_chunk tname is_last_chunk in
        '(from, to) <-
          (if last_did_in_chunk <? did
           then Ok (None,
                    PostlistChunkWriter.raw_append first_did_in_chunk
                                                   last_did_in_chunk pos to)
           else from <- PostlistChunkReader.make first_did_in_chunk pos ;;
                Ok (Some from, to)) ;;
        if is_last_chunk then Ok (u32 (-1), from, Some to)
        else
          (* Find first did of next tag. *)
          let cursor := BrassCursor.next (entries table) cursor in
          if BrassCursor.after_end cursor then Err DatabaseCorruptError
          else
            let '(same_term, kpos) :=
              Key.check_tname_in_key (BrassCursor.current_key cursor) tname in
            if negb same_term then Err DatabaseCorruptError
            else
              '(first_did_of_next_chunk, _) <-
                Key.read_uint_preserving_sort kpos ;;
              Ok (u32 (first_did_of_next_chunk - 1), from, Some to)
  end.

(** [get_doclength] and [document_exists]: both open the cached doclen
    list when there is none and jump in it. *)
Definition open_doclen_pl (table : t) : result BrassPostList.t :=
  match doclen_pl table with
  | Some l => Ok l
  | None => BrassPostList.init (entries table) []
  end.

Definition get_doclength (table : t) (did : docid) : result (termcount * t) :=
  l <- open_doclen_pl table ;;
  '(found, l) <- BrassPostList.jump_to (entries table) did l ;;
  if negb found then Err DocNotFoundError
  else Ok (BrassPostList.wdf l, mk (entries table) (Some l)).

Definition document_exists (table : t) (did : docid) : result (bool * t) :=
  l <- open_doclen_pl table ;;
  '(found, l) <- BrassPostList.jump_to (entries table) did l ;;
  Ok (found, mk (entries table) (Some l)).

Section MergeDoclenChanges.
Context {T : Tunables}.

(** The loop [while (it != doclens.end() && it->first <
    first_did_in_next_chunk)]: the changes [pre_it .. it] and those from
    [it] on. *)
Fixpoint changes_below (it : doclen_map) (first_did_in_next_chunk : docid)
  : doclen_map * doclen_map :=
  match it with
  | [] => ([], [])
  | (did, len) :: it' =>
      if did <? first_did_in_next_chunk
      then let '(taken, rest) := changes_below it' first_did_in_next_chunk in
           ((did, len) :: taken, rest)
      else ([], it)
  end.

(** The loop [while (it != doclens.end())] of [merge_doclen_changes];
    [it] and [pre_it] are equal at the head of the loop.  After
    [cursor->next()] the key pointer is advanced past the term only in
    the operand of an [Assert], so the first docid of the next chunk is
    read from the start of the key, and a read that fails leaves the 0
    the variable starts with. *)
Fixpoint merge_doclen_loop (fuel : nat) (entries_ : BrassTable.t)
  (it : doclen_map) : result BrassTable.t :=
  match it with
  | [] => Ok entries_
  | (it_first, _) :: _ =>
      match fuel with
      | O => Err LoopBoundReached
      | S fuel' =>
          let key := Key.make_key_did [] it_first in
          let '(_, cursor) := BrassCursor.find_entry entries_ key in
          let '(_, keypos) :=
            Key.check_tname_in_key (BrassCursor.current_key cursor) [] in
          let is_first_chunk := BrassPostList.is_empty keypos in
          let ori_key := BrassCursor.current_key cursor in
          let desired_chunk := BrassCursor.current_tag cursor in
          '(first_did_in_chunk, pos) <-
            (if is_first_chunk
             then '(_, _, first_did, pos) <-
                    read_start_of_first_chunk desired_chunk ;;
                  Ok (first_did, pos)
             else '(first_did, _) <- Key.read_uint_preserving_sort keypos ;;
                  Ok (first_did, desired_chunk)) ;;
          '(is_last_chunk, _, _) <- read_start_of_chunk pos first_did_in_chunk ;;
          let '(taken, it') :=
            if is_last_chunk then (it, [])
            else
              let cursor := BrassCursor.next entries_ cursor in
              let first_did_in_next_chunk :=
                match Key.unpack_uint_preserving_sort
                        (BrassCursor.current_key cursor) with
                | Unpacked v _ => v
                | _ => 0
                end in
              changes_below it first_did_in_next_chunk in
          (* Delete current chunk to insert new chunk later. *)
          let entries_ := BrassTable.del ori_key entries_ in
          let writer :=
            DoclenChunkWriter.mk desired_chunk taken is_first_chunk
                                 first_did_in_chunk [] false in
          entries_ <- DoclenChunkWriter.merge_doclen_changes entries_ writer ;;
          merge_doclen_loop fuel' entries_ it'
      end
  end.

(** [BrassPostListTable::merge_doclen_changes]; [fuel] bounds the turns
    of its loop. *)
Definition merge_doclen_changes (fuel : nat) (table : t) (doclens : doclen_map)
  : result t :=
  (* The cursor in the doclen_pl will no longer be valid, so reset it. *)
  let table := mk (entries table) None in
  match doclens with
  | [] => Ok table
  | _ :: _ =>
      (* Ensure there's a first chunk. *)
      let current_key := Key.make_key [] in
      let entries_ :=
        if negb (BrassTable.key_exists current_key (entries table))
        then
          let newtag :=
            make_start_of_first_chunk 0 0 0 ++ make_start_of_chunk true 0 0 in
          BrassTable.add current_key newtag (entries table)
        else entries table in
      entries_ <- merge_doclen_loop fuel entries_ doclens ;;
      Ok (mk entries_ None)
  end.

End MergeDoclenChanges.

(** The loop [while (cursor.del())] that zaps a posting list: it deletes
    the entry under the cursor and goes on while the next key carries
    the term.  Every turn deletes an entry or moves the cursor up. *)
Fixpoint zap_loop (fuel : nat) (entries_ : BrassTable.t)
  (cursor : BrassCursor.t) (term : bytes) : BrassTable.t :=
  match fuel with
  | O => entries_
  | S fuel' =>
      let '(positioned, entries_, cursor) := BrassCursor.del entries_ cursor in
      if positioned
      then
        if fst (Key.check_tname_in_key_lite (BrassCursor.current_key cursor) term)
        then zap_loop fuel' entries_ cursor term
        else entries_
      else entries_
  end.

(** The state of the update loop of [merge_changes]. *)
Record update : Type := mkUpdate {
  u_entries : BrassTable.t;
  u_from : option PostlistChunkReader.t;
  u_to : option PostlistChunkWriter.t;
  u_max_did : docid
}.

(** [to->append(this, did, wdf)] through the pointer [to]. *)
Definition append_to (u : update) (did : docid) (wdf : termcount)
  : result update :=
  match u_to u with
  | None => Err UndefinedBehaviour
  | Some to =>
      '(entries_, to) <- PostlistChunkWriter.append (u_entries u) did wdf to ;;
      Ok (mkUpdate entries_ (u_from u) (Some to) (u_max_did u))
  end.

(** The loop [while (!from->is_at_end())] that copies the entries before
    [did] and steps over an entry at [did].  Every turn but the last
    reads from the chunk. *)
Fixpoint copy_before (fuel : nat) (did : docid) (from : PostlistChunkReader.t)
  (u : update) : result update :=
  if PostlistChunkReader.is_at_end from
  then Ok (mkUpdate (u_entries u) (Some from) (u_to u) (u_max_did u))
  else
    let copy_did := PostlistChunkReader.get_docid from in
    if did <=? copy_did
    then
      from <- (if copy_did =? did then PostlistChunkReader.next from
               else Ok from) ;;
      Ok (mkUpdate (u_entries u) (Some from) (u_to u) (u_max_did u))
    else
      match fuel with
      | O => Err LoopBoundReached
      | S fuel' =>
          u <- append_to u copy_did (PostlistChunkReader.get_wdf from) ;;
          from <- PostlistChunkReader.next from ;;
          copy_before fuel' did from u
      end.

(** The loop that drains what is left of [from] into [to]. *)
Fixpoint copy_rest (fuel : nat) (from : PostlistChunkReader.t) (u : update)
  : result update :=
  if PostlistChunkReader.is_at_end from then Ok u
  else
    match fuel with
    | O => Err LoopBoundReached
    | S fuel' =>
        u <- append_to u (PostlistChunkReader.get_docid from)
                       (PostlistChunkReader.get_wdf from) ;;
        from <- PostlistChunkReader.next from ;;
        copy_rest fuel' from u
    end.

Definition reader_fuel (from : PostlistChunkReader.t) : nat :=
  S (length (PostlistChunkReader.pos from)).

(** One change of the update loop, from the label [next_chunk] on;
    [fuel] bounds the jumps back to the label. *)
Fixpoint update_posting (fuel : nat) (doclen_pl_ : option BrassPostList.t)
  (term : bytes) (did : docid) (new_wdf : termcount) (u : update)
  : result update :=
  u <- match u_from u with
       | Some from => copy_before (reader_fuel from) did from u
       | None => Ok u
       end ;;
  let from_done :=
    match u_from u with
    | None => true
    | Some from => PostlistChunkReader.is_at_end from
    end in
  if from_done && (u_max_did u <? did)
  then
    match fuel with
    | O => Err LoopBoundReached
    | S fuel' =>
        match u_to u with
        | None => Err UndefinedBehaviour
        | Some to =>
            entries_ <- PostlistChunkWriter.flush (u_entries u) to ;;
            '(max_did, from, to) <-
              get_chunk (mk entries_ doclen_pl_) term did false ;;
            update_posting fuel' doclen_pl_ term did new_wdf
                           (mkUpdate entries_ from to max_did)
        end
    end
  else if negb (new_wdf =? u32 (-1))
  then append_to u did new_wdf
  else Ok u.

(** The loop [for ( ; j != changes.pl_changes.end(); ++j)]. *)
Fixpoint update_postings (fuel : nat) (doclen_pl_ : option BrassPostList.t)
  (term : bytes) (j : doclen_map) (u : update) : result update :=
  match j with
  | [] => Ok u
  | (did, new_wdf) :: j' =>
      u <- update_posting fuel doclen_pl_ term did new_wdf u ;;
      update_postings fuel doclen_pl_ term j' u
  end.

(** The first step of [merge_changes]: read start of first chunk to get
    termfreq and collfreq, then the generic start of chunk header; a list
    that is not there reads as an empty one.  The last component is the
    tag from the end of the two headers on. *)
Definition stored_header (table : t) (term : bytes)
  : result (doccount * termcount * docid * docid * bool * bytes) :=
  let tag :=
    match BrassTable.get_exact_entry (Key.make_key term) (entries table) with
    | Some tag => tag
    | None => []
    end in
  match tag with
  | [] => Ok (0, 0, 0, 0, true, [])
  | _ :: _ =>
      '(termfreq, collfreq, firstdid, pos) <- read_start_of_first_chunk tag ;;
      '(islast, lastdid, pos) <- read_start_of_chunk pos firstdid ;;
      Ok (termfreq, collfreq, firstdid, lastdid, islast, pos)
  end.

(** [BrassPostListTable::merge_changes]; [fuel] bounds the jumps to the
    label [next_chunk] that one change can take. *)
Definition merge_changes (fuel : nat) (table : t) (term : bytes)
  (changes : PostingChanges) : result t :=
  (* Rewrite the first chunk of this posting list with the updated
     termfreq and collfreq. *)
  let current_key := Key.make_key term in
  '(termfreq, collfreq, firstdid, lastdid, islast, pos) <-
    stored_header table term ;;
  let termfreq := u32 (termfreq + tfdelta changes) in
  if termfreq =? 0
  then
    (* All postings deleted!  So we can shortcut by zapping the posting
       list. *)
    if islast
    then Ok (mk (BrassTable.del current_key (entries table)) (doclen_pl table))
    else
      let '(found, cursor) := BrassCursor.find_entry (entries table) current_key in
      if negb found then Ok table
      else Ok (mk (zap_loop (S (length (entries table))) (entries table)
                            cursor term)
                  (doclen_pl table))
  else
    let collfreq := u32 (collfreq + cfdelta changes) in
    (* Rewrite start of first chunk to update termfreq and collfreq. *)
    let newhdr :=
      make_start_of_first_chunk termfreq collfreq firstdid
        ++ make_start_of_chunk islast firstdid lastdid in
    let entries_ :=
      match pos with
      | [] => BrassTable.add current_key newhdr (entries table)
      | _ :: _ => BrassTable.add current_key (newhdr ++ pos) (entries table)
      end in
    match pl_changes changes with
    | [] => Err UndefinedBehaviour
    | (j_first, _) :: _ =>
        '(max_did, from, to) <-
          get_chunk (mk entries_ (doclen_pl table)) term j_first false ;;
        u <- update_postings fuel (doclen_pl table) term (pl_changes changes)
                             (mkUpdate entries_ from to max_did) ;;
        u <- match u_from u with
             | Some from => copy_rest (reader_fuel from) from u
             | None => Ok u
             end ;;
        match u_to u with
        | None => Err UndefinedBehaviour
        | Some to =>
            entries_ <- PostlistChunkWriter.flush (u_entries u) to ;;
            Ok (mk entries_ (doclen_pl table))
        end
    end.

End BrassPostListTable.

(** * What the properties are stated with *)

(** A map of doclens as the table holds them: docids from 1 up in
    strictly ascending order, docids and lengths of 32 bits. *)
Definition is_u32b (z : Z) : bool := (0 <=? z) && (z <? 2 ^ 32).

Fixpoint ascending_from (d : docid) (m : doclen_map) : bool :=
  match m with
  | [] => true
  | (d', len) :: m' =>
      (d <? d') && is_u32b d' && is_u32b len && ascending_from d' m'
  end.

Definition well_formed_map (m : doclen_map) : bool :=
  match m with
  | [] => true
  | (d, len) :: m' =>
      (1 <=? d) && is_u32b d && is_u32b len && ascending_from d m'
  end.

(** Each docid is exactly one greater than the one before it. *)
Fixpoint consecutive_from (d : docid) (m : doclen_map) : Prop :=
  match m with
  | [] => True
  | (d', _) :: m' => d' = d + 1 /\ consecutive_from d' m'
  end.

Definition consecutive (m : doclen_map) : Prop :=
  match m with
  | [] => True
  | (d, _) :: m' => consecutive_from d m'
  end.

Section Blocks.
Context {T : Tunables}.

(** The blocks [FixedWidthChunk::encode] writes, one per turn of its outer
    loop, with what the turn has in hand when it writes: the docid before
    the block, and for a fixed width block [length_contiguous] and
    [max_bytes]. *)
Inductive block : Type :=
| FixedWidthBlock (docid_before_start_pos : docid)
    (length_contiguous max_bytes : Z) (entries : doclen_map)
| NormalBlock (docid_before_start_pos : docid) (entries : doclen_map).

Definition block_entries (b : block) : doclen_map :=
  match b with
  | FixedWidthBlock _ _ _ entries => entries
  | NormalBlock _ entries => entries
  end.

Definition block_bytes (b : block) : bytes :=
  match b with
  | FixedWidthBlock docid_before_start_pos length_contiguous max_bytes entries =>
      pack_uint SEPERATOR
        ++ pack_uint (u32 (fst (hd (0, 0) entries) - docid_before_start_pos))
        ++ pack_uint_in_bytes length_contiguous 2
        ++ pack_uint_in_bytes max_bytes 1
        ++ encode_fixed_width entries max_bytes
  | NormalBlock docid_before_start_pos entries =>
      encode_normal entries docid_before_start_pos
  end.

(** The turns of [encode_loop], block by block. *)
Fixpoint encode_blocks (fuel : nat) (it : doclen_map)
  (docid_before_start_pos : docid) : list block :=
  match fuel with
  | O => []
  | S fuel' =>
      match it with
      | [] => []
      | (start_docid, start_len) :: it1 =>
          let max_bytes := get_max_bytes start_len in
          let '(length_contiguous, _, _, passed, it') :=
            encode_scan it1 start_docid max_bytes 0 0 1 in
          let entries := (start_docid, start_len) :: passed in
          (if DOCLEN_CHUNK_MIN_CONTIGUOUS_LENGTH <? length_contiguous
           then FixedWidthBlock docid_before_start_pos length_contiguous
                                max_bytes entries
           else NormalBlock docid_before_start_pos entries)
            :: encode_blocks fuel' it'
                 (last_docid_of entries docid_before_start_pos)
      end
  end.

(** [used_bytes] and [good_bytes] as the scan sums them over the entries
    it accepts, and over a whole run: the first entry of a run is not
    counted. *)
Definition sum_used (max_bytes : Z) (passed : doclen_map) (used : Z) : Z :=
  fold_left (fun u _ => u + max_bytes) passed used.

Definition sum_good (passed : doclen_map) (good : Z) : Z :=
  fold_left (fun g e => g + get_max_bytes (snd e)) passed good.

Definition run_used_bytes (max_bytes : Z) (entries : doclen_map) : Z :=
  sum_used max_bytes (tl entries) 0.

Definition run_good_bytes (entries : doclen_map) : Z :=
  sum_good (tl entries) 0.

End Blocks.

(** Values of the tuning constants inside the ranges the spec names, for
    running the definitions: runs of more than 8 entries, a ratio of one
    half, 2000 entries to a chunk. *)
Definition sample_tunables : Tunables :=
  {| DOCLEN_CHUNK_MIN_CONTIGUOUS_LENGTH := 8;
     RATIO_NUM := 1;
     RATIO_DEN := 2;
     MAX_ENTRIES_IN_CHUNK := 2000 |}.

(** A map with a run that the sample constants admit as a fixed width
    block: the nine entries from docid 4 on. *)
Definition dense_run : doclen_map :=
  [(3, 7); (4, 300); (5, 9); (6, 200); (7, 255); (8, 256); (9, 1); (10, 2);
   (11, 65535); (12, 3); (20, 1); (21, 70000)].

(** A run of [n] consecutive docids from [d] on, all of length [len], and
    the run of 65536 documents of length 0 from docid 1 on. *)
Fixpoint run_from (n : nat) (d : docid) (len : termcount) : doclen_map :=
  match n with
  | O => []
  | S n' => (d, len) :: run_from n' (d + 1) len
  end.

Definition long_run : doclen_map := run_from (Z.to_nat 65536) 1 0.

(** What the reader of a fresh chunk stands on when the body opens with
    a docid increment of zero, as every body [encode] writes does. *)
Definition opens_with_zero (body : bytes) : Prop :=
  body = []
  \/ (exists rest, body = pack_uint 0 ++ rest)
  \/ (exists rest, body = pack_uint SEPERATOR ++ pack_uint 0 ++ rest).

(** ** Sample data *)

(** The doclens of scenario S5 of the spec, as a chunk body. *)
Definition sparse_map : doclen_map := [(1, 2); (100, 300000); (101, 1)].

Definition sparse_body : bytes := snd (@encode sample_tunables sparse_map []).

(** A doclen chunk that holds the one document 5, of length 1. *)
Definition single_chunk : bytes :=
  make_start_of_chunk true 5 5 ++ snd (@encode sample_tunables [(5, 1)] []).

(** The posting list of the term "cat" in two chunks: the documents 1 and
    4 in the first, 10 and 12 in the second. *)
Definition cat : bytes := ["c"%byte; "a"%byte; "t"%byte].

Definition cat_first_tag : bytes :=
  make_start_of_first_chunk 4 9 1 ++ make_start_of_chunk false 1 4
    ++ pack_uint 2 ++ pack_uint 2 ++ pack_uint 1.

Definition cat_second_body : bytes := pack_uint 3 ++ pack_uint 1 ++ pack_uint 3.

Definition cat_second_tag : bytes :=
  make_start_of_chunk true 10 12 ++ cat_second_body.

Definition two_chunk_table : BrassTable.t :=
  [(Key.make_key cat, cat_first_tag); (Key.make_key_did cat 10, cat_second_tag)].

(** The writer of the first chunk with nothing appended to it, and the
    list of "cat" as its constructor leaves it. *)
Definition emptied_first_chunk : PostlistChunkWriter.t :=
  PostlistChunkWriter.make (Key.make_key cat) true cat false.

Definition cat_list : BrassPostList.t :=
  match BrassPostList.init two_chunk_table cat with
  | Ok l => l
  | Err _ =>
      BrassPostList.mk cat false true BrassCursor.cursor_get None 0 0 0 0 0
                       false true None false
  end.

(** The key carries the term: what the loops of the table test the keys
    they walk over with. *)
Definition carries_term (key term : bytes) : bool :=
  fst (Key.check_tname_in_key_lite key term).

(** The term a key opens with. *)
Definition tname_of (key : bytes) : bytes :=
  fst (Key.unpack_string_preserving_sort key).

(** ** The size of a chunk *)

(** An entry of a chunk is a docid increment and a wdf, each packed in at
    most five bytes. *)
Definition max_entry_width : Z := 10.

(** What a key holds after its term, and whether the key is that of a
    first chunk: nothing follows the term then. *)
Definition key_tail (key : bytes) : bytes :=
  snd (Key.check_tname_in_key_lite key []).

Definition is_first_key (key : bytes) : bool :=
  BrassPostList.is_empty (key_tail key).

(** The body of the chunk stored under a key: the tag without the header
    of a first chunk, when the key is that of one, and without the header
    of a chunk. *)
Definition chunk_body (key tag : bytes) : result bytes :=
  pos <- (if is_first_key key
          then '(_, _, _, pos) <- read_start_of_first_chunk tag ;; Ok pos
          else Ok tag) ;;
  '(_, _, body) <- read_start_of_chunk pos 0 ;;
  Ok body.

(** Every chunk of a term has its headers and a body of at most the
    threshold and one entry.  The chunks of the doclen list, whose keys
    open with the empty term, are not of this form. *)
Definition chunks_bounded (table : BrassTable.t) : Prop :=
  forall key tag : bytes,
    In (key, tag) table -> tname_of key <> [] ->
    exists body,
      chunk_body key tag = Ok body
      /\ Z.of_nat (length body) <= CHUNKSIZE + max_entry_width.

(** The changes of a term hold wdfs of 32 bits, as [termcount] has. *)
Definition wdfs_in_range (changes : BrassPostListTable.PostingChanges) : Prop :=
  Forall (fun change => is_u32 (snd change))
         (BrassPostListTable.pl_changes changes).

(** A sequence of calls of [merge_changes], each for a term and its
    changes. *)
Fixpoint merge_all (fuel : nat) (table : BrassPostListTable.t)
  (batches : list (bytes * BrassPostListTable.PostingChanges))
  : result BrassPostListTable.t :=
  match batches with
  | [] => Ok table
  | (term, changes) :: batches' =>
      table <- BrassPostListTable.merge_changes fuel table term changes ;;
      merge_all fuel table batches'
  end.

(** What the writer of a chunk of [term] keeps while the update loop
    runs: it holds nothing before it has started and no more than a
    bounded chunk after, and the writer of a first chunk has the key of
    one. *)
Definition writer_bounded (term : bytes) (w : PostlistChunkWriter.t) : Prop :=
  PostlistChunkWriter.tname w = term
  /\ (PostlistChunkWriter.started w = false -> PostlistChunkWriter.chunk w = [])
  /\ Z.of_nat (length (PostlistChunkWriter.chunk w))
     <= CHUNKSIZE + max_entry_width
  /\ (PostlistChunkWriter.is_first_chunk w = true ->
      is_first_key (PostlistChunkWriter.orig_key w) = true).

(** The same for the state of the update loop: its table, its writer and
    the wdf its reader stands on. *)
Definition update_bounded (term : bytes) (u : BrassPostListTable.update) : Prop :=
  chunks_bounded (BrassPostListTable.u_entries u)
  /\ (forall w, BrassPostListTable.u_to u = Some w -> writer_bounded term w)
  /\ (forall r, BrassPostListTable.u_from u = Some r ->
                is_u32 (PostlistChunkReader.wdf r)).

(** The table with no entry, and the run of it that adds the documents 1
    to 1100 to the list of "cat", each with the wdf 1: the chunk reaches
    the threshold once. *)
Definition empty_table : BrassPostListTable.t := BrassPostListTable.mk [] None.

Definition many_postings : BrassPostListTable.PostingChanges :=
  BrassPostListTable.mkChanges 1100 1100 (run_from 1100 1 1).

Definition split_table : BrassPostListTable.t :=
  match merge_all 4 empty_table [(cat, many_postings)] with
  | Ok table => table
  | Err _ => empty_table
  end.

(** A writer of the first chunk of "cat" whose chunk is at the threshold:
    the documents 1 to 1001 with the wdf 1. *)
Definition full_writer : PostlistChunkWriter.t :=
  PostlistChunkWriter.mk (Key.make_key cat) cat true true true 1 1001
    (pack_uint 1 ++ concat (repeat (pack_uint 0 ++ pack_uint 1) 1000)).

(** ** Postings written and read *)

(** The entries of a chunk after the first wdf, as [append] writes them
    after the docid [d]: the docid increase less one, then the wdf. *)
Fixpoint encode_postings (d : docid) (postings : doclen_map) : bytes :=
  match postings with
  | [] => []
  | (d', wdf) :: postings' =>
      pack_uint (u32 (d' - d - 1)) ++ pack_uint wdf
        ++ encode_postings d' postings'
  end.

(** The body of the chunk of the postings: the wdf of the first, then
    the entries of the others. *)
Definition chunk_of (postings : doclen_map) : bytes :=
  match postings with
  | [] => []
  | (d, wdf) :: postings' => pack_uint wdf ++ encode_postings d postings'
  end.

(** [append] called for one posting after the other. *)
Fixpoint append_all (table : BrassTable.t) (postings : doclen_map)
  (w : PostlistChunkWriter.t)
  : result (BrassTable.t * PostlistChunkWriter.t) :=
  match postings with
  | [] => Ok (table, w)
  | (did, wdf) :: postings' =>
      '(table, w) <- PostlistChunkWriter.append table did wdf w ;;
      append_all table postings' w
  end.

(** What a chunk reader delivers from where it stands to the end of the
    chunk, [next] called until [is_at_end]. *)
Fixpoint read_postings (fuel : nat) (r : PostlistChunkReader.t)
  : result doclen_map :=
  if PostlistChunkReader.is_at_end r then Ok []
  else
    match fuel with
    | O => Err LoopBoundReached
    | S fuel' =>
        r' <- PostlistChunkReader.next r ;;
        rest <- read_postings fuel' r' ;;
        Ok ((PostlistChunkReader.get_docid r, PostlistChunkReader.get_wdf r)
              :: rest)
    end.

(** What a posting list delivers: [next] called until [is_at_end], the
    docid and the wdf taken after each call. *)
Fixpoint list_postings (fuel : nat) (table : BrassTable.t)
  (l : BrassPostList.t) : result doclen_map :=
  match fuel with
  | O => Err LoopBoundReached
  | S fuel' =>
      l <- BrassPostList.next table l ;;
      if BrassPostList.is_at_end l then Ok []
      else
        rest <- list_postings fuel' table l ;;
        Ok ((BrassPostList.did l, BrassPostList.wdf l) :: rest)
  end.

(** The postings of scenario S1 of the spec for the term "cat". *)
Definition cat_postings : doclen_map := [(1, 2); (4, 1); (9, 3)].

(** ** Maps of doclens *)

(** The keys of a [std::map] in iteration order: every key is below all
    the keys after it. *)
Fixpoint keys_ascending (m : doclen_map) : Prop :=
  match m with
  | [] => True
  | (k, _) :: m' => Forall (fun e => k < fst e) m' /\ keys_ascending m'
  end.

(** What a map holds for a docid once the changes are applied to it: a
    changed length, nothing for a change that is the tombstone, and what
    it held before for a docid the changes do not name. *)
Definition changed_doclen (changes m : doclen_map) (d : docid)
  : option termcount :=
  match DocMap.find d changes with
  | Some len => if len =? SEPERATOR then None else Some len
  | None => DocMap.find d m
  end.

(** Every key of the map is below [c]; the first key of the map, if it
    has one, is at least [c]. *)
Definition all_below (c : docid) (m : doclen_map) : Prop :=
  Forall (fun e => fst e < c) m.

Definition head_at_least (c : docid) (m : doclen_map) : Prop :=
  match m with
  | [] => True
  | (k, _) :: _ => c <= k
  end.

(** Every key of the table is below [k]. *)
Definition keys_below (k : bytes) (table : BrassTable.t) : Prop :=
  Forall (fun e => BrassTable.key_compare (fst e) k = Lt) table.

(** Nothing is left of the chunk the list stands on: [pos == end]. *)
Definition chunk_exhausted (l : BrassPostList.t) : Prop :=
  match BrassPostList.pos l with
  | Some (_ :: _) => False
  | _ => True
  end.

(** The tag of a doclen list of one chunk that holds the map: the two
    headers, then the body that [encode] writes. *)
Definition doclen_tag {T : Tunables} (m : doclen_map) : bytes :=
  make_start_of_first_chunk 0 0 (fst (hd (0, 0) m))
    ++ make_start_of_chunk true (fst (hd (0, 0) m)) (fst (last m (0, 0)))
    ++ snd (encode m []).

(** ** A list stored in several chunks *)

(** Whether no chunk follows. *)
Definition no_more (chunks : list doclen_map) : bool :=
  match chunks with [] => true | _ :: _ => false end.

(** The entries of the chunks of a list after its first: each under the
    key of the term and its first docid, the header of the chunk before
    its body, the last one marked as the last. *)
Fixpoint later_entries (term : bytes) (chunks : list doclen_map)
  : BrassTable.t :=
  match chunks with
  | [] => []
  | c :: chunks' =>
      (Key.make_key_did term (fst (hd (0, 0) c)),
       make_start_of_chunk (no_more chunks') (fst (hd (0, 0) c))
                           (fst (last c (0, 0)))
         ++ chunk_of c)
        :: later_entries term chunks'
  end.

(** The entries of a list: the first chunk under the key of the term,
    with the two counts before its header, then the later chunks. *)
Definition list_entries (term : bytes) (entries : doccount)
  (collectionfreq : termcount) (c : doclen_map) (chunks : list doclen_map)
  : BrassTable.t :=
  (Key.make_key term,
   make_start_of_first_chunk entries collectionfreq (fst (hd (0, 0) c))
     ++ make_start_of_chunk (no_more chunks) (fst (hd (0, 0) c))
                            (fst (last c (0, 0)))
     ++ chunk_of c)
    :: later_entries term chunks.

(** ** The layout of a doclen chunk body and the states of its reader *)

(** A run that [encode] may write as a fixed width block of [w] bytes a
    length: at most 65535 entries with consecutive docids, each length
    within [w] bytes. *)
Definition dense (w : Z) (block : doclen_map) : Prop :=
  block <> []
  /\ Z.of_nat (length block) < 65536
  /\ 1 <= w <= 4
  /\ consecutive_from (fst (hd (0, 0) block) - 1) block
  /\ Forall (fun e => is_u32 (fst e) /\ 0 <= snd e < 256 ^ w) block.

(** The header of a fixed width block written after the docid [prev]. *)
Definition block_header (prev : docid) (w : Z) (block : doclen_map) : bytes :=
  pack_uint SEPERATOR
    ++ pack_uint (fst (hd (0, 0) block) - prev)
    ++ pack_uint_in_bytes (Z.of_nat (length block)) 2
    ++ pack_uint_in_bytes w 1.

(** [laid_out prev m body]: the bytes [body] hold the entries [m], written
    after the docid [prev], entry by entry in the normal format or run by
    run in the fixed width format. *)
Inductive laid_out : docid -> doclen_map -> bytes -> Prop :=
| laid_out_end : forall prev : docid, laid_out prev [] []
| laid_out_entry :
    forall (prev d : docid) (len : termcount) (m : doclen_map) (rest : bytes),
      1 <= prev <= d -> is_u32 d -> is_u32 len ->
      laid_out d m rest ->
      laid_out prev ((d, len) :: m)
               (pack_uint (d - prev) ++ pack_uint len ++ rest)
| laid_out_block :
    forall (prev : docid) (w : Z) (block m : doclen_map) (rest : bytes),
      dense w block -> 1 <= prev <= fst (hd (0, 0) block) ->
      laid_out (fst (last block (0, 0))) m rest ->
      laid_out prev (block ++ m)
               (block_header prev w block ++ encode_fixed_width block w ++ rest).

(** Where a reader of the body of [m] stands: on an entry with the rest
    of the body before it, or on the entry [i] of a fixed width block, of
    which it knows the start, the docid before it, the width and the
    number of entries left. *)
Inductive reads (m : doclen_map) (r : FixedWidthChunkReader.t) : Prop :=
| reads_entry :
    forall pre post : doclen_map,
      m = pre ++ (FixedWidthChunkReader.cur_did r,
                  FixedWidthChunkReader.cur_length r) :: post ->
      FixedWidthChunkReader.is_in_block r = false ->
      laid_out (FixedWidthChunkReader.cur_did r) post
               (FixedWidthChunkReader.pos r) ->
      reads m r
| reads_block :
    forall (before block after : doclen_map) (w : Z) (prevb : docid)
           (rest : bytes) (i : nat),
      m = before ++ block ++ after ->
      FixedWidthChunkReader.is_in_block r = true ->
      dense w block ->
      1 <= prevb <= fst (hd (0, 0) block) ->
      Forall (fun e => fst e <= prevb) before ->
      laid_out (fst (last block (0, 0))) after rest ->
      (i < length block)%nat ->
      nth i block (0, 0) = (FixedWidthChunkReader.cur_did r,
                            FixedWidthChunkReader.cur_length r) ->
      FixedWidthChunkReader.pos r
      = encode_fixed_width (skipn (S i) block) w ++ rest ->
      FixedWidthChunkReader.pos_of_block r
      = block_header prevb w block ++ encode_fixed_width block w ++ rest ->
      FixedWidthChunkReader.did_before_block r = prevb ->
      FixedWidthChunkReader.len_info r = Z.of_nat (length block - S i) ->
      FixedWidthChunkReader.bytes_info r = w ->
      reads m r.

(** A reader made on the body of [m]: it knows the start of the body and
    the first docid, and stands on an entry. *)
Definition reader_on (m : doclen_map) (r : FixedWidthChunkReader.t) : Prop :=
  laid_out (fst (hd (0, 0) m)) m (FixedWidthChunkReader.ori_pos r)
  /\ FixedWidthChunkReader.first_did_in_chunk r = fst (hd (0, 0) m)
  /\ reads m r.

(** Where a search for [d] in [m] ends: on the first entry whose docid is
    at least [d]; [found] tells whether the docid is [d]. *)
Definition landed (m : doclen_map) (d : docid) (found : bool)
  (r : FixedWidthChunkReader.t) : Prop :=
  exists s1 s2 : doclen_map,
    m = s1 ++ (FixedWidthChunkReader.cur_did r,
               FixedWidthChunkReader.cur_length r) :: s2
    /\ Forall (fun e => fst e < d) s1
    /\ d <= FixedWidthChunkReader.cur_did r
    /\ found = (FixedWidthChunkReader.cur_did r =? d).

(** ** The calls on a doclen list *)

(** The calls that move a doclen list. *)
Inductive doclen_call : Type :=
| CallNext
| CallJumpTo (desired_did : docid).

(** A docid is a 32-bit value. *)
Definition call_in_range (c : doclen_call) : Prop :=
  match c with
  | CallNext => True
  | CallJumpTo desired_did => is_u32 desired_did
  end.

Definition do_call (table : BrassTable.t) (c : doclen_call)
  (l : BrassPostList.t) : result BrassPostList.t :=
  match c with
  | CallNext => BrassPostList.next table l
  | CallJumpTo desired_did =>
      '(_, l) <- BrassPostList.jump_to table desired_did l ;; Ok l
  end.

Fixpoint do_calls (table : BrassTable.t) (calls : list doclen_call)
  (l : BrassPostList.t) : result BrassPostList.t :=
  match calls with
  | [] => Ok l
  | c :: calls' => l <- do_call table c l ;; do_calls table calls' l
  end.

(** [c] is the smallest docid of [m] that is greater than [d]. *)
Definition smallest_above (m : doclen_map) (d c : docid) : Prop :=
  d < c
  /\ (exists len : termcount, In (c, len) m)
  /\ forall e : docid * termcount, In e m -> d < fst e -> c <= fst e.

(** ** The doclen list in the table *)

(** A chunk of the doclen list without the counts of a first chunk: the
    chunk header, then the body [encode] makes of the entries [c]. *)
Definition doclen_chunk {T : Tunables} (is_last : bool) (c : doclen_map)
  : bytes :=
  make_start_of_chunk is_last (fst (hd (0, 0) c)) (fst (last c (0, 0)))
    ++ snd (encode c []).

(** The entries of the chunks after the first, each under the key of the
    empty term and the first docid of the chunk, the last one marked as
    the last. *)
Fixpoint later_doclen_entries {T : Tunables} (chunks : list doclen_map)
  : BrassTable.t :=
  match chunks with
  | [] => []
  | c :: chunks' =>
      (Key.make_key_did [] (fst (hd (0, 0) c)),
       doclen_chunk (no_more chunks') c)
        :: later_doclen_entries chunks'
  end.

(** The entries of a doclen list: the first chunk under the key of the
    empty term, with the two counts before its header, then the later
    chunks. *)
Definition doclen_entries {T : Tunables} (entries : doccount)
  (collectionfreq : termcount) (c : doclen_map) (chunks : list doclen_map)
  : BrassTable.t :=
  (Key.make_key [],
   make_start_of_first_chunk entries collectionfreq (fst (hd (0, 0) c))
     ++ doclen_chunk (no_more chunks) c)
    :: later_doclen_entries chunks.

(** The key of the chunk [c] that follows the chunks [done]. *)
Definition chunk_key (done : list doclen_map) (c : doclen_map) : bytes :=
  match done with
  | [] => Key.make_key []
  | _ :: _ => Key.make_key_did [] (fst (hd (0, 0) c))
  end.

(** A doclen list that stands on the chunk [c], with the chunks [done]
    before it and the chunks [todo] after it: the cursor on the key of
    the chunk, the header of the chunk read, the reader on its body, and,
    unless the list is at its end, the docid and the length those of the
    reader.  The list is at its end on the last chunk only. *)
Definition on_list (done : list doclen_map) (c : doclen_map)
  (todo : list doclen_map) (l : BrassPostList.t) : Prop :=
  BrassPostList.term l = []
  /\ BrassPostList.is_doclen_list l = true
  /\ BrassPostList.pos l <> None
  /\ BrassCursor.current_key (BrassPostList.cursor l) = chunk_key done c
  /\ BrassPostList.is_last_chunk l = no_more todo
  /\ BrassPostList.first_did_in_chunk l = fst (hd (0, 0) c)
  /\ BrassPostList.last_did_in_chunk l = fst (last c (0, 0))
  /\ exists r : FixedWidthChunkReader.t,
       BrassPostList.p_doclen_chunk_reader l = Some r
       /\ reader_on c r
       /\ (BrassPostList.is_at_end l = false ->
           FixedWidthChunkReader.is_at_end r = false
           /\ BrassPostList.did l = FixedWidthChunkReader.cur_did r
           /\ BrassPostList.wdf l = FixedWidthChunkReader.cur_length r)
       /\ (BrassPostList.is_at_end l = true -> todo = []).

(** A map of more than [MAX_ENTRIES_IN_CHUNK] entries of the sample
    constants: a run, two entries apart, another run. *)
Definition long_doclens : doclen_map :=
  run_from 1990 1 5 ++ [(3000, 7); (3002, 70000)] ++ run_from 20 4000 1.

(** * Properties *)

(** ** Bytes and machine integers *)

Lemma Z_of_byte_range : forall b : byte, 0 <= Z_of_byte b < 256.
Proof.
  intro b. unfold Z_of_byte.
  pose proof (Byte.to_N_bounded b) as H. lia.
Qed.

Lemma Z_of_byte_of_Z : forall z : Z, Z_of_byte (byte_of_Z z) = z mod 256.
Proof.
  intro z. unfold byte_of_Z, Z_of_byte.
  assert (Hr : 0 <= z mod 256 < 256) by (apply Z.mod_pos_bound; lia).
  destruct (Byte.of_N (Z.to_N (z mod 256))) as [b|] eqn:E.
  - apply Byte.to_of_N in E. rewrite E. lia.
  - apply Byte.of_N_None_iff in E. lia.
Qed.

Lemma Z_of_byte_small : forall z : Z, 0 <= z < 256 -> Z_of_byte (byte_of_Z z) = z.
Proof.
  intros z H. rewrite Z_of_byte_of_Z. apply Z.mod_small. assumption.
Qed.

Lemma Z_of_byte_inj : forall a b : byte, Z_of_byte a = Z_of_byte b -> a = b.
Proof.
  intros a b H. unfold Z_of_byte in H.
  apply N2Z.inj in H.
  pose proof (Byte.of_to_N a) as Ha. pose proof (Byte.of_to_N b) as Hb.
  rewrite H in Ha. rewrite Ha in Hb. congruence.
Qed.

Lemma u32_small : forall z : Z, is_u32 z -> u32 z = z.
Proof.
  intros z H. unfold u32. apply Z.mod_small. exact H.
Qed.

Lemma u32_range : forall z : Z, is_u32 (u32 z).
Proof.
  intro z. unfold is_u32, u32. apply Z.mod_pos_bound. lia.
Qed.

(** ** The codec: what is packed is unpacked *)

Module PackFacts.

Lemma unpack_pack_uint_loop :
  forall (fuel : nat) (value shift acc : Z) (rest : bytes),
    0 <= value < 128 ^ Z.of_nat fuel -> (0 < fuel)%nat ->
    unpack_uint_loop (pack_uint_loop fuel value ++ rest) shift acc =
      if acc + value * shift <? 2 ^ 32
      then Unpacked (acc + value * shift) rest
      else TooLarge.
Proof.
  induction fuel as [|fuel IH]; intros value shift acc rest H Hfuel.
  - lia.
  - cbn [pack_uint_loop].
    destruct (128 <=? value) eqn:E.
    + apply Z.leb_le in E.
      cbn [app unpack_uint_loop].
      assert (Hm : 0 <= value mod 128 < 128) by (apply Z.mod_pos_bound; lia).
      rewrite Z_of_byte_small by lia.
      replace (value mod 128 + 128 <? 128) with false
        by (symmetry; apply Z.ltb_ge; lia).
      replace ((value mod 128 + 128) mod 128) with (value mod 128)
        by (rewrite <- (Z.mul_1_l 128) at 3; rewrite Z.mod_add by lia;
            symmetry; apply Z.mod_mod; lia).
      rewrite IH.
      * rewrite Z.shiftr_div_pow2 by lia.
        replace (acc + value mod 128 * shift + value / 2 ^ 7 * (shift * 128))
          with (acc + value * shift); [reflexivity|].
        change (2 ^ 7) with 128.
        rewrite (Z.div_mod value 128) at 1 by lia. ring.
      * rewrite Z.shiftr_div_pow2 by lia. change (2 ^ 7) with 128.
        rewrite Nat2Z.inj_succ, Z.pow_succ_r in H by lia.
        split; [apply Z.div_pos; lia|].
        apply Z.div_lt_upper_bound; lia.
      * destruct fuel as [|fuel']; [simpl in H; lia|lia].
    + apply Z.leb_gt in E.
      cbn [app unpack_uint_loop].
      rewrite Z_of_byte_small by lia.
      replace (value <? 128) with true by (symmetry; apply Z.ltb_lt; lia).
      rewrite Z.mod_small by lia. reflexivity.
Qed.

Lemma pack_uint_fuel : forall value : Z,
    0 <= value -> value < 128 ^ Z.of_nat (S (Z.to_nat (Z.log2 value))).
Proof.
  intros value H.
  rewrite Nat2Z.inj_succ, Z2Nat.id by apply Z.log2_nonneg.
  destruct (Z.eq_dec value 0) as [->|Hz]; [reflexivity|].
  assert (Hl : value < 2 ^ Z.succ (Z.log2 value))
    by (apply Z.log2_spec; lia).
  eapply Z.lt_le_trans; [exact Hl|].
  apply Z.pow_le_mono_l. lia.
Qed.

Lemma unpack_pack_uint : forall (value : Z) (rest : bytes),
    is_u32 value -> unpack_uint (pack_uint value ++ rest) = Unpacked value rest.
Proof.
  intros value rest [H0 H1]. unfold unpack_uint, pack_uint.
  rewrite unpack_pack_uint_loop;
    [|split; [assumption|apply pack_uint_fuel; assumption]|lia].
  rewrite Z.mul_1_r, Z.add_0_l.
  replace (value <? 2 ^ 32) with true by (symmetry; apply Z.ltb_lt; assumption).
  reflexivity.
Qed.

Lemma pack_uint_loop_length : forall (fuel n : nat) (value : Z),
    0 <= value < 128 ^ Z.of_nat n -> (0 < n)%nat ->
    (length (pack_uint_loop fuel value) <= n)%nat.
Proof.
  induction fuel as [|fuel IH]; intros n value H Hn.
  - simpl. lia.
  - cbn [pack_uint_loop]. destruct (128 <=? value) eqn:E.
    + apply Z.leb_le in E. cbn [length].
      destruct n as [|n]; [lia|].
      destruct n as [|n]; [simpl in H; lia|].
      apply le_n_S. apply IH; [|lia].
      rewrite Z.shiftr_div_pow2 by lia. change (2 ^ 7) with 128.
      rewrite (Nat2Z.inj_succ (S n)), Z.pow_succ_r in H by lia.
      split; [apply Z.div_pos; lia|].
      apply Z.div_lt_upper_bound; lia.
    + simpl. lia.
Qed.

Lemma pack_uint_length : forall value : Z,
    is_u32 value -> (length (pack_uint value) <= 5)%nat.
Proof.
  intros value [H0 H1]. unfold pack_uint.
  apply pack_uint_loop_length; [|lia].
  change (128 ^ Z.of_nat 5) with 34359738368. lia.
Qed.

Lemma unpack_pack_uint_in_bytes_loop :
  forall (n : nat) (value acc : Z) (rest : bytes),
    unpack_uint_in_bytes_loop (pack_uint_in_bytes value n ++ rest) n acc =
      Some (acc * 256 ^ Z.of_nat n + value mod 256 ^ Z.of_nat n, rest).
Proof.
  induction n as [|n IH]; intros value acc rest.
  - cbn [pack_uint_in_bytes app unpack_uint_in_bytes_loop].
    change (Z.of_nat 0) with 0.
    rewrite Z.pow_0_r, Z.mod_1_r, Z.mul_1_r, Z.add_0_r. reflexivity.
  - cbn [pack_uint_in_bytes app unpack_uint_in_bytes_loop].
    rewrite IH, Z_of_byte_of_Z.
    f_equal. f_equal.
    rewrite Z.shiftr_div_pow2 by lia.
    rewrite Nat2Z.inj_succ, Z.pow_succ_r by lia.
    rewrite Z.pow_mul_r by lia. change (2 ^ 8) with 256.
    rewrite (Z.mul_comm 256 (256 ^ Z.of_nat n)).
    assert (Hp : 0 < 256 ^ Z.of_nat n) by (apply Z.pow_pos_nonneg; lia).
    rewrite (Z.rem_mul_r value (256 ^ Z.of_nat n) 256) by lia.
    ring.
Qed.

Lemma unpack_pack_uint_in_bytes : forall (n : nat) (value : Z) (rest : bytes),
    0 <= value < 256 ^ Z.of_nat n ->
    unpack_uint_in_bytes (pack_uint_in_bytes value n ++ rest) n = Some (value, rest).
Proof.
  intros n value rest H. unfold unpack_uint_in_bytes.
  rewrite unpack_pack_uint_in_bytes_loop, Z.mod_small by assumption.
  reflexivity.
Qed.

Lemma pack_uint_in_bytes_length : forall (n : nat) (value : Z),
    length (pack_uint_in_bytes value n) = n.
Proof.
  induction n as [|n IH]; intro value; simpl; [reflexivity|].
  rewrite IH. reflexivity.
Qed.

Lemma unpack_pack_bool : forall (b : bool) (rest : bytes),
    unpack_bool (pack_bool b ++ rest) = Some (b, rest).
Proof.
  intros [|] rest; reflexivity.
Qed.

End PackFacts.

(** ** get_max_bytes *)

Lemma get_max_bytes_loop_bounds : forall (fuel : nat) (n l : Z),
    l <= get_max_bytes_loop fuel n l <= l + Z.of_nat fuel.
Proof.
  induction fuel as [|fuel IH]; intros n l.
  - simpl. lia.
  - cbn [get_max_bytes_loop]. destruct (n =? 0).
    + lia.
    + specialize (IH (Z.shiftr n 8) (l + 1)). lia.
Qed.

Lemma get_max_bytes_range : forall n : Z, 1 <= get_max_bytes n <= 4.
Proof.
  intro n. unfold get_max_bytes.
  destruct (n =? 0) eqn:E; [lia|].
  change (get_max_bytes_loop 4 n 0)
    with (if n =? 0 then 0 else get_max_bytes_loop 3 (Z.shiftr n 8) (0 + 1)).
  rewrite E.
  pose proof (get_max_bytes_loop_bounds 3 (Z.shiftr n 8) (0 + 1)) as Hb.
  change (Z.of_nat 3) with 3 in Hb. lia.
Qed.

Lemma get_max_bytes_loop_fits : forall (fuel : nat) (n l : Z),
    0 <= n < 256 ^ Z.of_nat fuel -> 0 <= l ->
    n < 256 ^ (get_max_bytes_loop fuel n l - l).
Proof.
  induction fuel as [|fuel IH]; intros n l Hn Hl.
  - simpl in *. rewrite Z.sub_diag. simpl. lia.
  - cbn [get_max_bytes_loop]. destruct (n =? 0) eqn:E.
    + apply Z.eqb_eq in E. subst n. rewrite Z.sub_diag. simpl. lia.
    + apply Z.eqb_neq in E.
      rewrite Nat2Z.inj_succ, Z.pow_succ_r in Hn by lia.
      rewrite Z.shiftr_div_pow2 by lia. change (2 ^ 8) with 256.
      assert (Hq : 0 <= n / 256 < 256 ^ Z.of_nat fuel).
      { split; [apply Z.div_pos; lia|apply Z.div_lt_upper_bound; lia]. }
      specialize (IH (n / 256) (l + 1) Hq ltac:(lia)).
      pose proof (get_max_bytes_loop_bounds fuel (n / 256) (l + 1)) as Hb.
      set (r := get_max_bytes_loop fuel (n / 256) (l + 1)) in *.
      replace (r - l) with (Z.succ (r - (l + 1))) by lia.
      rewrite Z.pow_succ_r by lia.
      pose proof (Z.div_mod n 256 ltac:(lia)) as Hdm.
      pose proof (Z.mod_pos_bound n 256 ltac:(lia)) as Hm.
      lia.
Qed.

Lemma get_max_bytes_fits : forall n : Z,
    is_u32 n -> n < 256 ^ get_max_bytes n.
Proof.
  intros n [H0 H1]. unfold get_max_bytes.
  destruct (n =? 0) eqn:E.
  - apply Z.eqb_eq in E. subst n. reflexivity.
  - pose proof (get_max_bytes_loop_fits 4 n 0) as H.
    rewrite Z.sub_0_r in H. apply H; [|lia].
    change (256 ^ Z.of_nat 4) with (2 ^ 32). lia.
Qed.

(** ** Well-formed maps *)

Lemma is_u32b_true : forall z : Z, is_u32b z = true <-> is_u32 z.
Proof.
  intro z. unfold is_u32b, is_u32.
  rewrite andb_true_iff, Z.leb_le, Z.ltb_lt. reflexivity.
Qed.

Lemma ascending_from_cons : forall (d d' len : Z) (m : doclen_map),
    ascending_from d ((d', len) :: m) = true <->
    d < d' /\ is_u32 d' /\ is_u32 len /\ ascending_from d' m = true.
Proof.
  intros d d' len m. cbn [ascending_from].
  rewrite !andb_true_iff, Z.ltb_lt, !is_u32b_true. tauto.
Qed.

Lemma ascending_from_weaken : forall (m : doclen_map) (d d' : Z),
    d' <= d -> ascending_from d m = true -> ascending_from d' m = true.
Proof.
  intros [|[d0 len] m] d d' Hle H; [reflexivity|].
  apply ascending_from_cons in H. apply ascending_from_cons.
  intuition lia.
Qed.

Lemma well_formed_map_ascending : forall m : doclen_map,
    well_formed_map m = true -> ascending_from 0 m = true.
Proof.
  intros [|[d len] m] H; [reflexivity|].
  cbn [well_formed_map] in H.
  rewrite !andb_true_iff, Z.leb_le, !is_u32b_true in H.
  apply ascending_from_cons. intuition lia.
Qed.

Lemma last_nonempty_default : forall (A : Type) (l : list A) (x d1 d2 : A),
    last (x :: l) d1 = last (x :: l) d2.
Proof.
  intros A l. induction l as [|y l IH]; intros x d1 d2; [reflexivity|].
  change (last (y :: l) d1 = last (y :: l) d2). apply IH.
Qed.

Lemma last_docid_of_cons : forall (d0 len d : Z) (m : doclen_map),
    last_docid_of ((d0, len) :: m) d = last_docid_of m d0.
Proof.
  intros d0 len d m. unfold last_docid_of.
  destruct m as [|e m]; [reflexivity|].
  change (fst (last (e :: m) (d, 0)) = fst (last (e :: m) (d0, 0))).
  f_equal. apply last_nonempty_default.
Qed.

Lemma ascending_from_app : forall (a b : doclen_map) (d : Z),
    ascending_from d (a ++ b) = true ->
    ascending_from d a = true /\ ascending_from (last_docid_of a d) b = true.
Proof.
  induction a as [|[d0 len] a IH]; intros b d H.
  - split; [reflexivity|exact H].
  - cbn [app] in H. apply ascending_from_cons in H.
    destruct H as (Hlt & Hd & Hl & H).
    apply IH in H. destruct H as [Ha Hb].
    split.
    + apply ascending_from_cons. tauto.
    + rewrite last_docid_of_cons. exact Hb.
Qed.

Lemma ascending_from_below : forall (m : doclen_map) (d : Z),
    ascending_from d m = true -> Forall (fun e => d < fst e) m.
Proof.
  induction m as [|[d0 len] m IH]; intros d H; constructor.
  - apply ascending_from_cons in H. simpl. lia.
  - apply ascending_from_cons in H. destruct H as (Hlt & _ & _ & H).
    apply IH in H. eapply Forall_impl; [|exact H]. simpl. intros; lia.
Qed.

(** ** The scan of FixedWidthChunk::encode *)

Section ScanFacts.
Context {T : Tunables}.

(** What the scan advanced over: a prefix of what it was given, of
    consecutive docids, none needing more than [max_bytes] bytes. *)
Lemma encode_scan_passed :
  forall (it : doclen_map) (last_docid max_bytes used good n : Z)
         (n' u' g' : Z) (passed it_end : doclen_map),
    encode_scan it last_docid max_bytes used good n = (n', u', g', passed, it_end) ->
    ascending_from last_docid it = true ->
    0 <= last_docid ->
    it = passed ++ it_end /\
    consecutive_from last_docid passed /\
    Forall (fun e => get_max_bytes (snd e) <= max_bytes) passed.
Proof.
  induction it as [|[cur len] it IH];
    intros last_docid max_bytes used good n n' u' g' passed it_end E Hasc H0.
  - cbn [encode_scan] in E. inversion E; subst. repeat split; constructor.
  - cbn [encode_scan] in E.
    apply ascending_from_cons in Hasc. destruct Hasc as (Hlt & Hd & Hl & Hasc).
    destruct (negb (cur =? u32 (last_docid + 1)) || (max_bytes <? get_max_bytes len))
      eqn:Ebreak.
    + inversion E; subst. repeat split; constructor.
    + apply orb_false_iff in Ebreak. destruct Ebreak as [Ecur Ebytes].
      apply negb_false_iff, Z.eqb_eq in Ecur. apply Z.ltb_ge in Ebytes.
      rewrite u32_small in Ecur by (destruct Hd; split; lia).
      destruct (ratio_too_small (u32 (good + get_max_bytes len)) (u32 (used + max_bytes))).
      * inversion E; subst. repeat split; constructor.
      * destruct (encode_scan it cur max_bytes (u32 (used + max_bytes))
                              (u32 (good + get_max_bytes len)) (u32 (n + 1)))
          as [[[[n1 u1] g1] passed1] it1] eqn:Erec.
        inversion E; subst.
        apply IH in Erec; [|assumption|lia].
        destruct Erec as (Happ & Hcons & Hall).
        split; [cbn [app]; f_equal; exact Happ|].
        split; [cbn [consecutive_from]; split; [reflexivity|exact Hcons]|].
        constructor; [exact Ebytes|exact Hall].
Qed.

(** The count the scan returns is the count it was given plus the number
    of entries it advanced over. *)
Lemma encode_scan_count :
  forall (it : doclen_map) (last_docid max_bytes used good n : Z)
         (n' u' g' : Z) (passed it_end : doclen_map),
    encode_scan it last_docid max_bytes used good n = (n', u', g', passed, it_end) ->
    0 <= n -> n + Z.of_nat (length it) < 2 ^ 32 ->
    n' = n + Z.of_nat (length passed).
Proof.
  induction it as [|[cur len] it IH];
    intros last_docid max_bytes used good n n' u' g' passed it_end E H0 Hn.
  - cbn [encode_scan] in E. inversion E; subst. simpl. lia.
  - cbn [encode_scan] in E.
    destruct (negb (cur =? u32 (last_docid + 1)) || (max_bytes <? get_max_bytes len)).
    + inversion E; subst. simpl. lia.
    + destruct (ratio_too_small (u32 (good + get_max_bytes len)) (u32 (used + max_bytes))).
      * inversion E; subst. simpl. lia.
      * destruct (encode_scan it cur max_bytes (u32 (used + max_bytes))
                              (u32 (good + get_max_bytes len)) (u32 (n + 1)))
          as [[[[n1 u1] g1] passed1] it1] eqn:Erec.
        inversion E; subst.
        cbn [length] in Hn. rewrite Nat2Z.inj_succ in Hn.
        rewrite (u32_small (n + 1)) in Erec by (split; lia).
        apply IH in Erec; [|lia|lia].
        cbn [length]. rewrite Nat2Z.inj_succ. lia.
Qed.

(** The last entry the scan accepted passed the ratio test, and the test
    saw the counters summed over all the entries accepted. *)
Lemma encode_scan_ratio :
  forall (it : doclen_map) (last_docid max_bytes used good n : Z)
         (n' u' g' : Z) (passed it_end : doclen_map),
    encode_scan it last_docid max_bytes used good n = (n', u', g', passed, it_end) ->
    0 <= good <= used -> 1 <= max_bytes ->
    used + max_bytes * Z.of_nat (length it) < 2 ^ 32 ->
    passed <> [] ->
    ratio_too_small (sum_good passed good) (sum_used max_bytes passed used) = false
    /\ 0 < sum_used max_bytes passed used.
Proof.
  induction it as [|[cur len] it IH];
    intros last_docid max_bytes used good n n' u' g' passed it_end E Hg Hmb Hu Hne.
  - cbn [encode_scan] in E. inversion E; subst. contradiction.
  - cbn [encode_scan] in E.
    destruct (negb (cur =? u32 (last_docid + 1)) || (max_bytes <? get_max_bytes len))
      eqn:Ebreak.
    + inversion E; subst. contradiction.
    + apply orb_false_iff in Ebreak. destruct Ebreak as [_ Ebytes].
      apply Z.ltb_ge in Ebytes.
      pose proof (get_max_bytes_range len) as Hlen.
      cbn [length] in Hu. rewrite Nat2Z.inj_succ in Hu.
      assert (Hused : u32 (used + max_bytes) = used + max_bytes)
        by (apply u32_small; split; nia).
      assert (Hgood : u32 (good + get_max_bytes len) = good + get_max_bytes len)
        by (apply u32_small; split; nia).
      rewrite Hused, Hgood in E.
      destruct (ratio_too_small (good + get_max_bytes len) (used + max_bytes))
        eqn:Eratio.
      * inversion E; subst. contradiction.
      * destruct (encode_scan it cur max_bytes (used + max_bytes)
                              (good + get_max_bytes len) (u32 (n + 1)))
          as [[[[n1 u1] g1] passed1] it1] eqn:Erec.
        inversion E; subst.
        unfold sum_good, sum_used. cbn [fold_left snd].
        destruct passed1 as [|e passed1].
        -- cbn [fold_left]. split; [exact Eratio|lia].
        -- apply IH in Erec; [exact Erec|lia|lia|nia|discriminate].
Qed.

End ScanFacts.

(** ** The blocks of FixedWidthChunk::encode *)

Section BlockFacts.
Context {T : Tunables}.

Lemma encode_loop_blocks : forall (fuel : nat) (it : doclen_map) (d : docid),
    encode_loop fuel it d = flat_map block_bytes (encode_blocks fuel it d).
Proof.
  induction fuel as [|fuel IH]; intros it d; [reflexivity|].
  destruct it as [|[d0 l0] it1]; [reflexivity|].
  cbn [encode_loop encode_blocks].
  destruct (encode_scan it1 d0 (get_max_bytes l0) 0 0 1)
    as [[[[n u] g] passed] it'].
  cbn [flat_map]. rewrite IH.
  destruct (DOCLEN_CHUNK_MIN_CONTIGUOUS_LENGTH <? n);
    cbn [block_bytes hd fst]; rewrite <- ?app_assoc; reflexivity.
Qed.

Lemma last_docid_of_ascending : forall (m : doclen_map) (d : Z),
    ascending_from d m = true -> d <= last_docid_of m d.
Proof.
  induction m as [|[d0 len] m IH]; intros d H.
  - unfold last_docid_of. simpl. lia.
  - apply ascending_from_cons in H. destruct H as (Hlt & _ & _ & H).
    rewrite last_docid_of_cons. apply IH in H. lia.
Qed.

Lemma sum_used_nonneg_step : forall (passed : doclen_map) (max_bytes used : Z),
    sum_used max_bytes passed used = used + max_bytes * Z.of_nat (length passed).
Proof.
  induction passed as [|e passed IH]; intros max_bytes used.
  - simpl. lia.
  - unfold sum_used in *. cbn [fold_left length]. rewrite IH, Nat2Z.inj_succ. lia.
Qed.

(** Every fixed width block: consecutive docids, a run longer than the
    minimum, and counters that pass the ratio test. *)
Lemma encode_blocks_fixed_width :
  forall (fuel : nat) (it : doclen_map) (d : docid),
    ascending_from 0 it = true ->
    Z.of_nat (length it) <= 2 ^ 30 ->
    forall (before n max_bytes : Z) (entries : doclen_map),
      In (FixedWidthBlock before n max_bytes entries) (encode_blocks fuel it d) ->
      consecutive entries /\
      DOCLEN_CHUNK_MIN_CONTIGUOUS_LENGTH < n /\
      n = Z.of_nat (length entries) /\
      (1 < n -> 0 < run_used_bytes max_bytes entries) /\
      RATIO_NUM * run_used_bytes max_bytes entries
        <= run_good_bytes entries * RATIO_DEN.
Proof.
  induction fuel as [|fuel IH]; intros it d Hasc Hlen before n max_bytes entries Hin.
  - contradiction.
  - destruct it as [|[d0 l0] it1]; [contradiction|].
    cbn [encode_blocks] in Hin.
    apply ascending_from_cons in Hasc. destruct Hasc as (Hd0 & _ & _ & Hasc).
    cbn [length] in Hlen. rewrite Nat2Z.inj_succ in Hlen.
    destruct (encode_scan it1 d0 (get_max_bytes l0) 0 0 1)
      as [[[[n1 u1] g1] passed] it'] eqn:Escan.
    pose proof (encode_scan_passed _ _ _ _ _ _ _ _ _ _ _ Escan Hasc ltac:(lia))
      as (Happ & Hcons & Hall).
    pose proof (encode_scan_count _ _ _ _ _ _ _ _ _ _ _ Escan ltac:(lia) ltac:(lia))
      as Hcount.
    pose proof (get_max_bytes_range l0) as Hmb.
    destruct Hin as [Hhead|Hrest].
    + destruct (DOCLEN_CHUNK_MIN_CONTIGUOUS_LENGTH <? n1) eqn:Emin;
        [|discriminate].
      inversion Hhead; subst before n max_bytes entries. clear Hhead.
      apply Z.ltb_lt in Emin.
      split; [exact Hcons|]. split; [exact Emin|].
      split; [cbn [length]; rewrite Nat2Z.inj_succ; lia|].
      unfold run_used_bytes, run_good_bytes. cbn [tl].
      destruct passed as [|e passed].
      * split; [simpl in Hcount; lia|]. unfold sum_used, sum_good. simpl. lia.
      * assert (Hfit : 0 + get_max_bytes l0 * Z.of_nat (length it1) < 2 ^ 32) by nia.
        pose proof (encode_scan_ratio _ _ _ _ _ _ _ _ _ _ _ Escan
                      ltac:(lia) ltac:(lia) Hfit ltac:(discriminate))
          as [Hratio Hpos].
        split; [intros _; exact Hpos|].
        unfold ratio_too_small in Hratio. apply Z.ltb_ge in Hratio. exact Hratio.
    + eapply (IH it' (last_docid_of ((d0, l0) :: passed) d)); [| |exact Hrest].
      * rewrite Happ in Hasc. apply ascending_from_app in Hasc.
        destruct Hasc as [Hp Hit'].
        apply last_docid_of_ascending in Hp.
        eapply ascending_from_weaken; [|exact Hit']. lia.
      * rewrite Happ, length_app, Nat2Z.inj_add in Hlen. lia.
Qed.

End BlockFacts.

(** C6: the chunk body [encode] appends is the bytes of the blocks of
    [encode_blocks], and every fixed width block among them covers
    docids that are consecutive, has a run length greater than the
    minimum (the run length being the number of its entries), and has
    good_bytes and used_bytes, summed over the run as the scan sums them,
    in a ratio of at least the minimum ratio. *)
Theorem dense_block_admission :
  forall (T : Tunables) (pl : doclen_map) (desired_chunk : bytes),
    well_formed_map pl = true ->
    Z.of_nat (length pl) <= 2 ^ 30 ->
    snd (encode pl desired_chunk) =
      desired_chunk
        ++ flat_map block_bytes (encode_blocks (length pl) pl (fst (hd (0, 0) pl)))
    /\
    forall (before n max_bytes : Z) (entries : doclen_map),
      In (FixedWidthBlock before n max_bytes entries)
         (encode_blocks (length pl) pl (fst (hd (0, 0) pl))) ->
      consecutive entries /\
      DOCLEN_CHUNK_MIN_CONTIGUOUS_LENGTH < n /\
      n = Z.of_nat (length entries) /\
      (1 < n -> 0 < run_used_bytes max_bytes entries) /\
      RATIO_NUM * run_used_bytes max_bytes entries
        <= run_good_bytes entries * RATIO_DEN.
Proof.
  intros T pl desired_chunk Hwf Hlen. split.
  - destruct pl as [|[d0 l0] pl]; [simpl; rewrite app_nil_r; reflexivity|].
    cbn [encode snd hd fst]. rewrite encode_loop_blocks. reflexivity.
  - intros before n max_bytes entries Hin.
    eapply encode_blocks_fixed_width; [|exact Hlen|exact Hin].
    apply well_formed_map_ascending. exact Hwf.
Qed.

Lemma dense_block_admission_witness :
  well_formed_map dense_run = true /\
  Z.of_nat (length dense_run) <= 2 ^ 30 /\
  In (FixedWidthBlock 3 9 2 (firstn 9 (skipn 1 dense_run)))
     (@encode_blocks sample_tunables (length dense_run) dense_run 3) /\
  consecutive (firstn 9 (skipn 1 dense_run)).
Proof.
  split; [reflexivity|]. split; [vm_compute; discriminate|].
  split; [vm_compute; auto|].
  destruct (dense_block_admission sample_tunables dense_run []
              eq_refl ltac:(vm_compute; discriminate)) as [_ H].
  apply (H 3 9 2). vm_compute. auto.
Defined.

(** ** Reading back what FixedWidthChunk::encode wrote *)

Module DecodeFacts.

Import FixedWidthChunkReader DoclenChunkWriter.

Lemma unchecked_pack_uint : forall (value : Z) (rest : bytes),
    is_u32 value -> unchecked_uint (pack_uint value ++ rest) = Ok (value, rest).
Proof.
  intros value rest H. unfold unchecked_uint.
  rewrite PackFacts.unpack_pack_uint by exact H. reflexivity.
Qed.

Lemma unchecked_pack_uint_in_bytes : forall (n value : Z) (rest : bytes),
    0 <= n -> 0 <= value < 256 ^ n ->
    unchecked_uint_in_bytes (pack_uint_in_bytes value (Z.to_nat n) ++ rest) n =
      Ok (value, rest).
Proof.
  intros n value rest Hn H. unfold unchecked_uint_in_bytes.
  rewrite PackFacts.unpack_pack_uint_in_bytes; [reflexivity|].
  rewrite Z2Nat.id by exact Hn. exact H.
Qed.

Lemma unchecked_pack_uint_in_bytes_nat : forall (n : nat) (value : Z) (rest : bytes),
    0 <= value < 256 ^ Z.of_nat n ->
    unchecked_uint_in_bytes (pack_uint_in_bytes value n ++ rest) (Z.of_nat n) =
      Ok (value, rest).
Proof.
  intros n value rest H.
  rewrite <- (Nat2Z.id n) at 1.
  apply unchecked_pack_uint_in_bytes; [lia|exact H].
Qed.

Lemma unpack_uint_loop_shorter : forall (p : bytes) (shift acc value : Z) (rest : bytes),
    unpack_uint_loop p shift acc = Unpacked value rest ->
    (length rest < length p)%nat.
Proof.
  induction p as [|b p IH]; intros shift acc value rest H; [discriminate|].
  cbn [unpack_uint_loop] in H.
  destruct (Z_of_byte b <? 128).
  - destruct (acc + Z_of_byte b mod 128 * shift <? 2 ^ 32); [|discriminate].
    inversion H; subst. simpl. lia.
  - apply IH in H. simpl. lia.
Qed.

Lemma unchecked_uint_shorter : forall (p : bytes) (value : Z) (rest : bytes),
    unchecked_uint p = Ok (value, rest) -> (length rest < length p)%nat.
Proof.
  intros p value rest H. unfold unchecked_uint in H.
  destruct (unpack_uint p) as [v r| |] eqn:E; try discriminate.
  inversion H; subst. eapply unpack_uint_loop_shorter. exact E.
Qed.

Lemma unpack_uint_in_bytes_loop_shorter :
  forall (n : nat) (p : bytes) (acc value : Z) (rest : bytes),
    unpack_uint_in_bytes_loop p n acc = Some (value, rest) ->
    (length rest + n = length p)%nat.
Proof.
  induction n as [|n IH]; intros p acc value rest H.
  - simpl in H. inversion H; subst. lia.
  - cbn [unpack_uint_in_bytes_loop] in H. destruct p as [|b p]; [discriminate|].
    apply IH in H. simpl. lia.
Qed.

Lemma unchecked_uint_in_bytes_shorter : forall (p : bytes) (n value : Z) (rest : bytes),
    unchecked_uint_in_bytes p n = Ok (value, rest) ->
    (length rest <= length p)%nat.
Proof.
  intros p n value rest H. unfold unchecked_uint_in_bytes in H.
  destruct (unpack_uint_in_bytes p (Z.to_nat n)) as [[v r]|] eqn:E; [|discriminate].
  inversion H; subst.
  apply unpack_uint_in_bytes_loop_shorter in E. lia.
Qed.

Lemma read_block_shorter :
  forall (len : nat) (bytes_ : Z) (pos : bytes) (cur_did : docid)
         (m : doclen_map) (pos' : bytes) (cur_did' : docid) (m' : doclen_map),
    read_block len bytes_ pos cur_did m = Ok (pos', cur_did', m') ->
    (length pos' <= length pos)%nat.
Proof.
  induction len as [|len IH]; intros bytes_ pos cur_did m pos' cur_did' m' H.
  - simpl in H. inversion H; subst. lia.
  - cbn [read_block] in H.
    destruct (unchecked_uint_in_bytes pos bytes_) as [[v p]|e] eqn:E;
      cbn [bind] in H; [|discriminate].
    apply unchecked_uint_in_bytes_shorter in E. apply IH in H. lia.
Qed.

(** The loop of [read_old_map] needs no more turns than the chunk has
    bytes. *)
Lemma read_old_map_fuel :
  forall (f1 f2 : nat) (pos : bytes) (cur_did : docid) (m : doclen_map),
    (length pos <= f1)%nat -> (length pos <= f2)%nat ->
    read_old_map f1 pos cur_did m = read_old_map f2 pos cur_did m.
Proof.
  induction f1 as [|f1 IH]; intros f2 pos cur_did m H1 H2.
  - destruct pos; [|simpl in H1; lia]. destruct f2; reflexivity.
  - destruct f2 as [|f2].
    + destruct pos; [reflexivity|simpl in H2; lia].
    + destruct pos as [|b pos]; [reflexivity|].
      cbn [read_old_map].
      destruct (unchecked_uint (b :: pos)) as [[inc p1]|e] eqn:E1;
        cbn [bind]; [|reflexivity].
      apply unchecked_uint_shorter in E1.
      destruct (negb (inc =? SEPERATOR)).
      * destruct (unchecked_uint p1) as [[len p2]|e] eqn:E2;
          cbn [bind]; [|reflexivity].
        apply unchecked_uint_shorter in E2.
        apply IH; simpl in *; lia.
      * destruct (unchecked_uint p1) as [[inc2 p2]|e] eqn:E2;
          cbn [bind]; [|reflexivity].
        apply unchecked_uint_shorter in E2.
        destruct (unchecked_uint_in_bytes p2 2) as [[len p3]|e] eqn:E3;
          cbn [bind]; [|reflexivity].
        apply unchecked_uint_in_bytes_shorter in E3.
        destruct (unchecked_uint_in_bytes p3 1) as [[bytes_ p4]|e] eqn:E4;
          cbn [bind]; [|reflexivity].
        apply unchecked_uint_in_bytes_shorter in E4.
        destruct (read_block (Z.to_nat len) bytes_ p4 (u32 (cur_did + inc2)) m)
          as [[[p5 d5] m5]|e] eqn:E5; cbn [bind]; [|reflexivity].
        apply read_block_shorter in E5.
        apply IH; simpl in *; lia.
Qed.

Lemma insert_last : forall (m : doclen_map) (k : docid) (v : termcount),
    Forall (fun e => fst e < k) m -> DocMap.insert k v m = m ++ [(k, v)].
Proof.
  induction m as [|[k' v'] m IH]; intros k v H; [reflexivity|].
  inversion H as [|? ? Hk Hm]; subst. cbn [fst] in Hk.
  cbn [DocMap.insert app].
  replace (k <? k') with false by (symmetry; apply Z.ltb_ge; lia).
  replace (k =? k') with false by (symmetry; apply Z.eqb_neq; lia).
  rewrite IH by exact Hm. reflexivity.
Qed.

End DecodeFacts.

Module RoundTrip.

Import FixedWidthChunkReader DoclenChunkWriter DecodeFacts.

Lemma pack_uint_nonempty : forall value : Z, pack_uint value <> [].
Proof.
  intro value. unfold pack_uint. cbn [pack_uint_loop].
  destruct (128 <=? value); discriminate.
Qed.

(** One turn of the loop on an entry in the normal format. *)
Lemma read_old_map_normal :
  forall (fuel : nat) (delta len : Z) (rest : bytes) (cur_did : docid)
         (m : doclen_map),
    is_u32 delta -> delta <> SEPERATOR -> is_u32 len ->
    (length (pack_uint delta ++ pack_uint len ++ rest) <= fuel)%nat ->
    read_old_map fuel (pack_uint delta ++ pack_uint len ++ rest) cur_did m =
      read_old_map (length rest) rest (u32 (cur_did + delta))
                   (DocMap.insert (u32 (cur_did + delta)) len m).
Proof.
  intros fuel delta len rest cur_did m Hdelta Hsep Hlen Hfuel.
  destruct (pack_uint delta ++ pack_uint len ++ rest) as [|b pos] eqn:Epos.
  - apply app_eq_nil in Epos. destruct Epos as [Epos _].
    apply pack_uint_nonempty in Epos. contradiction.
  - destruct fuel as [|fuel]; [simpl in Hfuel; lia|].
    cbn [read_old_map]. rewrite <- Epos.
    rewrite unchecked_pack_uint by exact Hdelta. cbn [bind].
    replace (delta =? SEPERATOR) with false
      by (symmetry; apply Z.eqb_neq; exact Hsep).
    cbn [negb]. rewrite unchecked_pack_uint by exact Hlen. cbn [bind].
    apply read_old_map_fuel; [|lia].
    rewrite <- Epos in Hfuel. rewrite !length_app in Hfuel.
    pose proof (pack_uint_nonempty delta) as Hne.
    destruct (pack_uint delta); [contradiction|]. simpl in Hfuel. lia.
Qed.

(** The entries of a fixed width block, read back. *)
Lemma read_block_fixed_width :
  forall (entries : doclen_map) (max_bytes : Z) (rest : bytes)
         (first_did : docid) (m : doclen_map),
    0 <= max_bytes ->
    consecutive_from (first_did - 1) entries ->
    Forall (fun e => is_u32 (fst e) /\ 0 <= snd e < 256 ^ max_bytes) entries ->
    is_u32 first_did ->
    Forall (fun e => fst e < first_did) m ->
    read_block (length entries) max_bytes
               (encode_fixed_width entries max_bytes ++ rest) first_did m =
      Ok (rest, u32 (first_did + Z.of_nat (length entries)), m ++ entries).
Proof.
  induction entries as [|[d len] entries IH];
    intros max_bytes rest first_did m Hmb Hcons Hall Hfirst Hm.
  - cbn [length read_block encode_fixed_width app Z.of_nat].
    rewrite Z.add_0_r, u32_small by exact Hfirst. rewrite app_nil_r. reflexivity.
  - cbn [consecutive_from] in Hcons. destruct Hcons as [Hd Hcons].
    replace (first_did - 1 + 1) with first_did in Hd by lia. subst d.
    inversion Hall as [|? ? [_ Hlen] Hall']; subst. cbn [snd] in Hlen.
    cbn [length read_block encode_fixed_width].
    rewrite <- app_assoc.
    rewrite unchecked_pack_uint_in_bytes by assumption. cbn [bind].
    rewrite insert_last by exact Hm.
    destruct entries as [|[d1 len1] entries].
    + cbn [length read_block encode_fixed_width app]. reflexivity.
    + assert (Hd1 : d1 = first_did + 1)
        by (cbn [consecutive_from] in Hcons; lia).
      assert (Hu : u32 (first_did + 1) = first_did + 1).
      { inversion Hall' as [|? ? [Hu1 _] _]; subst. cbn [fst] in Hu1.
        apply u32_small. exact Hu1. }
      rewrite Hu. rewrite IH.
      * rewrite <- app_assoc. cbn [app]. f_equal. f_equal. f_equal.
        f_equal. cbn [length]. rewrite !Nat2Z.inj_succ. lia.
      * exact Hmb.
      * replace (first_did + 1 - 1) with first_did by lia. exact Hcons.
      * exact Hall'.
      * rewrite <- Hu. apply u32_range.
      * apply Forall_app. split.
        -- eapply Forall_impl; [|exact Hm]. simpl. intros; lia.
        -- constructor; [simpl; lia|constructor].
Qed.

(** One turn of the loop on a block in the fixed width format. *)
Lemma read_old_map_fixed_width :
  forall (fuel : nat) (delta max_bytes : Z) (entries : doclen_map)
         (rest : bytes) (cur_did : docid) (m : doclen_map),
    is_u32 delta ->
    0 < Z.of_nat (length entries) < 65536 ->
    0 <= max_bytes < 256 ->
    consecutive_from (cur_did + delta - 1) entries ->
    Forall (fun e => is_u32 (fst e) /\ 0 <= snd e < 256 ^ max_bytes) entries ->
    is_u32 (cur_did + delta) ->
    Forall (fun e => fst e < cur_did + delta) m ->
    (length (pack_uint SEPERATOR ++ pack_uint delta
               ++ pack_uint_in_bytes (Z.of_nat (length entries)) 2
               ++ pack_uint_in_bytes max_bytes 1
               ++ encode_fixed_width entries max_bytes ++ rest) <= fuel)%nat ->
    read_old_map fuel
      (pack_uint SEPERATOR ++ pack_uint delta
         ++ pack_uint_in_bytes (Z.of_nat (length entries)) 2
         ++ pack_uint_in_bytes max_bytes 1
         ++ encode_fixed_width entries max_bytes ++ rest) cur_did m =
      read_old_map (length rest) rest
                   (cur_did + delta + Z.of_nat (length entries) - 1)
                   (m ++ entries).
Proof.
  intros fuel delta max_bytes entries rest cur_did m
         Hdelta Hn Hmb Hcons Hall Hfirst Hm Hfuel.
  set (tail := pack_uint delta
                 ++ pack_uint_in_bytes (Z.of_nat (length entries)) 2
                 ++ pack_uint_in_bytes max_bytes 1
                 ++ encode_fixed_width entries max_bytes ++ rest) in *.
  destruct (pack_uint SEPERATOR ++ tail) as [|b pos] eqn:Epos.
  - apply app_eq_nil in Epos. destruct Epos as [Epos _].
    apply pack_uint_nonempty in Epos. contradiction.
  - destruct fuel as [|fuel]; [simpl in Hfuel; lia|].
    cbn [read_old_map]. rewrite <- Epos.
    rewrite unchecked_pack_uint by (unfold SEPERATOR, is_u32; lia). cbn [bind].
    rewrite Z.eqb_refl. cbn [negb]. unfold tail.
    rewrite unchecked_pack_uint by exact Hdelta. cbn [bind].
    rewrite (unchecked_pack_uint_in_bytes_nat 2)
      by (change (256 ^ Z.of_nat 2) with 65536; lia).
    cbn [bind].
    rewrite (unchecked_pack_uint_in_bytes_nat 1)
      by (change (256 ^ Z.of_nat 1) with 256; lia).
    cbn [bind].
    rewrite Nat2Z.id, (u32_small (cur_did + delta)) by exact Hfirst.
    rewrite read_block_fixed_width; try assumption; [|lia].
    cbn [bind].
    assert (Hlast : u32 (u32 (cur_did + delta + Z.of_nat (length entries)) - 1)
                    = cur_did + delta + Z.of_nat (length entries) - 1).
    { unfold u32. rewrite Zminus_mod_idemp_l. apply Z.mod_small.
      assert (Hin : forall (es : doclen_map) (d : Z),
                 consecutive_from d es ->
                 Forall (fun e => is_u32 (fst e) /\ 0 <= snd e < 256 ^ max_bytes) es ->
                 es <> [] -> is_u32 (d + Z.of_nat (length es))).
      { induction es as [|[d1 l1] es IHes]; intros d Hc Ha Hne; [contradiction|].
        cbn [consecutive_from] in Hc. destruct Hc as [-> Hc].
        inversion Ha as [|? ? [Hu _] Ha']; subst. cbn [fst] in Hu.
        destruct es as [|e es].
        - simpl. replace (d + 1) with (d + 1) in Hu by lia. exact Hu.
        - specialize (IHes (d + 1) Hc Ha' ltac:(discriminate)).
          cbn [length] in *. rewrite !Nat2Z.inj_succ in *.
          replace (d + Z.succ (Z.succ (Z.of_nat (length es))))
            with (d + 1 + Z.succ (Z.of_nat (length es))) by lia.
          exact IHes. }
      specialize (Hin entries (cur_did + delta - 1) Hcons Hall).
      assert (Hne : entries <> []) by (destruct entries; [simpl in Hn; lia|discriminate]).
      specialize (Hin Hne).
      replace (cur_did + delta - 1 + Z.of_nat (length entries))
        with (cur_did + delta + Z.of_nat (length entries) - 1) in Hin by lia.
      exact Hin. }
    rewrite Hlast.
    apply read_old_map_fuel; [|lia].
    rewrite <- Epos in Hfuel. unfold tail in Hfuel.
    rewrite !length_app in Hfuel.
    pose proof (pack_uint_nonempty SEPERATOR) as Hne.
    destruct (pack_uint SEPERATOR); [contradiction|]. simpl in Hfuel. lia.
Qed.

End RoundTrip.

Module RoundTripMain.

Import FixedWidthChunkReader DoclenChunkWriter DecodeFacts RoundTrip.

Lemma encode_normal_cons : forall (d len before : Z) (block : doclen_map),
    encode_normal ((d, len) :: block) before =
      pack_uint (u32 (d - before)) ++ pack_uint len ++ encode_normal block d.
Proof. reflexivity. Qed.

(** A run of entries in the normal format, read back. *)
Lemma read_old_map_normal_block :
  forall (tail : doclen_map) (d0 l0 docid_before : Z) (rest : bytes)
         (m : doclen_map) (fuel : nat),
    1 <= docid_before <= d0 -> is_u32 d0 -> is_u32 l0 ->
    ascending_from d0 tail = true ->
    Forall (fun e => fst e < d0) m ->
    (length (encode_normal ((d0, l0) :: tail) docid_before ++ rest) <= fuel)%nat ->
    read_old_map fuel (encode_normal ((d0, l0) :: tail) docid_before ++ rest)
                 docid_before m =
      read_old_map (length rest) rest (last_docid_of tail d0)
                   (m ++ (d0, l0) :: tail).
Proof.
  induction tail as [|[d1 l1] tail IH];
    intros d0 l0 docid_before rest m fuel Hbefore Hd0 Hl0 Hasc Hm Hfuel;
    rewrite encode_normal_cons in Hfuel |- *;
    rewrite <- !app_assoc in Hfuel |- *;
    assert (Hdelta : u32 (d0 - docid_before) = d0 - docid_before)
      by (apply u32_small; destruct Hd0; split; lia);
    rewrite Hdelta in Hfuel |- *;
    (rewrite read_old_map_normal;
      [|destruct Hd0; split; lia|unfold SEPERATOR; destruct Hd0; lia
       |exact Hl0|exact Hfuel]);
    replace (docid_before + (d0 - docid_before)) with d0 by lia;
    rewrite (u32_small d0) by exact Hd0;
    rewrite insert_last by exact Hm.
  - cbn [encode_normal app]. reflexivity.
  - apply ascending_from_cons in Hasc. destruct Hasc as (Hlt & Hd1 & Hl1 & Hasc).
    rewrite IH; try assumption.
    + rewrite last_docid_of_cons, <- app_assoc. reflexivity.
    + destruct Hd0. lia.
    + apply Forall_app. split.
      * eapply Forall_impl; [|exact Hm]. simpl. intros; lia.
      * constructor; [simpl; lia|constructor].
    + apply Nat.le_refl.
Qed.

Section Loop.
Context {T : Tunables}.

(** What [encode_loop] wrote is read back entry for entry. *)
Lemma read_old_map_encode_loop :
  forall (f : nat) (it : doclen_map) (docid_before : docid) (m : doclen_map),
    (length it <= f)%nat ->
    Z.of_nat (length it) < 65536 ->
    ascending_from 0 it = true ->
    1 <= docid_before ->
    match it with
    | [] => True
    | (d0, _) :: _ => docid_before <= d0 /\ Forall (fun e => fst e < d0) m
    end ->
    read_old_map (length (encode_loop f it docid_before))
                 (encode_loop f it docid_before) docid_before m =
      Ok (m ++ it).
Proof.
  induction f as [|f IH]; intros it docid_before m Hf Hlen Hasc Hbefore Hm.
  - destruct it; [|simpl in Hf; lia]. simpl. rewrite app_nil_r. reflexivity.
  - destruct it as [|[d0 l0] it1]; [simpl; rewrite app_nil_r; reflexivity|].
    destruct Hm as [Hle Hm].
    apply ascending_from_cons in Hasc. destruct Hasc as (Hd0pos & Hd0 & Hl0 & Hasc).
    cbn [length] in Hf, Hlen. rewrite Nat2Z.inj_succ in Hlen.
    cbn [encode_loop].
    destruct (encode_scan it1 d0 (get_max_bytes l0) 0 0 1)
      as [[[[n u] g] passed] it'] eqn:Escan.
    pose proof (encode_scan_passed _ _ _ _ _ _ _ _ _ _ _ Escan Hasc ltac:(lia))
      as (Happ & Hcons & Hall).
    pose proof (encode_scan_count _ _ _ _ _ _ _ _ _ _ _ Escan ltac:(lia) ltac:(lia))
      as Hcount.
    pose proof (get_max_bytes_range l0) as Hmb.
    assert (Hsplit : ascending_from d0 passed = true
                     /\ ascending_from (last_docid_of passed d0) it' = true)
      by (apply ascending_from_app; rewrite <- Happ; exact Hasc).
    destruct Hsplit as [Hpassed Hit'].
    pose proof (last_docid_of_ascending _ _ Hpassed) as Hlast.
    assert (Hlen' : (length it' <= f)%nat /\ Z.of_nat (length it') < 65536)
      by (rewrite Happ, length_app in Hf, Hlen; lia).
    destruct Hlen' as [Hf' Hlen'].
    assert (Hnext :
              match it' with
              | [] => True
              | (d', _) :: _ =>
                  last_docid_of ((d0, l0) :: passed) docid_before <= d'
                  /\ Forall (fun e => fst e < d') (m ++ (d0, l0) :: passed)
              end).
    { destruct it' as [|[d' l'] it'']; [exact I|].
      rewrite last_docid_of_cons.
      apply ascending_from_cons in Hit'. destruct Hit' as (Hd' & _).
      split; [lia|].
      apply Forall_app. split.
      - eapply Forall_impl; [|exact Hm]. simpl. intros; lia.
      - assert (Hbelow : forall (es : doclen_map) (lo : Z),
                   ascending_from lo es = true ->
                   Forall (fun e => fst e <= last_docid_of es lo) es).
        { induction es as [|[a b] es IHes]; intros lo Ha; constructor.
          - rewrite last_docid_of_cons. apply ascending_from_cons in Ha.
            destruct Ha as (_ & _ & _ & Ha).
            apply last_docid_of_ascending in Ha. simpl. lia.
          - rewrite last_docid_of_cons. apply ascending_from_cons in Ha.
            destruct Ha as (_ & _ & _ & Ha). apply IHes. exact Ha. }
        constructor; [simpl; lia|].
        eapply Forall_impl; [|apply (Hbelow passed d0 Hpassed)].
        simpl. intros; lia. }
    assert (Hrec :
              read_old_map
                (length (encode_loop f it'
                           (last_docid_of ((d0, l0) :: passed) docid_before)))
                (encode_loop f it' (last_docid_of ((d0, l0) :: passed) docid_before))
                (last_docid_of passed d0) (m ++ (d0, l0) :: passed)
              = Ok (m ++ (d0, l0) :: it1)).
    { rewrite <- (last_docid_of_cons d0 l0 docid_before passed).
      rewrite IH; try assumption.
      - rewrite <- app_assoc. cbn [app]. rewrite <- Happ. reflexivity.
      - eapply ascending_from_weaken; [|exact Hit']. lia.
      - rewrite last_docid_of_cons. lia. }
    destruct (DOCLEN_CHUNK_MIN_CONTIGUOUS_LENGTH <? n) eqn:Emin.
    + (* a fixed width block *)
      rewrite <- !app_assoc.
      assert (Hdelta : u32 (d0 - docid_before) = d0 - docid_before)
        by (apply u32_small; destruct Hd0; split; lia).
      rewrite Hdelta.
      assert (Hn : n = Z.of_nat (length ((d0, l0) :: passed)))
        by (cbn [length]; rewrite Nat2Z.inj_succ; lia).
      rewrite Hn.
      assert (Hrange : Z.of_nat (length ((d0, l0) :: passed)) < 65536).
      { rewrite Happ, length_app in Hlen. cbn [length].
        rewrite Nat2Z.inj_succ. lia. }
      rewrite read_old_map_fixed_width.
      * replace (docid_before + (d0 - docid_before)
                 + Z.of_nat (length ((d0, l0) :: passed)) - 1)
          with (last_docid_of passed d0); [exact Hrec|].
        clear - Hcons. revert d0 Hcons.
        induction passed as [|[d1 l1] passed IHp]; intros d0 Hcons.
        -- unfold last_docid_of. simpl. lia.
        -- cbn [consecutive_from] in Hcons. destruct Hcons as [-> Hcons].
           rewrite last_docid_of_cons, (IHp _ Hcons).
           cbn [length]. rewrite !Nat2Z.inj_succ. lia.
      * destruct Hd0. split; lia.
      * cbn [length] in *. rewrite Nat2Z.inj_succ in *. lia.
      * lia.
      * replace (docid_before + (d0 - docid_before) - 1) with (d0 - 1) by lia.
        cbn [consecutive_from]. split; [lia|exact Hcons].
      * assert (Hfits : forall len : Z,
                   is_u32 len -> get_max_bytes len <= get_max_bytes l0 ->
                   0 <= len < 256 ^ get_max_bytes l0).
        { intros len Hu Hle'. split; [destruct Hu; lia|].
          eapply Z.lt_le_trans; [apply get_max_bytes_fits; exact Hu|].
          apply Z.pow_le_mono_r; lia. }
        constructor; [split; [exact Hd0|apply Hfits; [exact Hl0|apply Z.le_refl]]|].
        clear - Hall Hpassed Hfits. revert d0 Hpassed.
        induction passed as [|[d1 l1] passed IHp]; intros d0 Hpassed; constructor.
        -- apply ascending_from_cons in Hpassed.
           destruct Hpassed as (_ & Hd1 & Hl1 & _).
           inversion Hall; subst. split; [exact Hd1|apply Hfits; assumption].
        -- apply ascending_from_cons in Hpassed.
           destruct Hpassed as (_ & _ & _ & Hpassed).
           inversion Hall; subst. eapply IHp; eassumption.
      * replace (docid_before + (d0 - docid_before)) with d0 by lia. exact Hd0.
      * replace (docid_before + (d0 - docid_before)) with d0 by lia. exact Hm.
      * apply Nat.le_refl.
    + (* entries in the normal format *)
      rewrite read_old_map_normal_block;
        [exact Hrec|lia|exact Hd0|exact Hl0|exact Hpassed|exact Hm
        |apply Nat.le_refl].
Qed.

End Loop.

End RoundTripMain.

(** C2, as amended: a map of at most 65535 entries, the most that the two
    bytes of a run length can tell, is decoded from what [encode] made of
    it exactly as it was; the maps are those of the table, with 32-bit
    docids from 1 up in ascending order and 32-bit lengths. *)
Theorem encode_decode_round_trip :
  forall (T : Tunables) (M : doclen_map),
    well_formed_map M = true ->
    Z.of_nat (length M) < 65536 ->
    DoclenChunkWriter.decode (snd (encode M [])) (fst (hd (0, 0) M)) = Ok M.
Proof.
  intros T M Hwf Hlen.
  destruct M as [|[d0 l0] M]; [reflexivity|].
  cbn [encode snd hd fst app]. unfold DoclenChunkWriter.decode.
  rewrite RoundTripMain.read_old_map_encode_loop.
  - reflexivity.
  - apply Nat.le_refl.
  - exact Hlen.
  - apply well_formed_map_ascending. exact Hwf.
  - cbn [well_formed_map] in Hwf.
    rewrite !andb_true_iff, Z.leb_le in Hwf. tauto.
  - split; [apply Z.le_refl|constructor].
Qed.

Lemma encode_decode_round_trip_witness :
  well_formed_map dense_run = true /\
  Z.of_nat (length dense_run) < 65536 /\
  DoclenChunkWriter.decode (snd (@encode sample_tunables dense_run [])) 3
    = Ok dense_run.
Proof.
  split; [reflexivity|]. split; [reflexivity|].
  apply (encode_decode_round_trip sample_tunables dense_run); reflexivity.
Defined.

Lemma long_run_head : hd (0, 0) long_run = (1, 0).
Proof. vm_compute. reflexivity. Qed.

Lemma long_run_well_formed : well_formed_map long_run = true.
Proof. vm_compute. reflexivity. Qed.

Lemma long_run_decoded :
  DoclenChunkWriter.decode (snd (@encode sample_tunables long_run []))
                           (fst (hd (0, 0) long_run))
    = Ok [(0, 0)].
Proof. vm_compute. reflexivity. Qed.

(** C2, as stated, fails on a run of 65536 consecutive docids: its length
    does not fit the two bytes of the block header, which then tell of an
    empty block, and the lengths of the run are read as entries in the
    normal format. *)
Lemma round_trip_counterexample :
  long_run <> [] /\
  well_formed_map long_run = true /\
  DoclenChunkWriter.decode (snd (@encode sample_tunables long_run []))
                           (fst (hd (0, 0) long_run))
    <> Ok long_run.
Proof.
  split.
  { intro H. pose proof long_run_head as Hhd. rewrite H in Hhd. discriminate. }
  split; [exact long_run_well_formed|].
  rewrite long_run_decoded. intro H.
  pose proof long_run_head as Hhd.
  apply (f_equal (fun r => match r with
                           | Ok m => hd (0, 0) m
                           | Err _ => (0, 0)
                           end)) in H.
  rewrite Hhd in H. discriminate.
Qed.
(** ** FixedWidthChunkReader::jump_to *)

Module JumpFacts.

Import FixedWidthChunkReader.

(** Every return of true leaves the reader on the desired docid. *)
Lemma jump_to_loop_true :
  forall (fuel : nat) (desired_did : docid) (r r' : t),
    jump_to_loop fuel desired_did r = Ok (true, r') -> cur_did r' = desired_did.
Proof.
  induction fuel as [|fuel IH]; intros desired_did r r' H; [discriminate|].
  cbn [jump_to_loop] in H.
  destruct (pos r) as [|b p]; [discriminate|].
  destruct (unchecked_uint (b :: p)) as [[incre_did p1]|e];
    cbn [bind] in H; [|discriminate].
  destruct (negb (incre_did =? SEPERATOR)).
  - destruct (unchecked_uint p1) as [[len p2]|e]; cbn [bind] in H; [|discriminate].
    destruct (u32 (cur_did r + incre_did) =? desired_did) eqn:Eeq.
    + inversion H; subst r'. cbn [cur_did]. apply Z.eqb_eq. exact Eeq.
    + destruct (desired_did <? u32 (cur_did r + incre_did)); [discriminate|].
      eapply IH. exact H.
  - destruct (unchecked_uint p1) as [[incre2 p2]|e]; cbn [bind] in H; [|discriminate].
    destruct (unchecked_uint_in_bytes p2 2) as [[len p3]|e];
      cbn [bind] in H; [|discriminate].
    destruct (unchecked_uint_in_bytes p3 1) as [[bytes_ p4]|e];
      cbn [bind] in H; [|discriminate].
    destruct (desired_did <? u32 (cur_did r + incre2)).
    + destruct (unchecked_uint_in_bytes p4 bytes_) as [[cl p5]|e];
        cbn [bind] in H; discriminate.
    + destruct (desired_did <=? u32 (u32 (cur_did r + incre2) + len - 1)).
      * destruct (advance p4 _) as [p5|e]; cbn [bind] in H; [|discriminate].
        destruct (unchecked_uint_in_bytes p5 bytes_) as [[cl p6]|e];
          cbn [bind] in H; [|discriminate].
        inversion H; subst r'. reflexivity.
      * destruct (advance p4 _) as [p5|e]; cbn [bind] in H; [|discriminate].
        eapply IH. exact H.
Qed.

Lemma jump_to_true : forall (desired_did : docid) (r r' : t),
    jump_to desired_did r = Ok (true, r') -> get_docid r' = desired_did.
Proof.
  intros desired_did r r' H. unfold jump_to in H. unfold get_docid.
  destruct (cur_did r =? desired_did) eqn:E.
  - inversion H; subst r'. apply Z.eqb_eq. exact E.
  - eapply jump_to_loop_true. exact H.
Qed.

End JumpFacts.

(** The reader alone does not set its end flag in [jump_to]: the reader
    of the chunk body of the documents 1, 100 and 101, asked for docid
    500, returns false and stays on docid 101 with [at_end()] still false.
    The cursor asks its reader only for docids up to the last of the
    chunk. *)
Lemma jump_to_past_last_docid :
  exists r : FixedWidthChunkReader.t,
    (r0 <- FixedWidthChunkReader.make sparse_body 1 ;;
     FixedWidthChunkReader.jump_to 500 r0) = Ok (false, r)
    /\ FixedWidthChunkReader.at_end r = false
    /\ FixedWidthChunkReader.get_docid r = 101.
Proof.
  eexists. split; [vm_compute; reflexivity|]. split; reflexivity.
Qed.

(** ** DoclenChunkWriter::get_new_doclen *)

(** C3, where the code falls short of it: on the chunk that holds the
    one document 5, the changes "delete 5, set 7 to 3" erase the last
    node of the map and then read through the iterator that has reached
    [end()], which has no defined result; the claim asks for the map with
    the one document 7. *)
Theorem get_new_doclen_delete_last_then_insert :
  DoclenChunkWriter.get_new_doclen
    (DoclenChunkWriter.mk single_chunk [(5, SEPERATOR); (7, 3)] false 5 [] false)
  = Err UndefinedBehaviour.
Proof.
  vm_compute. reflexivity.
Qed.

(** ** The table: keys in order *)

Module TableFacts.

Import BrassTable.

Lemma key_compare_refl : forall a : bytes, key_compare a a = Eq.
Proof.
  induction a as [|x a IH]; [reflexivity|].
  cbn [key_compare]. rewrite Z.compare_refl. exact IH.
Qed.

Lemma key_compare_eq : forall a b : bytes, key_compare a b = Eq -> a = b.
Proof.
  induction a as [|x a IH]; intros [|y b] H; try discriminate; [reflexivity|].
  cbn [key_compare] in H.
  destruct (Z_of_byte x ?= Z_of_byte y) eqn:E; try discriminate.
  apply Z.compare_eq in E. apply Z_of_byte_inj in E. subst y.
  f_equal. apply IH. exact H.
Qed.

Lemma key_compare_antisym : forall a b : bytes,
    key_compare b a = CompOpp (key_compare a b).
Proof.
  induction a as [|x a IH]; intros [|y b]; try reflexivity.
  cbn [key_compare]. rewrite (Z.compare_antisym (Z_of_byte x) (Z_of_byte y)).
  destruct (Z_of_byte x ?= Z_of_byte y); cbn [CompOpp]; auto.
Qed.

Lemma key_compare_gt_lt : forall a b : bytes,
    key_compare a b = Gt <-> key_compare b a = Lt.
Proof.
  intros a b. rewrite (key_compare_antisym a b).
  destruct (key_compare a b); cbn [CompOpp]; split; congruence.
Qed.

Lemma key_compare_trans : forall a b c : bytes,
    key_compare a b = Lt -> key_compare b c = Lt -> key_compare a c = Lt.
Proof.
  induction a as [|x a IH]; intros [|y b] [|z c] Hab Hbc;
    try discriminate; try reflexivity.
  cbn [key_compare] in *.
  destruct (Z_of_byte x ?= Z_of_byte y) eqn:Exy; try discriminate;
    destruct (Z_of_byte y ?= Z_of_byte z) eqn:Eyz; try discriminate.
  - apply Z.compare_eq in Exy, Eyz. rewrite Exy, Eyz, Z.compare_refl.
    eapply IH; eassumption.
  - apply Z.compare_eq in Exy. rewrite Exy, Eyz. reflexivity.
  - apply Z.compare_eq in Eyz. rewrite <- Eyz, Exy. reflexivity.
  - rewrite Z.compare_lt_iff in Exy, Eyz.
    replace (Z_of_byte x ?= Z_of_byte z) with Lt; [reflexivity|].
    symmetry. apply Z.compare_lt_iff. lia.
Qed.

Lemma key_ltb_lt : forall a b : bytes, key_ltb a b = true <-> key_compare a b = Lt.
Proof.
  intros a b. unfold key_ltb. destruct (key_compare a b); split; congruence.
Qed.

Lemma sorted_from_cons : forall (k k' tag : bytes) (table : t),
    sorted_from k ((k', tag) :: table) = true <->
    key_compare k k' = Lt /\ sorted_from k' table = true.
Proof.
  intros k k' tag table. cbn [sorted_from].
  rewrite andb_true_iff, key_ltb_lt. reflexivity.
Qed.

Lemma sorted_from_weaken : forall (table : t) (k k' : bytes),
    key_compare k' k = Lt -> sorted_from k table = true ->
    sorted_from k' table = true.
Proof.
  intros [|[k0 tag] table] k k' Hlt H; [reflexivity|].
  apply sorted_from_cons in H. apply sorted_from_cons.
  destruct H as [H1 H2]. split; [|exact H2].
  eapply key_compare_trans; eassumption.
Qed.

Lemma sorted_from_above : forall (table : t) (k k' tag : bytes),
    sorted_from k table = true -> In (k', tag) table -> key_compare k k' = Lt.
Proof.
  induction table as [|[k0 tag0] table IH]; intros k k' tag H Hin; [contradiction|].
  apply sorted_from_cons in H. destruct H as [H1 H2].
  destruct Hin as [Heq|Hin].
  - inversion Heq; subst. exact H1.
  - eapply key_compare_trans; [exact H1|]. eapply IH; eassumption.
Qed.

Lemma sorted_tail : forall (k tag : bytes) (table : t),
    sorted ((k, tag) :: table) = true -> sorted table = true.
Proof.
  intros k tag [|[k' tag'] table] H; [reflexivity|].
  cbn [sorted] in *. apply sorted_from_cons in H. tauto.
Qed.

(** Looking an entry up in a table in order. *)
Lemma get_exact_entry_above : forall (table : t) (k key : bytes),
    sorted_from k table = true -> key_compare key k <> Gt ->
    get_exact_entry key table = None.
Proof.
  intros [|[k0 tag0] table] k key H Hk; [reflexivity|].
  apply sorted_from_cons in H. destruct H as [H1 H2].
  cbn [get_exact_entry].
  assert (Hlt : key_compare key k0 = Lt).
  { destruct (key_compare key k) eqn:E; try congruence.
    - apply key_compare_eq in E. subst. exact H1.
    - eapply key_compare_trans; eassumption. }
  rewrite Hlt. reflexivity.
Qed.

Lemma get_exact_entry_add : forall (table : t) (key tag key' : bytes),
    sorted table = true ->
    get_exact_entry key' (add key tag table) =
      if Key.bytes_eqb key' key then Some tag else get_exact_entry key' table.
Proof.
  intros table key tag key' Hs.
  unfold Key.bytes_eqb.
  induction table as [|[k tg] table IH].
  - cbn [add get_exact_entry].
    destruct (list_eq_dec Byte.byte_eq_dec key' key) as [->|Hne].
    + rewrite key_compare_refl. reflexivity.
    + destruct (key_compare key' key) eqn:E; try reflexivity.
      apply key_compare_eq in E. contradiction.
  - cbn [add]. destruct (key_compare key k) eqn:Ek.
    + apply key_compare_eq in Ek. subst k. cbn [get_exact_entry].
      destruct (list_eq_dec Byte.byte_eq_dec key' key) as [->|Hne].
      * rewrite key_compare_refl. reflexivity.
      * destruct (key_compare key' key) eqn:E; try reflexivity.
        apply key_compare_eq in E. contradiction.
    + cbn [get_exact_entry].
      destruct (list_eq_dec Byte.byte_eq_dec key' key) as [->|Hne].
      * rewrite key_compare_refl. reflexivity.
      * destruct (key_compare key' key) eqn:E.
        -- apply key_compare_eq in E. contradiction.
        -- replace (key_compare key' k) with Lt
             by (symmetry; eapply key_compare_trans; eassumption).
           reflexivity.
        -- reflexivity.
    + cbn [get_exact_entry].
      destruct (key_compare key' k) eqn:E'; try reflexivity.
      * apply key_compare_eq in E'. subst k.
        destruct (list_eq_dec Byte.byte_eq_dec key' key) as [->|Hne]; [|reflexivity].
        rewrite key_compare_refl in Ek. discriminate.
      * destruct (list_eq_dec Byte.byte_eq_dec key' key) as [->|Hne]; [|reflexivity].
        congruence.
      * apply IH. eapply sorted_tail. exact Hs.
Qed.

Lemma get_exact_entry_del : forall (table : t) (key key' : bytes),
    sorted table = true ->
    get_exact_entry key' (del key table) =
      if Key.bytes_eqb key' key then None else get_exact_entry key' table.
Proof.
  intros table key key' Hs.
  unfold Key.bytes_eqb.
  induction table as [|[k tg] table IH].
  - cbn [del get_exact_entry]. destruct (list_eq_dec _ key' key); reflexivity.
  - cbn [del]. destruct (key_compare key k) eqn:Ek.
    + apply key_compare_eq in Ek. subst k.
      destruct (list_eq_dec Byte.byte_eq_dec key' key) as [->|Hne].
      * eapply get_exact_entry_above; [exact Hs|].
        rewrite key_compare_refl. congruence.
      * cbn [get_exact_entry]. destruct (key_compare key' key) eqn:E.
        -- apply key_compare_eq in E. contradiction.
        -- eapply get_exact_entry_above; [exact Hs|]. congruence.
        -- reflexivity.
    + destruct (list_eq_dec Byte.byte_eq_dec key' key) as [->|Hne]; [|reflexivity].
      cbn [get_exact_entry]. rewrite Ek. reflexivity.
    + cbn [get_exact_entry].
      destruct (key_compare key' k) eqn:E'.
      * apply key_compare_eq in E'. subst k.
        destruct (list_eq_dec Byte.byte_eq_dec key' key) as [->|Hne]; [|reflexivity].
        rewrite key_compare_refl in Ek. discriminate.
      * destruct (list_eq_dec Byte.byte_eq_dec key' key) as [->|Hne]; [|reflexivity].
        congruence.
      * apply IH. eapply sorted_tail. exact Hs.
Qed.

Lemma add_sorted_from : forall (table : t) (k key tag : bytes),
    sorted_from k table = true -> key_compare k key = Lt ->
    sorted_from k (add key tag table) = true.
Proof.
  induction table as [|[k0 tg] table IH]; intros k key tag H Hk.
  - cbn [add]. apply sorted_from_cons. split; [exact Hk|reflexivity].
  - apply sorted_from_cons in H. destruct H as [H1 H2].
    cbn [add]. destruct (key_compare key k0) eqn:E.
    + apply key_compare_eq in E. subst k0.
      apply sorted_from_cons. split; assumption.
    + apply sorted_from_cons. split; [exact Hk|].
      apply sorted_from_cons. split; assumption.
    + apply sorted_from_cons. split; [exact H1|].
      apply IH; [exact H2|]. apply key_compare_gt_lt. exact E.
Qed.

Lemma add_sorted : forall (table : t) (key tag : bytes),
    sorted table = true -> sorted (add key tag table) = true.
Proof.
  intros [|[k0 tg] table] key tag H; [reflexivity|].
  cbn [add]. destruct (key_compare key k0) eqn:E.
  - apply key_compare_eq in E. subst k0. exact H.
  - cbn [sorted]. apply sorted_from_cons. split; [exact E|exact H].
  - cbn [sorted] in *. apply add_sorted_from; [exact H|].
    apply key_compare_gt_lt. exact E.
Qed.

Lemma del_sorted_from : forall (table : t) (k key : bytes),
    sorted_from k table = true -> sorted_from k (del key table) = true.
Proof.
  induction table as [|[k0 tg] table IH]; intros k key H; [reflexivity|].
  apply sorted_from_cons in H. destruct H as [H1 H2].
  cbn [del]. destruct (key_compare key k0) eqn:E.
  - eapply sorted_from_weaken; eassumption.
  - apply sorted_from_cons. split; assumption.
  - apply sorted_from_cons. split; [exact H1|]. apply IH. exact H2.
Qed.

Lemma del_sorted : forall (table : t) (key : bytes),
    sorted table = true -> sorted (del key table) = true.
Proof.
  intros [|[k0 tg] table] key H; [reflexivity|].
  cbn [del]. destruct (key_compare key k0) eqn:E.
  - eapply sorted_tail. exact H.
  - exact H.
  - cbn [sorted] in *. apply del_sorted_from. exact H.
Qed.

End TableFacts.

(** ** Cursors *)

Module CursorFacts.

Import BrassTable TableFacts.

Lemma floor_entry_above : forall (table : t) (k key : bytes) (best : bytes * bytes),
    sorted_from k table = true -> key_compare key k <> Gt ->
    BrassCursor.floor_entry key table best = best.
Proof.
  intros [|[k0 tag0] table] k key best H Hk; [reflexivity|].
  apply sorted_from_cons in H. destruct H as [H1 H2].
  cbn [BrassCursor.floor_entry].
  assert (Hlt : key_compare key k0 = Lt).
  { destruct (key_compare key k) eqn:E; try congruence.
    - apply key_compare_eq in E. subst. exact H1.
    - eapply key_compare_trans; eassumption. }
  apply key_compare_gt_lt in Hlt. rewrite Hlt. reflexivity.
Qed.

Lemma floor_entry_exact : forall (table : t) (key tag : bytes) (best : bytes * bytes),
    sorted table = true -> get_exact_entry key table = Some tag ->
    BrassCursor.floor_entry key table best = (key, tag).
Proof.
  induction table as [|[k tg] table IH]; intros key tag best Hs H; [discriminate|].
  cbn [get_exact_entry] in H. cbn [BrassCursor.floor_entry].
  destruct (key_compare key k) eqn:E.
  - apply key_compare_eq in E. subst k. inversion H; subst tg.
    rewrite key_compare_refl.
    eapply floor_entry_above; [exact Hs|]. rewrite key_compare_refl. congruence.
  - discriminate.
  - apply key_compare_gt_lt in E. rewrite E.
    apply IH; [|exact H]. eapply sorted_tail. exact Hs.
Qed.

Lemma find_entry_exact : forall (table : t) (key tag : bytes),
    sorted table = true -> get_exact_entry key table = Some tag ->
    BrassCursor.find_entry table key = (true, BrassCursor.mk key tag false).
Proof.
  intros table key tag Hs H. unfold BrassCursor.find_entry, key_exists.
  rewrite (floor_entry_exact table key tag) by assumption.
  rewrite H. reflexivity.
Qed.

Lemma higher_entry_gt : forall (table : t) (key k tag : bytes),
    BrassCursor.higher_entry key table = Some (k, tag) -> key_compare key k = Lt.
Proof.
  induction table as [|[k0 tg] table IH]; intros key k tag H; [discriminate|].
  cbn [BrassCursor.higher_entry] in H.
  destruct (key_ltb key k0) eqn:E.
  - inversion H; subst. apply key_ltb_lt. exact E.
  - eapply IH. exact H.
Qed.

End CursorFacts.

(** ** BrassPostList::next_chunk *)

Module NextChunkFacts.

Import BrassPostList.

Lemma unpack_uint_in_bytes_loop_bound :
  forall (n : nat) (p : bytes) (acc value : Z) (rest : bytes),
    unpack_uint_in_bytes_loop p n acc = Some (value, rest) -> 0 <= acc ->
    acc * 256 ^ Z.of_nat n <= value < (acc + 1) * 256 ^ Z.of_nat n.
Proof.
  induction n as [|n IH]; intros p acc value rest H Hacc.
  - cbn [unpack_uint_in_bytes_loop] in H. inversion H; subst.
    change (Z.of_nat 0) with 0. rewrite Z.pow_0_r. lia.
  - cbn [unpack_uint_in_bytes_loop] in H. destruct p as [|b p]; [discriminate|].
    pose proof (Z_of_byte_range b) as Hb.
    apply IH in H; [|lia].
    rewrite Nat2Z.inj_succ, Z.pow_succ_r by lia.
    assert (Hp : 0 < 256 ^ Z.of_nat n) by (apply Z.pow_pos_nonneg; lia).
    nia.
Qed.

Lemma read_uint_preserving_sort_range :
  forall (p : bytes) (value : Z) (rest : bytes),
    Key.read_uint_preserving_sort p = Ok (value, rest) -> is_u32 value.
Proof.
  intros p value rest H.
  unfold Key.read_uint_preserving_sort, Key.unpack_uint_preserving_sort in H.
  destruct p as [|len_byte p]; [discriminate|].
  destruct (unpack_uint_in_bytes p (Z.to_nat (Z_of_byte len_byte)))
    as [[v r]|] eqn:E; [|discriminate].
  destruct (4 <? Z_of_byte len_byte) eqn:E4; [discriminate|].
  inversion H; subst. apply Z.ltb_ge in E4.
  pose proof (Z_of_byte_range len_byte) as Hb.
  apply unpack_uint_in_bytes_loop_bound in E; [|lia].
  rewrite Z2Nat.id in E by lia.
  assert (Hpow : 256 ^ Z_of_byte len_byte <= 256 ^ 4)
    by (apply Z.pow_le_mono_r; lia).
  change (256 ^ 4) with (2 ^ 32) in Hpow.
  unfold is_u32. lia.
Qed.

Lemma encode_opens_with_zero : forall (T : Tunables) (M : doclen_map),
    opens_with_zero (snd (encode M [])).
Proof.
  intros T M. destruct M as [|[d0 l0] M]; [left; reflexivity|].
  right. cbn [encode snd app length encode_loop].
  destruct (encode_scan M d0 (get_max_bytes l0) 0 0 1) as [[[[n u] g] passed] it'].
  rewrite Z.sub_diag. change (u32 0) with 0.
  destruct (DOCLEN_CHUNK_MIN_CONTIGUOUS_LENGTH <? n).
  - right. rewrite <- !app_assoc. eexists. reflexivity.
  - left. cbn [encode_normal]. rewrite Z.sub_diag. change (u32 0) with 0.
    rewrite <- !app_assoc. eexists. reflexivity.
Qed.

Lemma reader_make_opens_with_zero :
  forall (body : bytes) (first_did : docid) (r : FixedWidthChunkReader.t),
    opens_with_zero body -> is_u32 first_did ->
    FixedWidthChunkReader.make body first_did = Ok r ->
    FixedWidthChunkReader.get_docid r = first_did.
Proof.
  intros body first_did r Hopen Hu H.
  unfold FixedWidthChunkReader.make, FixedWidthChunkReader.next in H.
  cbn [FixedWidthChunkReader.init FixedWidthChunkReader.is_at_end
       FixedWidthChunkReader.pos FixedWidthChunkReader.is_in_block
       FixedWidthChunkReader.cur_did andb] in H.
  destruct Hopen as [->|[[rest ->]|[rest ->]]].
  - cbn [bind] in H. inversion H; subst. reflexivity.
  - destruct (pack_uint 0 ++ rest) as [|b p] eqn:Ebody.
    + apply app_eq_nil in Ebody. destruct Ebody as [Ebody _].
      apply RoundTrip.pack_uint_nonempty in Ebody. contradiction.
    + rewrite <- Ebody in H.
      rewrite DecodeFacts.unchecked_pack_uint in H by (unfold is_u32; lia).
      cbn [bind] in H. change (negb (0 =? SEPERATOR)) with true in H. cbv iota in H.
      destruct (FixedWidthChunkReader.unchecked_uint rest) as [[len p']|e];
        cbn [bind] in H; [|discriminate].
      inversion H; subst. cbn [FixedWidthChunkReader.get_docid FixedWidthChunkReader.cur_did].
      rewrite Z.add_0_r. apply u32_small. exact Hu.
  - destruct (pack_uint SEPERATOR ++ pack_uint 0 ++ rest) as [|b p] eqn:Ebody.
    + apply app_eq_nil in Ebody. destruct Ebody as [Ebody _].
      apply RoundTrip.pack_uint_nonempty in Ebody. contradiction.
    + rewrite <- Ebody in H.
      rewrite DecodeFacts.unchecked_pack_uint in H by (unfold is_u32, SEPERATOR; lia).
      cbn [bind] in H. rewrite Z.eqb_refl in H. cbn [negb] in H. cbv iota in H.
      rewrite DecodeFacts.unchecked_pack_uint in H by (unfold is_u32; lia).
      cbn [bind] in H.
      destruct (FixedWidthChunkReader.unchecked_uint_in_bytes rest 2) as [[len p1]|e];
        cbn [bind] in H; [|discriminate].
      destruct (FixedWidthChunkReader.unchecked_uint_in_bytes p1 1) as [[bytes_ p2]|e];
        cbn [bind] in H; [|discriminate].
      destruct (FixedWidthChunkReader.unchecked_uint_in_bytes p2 bytes_) as [[cl p3]|e];
        cbn [bind] in H; [|discriminate].
      inversion H; subst. cbn [FixedWidthChunkReader.get_docid FixedWidthChunkReader.cur_did].
      rewrite Z.add_0_r. apply u32_small. exact Hu.
Qed.

Lemma read_start_of_chunk_body : forall (tag : bytes) (d d' : docid)
    (is_last : bool) (last_did : docid) (body : bytes),
    read_start_of_chunk tag d = Ok (is_last, last_did, body) ->
    exists last_did', read_start_of_chunk tag d' = Ok (is_last, last_did', body).
Proof.
  intros tag d d' is_last last_did body H. unfold read_start_of_chunk in *.
  destruct (read_bool tag) as [[b p]|e]; cbn [bind] in *; [|discriminate].
  destruct (read_uint p) as [[inc p']|e]; cbn [bind] in *; [|discriminate].
  inversion H; subst. eexists. reflexivity.
Qed.

End NextChunkFacts.

(** C8: [next_chunk] on a list whose chunk is not the last one, where the
    table has a next key that carries the term of the list and a first
    docid.  When that docid is not greater than the docid the list stands
    on, the error is DatabaseCorruptError.  Otherwise, once the chunk is
    read, it is the first docid of the chunk, and the docid the list
    stands on: at once for a term list, and for the doclen list through
    the reader of the chunk, which stands on the first docid of a body
    that [encode] wrote. *)
Theorem next_chunk_checks_first_docid :
  forall (table : BrassTable.t) (l : BrassPostList.t)
         (next_key next_tag keypos : bytes) (newdid : docid) (kend : bytes),
    BrassPostList.is_last_chunk l = false ->
    BrassCursor.higher_entry (BrassCursor.current_key (BrassPostList.cursor l)) table
      = Some (next_key, next_tag) ->
    Key.check_tname_in_key_lite next_key (BrassPostList.term l) = (true, keypos) ->
    Key.read_uint_preserving_sort keypos = Ok (newdid, kend) ->
    (newdid <= BrassPostList.did l ->
     BrassPostList.next_chunk table l = Err DatabaseCorruptError)
    /\
    (BrassPostList.did l < newdid ->
     forall l' : BrassPostList.t,
       BrassPostList.next_chunk table l = Ok l' ->
       BrassPostList.first_did_in_chunk l' = newdid
       /\ (BrassPostList.is_doclen_list l = false -> BrassPostList.did l' = newdid)
       /\ (BrassPostList.is_doclen_list l = true ->
           forall (T : Tunables) (M : doclen_map) (is_last : bool)
                  (last_did : docid) (body : bytes),
             read_start_of_chunk next_tag newdid = Ok (is_last, last_did, body) ->
             body = snd (encode M []) ->
             BrassPostList.did l' = newdid)).
Proof.
  intros table l next_key next_tag keypos newdid kend Hlast Hnext Hterm Hkey.
  unfold BrassPostList.next_chunk. rewrite Hlast.
  unfold BrassCursor.next. rewrite Hnext.
  cbn [BrassCursor.after_end BrassCursor.is_after_end BrassCursor.current_key
       BrassCursor.current_tag].
  rewrite Hterm. cbn [negb]. rewrite Hkey. cbn [bind].
  split.
  - intro Hle. apply Z.leb_le in Hle. rewrite Hle. reflexivity.
  - intros Hlt l' H.
    replace (newdid <=? BrassPostList.did l) with false in H
      by (symmetry; apply Z.leb_gt; exact Hlt).
    destruct (read_start_of_chunk next_tag newdid) as [[[il last_did] pos]|e] eqn:Ehdr;
      cbn [bind] in H; [|discriminate].
    unfold BrassPostList.enter_chunk in H.
    destruct (BrassPostList.is_doclen_list l) eqn:Edoclen; cbn [negb] in H.
    + cbn [BrassCursor.current_tag] in H.
      destruct (DoclenChunkReader.make next_tag false newdid) as [r|e] eqn:Er;
        cbn [bind] in H; [|discriminate].
      inversion H; subst l'. cbn [BrassPostList.first_did_in_chunk BrassPostList.did].
      split; [reflexivity|]. split; [discriminate|].
      intros _ T M is_last last_did' body Hbody Hencode.
      assert (Hpos : pos = snd (encode M [])) by congruence. clear Hbody.
      unfold DoclenChunkReader.make in Er. cbn [bind] in Er.
      destruct (NextChunkFacts.read_start_of_chunk_body _ _ 0 _ _ _ Ehdr)
        as [last0 E0].
      rewrite E0 in Er. cbn [bind] in Er.
      unfold DoclenChunkReader.get_docid.
      eapply NextChunkFacts.reader_make_opens_with_zero; [| |exact Er].
      * rewrite Hpos. apply NextChunkFacts.encode_opens_with_zero.
      * eapply NextChunkFacts.read_uint_preserving_sort_range. exact Hkey.
    + destruct (read_wdf pos) as [[wdf_ pos_]|e]; cbn [bind] in H; [|discriminate].
      inversion H; subst l'. cbn [BrassPostList.first_did_in_chunk BrassPostList.did].
      split; [reflexivity|]. split; [reflexivity|discriminate].
Qed.

Lemma next_chunk_checks_first_docid_witness :
  exists l' : BrassPostList.t,
    BrassPostList.next_chunk two_chunk_table cat_list = Ok l'
    /\ BrassPostList.first_did_in_chunk l' = 10
    /\ BrassPostList.did l' = 10.
Proof.
  destruct (BrassPostList.next_chunk two_chunk_table cat_list) as [l'|e] eqn:E;
    [|vm_compute in E; discriminate].
  exists l'. split; [reflexivity|].
  destruct (next_chunk_checks_first_docid two_chunk_table cat_list
              (Key.make_key_did cat 10) cat_second_tag
              (Key.pack_uint_preserving_sort 10) 10 []
              eq_refl eq_refl eq_refl eq_refl) as [_ H].
  destruct (H ltac:(vm_compute; reflexivity) l' E) as (H1 & H2 & _).
  split; [exact H1|apply H2; reflexivity].
Defined.

(** ** The layout of keys *)

Module KeyFacts.

Import BrassTable TableFacts.

Lemma bytes_eqb_eq : forall a b : bytes, Key.bytes_eqb a b = true <-> a = b.
Proof.
  intros a b. unfold Key.bytes_eqb.
  destruct (list_eq_dec Byte.byte_eq_dec a b); split; congruence.
Qed.

Lemma carries_term_tname : forall key term : bytes,
    carries_term key term = Key.bytes_eqb (tname_of key) term.
Proof.
  intros key term. unfold carries_term, Key.check_tname_in_key_lite, tname_of,
    Key.get_tname_from_key.
  destruct key as [|b0 [|b1 rest]].
  - reflexivity.
  - destruct (Key.unpack_string_preserving_sort [b0]); reflexivity.
  - destruct ((Z_of_byte b0 =? 0) && (Z_of_byte b1 =? 224)) eqn:E.
    + apply andb_true_iff in E. destruct E as [E0 E1].
      cbn [Key.unpack_string_preserving_sort]. rewrite E0.
      apply Z.eqb_eq in E1. rewrite E1. reflexivity.
    + destruct (Key.unpack_string_preserving_sort (b0 :: b1 :: rest)); reflexivity.
Qed.

(** The term of a key does not go down when the key goes up. *)
Lemma tname_of_monotone_bounded : forall (n : nat) (k1 k2 : bytes),
    (length k1 <= n)%nat ->
    key_compare k1 k2 <> Gt -> key_compare (tname_of k1) (tname_of k2) <> Gt.
Proof.
  unfold tname_of.
  induction n as [|n IH]; intros k1 k2 Hn H.
  - destruct k1; [|simpl in Hn; lia]. cbn. destruct (fst _); discriminate.
  - destruct k1 as [|a k1]; [cbn; destruct (fst _); discriminate|].
    destruct k2 as [|b k2]; [cbn in H; congruence|].
    cbn [key_compare] in H.
    pose proof (Z_of_byte_range a) as Ha. pose proof (Z_of_byte_range b) as Hb.
    cbn [Key.unpack_string_preserving_sort].
    destruct (Z_of_byte a ?= Z_of_byte b) eqn:Eab.
    + apply Z.compare_eq, Z_of_byte_inj in Eab. subst b.
      destruct (Z_of_byte a =? 0) eqn:Ea0.
      * destruct k1 as [|c k1]; [cbn; destruct (fst _); discriminate|].
        destruct k2 as [|d k2]; [cbn in H; congruence|].
        cbn [key_compare] in H.
        pose proof (Z_of_byte_range c) as Hc. pose proof (Z_of_byte_range d) as Hd.
        destruct (Z_of_byte c =? 255) eqn:Ec.
        -- apply Z.eqb_eq in Ec.
           destruct (Z_of_byte c ?= Z_of_byte d) eqn:Ecd.
           ++ apply Z.compare_eq, Z_of_byte_inj in Ecd. subst d.
              rewrite Ec. cbn [Z.eqb Pos.eqb].
              specialize (IH k1 k2 ltac:(simpl in Hn; lia) H).
              destruct (Key.unpack_string_preserving_sort k1) as [t1 r1].
              destruct (Key.unpack_string_preserving_sort k2) as [t2 r2].
              cbn [fst key_compare] in *. rewrite Z.compare_refl. exact IH.
           ++ rewrite Z.compare_lt_iff in Ecd. lia.
           ++ congruence.
        -- cbn. destruct (fst _); discriminate.
      * specialize (IH k1 k2 ltac:(simpl in Hn; lia) H).
        destruct (Key.unpack_string_preserving_sort k1) as [t1 r1].
        destruct (Key.unpack_string_preserving_sort k2) as [t2 r2].
        cbn [fst key_compare] in *. rewrite Z.compare_refl. exact IH.
    + rewrite Z.compare_lt_iff in Eab.
      replace (Z_of_byte b =? 0) with false by (symmetry; apply Z.eqb_neq; lia).
      destruct (Key.unpack_string_preserving_sort k2) as [t2 r2].
      cbn [fst].
      destruct (Z_of_byte a =? 0) eqn:Ea0.
      * destruct k1 as [|c k1]; [discriminate|].
        destruct (Z_of_byte c =? 255); [|discriminate].
        destruct (Key.unpack_string_preserving_sort k1) as [t1 r1].
        cbn [fst key_compare].
        replace (Z_of_byte a ?= Z_of_byte b) with Lt
          by (symmetry; apply Z.compare_lt_iff; lia).
        discriminate.
      * destruct (Key.unpack_string_preserving_sort k1) as [t1 r1].
        cbn [fst key_compare].
        replace (Z_of_byte a ?= Z_of_byte b) with Lt
          by (symmetry; apply Z.compare_lt_iff; lia).
        discriminate.
    + congruence.
Qed.

Lemma tname_of_monotone : forall k1 k2 : bytes,
    key_compare k1 k2 <> Gt -> key_compare (tname_of k1) (tname_of k2) <> Gt.
Proof.
  intros k1 k2. apply (tname_of_monotone_bounded (length k1)). apply Nat.le_refl.
Qed.

(** A key opens with its term as [make_key] writes it. *)
Lemma tname_of_prefix_bounded : forall (n : nat) (key : bytes),
    (length key <= n)%nat ->
    exists suffix, key = Key.escape (tname_of key) ++ suffix.
Proof.
  unfold tname_of.
  induction n as [|n IH]; intros key Hn.
  - destruct key; [|simpl in Hn; lia]. exists []. reflexivity.
  - destruct key as [|a key]; [exists []; reflexivity|].
    cbn [Key.unpack_string_preserving_sort].
    destruct (Z_of_byte a =? 0) eqn:Ea.
    + destruct key as [|c key]; [exists [a]; reflexivity|].
      destruct (Z_of_byte c =? 255) eqn:Ec.
      * destruct (IH key ltac:(simpl in Hn; lia)) as [s Hs].
        destruct (Key.unpack_string_preserving_sort key) as [t1 r1].
        cbn [fst] in *. exists s. cbn [Key.escape]. rewrite Ea.
        apply Z.eqb_eq in Ec.
        assert (c = xff) by (apply Z_of_byte_inj; rewrite Ec; reflexivity).
        subst c. cbn [app]. f_equal. f_equal. exact Hs.
      * exists (a :: c :: key). reflexivity.
    + destruct (IH key ltac:(simpl in Hn; lia)) as [s Hs].
      destruct (Key.unpack_string_preserving_sort key) as [t1 r1].
      cbn [fst] in *. exists s. cbn [Key.escape]. rewrite Ea.
      cbn [app]. f_equal. exact Hs.
Qed.

Lemma key_compare_prefix : forall a s : bytes, key_compare a (a ++ s) <> Gt.
Proof.
  induction a as [|x a IH]; intro s.
  - destruct s; discriminate.
  - cbn [app key_compare]. rewrite Z.compare_refl. apply IH.
Qed.

Lemma tname_of_escape : forall term : bytes, tname_of (Key.escape term) = term.
Proof.
  unfold tname_of. induction term as [|b term IH]; [reflexivity|].
  cbn [Key.escape]. destruct (Z_of_byte b =? 0) eqn:Eb.
  - cbn [Key.unpack_string_preserving_sort]. rewrite Eb.
    change (Z_of_byte xff =? 255) with true. cbv iota.
    destruct (Key.unpack_string_preserving_sort (Key.escape term)) as [t1 r1].
    cbn [fst] in *. f_equal. exact IH.
  - cbn [Key.unpack_string_preserving_sort]. rewrite Eb.
    destruct (Key.unpack_string_preserving_sort (Key.escape term)) as [t1 r1].
    cbn [fst] in *. f_equal. exact IH.
Qed.

Lemma make_key_escape : forall term : bytes,
    term <> [] -> Key.make_key term = Key.escape term.
Proof.
  intros [|b term] H; [contradiction|].
  unfold Key.make_key, Key.pack_string_preserving_sort. apply app_nil_r.
Qed.

Lemma carries_term_make_key : forall term : bytes,
    term <> [] -> carries_term (Key.make_key term) term = true.
Proof.
  intros term H. rewrite carries_term_tname, make_key_escape by exact H.
  apply bytes_eqb_eq. apply tname_of_escape.
Qed.

(** No key below the key of the first chunk carries the term. *)
Lemma carries_term_lower_bound : forall key term : bytes,
    term <> [] -> carries_term key term = true ->
    key_compare (Key.make_key term) key <> Gt.
Proof.
  intros key term H Hc. rewrite carries_term_tname in Hc.
  apply bytes_eqb_eq in Hc.
  destruct (tname_of_prefix_bounded (length key) key (Nat.le_refl _)) as [s Hs].
  rewrite Hc in Hs. rewrite make_key_escape by exact H.
  rewrite Hs. apply key_compare_prefix.
Qed.

(** The keys that carry a term are next to each other. *)
Lemma carries_term_between : forall k1 k2 k3 term : bytes,
    carries_term k1 term = true -> carries_term k3 term = true ->
    key_compare k1 k2 = Lt -> key_compare k2 k3 = Lt ->
    carries_term k2 term = true.
Proof.
  intros k1 k2 k3 term H1 H3 H12 H23.
  rewrite carries_term_tname in *. apply bytes_eqb_eq in H1, H3. apply bytes_eqb_eq.
  pose proof (tname_of_monotone k1 k2 ltac:(congruence)) as Ha.
  pose proof (tname_of_monotone k2 k3 ltac:(congruence)) as Hb.
  rewrite H1 in Ha. rewrite H3 in Hb.
  destruct (key_compare term (tname_of k2)) eqn:E.
  - apply key_compare_eq in E. congruence.
  - apply key_compare_gt_lt in E. congruence.
  - congruence.
Qed.

End KeyFacts.

(** ** BrassPostListTable::merge_changes: zapping a posting list *)

Module ZapFacts.

Import BrassTable TableFacts KeyFacts.

Lemma higher_entry_none : forall (table : t) (k key tag : bytes),
    BrassCursor.higher_entry k table = None ->
    get_exact_entry key table = Some tag -> key_compare k key <> Lt.
Proof.
  induction table as [|[k0 t0] table IH]; intros k key tag Hh Hg; [discriminate|].
  cbn [BrassCursor.higher_entry] in Hh. cbn [get_exact_entry] in Hg.
  destruct (key_ltb k k0) eqn:E; [discriminate|].
  destruct (key_compare key k0) eqn:Ek.
  - apply key_compare_eq in Ek. subst k0. intro Hlt.
    apply key_ltb_lt in Hlt. congruence.
  - discriminate.
  - eapply IH; eassumption.
Qed.

Lemma higher_entry_least : forall (table : t) (k k' t' key tag : bytes),
    sorted table = true ->
    BrassCursor.higher_entry k table = Some (k', t') ->
    get_exact_entry key table = Some tag -> key_compare k key = Lt ->
    key_compare k' key <> Gt.
Proof.
  induction table as [|[k0 t0] table IH]; intros k k' t' key tag Hs Hh Hg Hlt;
    [discriminate|].
  cbn [BrassCursor.higher_entry] in Hh. cbn [get_exact_entry] in Hg.
  destruct (key_ltb k k0) eqn:E.
  - inversion Hh; subst k0 t0.
    destruct (key_compare key k') eqn:Ek; try discriminate.
    + apply key_compare_eq in Ek. subst. rewrite key_compare_refl. discriminate.
    + apply key_compare_gt_lt in Ek. congruence.
  - destruct (key_compare key k0) eqn:Ek.
    + apply key_compare_eq in Ek. subst k0.
      apply key_ltb_lt in Hlt. congruence.
    + discriminate.
    + eapply IH; try eassumption. eapply sorted_tail. exact Hs.
Qed.

Lemma higher_entry_exact : forall (table : t) (k k' t' : bytes),
    sorted table = true ->
    BrassCursor.higher_entry k table = Some (k', t') ->
    get_exact_entry k' table = Some t'.
Proof.
  induction table as [|[k0 t0] table IH]; intros k k' t' Hs Hh; [discriminate|].
  cbn [BrassCursor.higher_entry] in Hh. cbn [get_exact_entry].
  destruct (key_ltb k k0) eqn:E.
  - inversion Hh; subst. rewrite key_compare_refl. reflexivity.
  - pose proof (IH k k' t' (sorted_tail _ _ _ Hs) Hh) as Hrec.
    destruct (key_compare k' k0) eqn:Ek.
    + apply key_compare_eq in Ek. subst k0.
      apply CursorFacts.higher_entry_gt in Hh.
      apply key_ltb_lt in Hh. congruence.
    + assert (Habove : get_exact_entry k' table = None)
        by (eapply get_exact_entry_above; [exact Hs|congruence]).
      congruence.
    + exact Hrec.
Qed.

Lemma del_shorter : forall (table : t) (key tag : bytes),
    get_exact_entry key table = Some tag ->
    (length (del key table) < length table)%nat.
Proof.
  induction table as [|[k0 t0] table IH]; intros key tag H; [discriminate|].
  cbn [get_exact_entry] in H. cbn [del].
  destruct (key_compare key k0); [simpl; lia|discriminate|].
  apply IH in H. simpl. lia.
Qed.

(** What the loop leaves: the entries whose keys do not carry the term. *)
Lemma zap_loop_spec :
  forall (fuel : nat) (table : t) (c : BrassCursor.t) (term : bytes),
    sorted table = true ->
    (length table < fuel)%nat ->
    carries_term (BrassCursor.current_key c) term = true ->
    (exists tag, get_exact_entry (BrassCursor.current_key c) table = Some tag) ->
    (forall key tag, get_exact_entry key table = Some tag ->
                     key_compare key (BrassCursor.current_key c) = Lt ->
                     carries_term key term = false) ->
    forall key : bytes,
      get_exact_entry key (BrassPostListTable.zap_loop fuel table c term) =
        if carries_term key term then None else get_exact_entry key table.
Proof.
  induction fuel as [|fuel IH]; intros table c term Hs Hfuel Hc [ctag Hin] Hbelow key;
    [lia|].
  cbn [BrassPostListTable.zap_loop]. unfold BrassCursor.del, BrassCursor.next.
  set (kc := BrassCursor.current_key c) in *.
  pose proof (del_sorted table kc Hs) as Hs1.
  assert (Hdel : forall key',
             get_exact_entry key' (del kc table) =
               if Key.bytes_eqb key' kc then None else get_exact_entry key' table)
    by (intro key'; apply get_exact_entry_del; exact Hs).
  assert (Hne : forall key', carries_term key' term = false -> Key.bytes_eqb key' kc = false).
  { intros key' Hf. destruct (Key.bytes_eqb key' kc) eqn:E; [|reflexivity].
    apply bytes_eqb_eq in E. subst key'. congruence. }
  destruct (BrassCursor.higher_entry kc (del kc table)) as [[k' t']|] eqn:Eh.
  - cbn [BrassCursor.is_after_end negb BrassCursor.current_key].
    change (fst (Key.check_tname_in_key_lite k' term)) with (carries_term k' term).
    assert (Hrest : forall key' tag',
               carries_term key' term = true ->
               get_exact_entry key' (del kc table) = Some tag' ->
               key_compare kc key' = Lt).
    { intros key' tag' Hck Hg. rewrite Hdel in Hg.
      destruct (Key.bytes_eqb key' kc) eqn:E; [discriminate|].
      destruct (key_compare key' kc) eqn:Ek.
      - apply key_compare_eq in Ek. subst key'.
        assert (Key.bytes_eqb kc kc = true) by (apply bytes_eqb_eq; reflexivity).
        congruence.
      - rewrite (Hbelow key' tag' Hg Ek) in Hck. discriminate.
      - apply key_compare_gt_lt. exact Ek. }
    destruct (carries_term k' term) eqn:Ek'.
    + rewrite IH.
      * destruct (carries_term key term) eqn:Ekey; [reflexivity|].
        rewrite Hdel, (Hne key Ekey). reflexivity.
      * exact Hs1.
      * pose proof (del_shorter table kc ctag Hin). lia.
      * exact Ek'.
      * exists t'. eapply higher_entry_exact; eassumption.
      * cbn [BrassCursor.current_key]. intros key' tag' Hg Hlt.
        destruct (carries_term key' term) eqn:Ekey'; [|reflexivity].
        pose proof (Hrest key' tag' Ekey' Hg) as Hgt.
        pose proof (higher_entry_least _ _ _ _ _ _ Hs1 Eh Hg Hgt) as Hle.
        apply key_compare_gt_lt in Hlt. congruence.
    + destruct (carries_term key term) eqn:Ekey.
      * destruct (get_exact_entry key (del kc table)) as [tag'|] eqn:Eg; [|reflexivity].
        pose proof (Hrest key tag' Ekey Eg) as Hgt.
        pose proof (higher_entry_least _ _ _ _ _ _ Hs1 Eh Eg Hgt) as Hle.
        pose proof (CursorFacts.higher_entry_gt _ _ _ _ Eh) as Hk'.
        destruct (key_compare k' key) eqn:Ecmp.
        -- apply key_compare_eq in Ecmp. subst k'. congruence.
        -- rewrite (carries_term_between kc k' key term Hc Ekey Hk' Ecmp) in Ek'.
           discriminate.
        -- congruence.
      * rewrite Hdel, (Hne key Ekey). reflexivity.
  - cbn [BrassCursor.is_after_end negb].
    destruct (carries_term key term) eqn:Ekey.
    + destruct (get_exact_entry key (del kc table)) as [tag'|] eqn:Eg; [|reflexivity].
      pose proof (higher_entry_none _ _ _ _ Eh Eg) as Hno.
      rewrite Hdel in Eg.
      destruct (Key.bytes_eqb key kc) eqn:E; [discriminate|].
      destruct (key_compare key kc) eqn:Ek.
      * apply key_compare_eq in Ek. subst key.
        assert (Key.bytes_eqb kc kc = true) by (apply bytes_eqb_eq; reflexivity).
        congruence.
      * rewrite (Hbelow key tag' Eg Ek) in Ekey. discriminate.
      * apply key_compare_gt_lt in Ek. congruence.
    + rewrite Hdel, (Hne key Ekey). reflexivity.
Qed.

End ZapFacts.

(** C7: [merge_changes] on a table in key order, for a term whose stored
    termfreq and the tfdelta of the changes add up to 0 (the list that is
    not stored counting as termfreq 0), where a first chunk that is
    marked as the last chunk is the only chunk of the term, as the
    invariants of the table have it.  The call returns, and what it
    leaves has no key that carries the term, the key of the first chunk
    and the keys of the later chunks alike, and has every other key with
    the tag it had: no chunk is written. *)
Theorem merge_changes_zaps_list :
  forall (fuel : nat) (table : BrassPostListTable.t) (term : bytes)
         (changes : BrassPostListTable.PostingChanges)
         (termfreq collfreq firstdid lastdid : Z) (islast : bool) (pos : bytes),
    term <> [] ->
    BrassTable.sorted (BrassPostListTable.entries table) = true ->
    BrassPostListTable.stored_header table term =
      Ok (termfreq, collfreq, firstdid, lastdid, islast, pos) ->
    u32 (termfreq + BrassPostListTable.tfdelta changes) = 0 ->
    (islast = true ->
     forall key : bytes,
       carries_term key term = true -> key <> Key.make_key term ->
       BrassTable.get_exact_entry key (BrassPostListTable.entries table) = None) ->
    exists entries' : BrassTable.t,
      BrassPostListTable.merge_changes fuel table term changes =
        Ok (BrassPostListTable.mk entries' (BrassPostListTable.doclen_pl table))
      /\ forall key : bytes,
          BrassTable.get_exact_entry key entries' =
            if carries_term key term then None
            else BrassTable.get_exact_entry key (BrassPostListTable.entries table).
Proof.
  intros fuel table term changes termfreq collfreq firstdid lastdid islast pos
         Hterm Hs Hhdr Hzero Hlast.
  unfold BrassPostListTable.merge_changes. rewrite Hhdr. cbn [bind].
  rewrite Hzero. cbn [Z.eqb].
  pose proof (KeyFacts.carries_term_make_key term Hterm) as Hbare.
  destruct islast.
  - eexists. split; [reflexivity|]. intro key.
    rewrite TableFacts.get_exact_entry_del by exact Hs.
    destruct (Key.bytes_eqb key (Key.make_key term)) eqn:E.
    + apply KeyFacts.bytes_eqb_eq in E. subst key. rewrite Hbare. reflexivity.
    + destruct (carries_term key term) eqn:Ekey; [|reflexivity].
      apply Hlast; [reflexivity|exact Ekey|].
      intro Heq. subst key.
      assert (Key.bytes_eqb (Key.make_key term) (Key.make_key term) = true)
        by (apply KeyFacts.bytes_eqb_eq; reflexivity).
      congruence.
  - assert (Hstored : exists tag,
               BrassTable.get_exact_entry (Key.make_key term)
                 (BrassPostListTable.entries table) = Some tag).
    { unfold BrassPostListTable.stored_header in Hhdr.
      destruct (BrassTable.get_exact_entry (Key.make_key term)
                  (BrassPostListTable.entries table)) as [tag|].
      - exists tag. reflexivity.
      - inversion Hhdr. }
    destruct Hstored as [tag Htag].
    rewrite (CursorFacts.find_entry_exact _ _ _ Hs Htag). cbn [negb].
    eexists. split; [reflexivity|].
    apply ZapFacts.zap_loop_spec.
    + exact Hs.
    + apply Nat.lt_succ_diag_r.
    + exact Hbare.
    + exists tag. exact Htag.
    + cbn [BrassCursor.current_key]. intros key tag' Hg Hlt.
      destruct (carries_term key term) eqn:Ekey; [|reflexivity].
      pose proof (KeyFacts.carries_term_lower_bound key term Hterm Ekey) as Hlow.
      apply TableFacts.key_compare_gt_lt in Hlt. congruence.
Qed.

Lemma merge_changes_zaps_list_witness :
  exists entries' : BrassTable.t,
    BrassPostListTable.merge_changes 0
      (BrassPostListTable.mk two_chunk_table None) cat
      (BrassPostListTable.mkChanges (-4) (-9)
         [(1, 4294967295); (4, 4294967295); (10, 4294967295); (12, 4294967295)])
    = Ok (BrassPostListTable.mk entries' None)
    /\ BrassTable.get_exact_entry (Key.make_key cat) entries' = None
    /\ BrassTable.get_exact_entry (Key.make_key_did cat 10) entries' = None.
Proof.
  destruct (merge_changes_zaps_list 0
              (BrassPostListTable.mk two_chunk_table None) cat
              (BrassPostListTable.mkChanges (-4) (-9)
                 [(1, 4294967295); (4, 4294967295); (10, 4294967295);
                  (12, 4294967295)])
              4 9 1 4 false (pack_uint 2 ++ pack_uint 2 ++ pack_uint 1)
              ltac:(discriminate) eq_refl eq_refl eq_refl ltac:(discriminate))
    as [entries' [Hrun Hkeys]].
  exists entries'. split; [exact Hrun|].
  split; rewrite Hkeys; reflexivity.
Defined.

(** ** Chunk headers *)

Module HeaderFacts.

Lemma unpack_uint_loop_prefix :
  forall (p : bytes) (shift acc value : Z) (rest : bytes),
    unpack_uint_loop p shift acc = Unpacked value rest ->
    exists consumed,
      p = consumed ++ rest
      /\ forall other, unpack_uint_loop (consumed ++ other) shift acc
                       = Unpacked value other.
Proof.
  induction p as [|b p IH]; intros shift acc value rest H; [discriminate|].
  cbn [unpack_uint_loop] in H.
  destruct (Z_of_byte b <? 128) eqn:Eb.
  - destruct (acc + Z_of_byte b mod 128 * shift <? 2 ^ 32) eqn:Ev; [|discriminate].
    inversion H; subst. exists [b]. split; [reflexivity|].
    intro other. cbn [app unpack_uint_loop]. rewrite Eb, Ev. reflexivity.
  - apply IH in H. destruct H as [consumed [Hp Hother]].
    exists (b :: consumed). split; [cbn [app]; f_equal; exact Hp|].
    intro other. cbn [app unpack_uint_loop]. rewrite Eb. apply Hother.
Qed.

Lemma unpack_uint_loop_range :
  forall (p : bytes) (shift acc value : Z) (rest : bytes),
    unpack_uint_loop p shift acc = Unpacked value rest ->
    0 <= acc -> 0 <= shift -> is_u32 value.
Proof.
  induction p as [|b p IH]; intros shift acc value rest H Hacc Hshift; [discriminate|].
  cbn [unpack_uint_loop] in H.
  pose proof (Z.mod_pos_bound (Z_of_byte b) 128 ltac:(lia)) as Hm.
  destruct (Z_of_byte b <? 128).
  - destruct (acc + Z_of_byte b mod 128 * shift <? 2 ^ 32) eqn:Ev; [|discriminate].
    inversion H; subst. apply Z.ltb_lt in Ev. split; [nia|exact Ev].
  - eapply IH; [exact H|nia|lia].
Qed.

Lemma read_uint_prefix : forall (p : bytes) (value : Z) (rest : bytes),
    read_uint p = Ok (value, rest) ->
    is_u32 value
    /\ exists consumed,
        p = consumed ++ rest
        /\ forall other, read_uint (consumed ++ other) = Ok (value, other).
Proof.
  intros p value rest H. unfold read_uint, unpack_uint in *.
  destruct (unpack_uint_loop p 1 0) as [v r| |] eqn:E; try discriminate.
  inversion H; subst. split.
  - eapply unpack_uint_loop_range; [exact E|lia|lia].
  - apply unpack_uint_loop_prefix in E. destruct E as [consumed [Hp Hother]].
    exists consumed. split; [exact Hp|]. intro other. rewrite Hother. reflexivity.
Qed.

Lemma read_bool_prefix : forall (p : bytes) (value : bool) (rest : bytes),
    read_bool p = Ok (value, rest) ->
    exists consumed,
      p = consumed ++ rest
      /\ forall other, read_bool (consumed ++ other) = Ok (value, other).
Proof.
  intros p value rest H. unfold read_bool, unpack_bool in *.
  destruct p as [|b p]; [discriminate|].
  exists [b]. cbn [app].
  destruct (Z_of_byte b =? 49).
  - inversion H; subst. split; [reflexivity|]. intro other. reflexivity.
  - destruct (Z_of_byte b =? 48); [|discriminate].
    inversion H; subst. split; [reflexivity|]. intro other. reflexivity.
Qed.

Lemma read_pack_uint : forall (value : Z) (rest : bytes),
    is_u32 value -> read_uint (pack_uint value ++ rest) = Ok (value, rest).
Proof.
  intros value rest H. unfold read_uint.
  rewrite PackFacts.unpack_pack_uint by exact H. reflexivity.
Qed.

Lemma read_pack_bool : forall (value : bool) (rest : bytes),
    read_bool (pack_bool value ++ rest) = Ok (value, rest).
Proof.
  intros value rest. unfold read_bool.
  rewrite PackFacts.unpack_pack_bool. reflexivity.
Qed.

(** The header of a first chunk: read back, and cut from its tag. *)
Lemma read_make_start_of_first_chunk :
  forall (entries collectionfreq new_did : Z) (rest : bytes),
    is_u32 entries -> is_u32 collectionfreq ->
    read_start_of_first_chunk
      (make_start_of_first_chunk entries collectionfreq new_did ++ rest) =
      Ok (entries, collectionfreq, u32 (u32 (new_did - 1) + 1), rest).
Proof.
  intros entries collectionfreq new_did rest He Hc.
  unfold read_start_of_first_chunk, read_number_of_entries,
    make_start_of_first_chunk.
  rewrite <- !app_assoc.
  rewrite read_pack_uint by exact He. cbn [bind].
  rewrite read_pack_uint by exact Hc. cbn [bind].
  rewrite read_pack_uint by apply u32_range. cbn [bind]. reflexivity.
Qed.

Lemma read_start_of_first_chunk_prefix :
  forall (tag : bytes) (entries collectionfreq did : Z) (rest : bytes),
    read_start_of_first_chunk tag = Ok (entries, collectionfreq, did, rest) ->
    is_u32 entries /\ is_u32 collectionfreq
    /\ exists consumed,
        tag = consumed ++ rest
        /\ forall other,
            read_start_of_first_chunk (consumed ++ other) =
              Ok (entries, collectionfreq, did, other).
Proof.
  intros tag entries collectionfreq did rest H.
  unfold read_start_of_first_chunk, read_number_of_entries in *.
  destruct (read_uint tag) as [[e p1]|err] eqn:E1; cbn [bind] in H; [|discriminate].
  destruct (read_uint p1) as [[c p2]|err] eqn:E2; cbn [bind] in H; [|discriminate].
  destruct (read_uint p2) as [[d p3]|err] eqn:E3; cbn [bind] in H; [|discriminate].
  inversion H; subst. clear H.
  apply read_uint_prefix in E1, E2, E3.
  destruct E1 as [He [c1 [H1 O1]]]. destruct E2 as [Hc [c2 [H2 O2]]].
  destruct E3 as [_ [c3 [H3 O3]]].
  split; [exact He|]. split; [exact Hc|].
  exists (c1 ++ c2 ++ c3). split.
  - rewrite H1, H2, H3, <- !app_assoc. reflexivity.
  - intro other. rewrite <- !app_assoc.
    rewrite O1. cbn [bind]. rewrite O2. cbn [bind]. rewrite O3. reflexivity.
Qed.

(** The header of a chunk: read back, and cut from its tag. *)
Lemma read_make_start_of_chunk :
  forall (is_last : bool) (first_did final_did d : docid) (rest : bytes),
    read_start_of_chunk (make_start_of_chunk is_last first_did final_did ++ rest) d =
      Ok (is_last, u32 (d + u32 (final_did - first_did)), rest).
Proof.
  intros is_last first_did final_did d rest.
  unfold read_start_of_chunk, make_start_of_chunk.
  rewrite <- !app_assoc.
  rewrite read_pack_bool. cbn [bind].
  rewrite read_pack_uint by apply u32_range. reflexivity.
Qed.

Lemma read_start_of_chunk_prefix :
  forall (tag : bytes) (d : docid) (is_last : bool) (last_did : docid) (rest : bytes),
    read_start_of_chunk tag d = Ok (is_last, last_did, rest) ->
    exists consumed,
      tag = consumed ++ rest
      /\ forall other d',
          exists last_did',
            read_start_of_chunk (consumed ++ other) d' = Ok (is_last, last_did', other).
Proof.
  intros tag d is_last last_did rest H. unfold read_start_of_chunk in *.
  destruct (read_bool tag) as [[b p1]|err] eqn:E1; cbn [bind] in H; [|discriminate].
  destruct (read_uint p1) as [[inc p2]|err] eqn:E2; cbn [bind] in H; [|discriminate].
  inversion H; subst. clear H.
  apply read_bool_prefix in E1. apply read_uint_prefix in E2.
  destruct E1 as [c1 [H1 O1]]. destruct E2 as [_ [c2 [H2 O2]]].
  exists (c1 ++ c2). split.
  - rewrite H1, H2, <- app_assoc. reflexivity.
  - intros other d'. rewrite <- app_assoc. rewrite O1. cbn [bind].
    rewrite O2. cbn [bind]. eexists. reflexivity.
Qed.

End HeaderFacts.

(** ** PostlistChunkWriter::flush *)

(** C4: [flush] on a writer that nothing was appended to, for a first
    chunk that is not the last chunk, where the first chunk is in the
    table and its header reads as [(num_ent, coll_freq)].  When no key
    follows the original key, or the key that follows carries another
    term, the error is DatabaseCorruptError.  Otherwise, with the first
    docid of the next chunk read from its key and its chunk header and
    body read from its tag, the result is the table with the next key
    deleted and, at the original key, the first-chunk header of
    [(num_ent, coll_freq)] and the next chunk's first docid, then the
    next chunk's chunk header, then its body.  The new tag is told byte
    by byte: the two counts, the first docid less one, the flag and the
    distance to the last docid, each packed, before the body; and read
    back, its headers give the counts of the old first chunk, the first
    docid, the flag and the last docid of the next chunk, and leave the
    pointer on its body. *)
Theorem flush_promotes_next_chunk :
  forall (table : BrassTable.t) (w : PostlistChunkWriter.t)
         (old_tag : bytes) (num_ent coll_freq old_first_did : Z) (old_rest : bytes),
    BrassTable.sorted table = true ->
    PostlistChunkWriter.started w = false ->
    PostlistChunkWriter.is_first_chunk w = true ->
    PostlistChunkWriter.is_last_chunk w = false ->
    BrassTable.get_exact_entry (PostlistChunkWriter.orig_key w) table = Some old_tag ->
    read_start_of_first_chunk old_tag = Ok (num_ent, coll_freq, old_first_did, old_rest) ->
    match BrassCursor.higher_entry (PostlistChunkWriter.orig_key w) table with
    | None => PostlistChunkWriter.flush table w = Err DatabaseCorruptError
    | Some (next_key, next_tag) =>
        match Key.check_tname_in_key next_key (PostlistChunkWriter.tname w) with
        | (false, _) => PostlistChunkWriter.flush table w = Err DatabaseCorruptError
        | (true, kpos) =>
            forall (new_first_did : docid) (kend : bytes) (new_is_last : bool)
                   (new_last_did : docid) (chunk_data : bytes),
              Key.read_uint_preserving_sort kpos = Ok (new_first_did, kend) ->
              read_start_of_chunk next_tag new_first_did =
                Ok (new_is_last, new_last_did, chunk_data) ->
              let tag :=
                make_start_of_first_chunk num_ent coll_freq new_first_did
                  ++ make_start_of_chunk new_is_last new_first_did new_last_did
                  ++ chunk_data in
              let table' :=
                BrassTable.add (PostlistChunkWriter.orig_key w) tag
                               (BrassTable.del next_key table) in
              PostlistChunkWriter.flush table w = Ok table'
              /\ BrassTable.get_exact_entry next_key table' = None
              /\ BrassTable.get_exact_entry (PostlistChunkWriter.orig_key w) table'
                 = Some tag
              /\ tag = pack_uint num_ent ++ pack_uint coll_freq
                         ++ pack_uint (u32 (new_first_did - 1))
                         ++ pack_bool new_is_last
                         ++ pack_uint (u32 (new_last_did - new_first_did))
                         ++ chunk_data
              /\ ('(entries, collectionfreq, first_did, p) <-
                    read_start_of_first_chunk tag ;;
                  '(is_last, last_did, body) <- read_start_of_chunk p first_did ;;
                  Ok (entries, collectionfreq, first_did, is_last, last_did, body))
                 = Ok (num_ent, coll_freq, new_first_did, new_is_last,
                       new_last_did, chunk_data)
        end
    end.
Proof.
  intros table w old_tag num_ent coll_freq old_first_did old_rest
         Hs Hstarted Hfirst Hlast Hold Hhdr.
  unfold PostlistChunkWriter.flush. rewrite Hstarted, Hfirst, Hlast. cbn [negb].
  unfold PostlistChunkWriter.flush_promote_next.
  rewrite (CursorFacts.find_entry_exact _ _ _ Hs Hold). cbn [negb].
  cbn [BrassCursor.current_tag]. rewrite Hhdr. cbn [bind].
  unfold BrassCursor.next. cbn [BrassCursor.current_key].
  destruct (BrassCursor.higher_entry (PostlistChunkWriter.orig_key w) table)
    as [[next_key next_tag]|] eqn:Enext; [|reflexivity].
  cbn [BrassCursor.after_end BrassCursor.is_after_end BrassCursor.current_key
       BrassCursor.current_tag].
  destruct (Key.check_tname_in_key next_key (PostlistChunkWriter.tname w))
    as [[|] kpos]; [|reflexivity].
  cbn [negb]. intros new_first_did kend new_is_last new_last_did chunk_data Hk Hc.
  rewrite Hk. cbn [bind]. rewrite Hc. cbn [bind].
  split; [reflexivity|].
  apply CursorFacts.higher_entry_gt in Enext.
  pose proof (TableFacts.del_sorted table next_key Hs) as Hs'.
  rewrite !TableFacts.get_exact_entry_add by exact Hs'.
  rewrite TableFacts.get_exact_entry_del by exact Hs.
  unfold Key.bytes_eqb.
  destruct (list_eq_dec Byte.byte_eq_dec next_key (PostlistChunkWriter.orig_key w))
    as [Heq|Hne].
  { rewrite Heq, TableFacts.key_compare_refl in Enext. discriminate. }
  destruct (list_eq_dec Byte.byte_eq_dec next_key next_key); [|contradiction].
  destruct (list_eq_dec Byte.byte_eq_dec (PostlistChunkWriter.orig_key w)
                        (PostlistChunkWriter.orig_key w)); [|contradiction].
  split; [reflexivity|]. split; [reflexivity|]. split.
  { unfold make_start_of_first_chunk, make_start_of_chunk.
    rewrite <- !app_assoc. reflexivity. }
  destruct (HeaderFacts.read_start_of_first_chunk_prefix _ _ _ _ _ Hhdr)
    as [Hent [Hcf _]].
  pose proof (NextChunkFacts.read_uint_preserving_sort_range _ _ _ Hk) as Hnew.
  assert (Hlastdid : is_u32 new_last_did).
  { unfold read_start_of_chunk in Hc.
    destruct (read_bool next_tag) as [[fl p1]|err]; cbn [bind] in Hc;
      [|discriminate].
    destruct (read_uint p1) as [[inc p2]|err]; cbn [bind] in Hc;
      [|discriminate].
    inversion Hc. apply u32_range. }
  rewrite HeaderFacts.read_make_start_of_first_chunk by assumption.
  cbn [bind]. rewrite HeaderFacts.read_make_start_of_chunk. cbn [bind].
  assert (H1 : u32 (u32 (new_first_did - 1) + 1) = new_first_did).
  { unfold u32. rewrite Zplus_mod_idemp_l.
    replace (new_first_did - 1 + 1) with new_first_did by lia.
    apply Z.mod_small. exact Hnew. }
  assert (H2 : u32 (new_first_did + u32 (new_last_did - new_first_did))
               = new_last_did).
  { unfold u32. rewrite Zplus_mod_idemp_r.
    replace (new_first_did + (new_last_did - new_first_did))
      with new_last_did by lia.
    apply Z.mod_small. exact Hlastdid. }
  rewrite H1, H2. reflexivity.
Qed.

Lemma flush_promotes_next_chunk_witness :
  let tag :=
    make_start_of_first_chunk 4 9 10 ++ make_start_of_chunk true 10 12
      ++ cat_second_body in
  let table' :=
    BrassTable.add (Key.make_key cat) tag
                   (BrassTable.del (Key.make_key_did cat 10) two_chunk_table) in
  PostlistChunkWriter.flush two_chunk_table emptied_first_chunk = Ok table'
  /\ BrassTable.get_exact_entry (Key.make_key_did cat 10) table' = None
  /\ BrassTable.get_exact_entry (Key.make_key cat) table' = Some tag
  /\ read_start_of_first_chunk tag
     = Ok (4, 9, 10, make_start_of_chunk true 10 12 ++ cat_second_body).
Proof.
  destruct (flush_promotes_next_chunk two_chunk_table emptied_first_chunk
              cat_first_tag 4 9 1 _ eq_refl eq_refl eq_refl eq_refl eq_refl
              eq_refl 10 [] true 12 cat_second_body eq_refl eq_refl)
    as [Hflush [Hdel [Hadd _]]].
  split; [exact Hflush|]. split; [exact Hdel|]. split; [exact Hadd|].
  reflexivity.
Defined.

(** ** The keys of the chunks of a term *)

Module ChunkKeyFacts.

Lemma check_tname_in_key_lite_tail : forall key tname : bytes,
    snd (Key.check_tname_in_key_lite key tname) = key_tail key.
Proof.
  intros key tname. unfold key_tail, Key.check_tname_in_key_lite.
  destruct key as [|b0 [|b1 rest]].
  - destruct (Key.get_tname_from_key []); reflexivity.
  - destruct (Key.get_tname_from_key [b0]); reflexivity.
  - destruct ((Z_of_byte b0 =? 0) && (Z_of_byte b1 =? 224)); [reflexivity|].
    destruct (Key.get_tname_from_key (b0 :: b1 :: rest)); reflexivity.
Qed.

Lemma check_tname_in_key_true : forall (key tname keypos : bytes),
    Key.check_tname_in_key key tname = (true, keypos) ->
    key <> [] /\ tname_of key = tname /\ keypos = key_tail key.
Proof.
  intros key tname keypos H. unfold Key.check_tname_in_key in H.
  destruct key as [|b key]; [discriminate|].
  split; [discriminate|].
  pose proof (KeyFacts.carries_term_tname (b :: key) tname) as Hc.
  pose proof (check_tname_in_key_lite_tail (b :: key) tname) as Ht.
  unfold carries_term in Hc. rewrite H in Hc, Ht. cbn [fst snd] in Hc, Ht.
  split; [|exact Ht].
  apply KeyFacts.bytes_eqb_eq. symmetry. exact Hc.
Qed.

Lemma key_tail_escape : forall term suffix : bytes,
    term <> [] ->
    key_tail (Key.escape term ++ suffix) =
      snd (Key.unpack_string_preserving_sort (Key.escape term ++ suffix)).
Proof.
  intros [|b term] suffix H; [contradiction|].
  unfold key_tail, Key.check_tname_in_key_lite, Key.get_tname_from_key.
  cbn [Key.escape]. destruct (Z_of_byte b =? 0) eqn:Eb.
  - cbn [app]. rewrite Eb. change (Z_of_byte xff =? 224) with false.
    cbn [andb].
    destruct (Key.unpack_string_preserving_sort _); reflexivity.
  - cbn [app]. destruct (Key.escape term ++ suffix) as [|b1 rest].
    + destruct (Key.unpack_string_preserving_sort _); reflexivity.
    + rewrite Eb. cbn [andb].
      destruct (Key.unpack_string_preserving_sort _); reflexivity.
Qed.

Lemma unpack_escape_end : forall term : bytes,
    snd (Key.unpack_string_preserving_sort (Key.escape term)) = [].
Proof.
  induction term as [|b term IH]; [reflexivity|].
  cbn [Key.escape]. destruct (Z_of_byte b =? 0) eqn:Eb.
  - cbn [Key.unpack_string_preserving_sort]. rewrite Eb.
    change (Z_of_byte xff =? 255) with true. cbv iota.
    destruct (Key.unpack_string_preserving_sort (Key.escape term)).
    exact IH.
  - cbn [Key.unpack_string_preserving_sort]. rewrite Eb.
    destruct (Key.unpack_string_preserving_sort (Key.escape term)).
    exact IH.
Qed.

Lemma unpack_escape_separator : forall (term : bytes) (b : byte) (rest : bytes),
    Z_of_byte b <> 255 ->
    snd (Key.unpack_string_preserving_sort (Key.escape term ++ x00 :: b :: rest))
    = b :: rest.
Proof.
  intros term b rest Hb. induction term as [|c term IH].
  - cbn [Key.escape app Key.unpack_string_preserving_sort].
    change (Z_of_byte x00 =? 0) with true. cbv iota.
    destruct (Z_of_byte b =? 255) eqn:E; [apply Z.eqb_eq in E; contradiction|].
    reflexivity.
  - cbn [Key.escape]. destruct (Z_of_byte c =? 0) eqn:Ec.
    + cbn [app Key.unpack_string_preserving_sort]. rewrite Ec.
      change (Z_of_byte xff =? 255) with true. cbv iota.
      destruct (Key.unpack_string_preserving_sort _). exact IH.
    + cbn [app Key.unpack_string_preserving_sort]. rewrite Ec.
      destruct (Key.unpack_string_preserving_sort _). exact IH.
Qed.

(** The key of a first chunk is one, the key of a later chunk is not. *)
Lemma is_first_key_make_key : forall term : bytes,
    term <> [] -> is_first_key (Key.make_key term) = true.
Proof.
  intros term H. unfold is_first_key.
  rewrite KeyFacts.make_key_escape by exact H.
  rewrite <- (app_nil_r (Key.escape term)).
  rewrite key_tail_escape by exact H. rewrite app_nil_r.
  rewrite unpack_escape_end. reflexivity.
Qed.

Lemma is_first_key_make_key_did : forall (term : bytes) (did : docid),
    term <> [] -> is_first_key (Key.make_key_did term did) = false.
Proof.
  intros term did H. unfold is_first_key, Key.make_key_did.
  destruct term as [|c term]; [contradiction|].
  unfold Key.pack_string_preserving_sort, Key.pack_uint_preserving_sort.
  rewrite <- app_assoc. cbn [app].
  rewrite key_tail_escape by discriminate.
  rewrite unpack_escape_separator; [reflexivity|].
  rewrite Z_of_byte_of_Z.
  pose proof (get_max_bytes_range did) as Hr.
  rewrite Z.mod_small by lia. lia.
Qed.

Lemma tname_of_make_key_did : forall (term : bytes) (did : docid),
    term <> [] -> tname_of (Key.make_key_did term did) = term.
Proof.
  intros term did H. unfold Key.make_key_did, tname_of.
  destruct term as [|c term]; [contradiction|].
  unfold Key.pack_string_preserving_sort, Key.pack_uint_preserving_sort.
  rewrite <- app_assoc. cbn [app].
  assert (Hb : Z_of_byte (byte_of_Z (get_max_bytes did)) <> 255).
  { rewrite Z_of_byte_of_Z. pose proof (get_max_bytes_range did) as Hr.
    rewrite Z.mod_small by lia. lia. }
  generalize (c :: term). intro t.
  generalize (pack_uint_in_bytes did (Z.to_nat (get_max_bytes did))) as rest.
  generalize dependent (byte_of_Z (get_max_bytes did)). intros b Hb rest.
  induction t as [|a t IH].
  - cbn [Key.escape app Key.unpack_string_preserving_sort].
    change (Z_of_byte x00 =? 0) with true. cbv iota.
    destruct (Z_of_byte b =? 255) eqn:E; [apply Z.eqb_eq in E; contradiction|].
    reflexivity.
  - cbn [Key.escape]. destruct (Z_of_byte a =? 0) eqn:Ea.
    + cbn [app Key.unpack_string_preserving_sort]. rewrite Ea.
      change (Z_of_byte xff =? 255) with true. cbv iota.
      destruct (Key.unpack_string_preserving_sort _). cbn [fst] in *.
      f_equal. exact IH.
    + cbn [app Key.unpack_string_preserving_sort]. rewrite Ea.
      destruct (Key.unpack_string_preserving_sort _). cbn [fst] in *.
      f_equal. exact IH.
Qed.

(** A key with a docid after its term is not the key of a first chunk. *)
Lemma is_first_key_with_docid : forall (key tname keypos : bytes) (did : docid)
    (rest : bytes),
    Key.check_tname_in_key key tname = (true, keypos) ->
    Key.read_uint_preserving_sort keypos = Ok (did, rest) ->
    is_first_key key = false.
Proof.
  intros key tname keypos did rest H Hr.
  apply check_tname_in_key_true in H. destruct H as [_ [_ Hk]].
  unfold is_first_key. rewrite <- Hk.
  destruct keypos; [discriminate|reflexivity].
Qed.

End ChunkKeyFacts.

(** ** The bound on the chunks of a term *)

Module ChunkBoundFacts.
Import BrassTable ChunkKeyFacts.

Lemma Ok_inj : forall (A : Type) (a b : A), Ok a = Ok b -> a = b.
Proof. intros A a b H. congruence. Qed.

Lemma add_in : forall (table : BrassTable.t) (key tag k tg : bytes),
    In (k, tg) (add key tag table) -> (k, tg) = (key, tag) \/ In (k, tg) table.
Proof.
  induction table as [|[k0 tg0] table IH]; intros key tag k tg H.
  - cbn in H. destruct H as [H|[]]. left. congruence.
  - cbn [add] in H. destruct (key_compare key k0).
    + destruct H as [H|H]; [left; congruence|right; right; exact H].
    + destruct H as [H|H]; [left; congruence|right; exact H].
    + destruct H as [H|H]; [right; left; exact H|].
      apply IH in H. destruct H as [H|H]; [left; exact H|right; right; exact H].
Qed.

Lemma del_in : forall (table : BrassTable.t) (key k tg : bytes),
    In (k, tg) (del key table) -> In (k, tg) table.
Proof.
  induction table as [|[k0 tg0] table IH]; intros key k tg H; [exact H|].
  cbn [del] in H. destruct (key_compare key k0).
  - right. exact H.
  - exact H.
  - destruct H as [H|H]; [left; exact H|right; eapply IH; exact H].
Qed.

Lemma floor_entry_in : forall (table : BrassTable.t) (key : bytes)
    (best : bytes * bytes),
    BrassCursor.floor_entry key table best = best
    \/ In (BrassCursor.floor_entry key table best) table.
Proof.
  induction table as [|[k0 tg0] table IH]; intros key best; [left; reflexivity|].
  cbn [BrassCursor.floor_entry].
  destruct (key_compare k0 key); try (left; reflexivity);
    (destruct (IH key (k0, tg0)) as [H|H];
     [rewrite H; right; left; reflexivity|right; right; exact H]).
Qed.

Lemma higher_entry_in : forall (table : BrassTable.t) (key k tg : bytes),
    BrassCursor.higher_entry key table = Some (k, tg) -> In (k, tg) table.
Proof.
  induction table as [|[k0 tg0] table IH]; intros key k tg H; [discriminate|].
  cbn [BrassCursor.higher_entry] in H. destruct (key_ltb key k0).
  - left. congruence.
  - right. eapply IH. exact H.
Qed.

Lemma zap_loop_in : forall (fuel : nat) (table : BrassTable.t)
    (cursor : BrassCursor.t) (term k tg : bytes),
    In (k, tg) (BrassPostListTable.zap_loop fuel table cursor term) ->
    In (k, tg) table.
Proof.
  induction fuel as [|fuel IH]; intros table cursor term k tg H; [exact H|].
  cbn [BrassPostListTable.zap_loop] in H. unfold BrassCursor.del in H.
  destruct (negb _).
  - destruct (fst _).
    + apply IH in H. eapply del_in. exact H.
    + eapply del_in. exact H.
  - eapply del_in. exact H.
Qed.

Lemma chunks_bounded_del : forall (table : BrassTable.t) (key : bytes),
    chunks_bounded table -> chunks_bounded (del key table).
Proof.
  intros table key H k tg Hin. apply H. eapply del_in. exact Hin.
Qed.

Lemma chunks_bounded_add : forall (table : BrassTable.t) (key tag : bytes),
    chunks_bounded table ->
    (tname_of key <> [] ->
     exists body, chunk_body key tag = Ok body
                  /\ Z.of_nat (length body) <= CHUNKSIZE + max_entry_width) ->
    chunks_bounded (add key tag table).
Proof.
  intros table key tag H Hnew k tg Hin.
  apply add_in in Hin. destruct Hin as [Heq|Hin].
  - inversion Heq; subst. exact Hnew.
  - apply H. exact Hin.
Qed.

(** The body of a tag that is written, and of a tag that is read. *)
Lemma chunk_body_first_made :
  forall (key : bytes) (entries collectionfreq : Z) (new_did : docid)
         (is_last : bool) (first_did final_did : docid) (body : bytes),
    is_first_key key = true -> is_u32 entries -> is_u32 collectionfreq ->
    chunk_body key
      (make_start_of_first_chunk entries collectionfreq new_did
         ++ make_start_of_chunk is_last first_did final_did ++ body) = Ok body.
Proof.
  intros key entries collectionfreq new_did is_last first_did final_did body
         Hk He Hc.
  unfold chunk_body. rewrite Hk.
  rewrite HeaderFacts.read_make_start_of_first_chunk by assumption.
  cbn [bind]. rewrite HeaderFacts.read_make_start_of_chunk. reflexivity.
Qed.

Lemma chunk_body_later_made :
  forall (key : bytes) (is_last : bool) (first_did final_did : docid)
         (body : bytes),
    is_first_key key = false ->
    chunk_body key (make_start_of_chunk is_last first_did final_did ++ body)
    = Ok body.
Proof.
  intros key is_last first_did final_did body Hk.
  unfold chunk_body. rewrite Hk. cbn [bind].
  rewrite HeaderFacts.read_make_start_of_chunk. reflexivity.
Qed.

Lemma chunk_body_first_read :
  forall (key tag : bytes) (entries collectionfreq : Z) (did d : docid)
         (pos : bytes) (is_last : bool) (last_did : docid) (body : bytes),
    is_first_key key = true ->
    read_start_of_first_chunk tag = Ok (entries, collectionfreq, did, pos) ->
    read_start_of_chunk pos d = Ok (is_last, last_did, body) ->
    chunk_body key tag = Ok body.
Proof.
  intros key tag entries collectionfreq did d pos is_last last_did body
         Hk H1 H2.
  unfold chunk_body. rewrite Hk, H1. cbn [bind].
  destruct (NextChunkFacts.read_start_of_chunk_body pos d 0 _ _ _ H2) as [l Hl].
  rewrite Hl. reflexivity.
Qed.

Lemma chunk_body_later_read :
  forall (key tag : bytes) (d : docid) (is_last : bool) (last_did : docid)
         (body : bytes),
    is_first_key key = false ->
    read_start_of_chunk tag d = Ok (is_last, last_did, body) ->
    chunk_body key tag = Ok body.
Proof.
  intros key tag d is_last last_did body Hk H2.
  unfold chunk_body. rewrite Hk. cbn [bind].
  destruct (NextChunkFacts.read_start_of_chunk_body tag d 0 _ _ _ H2) as [l Hl].
  rewrite Hl. reflexivity.
Qed.

Lemma chunk_body_fun : forall (key tag body body' : bytes),
    chunk_body key tag = Ok body -> chunk_body key tag = Ok body' ->
    body = body'.
Proof. intros; congruence. Qed.

Section TermChunks.
Variable term : bytes.
Hypothesis term_not_empty : term <> [].

Lemma flush_promote_next_bounded :
  forall (table table' : BrassTable.t) (w : PostlistChunkWriter.t),
    writer_bounded term w -> chunks_bounded table ->
    PostlistChunkWriter.is_first_chunk w = true ->
    PostlistChunkWriter.flush_promote_next table w = Ok table' ->
    chunks_bounded table'.
Proof.
  intros table table' w [Ht [Hs [Hc Hf]]] HT Ef H.
  unfold PostlistChunkWriter.flush_promote_next, BrassCursor.find_entry in H.
  destruct (BrassCursor.floor_entry _ table _) as [k0 tag0].
  destruct (negb _); [discriminate|].
  cbn [BrassCursor.current_tag] in H.
  destruct (read_start_of_first_chunk tag0) as [[[[e c] f] p]|err] eqn:E1;
    cbn [bind] in H; [|discriminate].
  unfold BrassCursor.next, BrassCursor.after_end in H.
  cbn [BrassCursor.current_key BrassCursor.current_tag] in H.
  destruct (BrassCursor.higher_entry k0 table) as [[k1 tag1]|] eqn:Eh;
    cbn [BrassCursor.is_after_end BrassCursor.current_key
         BrassCursor.current_tag] in H; [|discriminate].
  destruct (Key.check_tname_in_key k1 _) as [same kpos] eqn:Ek.
  destruct same; cbn [negb] in H; [|discriminate].
  destruct (Key.read_uint_preserving_sort kpos) as [[d r]|err] eqn:Er;
    cbn [bind] in H; [|discriminate].
  destruct (read_start_of_chunk tag1 d) as [[[b l] data]|err] eqn:E2;
    cbn [bind] in H; [|discriminate].
  inversion H; subst table'. clear H.
  apply HeaderFacts.read_start_of_first_chunk_prefix in E1.
  destruct E1 as [He [Hcf _]].
  apply chunks_bounded_add; [apply chunks_bounded_del; exact HT|].
  intros _. exists data. split.
  - apply chunk_body_first_made; [apply Hf; exact Ef|exact He|exact Hcf].
  - pose proof (is_first_key_with_docid _ _ _ _ _ Ek Er) as Hk1.
    apply check_tname_in_key_true in Ek. destruct Ek as [_ [Hn _]].
    apply higher_entry_in in Eh.
    destruct (HT k1 tag1 Eh) as [body [Hb Hl]]; [rewrite Hn, Ht; exact term_not_empty|].
    rewrite (chunk_body_later_read _ _ _ _ _ _ Hk1 E2) in Hb.
    inversion Hb; subst. exact Hl.
Qed.

Lemma flush_update_previous_bounded :
  forall (table table' : BrassTable.t) (w : PostlistChunkWriter.t),
    writer_bounded term w -> chunks_bounded table ->
    PostlistChunkWriter.flush_update_previous table w = Ok table' ->
    chunks_bounded table'.
Proof.
  intros table table' w [Ht [Hs [Hc Hf]]] HT H.
  unfold PostlistChunkWriter.flush_update_previous, BrassCursor.find_entry in H.
  pose proof (floor_entry_in table (PostlistChunkWriter.orig_key w) ([], []))
    as Hin.
  destruct (BrassCursor.floor_entry _ table _) as [k0 tag0].
  destruct (key_exists _ _); [discriminate|].
  cbn [BrassCursor.current_key BrassCursor.current_tag] in H.
  destruct (Key.check_tname_in_key k0 _) as [same keypos] eqn:Ek.
  destruct same; cbn [negb] in H; [|discriminate].
  apply check_tname_in_key_true in Ek. destruct Ek as [Hk0 [Hn Hkp]].
  destruct Hin as [Hin|Hin]; [congruence|].
  destruct (HT k0 tag0 Hin) as [body [Hb Hl]];
    [rewrite Hn, Ht; exact term_not_empty|].
  assert (Hfk : is_first_key k0 = match keypos with [] => true | _ :: _ => false end).
  { unfold is_first_key. rewrite <- Hkp. reflexivity. }
  destruct keypos as [|kb keypos].
  - destruct (read_start_of_first_chunk tag0) as [[[[e c] f] p]|err] eqn:E1;
      cbn [bind] in H; [|discriminate].
    destruct (read_start_of_chunk p f) as [[[b l] data]|err] eqn:E2;
      cbn [bind] in H; [|discriminate].
    inversion H; subst table'. clear H.
    rewrite (chunk_body_first_read _ _ _ _ _ _ _ _ _ _ Hfk E1 E2) in Hb.
    inversion Hb; subst body. clear Hb.
    apply HeaderFacts.read_start_of_first_chunk_prefix in E1.
    destruct E1 as [He [Hcf [c1 [Htag O1]]]].
    apply HeaderFacts.read_start_of_chunk_prefix in E2.
    destruct E2 as [c2 [Hp O2]].
    apply chunks_bounded_add; [exact HT|].
    intros _. exists data. split; [|exact Hl].
    unfold PostlistChunkWriter.write_start_of_chunk.
    subst tag0 p.
    replace (length (c1 ++ c2 ++ data) - length (c2 ++ data))%nat
      with (length c1 + 0)%nat by (rewrite !length_app; lia).
    replace (length (c1 ++ c2 ++ data) - length data)%nat
      with (length (c1 ++ c2) + 0)%nat by (rewrite !length_app; lia).
    rewrite firstn_app_2. cbn [firstn]. rewrite app_nil_r.
    rewrite (app_assoc c1 c2 data). rewrite skipn_app.
    replace (length (c1 ++ c2) + 0 - length (c1 ++ c2))%nat with 0%nat by lia.
    rewrite Nat.add_0_r, skipn_all. cbn [app skipn].
    unfold chunk_body. rewrite Hfk, O1. cbn [bind].
    rewrite HeaderFacts.read_make_start_of_chunk. reflexivity.
  - destruct (Key.read_uint_preserving_sort (kb :: keypos)) as [[d r]|err];
      cbn [bind] in H; [|discriminate].
    destruct (read_start_of_chunk tag0 d) as [[[b l] data]|err] eqn:E2;
      cbn [bind] in H; [|discriminate].
    inversion H; subst table'. clear H.
    rewrite (chunk_body_later_read _ _ _ _ _ _ Hfk E2) in Hb.
    inversion Hb; subst body. clear Hb.
    apply HeaderFacts.read_start_of_chunk_prefix in E2.
    destruct E2 as [c2 [Hp O2]].
    apply chunks_bounded_add; [exact HT|].
    intros _. exists data. split; [|exact Hl].
    unfold PostlistChunkWriter.write_start_of_chunk.
    subst tag0. rewrite Nat.sub_diag. cbn [firstn app].
    replace (length (c2 ++ data) - length data)%nat
      with (length c2 + 0)%nat by (rewrite !length_app; lia).
    rewrite skipn_app.
    replace (length c2 + 0 - length c2)%nat with 0%nat by lia.
    rewrite Nat.add_0_r, skipn_all. cbn [app skipn].
    apply chunk_body_later_made. exact Hfk.
Qed.

Lemma flush_bounded :
  forall (table table' : BrassTable.t) (w : PostlistChunkWriter.t),
    writer_bounded term w -> chunks_bounded table ->
    PostlistChunkWriter.flush table w = Ok table' ->
    chunks_bounded table'.
Proof.
  intros table table' w HW HT H.
  pose proof HW as [Ht [Hs [Hc Hf]]].
  unfold PostlistChunkWriter.flush in H.
  destruct (PostlistChunkWriter.started w) eqn:Es; cbn [negb] in H.
  - destruct (PostlistChunkWriter.is_first_chunk w) eqn:Ef.
    + destruct (read_start_of_first_chunk _) as [[[[e c] f] p]|err] eqn:E1;
        cbn [bind] in H; [|discriminate].
      inversion H; subst table'. clear H.
      apply HeaderFacts.read_start_of_first_chunk_prefix in E1.
      destruct E1 as [He [Hcf _]].
      apply chunks_bounded_add; [exact HT|].
      intros _. exists (PostlistChunkWriter.chunk w). split; [|exact Hc].
      apply chunk_body_first_made; [|exact He|exact Hcf].
      rewrite Ht. apply is_first_key_make_key. exact term_not_empty.
    + destruct (Key.check_tname_in_key _ _) as [same keypos] eqn:Ek.
      destruct same; cbn [negb] in H; [|discriminate].
      destruct (Key.read_uint_preserving_sort keypos) as [[d r]|err] eqn:Er;
        cbn [bind] in H; [|discriminate].
      destruct (negb (d =? PostlistChunkWriter.first_did w));
        inversion H; subst table'; clear H.
      * apply chunks_bounded_add; [apply chunks_bounded_del; exact HT|].
        intros _. exists (PostlistChunkWriter.chunk w). split; [|exact Hc].
        apply chunk_body_later_made. rewrite Ht.
        apply is_first_key_make_key_did. exact term_not_empty.
      * apply chunks_bounded_add; [exact HT|].
        intros _. exists (PostlistChunkWriter.chunk w). split; [|exact Hc].
        apply chunk_body_later_made.
        eapply is_first_key_with_docid; [exact Ek|exact Er].
  - destruct (PostlistChunkWriter.is_first_chunk w) eqn:Ef.
    + destruct (PostlistChunkWriter.is_last_chunk w).
      * inversion H; subst table'. apply chunks_bounded_del. exact HT.
      * eapply flush_promote_next_bounded; [exact HW|exact HT|exact Ef|exact H].
    + destruct (PostlistChunkWriter.is_last_chunk w).
      * eapply flush_update_previous_bounded;
          [exact HW|apply chunks_bounded_del; exact HT|exact H].
      * inversion H; subst table'. apply chunks_bounded_del. exact HT.
Qed.

Lemma pack_uint_width : forall value : Z,
    is_u32 value -> Z.of_nat (length (pack_uint value)) <= 5.
Proof.
  intros value H. pose proof (PackFacts.pack_uint_length value H). lia.
Qed.

Lemma append_bounded :
  forall (table table' : BrassTable.t) (did : docid) (wdf : termcount)
         (w w' : PostlistChunkWriter.t),
    writer_bounded term w -> chunks_bounded table -> is_u32 wdf ->
    PostlistChunkWriter.append table did wdf w = Ok (table', w') ->
    chunks_bounded table' /\ writer_bounded term w'.
Proof.
  intros table table' did wdf w w' HW HT Hwdf H.
  pose proof HW as [Ht [Hs [Hc Hf]]].
  pose proof (pack_uint_width wdf Hwdf) as Hw.
  unfold PostlistChunkWriter.append in H.
  destruct (PostlistChunkWriter.started w) eqn:Es; cbn [negb] in H.
  - destruct (CHUNKSIZE <=? Z.of_nat (length (PostlistChunkWriter.chunk w)))
      eqn:Ec.
    + destruct (PostlistChunkWriter.flush table _) as [table1|err] eqn:Efl;
        cbn [bind] in H; [|discriminate].
      cbn [PostlistChunkWriter.orig_key PostlistChunkWriter.tname
           PostlistChunkWriter.is_first_chunk PostlistChunkWriter.is_last_chunk
           PostlistChunkWriter.started PostlistChunkWriter.first_did
           PostlistChunkWriter.chunk] in H.
      inversion H; subst table' w'. clear H. split.
      * eapply flush_bounded; [|exact HT|exact Efl].
        unfold writer_bounded. cbn. repeat split; assumption.
      * unfold writer_bounded. cbn [PostlistChunkWriter.orig_key
           PostlistChunkWriter.tname PostlistChunkWriter.is_first_chunk
           PostlistChunkWriter.started PostlistChunkWriter.chunk].
        split; [exact Ht|]. split; [discriminate|]. split; [|discriminate].
        cbn [app]. unfold CHUNKSIZE, max_entry_width. lia.
    + cbn [bind] in H.
      cbn [PostlistChunkWriter.orig_key PostlistChunkWriter.tname
           PostlistChunkWriter.is_first_chunk PostlistChunkWriter.is_last_chunk
           PostlistChunkWriter.started PostlistChunkWriter.first_did
           PostlistChunkWriter.chunk] in H.
      inversion H; subst table' w'. clear H. split; [exact HT|].
      unfold writer_bounded. cbn [PostlistChunkWriter.orig_key
           PostlistChunkWriter.tname PostlistChunkWriter.is_first_chunk
           PostlistChunkWriter.started PostlistChunkWriter.chunk].
      split; [exact Ht|]. split; [discriminate|]. split; [|exact Hf].
      apply Z.leb_gt in Ec. rewrite !length_app.
      pose proof (pack_uint_width
                    (u32 (did - PostlistChunkWriter.current_did w - 1))
                    (u32_range _)) as Hd.
      unfold max_entry_width. lia.
  - cbn [bind] in H.
    cbn [PostlistChunkWriter.orig_key PostlistChunkWriter.tname
         PostlistChunkWriter.is_first_chunk PostlistChunkWriter.is_last_chunk
         PostlistChunkWriter.started PostlistChunkWriter.first_did
         PostlistChunkWriter.chunk] in H.
    inversion H; subst table' w'. clear H. split; [exact HT|].
    unfold writer_bounded. cbn [PostlistChunkWriter.orig_key
         PostlistChunkWriter.tname PostlistChunkWriter.is_first_chunk
         PostlistChunkWriter.started PostlistChunkWriter.chunk].
    split; [exact Ht|]. split; [discriminate|]. split; [|exact Hf].
    rewrite (Hs eq_refl). cbn [app]. unfold CHUNKSIZE, max_entry_width. lia.
Qed.

Lemma reader_make_wdf : forall (first_did : docid) (data : bytes)
    (r : PostlistChunkReader.t),
    PostlistChunkReader.make first_did data = Ok r ->
    is_u32 (PostlistChunkReader.wdf r).
Proof.
  intros first_did data r H. unfold PostlistChunkReader.make in H.
  destruct data as [|b data].
  - inversion H; subst. cbn. unfold is_u32. lia.
  - unfold read_wdf in H.
    destruct (read_uint (b :: data)) as [[v p]|err] eqn:E; cbn [bind] in H;
      [|discriminate].
    inversion H; subst. cbn. apply HeaderFacts.read_uint_prefix in E. tauto.
Qed.

Lemma reader_next_wdf : forall r r' : PostlistChunkReader.t,
    is_u32 (PostlistChunkReader.wdf r) ->
    PostlistChunkReader.next r = Ok r' ->
    is_u32 (PostlistChunkReader.wdf r').
Proof.
  intros r r' Hr H. unfold PostlistChunkReader.next in H.
  destruct (PostlistChunkReader.pos r) as [|b p].
  - inversion H; subst. exact Hr.
  - destruct (read_did_increase _ _) as [[d p1]|err]; cbn [bind] in H;
      [|discriminate].
    unfold read_wdf in H.
    destruct (read_uint p1) as [[v p2]|err] eqn:E; cbn [bind] in H;
      [|discriminate].
    inversion H; subst. cbn. apply HeaderFacts.read_uint_prefix in E. tauto.
Qed.

Lemma writer_make_bounded : forall (key : bytes) (is_first is_last : bool),
    (is_first = true -> is_first_key key = true) ->
    writer_bounded term (PostlistChunkWriter.make key is_first term is_last).
Proof.
  intros key is_first is_last H. unfold writer_bounded, PostlistChunkWriter.make.
  cbn. repeat split; try assumption; try reflexivity.
  unfold CHUNKSIZE, max_entry_width. lia.
Qed.

Lemma raw_append_bounded : forall (first_did current_did : docid) (s : bytes)
    (key : bytes) (is_first is_last : bool),
    (is_first = true -> is_first_key key = true) ->
    Z.of_nat (length s) <= CHUNKSIZE + max_entry_width ->
    writer_bounded term
      (PostlistChunkWriter.raw_append first_did current_did s
         (PostlistChunkWriter.make key is_first term is_last)).
Proof.
  intros first_did current_did s key is_first is_last H Hs.
  unfold writer_bounded, PostlistChunkWriter.raw_append,
    PostlistChunkWriter.make.
  destruct s as [|b s]; cbn [PostlistChunkWriter.orig_key
         PostlistChunkWriter.tname PostlistChunkWriter.is_first_chunk
         PostlistChunkWriter.started PostlistChunkWriter.chunk app].
  - repeat split; try assumption; try reflexivity.
  - repeat split; try assumption; try discriminate.
Qed.

Lemma get_chunk_bounded :
  forall (table : BrassPostListTable.t) (did max_did : docid) (adding : bool)
         (from : option PostlistChunkReader.t)
         (to : option PostlistChunkWriter.t),
    chunks_bounded (BrassPostListTable.entries table) ->
    BrassPostListTable.get_chunk table term did adding = Ok (max_did, from, to) ->
    (forall w, to = Some w -> writer_bounded term w)
    /\ (forall r, from = Some r -> is_u32 (PostlistChunkReader.wdf r)).
Proof.
  intros table did max_did adding from to HT H.
  remember term as tn eqn:Etn in H.
  unfold BrassPostListTable.get_chunk in H.
  destruct tn as [|t0 tn']; [symmetry in Etn; contradiction|].
  rewrite Etn in H. clear Etn t0 tn'.
  unfold BrassCursor.find_entry in H.
  pose proof (floor_entry_in (BrassPostListTable.entries table)
                (Key.make_key_did term did) ([], [])) as Hin.
  destruct (BrassCursor.floor_entry _ _ _) as [k0 tag0].
  cbn [BrassCursor.current_key BrassCursor.current_tag] in H.
  destruct (Key.check_tname_in_key k0 term) as [same keypos] eqn:Ek.
  destruct same; cbn [negb] in H.
  2:{ destruct adding; cbn [negb] in H; [|discriminate].
      inversion H; subst. split; [|discriminate].
      intros w Hw. inversion Hw; subst.
      apply writer_make_bounded. intros _. reflexivity. }
  apply check_tname_in_key_true in Ek. destruct Ek as [Hk0 [Hn Hkp]].
  destruct Hin as [Hin|Hin]; [congruence|].
  destruct (HT k0 tag0 Hin) as [body [Hb Hl]];
    [rewrite Hn; exact term_not_empty|].
  assert (Hfk : is_first_key k0 = BrassPostList.is_empty keypos).
  { unfold is_first_key. rewrite <- Hkp. reflexivity. }
  clear Hn Hkp.
  destruct (if BrassPostList.is_empty keypos then _ else _)
    as [[fd ps]|err] eqn:E1 in H; cbn [bind] in H; [|discriminate].
  destruct (read_start_of_chunk ps fd) as [[[il ld] bd]|err] eqn:E2;
    cbn [bind] in H; [|discriminate].
  assert (Hbody : bd = body).
  { destruct (BrassPostList.is_empty keypos).
    - destruct (read_start_of_first_chunk tag0) as [[[[e c] f] p]|err] eqn:E3;
        cbn [bind] in E1; [|discriminate].
      inversion E1; subst.
      rewrite (chunk_body_first_read _ _ _ _ _ _ _ _ _ _ Hfk E3 E2) in Hb.
      congruence.
    - destruct (Key.read_uint_preserving_sort keypos) as [[f r]|err];
        cbn [bind] in E1; [|discriminate].
      inversion E1; subst.
      rewrite (chunk_body_later_read _ _ _ _ _ _ Hfk E2) in Hb.
      congruence. }
  subst bd. clear E1 E2 Hb.
  destruct (if ld <? did then _ else _) as [[from0 to0]|err] eqn:E3 in H;
    cbn [bind] in H; [|discriminate].
  assert (Hres : from = from0 /\ to = Some to0).
  { destruct il.
    - inversion H; subst. split; reflexivity.
    - unfold BrassCursor.next, BrassCursor.after_end in H.
      destruct (BrassCursor.higher_entry _ _) as [[k1 tag1]|];
        cbn [BrassCursor.is_after_end BrassCursor.current_key] in H;
        [|discriminate].
      destruct (Key.check_tname_in_key k1 term) as [same kpos].
      destruct same; cbn [negb] in H; [|discriminate].
      destruct (Key.read_uint_preserving_sort kpos) as [[d r]|err];
        cbn [bind] in H; [|discriminate].
      inversion H; subst. split; reflexivity. }
  destruct Hres as [Hfrom Hto]. subst from to. clear H.
  assert (Hfirst : BrassPostList.is_empty keypos = true -> is_first_key k0 = true)
    by (intro Hx; rewrite Hfk; exact Hx).
  destruct (ld <? did).
  - inversion E3; subst. split; [|discriminate].
    intros w Hw. inversion Hw; subst.
    apply raw_append_bounded; assumption.
  - destruct (PostlistChunkReader.make fd body) as [from1|err] eqn:E4;
      cbn [bind] in E3; [|discriminate].
    inversion E3; subst. split.
    + intros w Hw. inversion Hw; subst. apply writer_make_bounded. exact Hfirst.
    + intros r Hr. inversion Hr; subst. eapply reader_make_wdf. exact E4.
Qed.

Lemma update_bounded_reader :
  forall (u : BrassPostListTable.update) (from : PostlistChunkReader.t),
    update_bounded term u -> is_u32 (PostlistChunkReader.wdf from) ->
    update_bounded term
      (BrassPostListTable.mkUpdate (BrassPostListTable.u_entries u) (Some from)
         (BrassPostListTable.u_to u) (BrassPostListTable.u_max_did u)).
Proof.
  intros u from [HT [HW HR]] Hfrom. unfold update_bounded. cbn.
  split; [exact HT|]. split; [exact HW|].
  intros r Hr. inversion Hr; subst r. exact Hfrom.
Qed.

Lemma append_to_bounded :
  forall (u u' : BrassPostListTable.update) (did : docid) (wdf : termcount),
    update_bounded term u -> is_u32 wdf ->
    BrassPostListTable.append_to u did wdf = Ok u' ->
    update_bounded term u'.
Proof.
  intros u u' did wdf [HT [HW HR]] Hwdf H.
  unfold BrassPostListTable.append_to in H.
  destruct (BrassPostListTable.u_to u) as [to|] eqn:Eto; [|discriminate].
  destruct (PostlistChunkWriter.append _ did wdf to) as [[entries' to']|err]
    eqn:Ea; cbn [bind] in H; [|discriminate].
  inversion H; subst u'. clear H.
  destruct (append_bounded _ _ _ _ _ _ (HW to eq_refl) HT Hwdf Ea) as [HT' HW'].
  unfold update_bounded. cbn. split; [exact HT'|]. split; [|exact HR].
  intros w Hw. inversion Hw; subst w. exact HW'.
Qed.

Lemma copy_before_bounded :
  forall (fuel : nat) (did : docid) (from : PostlistChunkReader.t)
         (u u' : BrassPostListTable.update),
    update_bounded term u -> is_u32 (PostlistChunkReader.wdf from) ->
    BrassPostListTable.copy_before fuel did from u = Ok u' ->
    update_bounded term u'.
Proof.
  induction fuel as [|fuel IH]; intros did from u u' Hu Hfrom H;
    cbn [BrassPostListTable.copy_before] in H;
    (destruct (PostlistChunkReader.is_at_end from);
     [inversion H; subst u'; apply update_bounded_reader; assumption|]);
    (destruct (did <=? PostlistChunkReader.get_docid from);
     [destruct (PostlistChunkReader.get_docid from =? did);
      [destruct (PostlistChunkReader.next from) as [from'|err] eqn:En;
       cbn [bind] in H; [|discriminate];
       inversion H; subst u'; apply update_bounded_reader;
       [exact Hu|eapply reader_next_wdf; [exact Hfrom|exact En]]
      |cbn [bind] in H; inversion H; subst u';
       apply update_bounded_reader; assumption]
     |]).
  - discriminate.
  - destruct (BrassPostListTable.append_to u _ _) as [u1|err] eqn:Ea;
      cbn [bind] in H; [|discriminate].
    destruct (PostlistChunkReader.next from) as [from'|err] eqn:En;
      cbn [bind] in H; [|discriminate].
    eapply IH; [|eapply reader_next_wdf; [exact Hfrom|exact En]|exact H].
    eapply append_to_bounded; [exact Hu|exact Hfrom|exact Ea].
Qed.

Lemma copy_rest_bounded :
  forall (fuel : nat) (from : PostlistChunkReader.t)
         (u u' : BrassPostListTable.update),
    update_bounded term u -> is_u32 (PostlistChunkReader.wdf from) ->
    BrassPostListTable.copy_rest fuel from u = Ok u' ->
    update_bounded term u'.
Proof.
  induction fuel as [|fuel IH]; intros from u u' Hu Hfrom H;
    cbn [BrassPostListTable.copy_rest] in H;
    (destruct (PostlistChunkReader.is_at_end from);
     [inversion H; subst u'; exact Hu|]).
  - discriminate.
  - destruct (BrassPostListTable.append_to u _ _) as [u1|err] eqn:Ea;
      cbn [bind] in H; [|discriminate].
    destruct (PostlistChunkReader.next from) as [from'|err] eqn:En;
      cbn [bind] in H; [|discriminate].
    eapply IH; [|eapply reader_next_wdf; [exact Hfrom|exact En]|exact H].
    eapply append_to_bounded; [exact Hu|exact Hfrom|exact Ea].
Qed.

Lemma update_posting_bounded :
  forall (fuel : nat) (doclen_pl_ : option BrassPostList.t) (did : docid)
         (new_wdf : termcount) (u u' : BrassPostListTable.update),
    update_bounded term u -> is_u32 new_wdf ->
    BrassPostListTable.update_posting fuel doclen_pl_ term did new_wdf u = Ok u' ->
    update_bounded term u'.
Proof.
  induction fuel as [|fuel IH]; intros doclen_pl_ did new_wdf u u' Hu Hwdf H;
    cbn [BrassPostListTable.update_posting] in H;
    (destruct (match BrassPostListTable.u_from u with
               | Some from => _ | None => _ end) as [u1|err] eqn:E1 in H;
     cbn [bind] in H; [|discriminate]);
    (assert (Hu1 : update_bounded term u1);
     [destruct (BrassPostListTable.u_from u) as [from|] eqn:Ef;
      [eapply copy_before_bounded;
       [exact Hu|destruct Hu as [_ [_ HR]]; apply HR; exact Ef|exact E1]
      |inversion E1; subst u1; exact Hu]|]);
    (destruct (_ && _) in H;
     [|destruct (negb _) in H;
       [eapply append_to_bounded; [exact Hu1|exact Hwdf|exact H]
       |inversion H; subst u'; exact Hu1]]).
  - discriminate.
  - destruct (BrassPostListTable.u_to u1) as [to|] eqn:Eto; [|discriminate].
    destruct (PostlistChunkWriter.flush _ to) as [entries'|err] eqn:Efl;
      cbn [bind] in H; [|discriminate].
    destruct (BrassPostListTable.get_chunk _ term did false)
      as [[[max_did from] to']|err] eqn:Eg; cbn [bind] in H; [|discriminate].
    destruct Hu1 as [HT1 [HW1 _]].
    assert (HT' : chunks_bounded entries')
      by (eapply flush_bounded; [apply HW1; exact Eto|exact HT1|exact Efl]).
    destruct (get_chunk_bounded (BrassPostListTable.mk entries' doclen_pl_)
                _ _ _ _ _ HT' Eg) as [HW' HR'].
    eapply IH; [|exact Hwdf|exact H].
    unfold update_bounded. cbn. split; [exact HT'|]. split; assumption.
Qed.

Lemma update_postings_bounded :
  forall (fuel : nat) (doclen_pl_ : option BrassPostList.t) (j : doclen_map)
         (u u' : BrassPostListTable.update),
    update_bounded term u -> Forall (fun change => is_u32 (snd change)) j ->
    BrassPostListTable.update_postings fuel doclen_pl_ term j u = Ok u' ->
    update_bounded term u'.
Proof.
  intros fuel doclen_pl_ j. induction j as [|[did new_wdf] j IH];
    intros u u' Hu Hj H; cbn [BrassPostListTable.update_postings] in H.
  - inversion H; subst u'. exact Hu.
  - destruct (BrassPostListTable.update_posting _ _ _ _ _ _) as [u1|err] eqn:E1;
      cbn [bind] in H; [|discriminate].
    inversion Hj as [|x l Hx Hl]; subst.
    eapply IH; [|exact Hl|exact H].
    eapply update_posting_bounded; [exact Hu|exact Hx|exact E1].
Qed.

Lemma get_exact_entry_in : forall (table : BrassTable.t) (key tag : bytes),
    get_exact_entry key table = Some tag -> In (key, tag) table.
Proof.
  induction table as [|[k0 tg0] table IH]; intros key tag H; [discriminate|].
  cbn [get_exact_entry] in H. destruct (key_compare key k0) eqn:E.
  - apply TableFacts.key_compare_eq in E. inversion H; subst. left. reflexivity.
  - discriminate.
  - right. apply IH. exact H.
Qed.

(** The rewrite of the first chunk that [merge_changes] starts with. *)
Lemma stored_header_bounded :
  forall (table : BrassPostListTable.t)
         (termfreq collfreq : Z) (firstdid lastdid : docid) (islast : bool)
         (pos : bytes) (termfreq' collfreq' : Z),
    chunks_bounded (BrassPostListTable.entries table) ->
    BrassPostListTable.stored_header table term =
      Ok (termfreq, collfreq, firstdid, lastdid, islast, pos) ->
    chunks_bounded
      (add (Key.make_key term)
         ((make_start_of_first_chunk (u32 termfreq') (u32 collfreq') firstdid
            ++ make_start_of_chunk islast firstdid lastdid) ++ pos)
         (BrassPostListTable.entries table)).
Proof.
  intros table termfreq collfreq firstdid lastdid islast pos termfreq' collfreq'
         HT H.
  pose proof (is_first_key_make_key term term_not_empty) as Hk.
  apply chunks_bounded_add; [exact HT|].
  intros Hq. exists pos. split.
  - rewrite <- app_assoc. apply chunk_body_first_made;
      [exact Hk|apply u32_range|apply u32_range].
  - unfold BrassPostListTable.stored_header in H.
    destruct (get_exact_entry _ _) as [tag|] eqn:Eg.
    + destruct tag as [|b tag].
      * inversion H; subst. unfold CHUNKSIZE, max_entry_width. cbn. lia.
      * destruct (read_start_of_first_chunk (b :: tag))
          as [[[[e c] f] p]|err] eqn:E1; cbn [bind] in H; [|discriminate].
        destruct (read_start_of_chunk p f) as [[[il ld] bd]|err] eqn:E2;
          cbn [bind] in H; [|discriminate].
        inversion H; subst. clear H.
        apply get_exact_entry_in in Eg.
        destruct (HT _ _ Eg Hq) as [body [Hb Hl]].
        rewrite (chunk_body_first_read _ _ _ _ _ _ _ _ _ _ Hk E1 E2) in Hb.
        inversion Hb; subst body. exact Hl.
    + inversion H; subst. unfold CHUNKSIZE, max_entry_width. cbn. lia.
Qed.

Lemma merge_changes_term_bounded :
  forall (fuel : nat) (table table' : BrassPostListTable.t)
         (changes : BrassPostListTable.PostingChanges),
    chunks_bounded (BrassPostListTable.entries table) ->
    wdfs_in_range changes ->
    BrassPostListTable.merge_changes fuel table term changes = Ok table' ->
    chunks_bounded (BrassPostListTable.entries table').
Proof.
  intros fuel table table' changes HT Hwdf H.
  unfold BrassPostListTable.merge_changes in H.
  destruct (BrassPostListTable.stored_header table term)
    as [[[[[[termfreq collfreq] firstdid] lastdid] islast] pos]|err] eqn:Eh;
    cbn [bind] in H; [|discriminate].
  destruct (u32 (termfreq + BrassPostListTable.tfdelta changes) =? 0).
  - destruct islast.
    + inversion H; subst table'. cbn. apply chunks_bounded_del. exact HT.
    + destruct (BrassCursor.find_entry _ _) as [found cursor].
      destruct (negb found).
      * inversion H; subst table'. exact HT.
      * apply Ok_inj in H. subst table'. intros k tg Hin. apply HT.
        exact (zap_loop_in _ _ cursor _ k tg Hin).
  - pose proof (stored_header_bounded table _ _ _ _ _ _
                  (termfreq + BrassPostListTable.tfdelta changes)
                  (collfreq + BrassPostListTable.cfdelta changes) HT Eh) as HT1.
    assert (Hentries :
      match pos with
      | [] => add (Key.make_key term)
                (make_start_of_first_chunk
                   (u32 (termfreq + BrassPostListTable.tfdelta changes))
                   (u32 (collfreq + BrassPostListTable.cfdelta changes)) firstdid
                   ++ make_start_of_chunk islast firstdid lastdid)
                (BrassPostListTable.entries table)
      | _ :: _ => add (Key.make_key term)
                ((make_start_of_first_chunk
                   (u32 (termfreq + BrassPostListTable.tfdelta changes))
                   (u32 (collfreq + BrassPostListTable.cfdelta changes)) firstdid
                   ++ make_start_of_chunk islast firstdid lastdid) ++ pos)
                (BrassPostListTable.entries table)
      end =
      add (Key.make_key term)
                ((make_start_of_first_chunk
                   (u32 (termfreq + BrassPostListTable.tfdelta changes))
                   (u32 (collfreq + BrassPostListTable.cfdelta changes)) firstdid
                   ++ make_start_of_chunk islast firstdid lastdid) ++ pos)
                (BrassPostListTable.entries table)).
    { destruct pos; [rewrite app_nil_r|]; reflexivity. }
    rewrite Hentries in H. clear Hentries.
    destruct (BrassPostListTable.pl_changes changes) as [|[j_first w0] j] eqn:Ej;
      [discriminate|].
    destruct (BrassPostListTable.get_chunk _ term j_first false)
      as [[[max_did from] to]|err] eqn:Eg; cbn [bind] in H; [|discriminate].
    destruct (get_chunk_bounded (BrassPostListTable.mk _ _) _ _ _ _ _ HT1 Eg)
      as [HW HR].
    destruct (BrassPostListTable.update_postings _ _ _ _ _) as [u1|err] eqn:Eu;
      cbn [bind] in H; [|discriminate].
    assert (Hu1 : update_bounded term u1).
    { eapply update_postings_bounded; [|exact Hwdf|rewrite Ej; exact Eu].
      unfold update_bounded. cbn. split; [exact HT1|]. split; assumption. }
    destruct (match BrassPostListTable.u_from u1 with
              | Some from0 => _ | None => _ end) as [u2|err] eqn:E2 in H;
      cbn [bind] in H; [|discriminate].
    assert (Hu2 : update_bounded term u2).
    { destruct (BrassPostListTable.u_from u1) as [from1|] eqn:Ef.
      - eapply copy_rest_bounded;
          [exact Hu1|destruct Hu1 as [_ [_ HR1]]; apply HR1; exact Ef|exact E2].
      - inversion E2; subst u2. exact Hu1. }
    destruct (BrassPostListTable.u_to u2) as [to2|] eqn:Eto; [|discriminate].
    destruct (PostlistChunkWriter.flush _ to2) as [entries'|err] eqn:Efl;
      cbn [bind] in H; [|discriminate].
    inversion H; subst table'. cbn.
    destruct Hu2 as [HT2 [HW2 _]].
    eapply flush_bounded; [apply HW2; exact Eto|exact HT2|exact Efl].
Qed.

End TermChunks.

(** With the empty term [get_chunk] gives no writer, and the update loop
    cannot give a table. *)
Lemma update_posting_no_writer :
  forall (fuel : nat) (doclen_pl_ : option BrassPostList.t) (term : bytes)
         (did : docid) (new_wdf : termcount)
         (u u' : BrassPostListTable.update),
    BrassPostListTable.u_from u = None -> BrassPostListTable.u_to u = None ->
    BrassPostListTable.update_posting fuel doclen_pl_ term did new_wdf u = Ok u' ->
    u' = u.
Proof.
  intros fuel doclen_pl_ term did new_wdf u u' Hf Ht H.
  destruct fuel; cbn [BrassPostListTable.update_posting] in H;
    rewrite Hf in H; cbn [bind] in H; rewrite Hf in H;
    (destruct (_ && _) in H;
     [|destruct (negb _) in H;
       [unfold BrassPostListTable.append_to in H; rewrite Ht in H; discriminate
       |inversion H; reflexivity]]).
  - discriminate.
  - rewrite Ht in H. discriminate.
Qed.

Lemma update_postings_no_writer :
  forall (fuel : nat) (doclen_pl_ : option BrassPostList.t) (term : bytes)
         (j : doclen_map) (u u' : BrassPostListTable.update),
    BrassPostListTable.u_from u = None -> BrassPostListTable.u_to u = None ->
    BrassPostListTable.update_postings fuel doclen_pl_ term j u = Ok u' ->
    u' = u.
Proof.
  intros fuel doclen_pl_ term j. induction j as [|[did new_wdf] j IH];
    intros u u' Hf Ht H; cbn [BrassPostListTable.update_postings] in H.
  - inversion H. reflexivity.
  - destruct (BrassPostListTable.update_posting _ _ _ _ _ _) as [u1|err] eqn:E1;
      cbn [bind] in H; [|discriminate].
    apply update_posting_no_writer in E1; [|exact Hf|exact Ht]. subst u1.
    apply IH; assumption.
Qed.

Lemma merge_changes_bounded :
  forall (fuel : nat) (table table' : BrassPostListTable.t) (term : bytes)
         (changes : BrassPostListTable.PostingChanges),
    chunks_bounded (BrassPostListTable.entries table) ->
    wdfs_in_range changes ->
    BrassPostListTable.merge_changes fuel table term changes = Ok table' ->
    chunks_bounded (BrassPostListTable.entries table').
Proof.
  intros fuel table table' term changes HT Hwdf H.
  destruct term as [|t0 term].
  2:{ eapply merge_changes_term_bounded; [|exact HT|exact Hwdf|exact H].
      discriminate. }
  unfold BrassPostListTable.merge_changes in H.
  destruct (BrassPostListTable.stored_header table [])
    as [[[[[[termfreq collfreq] firstdid] lastdid] islast] pos]|err];
    cbn [bind] in H; [|discriminate].
  destruct (u32 (termfreq + BrassPostListTable.tfdelta changes) =? 0).
  - destruct islast.
    + inversion H; subst table'. cbn. apply chunks_bounded_del. exact HT.
    + destruct (BrassCursor.find_entry _ _) as [found cursor].
      destruct (negb found).
      * inversion H; subst table'. exact HT.
      * apply Ok_inj in H. subst table'. intros k tg Hin. apply HT.
        exact (zap_loop_in _ _ cursor _ k tg Hin).
  - destruct (BrassPostListTable.pl_changes changes) as [|[j_first w0] j];
      [discriminate|].
    cbn [BrassPostListTable.get_chunk bind] in H.
    destruct (BrassPostListTable.update_postings _ _ _ _ _) as [u1|err] eqn:Eu;
      cbn [bind] in H; [|discriminate].
    apply update_postings_no_writer in Eu; [|reflexivity|reflexivity].
    subst u1. cbn in H. discriminate.
Qed.

Lemma merge_all_bounded :
  forall (fuel : nat)
         (batches : list (bytes * BrassPostListTable.PostingChanges))
         (table table' : BrassPostListTable.t),
    chunks_bounded (BrassPostListTable.entries table) ->
    Forall (fun batch => wdfs_in_range (snd batch)) batches ->
    merge_all fuel table batches = Ok table' ->
    chunks_bounded (BrassPostListTable.entries table').
Proof.
  intros fuel batches. induction batches as [|[term changes] batches IH];
    intros table table' HT Hb H; cbn [merge_all] in H.
  - inversion H; subst table'. exact HT.
  - destruct (BrassPostListTable.merge_changes fuel table term changes)
      as [table1|err] eqn:E1; cbn [bind] in H; [|discriminate].
    inversion Hb as [|x l Hx Hl]; subst.
    eapply IH; [|exact Hl|exact H].
    eapply merge_changes_bounded; [exact HT|exact Hx|exact E1].
Qed.

End ChunkBoundFacts.

Lemma run_from_wdfs : forall (n : nat) (d : docid) (len : termcount),
    is_u32 len -> Forall (fun change => is_u32 (snd change)) (run_from n d len).
Proof.
  induction n as [|n IH]; intros d len H; cbn [run_from].
  - constructor.
  - constructor; [exact H|apply IH; exact H].
Qed.

Lemma split_table_merged :
  merge_all 4 empty_table [(cat, many_postings)] = Ok split_table.
Proof. vm_compute. reflexivity. Qed.

(** C5: when [append] finds that the chunk of a started writer, the only
    kind that holds anything, has reached CHUNKSIZE bytes, it flushes the
    chunk as one that is not the last and goes on with a new chunk that is
    not the first, opens at the docid appended, has the key of the term
    and that docid and takes over the last-chunk flag.  And whatever
    sequence of [merge_changes] calls returns, on a table whose chunks of
    terms have bodies of at most CHUNKSIZE bytes and one entry, leaves a
    table of such chunks. *)
Theorem chunk_size_bound :
  (forall (table : BrassTable.t) (did : docid) (wdf : termcount)
          (w : PostlistChunkWriter.t),
      (PostlistChunkWriter.started w = false -> PostlistChunkWriter.chunk w = []) ->
      CHUNKSIZE <= Z.of_nat (length (PostlistChunkWriter.chunk w)) ->
      PostlistChunkWriter.append table did wdf w =
        (table' <- PostlistChunkWriter.flush table
                     (PostlistChunkWriter.mk
                        (PostlistChunkWriter.orig_key w)
                        (PostlistChunkWriter.tname w)
                        (PostlistChunkWriter.is_first_chunk w) false true
                        (PostlistChunkWriter.first_did w)
                        (PostlistChunkWriter.current_did w)
                        (PostlistChunkWriter.chunk w)) ;;
         Ok (table',
             PostlistChunkWriter.mk
               (Key.make_key_did (PostlistChunkWriter.tname w) did)
               (PostlistChunkWriter.tname w) false
               (PostlistChunkWriter.is_last_chunk w) true did did
               (pack_uint wdf))))
  /\ (forall (fuel : nat)
             (batches : list (bytes * BrassPostListTable.PostingChanges))
             (table table' : BrassPostListTable.t),
         chunks_bounded (BrassPostListTable.entries table) ->
         Forall (fun batch => wdfs_in_range (snd batch)) batches ->
         merge_all fuel table batches = Ok table' ->
         chunks_bounded (BrassPostListTable.entries table')).
Proof.
  split.
  - intros table did wdf w Hs Hc.
    assert (Es : PostlistChunkWriter.started w = true).
    { destruct (PostlistChunkWriter.started w); [reflexivity|].
      rewrite (Hs eq_refl) in Hc. unfold CHUNKSIZE in Hc. cbn in Hc. lia. }
    unfold PostlistChunkWriter.append. rewrite Es. cbn [negb].
    apply Z.leb_le in Hc. rewrite Hc.
    destruct (PostlistChunkWriter.flush table _) as [table1|err];
      reflexivity.
  - apply ChunkBoundFacts.merge_all_bounded.
Qed.

Lemma chunk_size_bound_witness :
  PostlistChunkWriter.append two_chunk_table 1002 1 full_writer =
    (table' <- PostlistChunkWriter.flush two_chunk_table
                 (PostlistChunkWriter.mk (Key.make_key cat) cat true false true
                    1 1001 (PostlistChunkWriter.chunk full_writer)) ;;
     Ok (table',
         PostlistChunkWriter.mk (Key.make_key_did cat 1002) cat false true true
           1002 1002 (pack_uint 1)))
  /\ length (BrassPostListTable.entries split_table) = 2%nat
  /\ chunks_bounded (BrassPostListTable.entries split_table).
Proof.
  destruct chunk_size_bound as [Happend Hbound].
  split; [|split].
  - apply (Happend two_chunk_table 1002 1 full_writer).
    + intro H. discriminate H.
    + vm_compute. intro H. discriminate H.
  - vm_compute. reflexivity.
  - apply (Hbound 4%nat [(cat, many_postings)] empty_table split_table).
    + intros key tag H. destruct H.
    + constructor; [|constructor].
      apply run_from_wdfs. unfold is_u32. lia.
    + exact split_table_merged.
Defined.

(** ** The early returns of the table *)

(** C9: [merge_doclen_changes] with an empty map of changes returns at
    once, for every bound on its loop: the cached doclen list is reset,
    the entries of the table are the ones it had, and in particular the
    dummy first chunk is not created. *)
Theorem merge_doclen_changes_empty :
  forall (T : Tunables) (fuel : nat) (table : BrassPostListTable.t),
    BrassPostListTable.merge_doclen_changes fuel table [] =
      Ok (BrassPostListTable.mk (BrassPostListTable.entries table) None).
Proof.
  intros T fuel table. reflexivity.
Qed.

(** C10: for the empty term name [get_chunk] sets both out-parameters to
    null and returns docid(-1), whatever the table holds, the docid and
    the flag; it hands back no table, so the table stays as it is. *)
Theorem get_chunk_empty_tname :
  forall (table : BrassPostListTable.t) (did : docid) (adding : bool),
    BrassPostListTable.get_chunk table [] did adding = Ok (4294967295, None, None).
Proof.
  intros table did adding. reflexivity.
Qed.

(** * Further properties of the code *)

(** ** The headers, the keys and the byte counts *)

Module CodecFacts.

Lemma u32_pred_succ : forall did : Z, is_u32 did -> u32 (u32 (did - 1) + 1) = did.
Proof.
  intros did [H0 H1]. unfold u32.
  destruct (Z.eq_dec did 0) as [->|Hz]; [reflexivity|].
  rewrite (Z.mod_small (did - 1)) by lia.
  replace (did - 1 + 1) with did by lia. apply Z.mod_small. lia.
Qed.

Lemma get_max_bytes_loop_zero : forall (fuel : nat) (l : Z),
    get_max_bytes_loop fuel 0 l = l.
Proof. intros [|fuel] l; reflexivity. Qed.

Lemma get_max_bytes_loop_least : forall (fuel : nat) (n l : Z),
    0 < n < 256 ^ Z.of_nat fuel ->
    256 ^ (get_max_bytes_loop fuel n l - l - 1) <= n.
Proof.
  induction fuel as [|fuel IH]; intros n l Hn.
  - change (256 ^ Z.of_nat 0) with 1 in Hn. lia.
  - cbn [get_max_bytes_loop].
    destruct (n =? 0) eqn:E; [apply Z.eqb_eq in E; lia|].
    rewrite Z.shiftr_div_pow2 by lia. change (2 ^ 8) with 256.
    rewrite Nat2Z.inj_succ, Z.pow_succ_r in Hn by lia.
    destruct (Z.eq_dec (n / 256) 0) as [Hq|Hq].
    + rewrite Hq, get_max_bytes_loop_zero.
      replace (l + 1 - l - 1) with 0 by lia. change (256 ^ 0) with 1. lia.
    + assert (Hq' : 0 < n / 256 < 256 ^ Z.of_nat fuel).
      { pose proof (Z.div_pos n 256 ltac:(lia) ltac:(lia)).
        split; [lia|apply Z.div_lt_upper_bound; lia]. }
      specialize (IH (n / 256) (l + 1) Hq').
      pose proof (get_max_bytes_loop_bounds fuel (n / 256) (l + 1)) as Hb.
      assert (Hk : l + 2 <= get_max_bytes_loop fuel (n / 256) (l + 1)).
      { destruct fuel as [|fuel]; [change (256 ^ Z.of_nat 0) with 1 in Hq'; lia|].
        cbn [get_max_bytes_loop].
        destruct (n / 256 =? 0) eqn:E'; [apply Z.eqb_eq in E'; lia|].
        pose proof (get_max_bytes_loop_bounds fuel
                      (Z.shiftr (n / 256) 8) (l + 1 + 1)). lia. }
      set (k := get_max_bytes_loop fuel (n / 256) (l + 1)) in *.
      replace (k - l - 1) with (Z.succ (k - (l + 1) - 1)) by lia.
      rewrite Z.pow_succ_r by lia.
      pose proof (Z.mul_div_le n 256 ltac:(lia)). lia.
Qed.

Lemma unpack_escape_separator_term :
  forall (term : bytes) (b : byte) (rest : bytes),
    Z_of_byte b <> 255 ->
    Key.unpack_string_preserving_sort (Key.escape term ++ x00 :: b :: rest)
    = (term, b :: rest).
Proof.
  intros term b rest Hb. induction term as [|c term IH].
  - cbn [Key.escape app Key.unpack_string_preserving_sort].
    change (Z_of_byte x00 =? 0) with true. cbv iota.
    destruct (Z_of_byte b =? 255) eqn:E; [apply Z.eqb_eq in E; contradiction|].
    reflexivity.
  - cbn [Key.escape]. destruct (Z_of_byte c =? 0) eqn:Ec.
    + cbn [app Key.unpack_string_preserving_sort]. rewrite Ec.
      change (Z_of_byte xff =? 255) with true. cbv iota.
      rewrite IH. reflexivity.
    + cbn [app Key.unpack_string_preserving_sort]. rewrite Ec.
      rewrite IH. reflexivity.
Qed.

Lemma unpack_escape_all : forall term : bytes,
    Key.unpack_string_preserving_sort (Key.escape term) = (term, []).
Proof.
  induction term as [|c term IH]; [reflexivity|].
  cbn [Key.escape]. destruct (Z_of_byte c =? 0) eqn:Ec.
  - cbn [Key.unpack_string_preserving_sort]. rewrite Ec.
    change (Z_of_byte xff =? 255) with true. cbv iota.
    rewrite IH. reflexivity.
  - cbn [Key.unpack_string_preserving_sort]. rewrite Ec.
    rewrite IH. reflexivity.
Qed.

(** The term check never takes a key that opens with the escaped bytes
    of a term for the key of the doclen list. *)
Lemma check_lite_escape : forall (term suffix tname : bytes),
    term <> [] ->
    Key.check_tname_in_key_lite (Key.escape term ++ suffix) tname =
      (Key.bytes_eqb
         (fst (Key.unpack_string_preserving_sort (Key.escape term ++ suffix)))
         tname,
       snd (Key.unpack_string_preserving_sort (Key.escape term ++ suffix))).
Proof.
  intros [|b term] suffix tname H; [contradiction|].
  unfold Key.check_tname_in_key_lite, Key.get_tname_from_key.
  cbn [Key.escape]. destruct (Z_of_byte b =? 0) eqn:Eb.
  - cbn [app]. rewrite Eb. change (Z_of_byte xff =? 224) with false.
    cbn [andb].
    destruct (Key.unpack_string_preserving_sort _); reflexivity.
  - cbn [app]. destruct (Key.escape term ++ suffix) as [|b1 rest].
    + destruct (Key.unpack_string_preserving_sort _); reflexivity.
    + rewrite Eb. cbn [andb].
      destruct (Key.unpack_string_preserving_sort _); reflexivity.
Qed.

Lemma escape_not_empty : forall term : bytes, term <> [] -> Key.escape term <> [].
Proof.
  intros [|b term] H; [contradiction|].
  cbn [Key.escape]. destruct (Z_of_byte b =? 0); discriminate.
Qed.

Lemma length_byte : forall did : docid,
    Z_of_byte (byte_of_Z (get_max_bytes did)) = get_max_bytes did.
Proof.
  intro did. rewrite Z_of_byte_of_Z.
  pose proof (get_max_bytes_range did). apply Z.mod_small. lia.
Qed.

Lemma read_pack_uint_preserving_sort : forall (did : docid) (rest : bytes),
    is_u32 did ->
    Key.read_uint_preserving_sort (Key.pack_uint_preserving_sort did ++ rest)
    = Ok (did, rest).
Proof.
  intros did rest H.
  unfold Key.read_uint_preserving_sort, Key.unpack_uint_preserving_sort,
    Key.pack_uint_preserving_sort.
  cbn [app]. rewrite length_byte.
  pose proof (get_max_bytes_range did) as Hr.
  pose proof (get_max_bytes_fits did H) as Hf.
  rewrite PackFacts.unpack_pack_uint_in_bytes.
  - destruct (4 <? get_max_bytes did) eqn:E; [apply Z.ltb_lt in E; lia|].
    reflexivity.
  - rewrite Z2Nat.id by lia. destruct H. lia.
Qed.

Lemma check_make_key : forall term tname : bytes,
    Key.check_tname_in_key (Key.make_key term) tname
    = (Key.bytes_eqb term tname, []).
Proof.
  intros term tname. destruct term as [|b term]; [reflexivity|].
  assert (Hne : b :: term <> []) by discriminate.
  rewrite KeyFacts.make_key_escape by exact Hne.
  unfold Key.check_tname_in_key.
  destruct (Key.escape (b :: term)) eqn:E;
    [exfalso; exact (escape_not_empty _ Hne E)|].
  rewrite <- E. rewrite <- (app_nil_r (Key.escape (b :: term))).
  rewrite check_lite_escape by exact Hne.
  rewrite app_nil_r, unpack_escape_all. reflexivity.
Qed.

Lemma check_make_key_did : forall (term tname : bytes) (did : docid),
    Key.check_tname_in_key (Key.make_key_did term did) tname
    = (Key.bytes_eqb term tname, Key.pack_uint_preserving_sort did).
Proof.
  intros term tname did. destruct term as [|b term]; [reflexivity|].
  assert (Hne : b :: term <> []) by discriminate.
  unfold Key.make_key_did, Key.pack_string_preserving_sort.
  rewrite <- app_assoc. unfold Key.check_tname_in_key.
  destruct (Key.escape (b :: term) ++ [x00] ++ Key.pack_uint_preserving_sort did)
    eqn:E.
  { apply app_eq_nil in E. destruct E as [E _].
    exfalso. exact (escape_not_empty _ Hne E). }
  rewrite <- E. rewrite check_lite_escape by exact Hne.
  unfold Key.pack_uint_preserving_sort. cbn [app].
  rewrite unpack_escape_separator_term; [reflexivity|].
  rewrite length_byte. pose proof (get_max_bytes_range did). lia.
Qed.

End CodecFacts.

(** X1: the headers that [make_start_of_first_chunk] and
    [make_start_of_chunk] write are read back by
    [read_start_of_first_chunk] and [read_start_of_chunk], for a first
    chunk and for a later chunk: the counts, the first docid, the flag and
    the last docid are those written, and the pointer is left on what
    follows the headers. *)
Theorem chunk_headers_round_trip :
  forall (entries : doccount) (collectionfreq : termcount)
         (first_did last_did : docid) (is_last : bool) (body : bytes),
    is_u32 entries -> is_u32 collectionfreq ->
    is_u32 first_did -> is_u32 last_did -> first_did <= last_did ->
    ('(e, c, f, p) <-
       read_start_of_first_chunk
         (make_start_of_first_chunk entries collectionfreq first_did
            ++ make_start_of_chunk is_last first_did last_did ++ body) ;;
     '(l, d, p) <- read_start_of_chunk p f ;;
     Ok (e, c, f, l, d, p))
    = Ok (entries, collectionfreq, first_did, is_last, last_did, body)
    /\ read_start_of_chunk
         (make_start_of_chunk is_last first_did last_did ++ body) first_did
       = Ok (is_last, last_did, body).
Proof.
  intros entries collectionfreq first_did last_did is_last body
         He Hc Hf Hl Hle.
  assert (Hd : u32 (first_did + u32 (last_did - first_did)) = last_did).
  { destruct Hf, Hl. unfold u32.
    rewrite (Z.mod_small (last_did - first_did)) by lia.
    replace (first_did + (last_did - first_did)) with last_did by lia.
    apply Z.mod_small. lia. }
  split.
  - rewrite HeaderFacts.read_make_start_of_first_chunk by assumption.
    cbn [bind]. rewrite CodecFacts.u32_pred_succ by exact Hf.
    rewrite HeaderFacts.read_make_start_of_chunk. cbn [bind].
    rewrite Hd. reflexivity.
  - rewrite HeaderFacts.read_make_start_of_chunk. rewrite Hd. reflexivity.
Qed.

Lemma chunk_headers_round_trip_witness :
  read_start_of_chunk (make_start_of_chunk false 10 12 ++ cat_second_body) 10
  = Ok (false, 12, cat_second_body).
Proof.
  apply (chunk_headers_round_trip 4 9 10 12 false cat_second_body);
    unfold is_u32; lia.
Defined.

(** X2: the term check on the keys of a list.  On the key of the first
    chunk of [term], [check_tname_in_key] tells whether the term asked for
    is [term] and leaves the key pointer at the end of the key; on the key
    of a later chunk it leaves the pointer on the docid, which reads back
    as the first docid the key was made for.  The keys of the doclen list,
    made for the empty term, are no exception. *)
Theorem check_tname_in_key_of_made_key :
  forall (term tname : bytes) (did : docid),
    is_u32 did ->
    Key.check_tname_in_key (Key.make_key term) tname
    = (Key.bytes_eqb term tname, [])
    /\ Key.check_tname_in_key (Key.make_key_did term did) tname
       = (Key.bytes_eqb term tname, Key.pack_uint_preserving_sort did)
    /\ Key.read_uint_preserving_sort (Key.pack_uint_preserving_sort did)
       = Ok (did, []).
Proof.
  intros term tname did H. split; [|split].
  - apply CodecFacts.check_make_key.
  - apply CodecFacts.check_make_key_did.
  - rewrite <- (app_nil_r (Key.pack_uint_preserving_sort did)).
    apply CodecFacts.read_pack_uint_preserving_sort. exact H.
Qed.

Lemma check_tname_in_key_of_made_key_witness :
  Key.check_tname_in_key (Key.make_key_did cat 10) cat
  = (true, Key.pack_uint_preserving_sort 10).
Proof.
  destruct (check_tname_in_key_of_made_key cat cat 10) as [_ [H _]].
  - unfold is_u32. lia.
  - exact H.
Defined.

(** X3: [get_max_bytes] gives the least number of bytes that hold a
    32-bit value, and one byte for 0: the value is below 256 to the power
    of the count, the count is between 1 and 4, and no smaller count of at
    least one byte holds the value. *)
Theorem get_max_bytes_least :
  forall n : Z,
    is_u32 n ->
    1 <= get_max_bytes n <= 4
    /\ n < 256 ^ get_max_bytes n
    /\ (forall k : Z, 1 <= k -> n < 256 ^ k -> get_max_bytes n <= k).
Proof.
  intros n H. split; [apply get_max_bytes_range|].
  split; [apply get_max_bytes_fits; exact H|].
  intros k Hk Hn. unfold get_max_bytes.
  destruct (n =? 0) eqn:E; [lia|]. apply Z.eqb_neq in E.
  destruct H as [H0 H1].
  pose proof (CodecFacts.get_max_bytes_loop_least 4 n 0) as Hl.
  change (256 ^ Z.of_nat 4) with (2 ^ 32) in Hl.
  specialize (Hl ltac:(lia)).
  pose proof (get_max_bytes_loop_bounds 4 n 0) as Hb.
  set (r := get_max_bytes_loop 4 n 0) in *.
  destruct (Z_le_gt_dec r k) as [Hrk|Hrk]; [exact Hrk|exfalso].
  assert (Hp : 256 ^ k <= 256 ^ (r - 0 - 1))
    by (apply Z.pow_le_mono_r; lia).
  lia.
Qed.

Lemma get_max_bytes_least_witness : get_max_bytes 70000 <= 3.
Proof.
  destruct (get_max_bytes_least 70000) as [_ [_ H]].
  - unfold is_u32. lia.
  - apply H; [lia|reflexivity].
Defined.

(** ** Postings written and read *)

Module PostingFacts.

Lemma read_did_increase_packed : forall (d d' : docid) (rest : bytes),
    is_u32 d -> is_u32 d' -> d < d' ->
    read_did_increase (pack_uint (u32 (d' - d - 1)) ++ rest) d = Ok (d', rest).
Proof.
  intros d d' rest [H0 H1] [H0' H1'] Hlt. unfold read_did_increase.
  rewrite HeaderFacts.read_pack_uint by apply u32_range. cbn [bind].
  f_equal. f_equal. unfold u32.
  rewrite (Z.mod_small (d' - d - 1)) by lia.
  replace (d + (d' - d - 1 + 1)) with d' by lia. apply Z.mod_small. lia.
Qed.

Lemma encode_postings_length : forall (postings : doclen_map) (d : docid),
    ascending_from d postings = true ->
    Z.of_nat (length (encode_postings d postings))
    <= 10 * Z.of_nat (length postings).
Proof.
  induction postings as [|[d' wdf] postings IH]; intros d H.
  - cbn. lia.
  - apply ascending_from_cons in H. destruct H as [Hlt [Hd [Hw Hrest]]].
    cbn [encode_postings length]. rewrite !length_app.
    pose proof (PackFacts.pack_uint_length (u32 (d' - d - 1)) (u32_range _)).
    pose proof (PackFacts.pack_uint_length wdf Hw).
    specialize (IH d' Hrest). lia.
Qed.

(** [append] below the threshold adds the entry to the chunk and touches
    nothing else. *)
Lemma append_all_started :
  forall (postings : doclen_map) (table : BrassTable.t)
         (w : PostlistChunkWriter.t),
    PostlistChunkWriter.started w = true ->
    ascending_from (PostlistChunkWriter.current_did w) postings = true ->
    Z.of_nat (length (PostlistChunkWriter.chunk w))
      + 10 * Z.of_nat (length postings) <= CHUNKSIZE + 9 ->
    append_all table postings w =
      Ok (table,
          PostlistChunkWriter.mk
            (PostlistChunkWriter.orig_key w) (PostlistChunkWriter.tname w)
            (PostlistChunkWriter.is_first_chunk w)
            (PostlistChunkWriter.is_last_chunk w) true
            (PostlistChunkWriter.first_did w)
            (last_docid_of postings (PostlistChunkWriter.current_did w))
            (PostlistChunkWriter.chunk w
               ++ encode_postings (PostlistChunkWriter.current_did w) postings)).
Proof.
  induction postings as [|[d' wdf] postings IH]; intros table w Hs Ha Hl.
  - cbn [append_all encode_postings]. rewrite app_nil_r.
    unfold last_docid_of. cbn [last fst].
    destruct w; cbn in *. subst. reflexivity.
  - apply ascending_from_cons in Ha. destruct Ha as [Hlt [Hd [Hw Hrest]]].
    cbn [append_all]. unfold PostlistChunkWriter.append.
    rewrite Hs. cbn [negb].
    cbn [length] in Hl.
    destruct (CHUNKSIZE <=? Z.of_nat (length (PostlistChunkWriter.chunk w)))
      eqn:E; [apply Z.leb_le in E; lia|].
    cbn [bind PostlistChunkWriter.orig_key PostlistChunkWriter.tname
         PostlistChunkWriter.is_first_chunk PostlistChunkWriter.is_last_chunk
         PostlistChunkWriter.started PostlistChunkWriter.first_did
         PostlistChunkWriter.chunk].
    rewrite IH.
    + cbn [PostlistChunkWriter.orig_key PostlistChunkWriter.tname
           PostlistChunkWriter.is_first_chunk PostlistChunkWriter.is_last_chunk
           PostlistChunkWriter.started PostlistChunkWriter.first_did
           PostlistChunkWriter.current_did PostlistChunkWriter.chunk
           encode_postings].
      rewrite last_docid_of_cons. rewrite <- !app_assoc. reflexivity.
    + reflexivity.
    + exact Hrest.
    + cbn [PostlistChunkWriter.chunk]. rewrite !length_app.
      pose proof (PackFacts.pack_uint_length
                    (u32 (d' - PostlistChunkWriter.current_did w - 1))
                    (u32_range _)).
      pose proof (PackFacts.pack_uint_length wdf Hw). lia.
Qed.

(** The first [append] of a writer that holds nothing starts the chunk. *)
Lemma append_all_fresh :
  forall (postings : doclen_map) (table : BrassTable.t)
         (key tname : bytes) (is_first is_last : bool)
         (d : docid) (wdf : termcount),
    well_formed_map ((d, wdf) :: postings) = true ->
    10 * Z.of_nat (length ((d, wdf) :: postings)) <= CHUNKSIZE ->
    append_all table ((d, wdf) :: postings)
      (PostlistChunkWriter.make key is_first tname is_last) =
      Ok (table,
          PostlistChunkWriter.mk key tname is_first is_last true d
            (last_docid_of postings d) (chunk_of ((d, wdf) :: postings))).
Proof.
  intros postings table key tname is_first is_last d wdf Hwf Hl.
  unfold well_formed_map in Hwf.
  apply andb_prop in Hwf. destruct Hwf as [Hwf Hrest].
  apply andb_prop in Hwf. destruct Hwf as [Hwf Hw].
  apply is_u32b_true in Hw.
  cbn [append_all]. unfold PostlistChunkWriter.append, PostlistChunkWriter.make.
  cbn [PostlistChunkWriter.started negb bind PostlistChunkWriter.orig_key
       PostlistChunkWriter.tname PostlistChunkWriter.is_first_chunk
       PostlistChunkWriter.is_last_chunk PostlistChunkWriter.first_did
       PostlistChunkWriter.current_did PostlistChunkWriter.chunk app].
  rewrite append_all_started.
  - reflexivity.
  - reflexivity.
  - exact Hrest.
  - cbn [PostlistChunkWriter.chunk]. cbn [length] in Hl.
    pose proof (PackFacts.pack_uint_length wdf Hw). lia.
Qed.

(** The reader on the entries that [append] wrote. *)
Lemma read_postings_encoded :
  forall (postings : doclen_map) (fuel : nat) (d : docid) (wdf : termcount),
    is_u32 d -> is_u32 wdf ->
    ascending_from d postings = true ->
    (length postings < fuel)%nat ->
    read_postings fuel
      (PostlistChunkReader.mk (encode_postings d postings) false d wdf)
    = Ok ((d, wdf) :: postings).
Proof.
  induction postings as [|[d' wdf'] postings IH]; intros fuel d wdf Hd Hw Ha Hf.
  - destruct fuel as [|fuel]; [cbn in Hf; lia|].
    cbn [read_postings PostlistChunkReader.is_at_end PostlistChunkReader.at_end
         encode_postings].
    unfold PostlistChunkReader.next.
    cbn [PostlistChunkReader.pos bind PostlistChunkReader.did
         PostlistChunkReader.wdf].
    destruct fuel; reflexivity.
  - apply ascending_from_cons in Ha. destruct Ha as [Hlt [Hd' [Hw' Hrest]]].
    destruct fuel as [|fuel]; [cbn in Hf; lia|].
    cbn [read_postings PostlistChunkReader.is_at_end PostlistChunkReader.at_end
         encode_postings].
    unfold PostlistChunkReader.next.
    cbn [PostlistChunkReader.pos PostlistChunkReader.did
         PostlistChunkReader.wdf PostlistChunkReader.at_end].
    pose proof (RoundTrip.pack_uint_nonempty (u32 (d' - d - 1))) as Hne.
    destruct (pack_uint (u32 (d' - d - 1)) ++ pack_uint wdf'
                ++ encode_postings d' postings) as [|b rest] eqn:E.
    { apply app_eq_nil in E. destruct E as [E _]. contradiction. }
    rewrite <- E. rewrite read_did_increase_packed by assumption.
    cbn [bind]. unfold read_wdf.
    rewrite HeaderFacts.read_pack_uint by exact Hw'. cbn [bind].
    rewrite IH; [reflexivity|assumption|assumption|assumption|].
    cbn [length] in Hf. lia.
Qed.

Lemma reader_make_chunk_of : forall (d : docid) (wdf : termcount)
    (postings : doclen_map),
    is_u32 wdf ->
    PostlistChunkReader.make d (chunk_of ((d, wdf) :: postings)) =
      Ok (PostlistChunkReader.mk (encode_postings d postings) false d wdf).
Proof.
  intros d wdf postings Hw. unfold PostlistChunkReader.make, chunk_of.
  pose proof (RoundTrip.pack_uint_nonempty wdf) as Hne.
  destruct (pack_uint wdf ++ encode_postings d postings) as [|b rest] eqn:E.
  { apply app_eq_nil in E. destruct E as [E _]. contradiction. }
  rewrite <- E. unfold read_wdf.
  rewrite HeaderFacts.read_pack_uint by exact Hw. reflexivity.
Qed.

Lemma well_formed_map_first : forall (d : docid) (wdf : termcount)
    (postings : doclen_map),
    well_formed_map ((d, wdf) :: postings) = true ->
    1 <= d /\ is_u32 d /\ is_u32 wdf /\ ascending_from d postings = true.
Proof.
  intros d wdf postings H. unfold well_formed_map in H.
  apply andb_prop in H. destruct H as [H Hrest].
  apply andb_prop in H. destruct H as [H Hw].
  apply andb_prop in H. destruct H as [H1 Hd].
  apply is_u32b_true in Hw. apply is_u32b_true in Hd. apply Z.leb_le in H1.
  tauto.
Qed.

End PostingFacts.

(** X4: the chunk a writer builds is read back by a chunk reader.  A
    fresh writer to which postings with ascending docids are appended, few
    enough for the chunk to stay below the threshold, leaves the table as
    it is, opens at the first docid and stands on the last, and a reader
    made on its chunk with that first docid delivers the postings
    appended, each docid with its wdf, and then is at the end. *)
Theorem writer_reader_round_trip :
  forall (table : BrassTable.t) (key tname : bytes) (is_first is_last : bool)
         (postings : doclen_map),
    postings <> [] ->
    well_formed_map postings = true ->
    10 * Z.of_nat (length postings) <= CHUNKSIZE ->
    exists w : PostlistChunkWriter.t,
      append_all table postings
        (PostlistChunkWriter.make key is_first tname is_last) = Ok (table, w)
      /\ PostlistChunkWriter.first_did w = fst (hd (0, 0) postings)
      /\ PostlistChunkWriter.current_did w = fst (last postings (0, 0))
      /\ (r <- PostlistChunkReader.make (PostlistChunkWriter.first_did w)
                 (PostlistChunkWriter.chunk w) ;;
          read_postings (S (length postings)) r) = Ok postings.
Proof.
  intros table key tname is_first is_last postings Hne Hwf Hl.
  destruct postings as [|[d wdf] postings]; [contradiction|].
  destruct (PostingFacts.well_formed_map_first _ _ _ Hwf) as [H1 [Hd [Hw Ha]]].
  eexists. split; [apply PostingFacts.append_all_fresh; assumption|].
  cbn [PostlistChunkWriter.first_did PostlistChunkWriter.current_did
       PostlistChunkWriter.chunk hd fst].
  split; [reflexivity|]. split.
  - unfold last_docid_of. destruct postings as [|p postings]; [reflexivity|].
    cbn [last]. f_equal. apply last_nonempty_default.
  - rewrite PostingFacts.reader_make_chunk_of by exact Hw. cbn [bind].
    apply PostingFacts.read_postings_encoded; try assumption.
    cbn [length]. lia.
Qed.

Lemma writer_reader_round_trip_witness :
  exists w : PostlistChunkWriter.t,
    append_all [] cat_postings
      (PostlistChunkWriter.make (Key.make_key cat) true cat true) = Ok ([], w)
    /\ (r <- PostlistChunkReader.make (PostlistChunkWriter.first_did w)
               (PostlistChunkWriter.chunk w) ;;
        read_postings 4 r) = Ok cat_postings.
Proof.
  destruct (writer_reader_round_trip [] (Key.make_key cat) cat true true
              cat_postings) as [w [H1 [_ [_ H2]]]].
  - discriminate.
  - reflexivity.
  - vm_compute. discriminate.
  - exists w. split; [exact H1|exact H2].
Defined.

(** ** A list merged into a table that has none for the term *)

Module NewListFacts.
Import BrassTable TableFacts.

Lemma key_compare_strict_prefix : forall a s : bytes,
    s <> [] -> key_compare a (a ++ s) = Lt.
Proof.
  induction a as [|x a IH]; intros s Hs.
  - destruct s; [contradiction|reflexivity].
  - cbn [app key_compare]. rewrite Z.compare_refl. apply IH. exact Hs.
Qed.

Lemma add_add : forall (table : t) (key tag tag' : bytes),
    add key tag' (add key tag table) = add key tag' table.
Proof.
  induction table as [|[k0 t0] table IH]; intros key tag tag'.
  - cbn [add]. rewrite key_compare_refl. reflexivity.
  - cbn [add]. destruct (key_compare key k0) eqn:E.
    + cbn [add]. rewrite key_compare_refl. reflexivity.
    + cbn [add]. rewrite key_compare_refl. reflexivity.
    + cbn [add]. rewrite E. rewrite IH. reflexivity.
Qed.

Lemma floor_entry_none_between :
  forall (table : t) (k0 key : bytes) (best : bytes * bytes),
    sorted_from k0 table = true ->
    (forall k tg, In (k, tg) table -> key_compare k key = Gt) ->
    BrassCursor.floor_entry key table best = best.
Proof.
  intros [|[k1 t1] table] k0 key best Hs Hgt; [reflexivity|].
  cbn [BrassCursor.floor_entry].
  rewrite (Hgt k1 t1 (or_introl eq_refl)). reflexivity.
Qed.

(** The cursor stands on the entry of [k0] when no key lies above [k0]
    and at or below the key looked for. *)
Lemma floor_entry_below :
  forall (table : t) (k0 t0 key : bytes) (best : bytes * bytes),
    sorted table = true ->
    get_exact_entry k0 table = Some t0 ->
    key_compare k0 key = Lt ->
    (forall k tg, In (k, tg) table -> key_compare k0 k = Lt ->
                  key_compare k key = Gt) ->
    BrassCursor.floor_entry key table best = (k0, t0).
Proof.
  induction table as [|[k1 t1] table IH]; intros k0 t0 key best Hs Hg Hlt Hgt;
    [discriminate|].
  cbn [get_exact_entry] in Hg. cbn [BrassCursor.floor_entry].
  destruct (key_compare k0 k1) eqn:E.
  - apply key_compare_eq in E. subst k1. inversion Hg; subst t1.
    rewrite Hlt.
    apply (floor_entry_none_between table k0); [exact Hs|].
    intros k tg Hin. apply (Hgt k tg); [right; exact Hin|].
    eapply sorted_from_above; [exact Hs|exact Hin].
  - discriminate.
  - assert (H10 : key_compare k1 k0 = Lt) by (apply key_compare_gt_lt; exact E).
    rewrite (key_compare_trans _ _ _ H10 Hlt).
    apply IH; [eapply sorted_tail; exact Hs|exact Hg|exact Hlt|].
    intros k tg Hin. apply (Hgt k tg). right. exact Hin.
Qed.

Section NewList.
Variable term : bytes.
Hypothesis term_not_empty : term <> [].
Variable table : BrassTable.t.
Hypothesis table_sorted : sorted table = true.
Hypothesis term_absent :
  forall key tag : bytes, In (key, tag) table -> carries_term key term = false.

Lemma term_key_absent : get_exact_entry (Key.make_key term) table = None.
Proof.
  destruct (get_exact_entry (Key.make_key term) table) as [tag|] eqn:E;
    [|reflexivity].
  apply ChunkBoundFacts.get_exact_entry_in in E.
  apply term_absent in E.
  rewrite KeyFacts.carries_term_make_key in E by exact term_not_empty.
  discriminate.
Qed.

Lemma make_key_below_make_key_did : forall did : docid,
    key_compare (Key.make_key term) (Key.make_key_did term did) = Lt.
Proof.
  intro did. rewrite KeyFacts.make_key_escape by exact term_not_empty.
  unfold Key.make_key_did. destruct term as [|b term'] eqn:Et;
    [contradiction|].
  unfold Key.pack_string_preserving_sort. rewrite <- app_assoc.
  apply key_compare_strict_prefix. discriminate.
Qed.

Lemma carries_term_make_key_did : forall did : docid,
    carries_term (Key.make_key_did term did) term = true.
Proof.
  intro did. rewrite KeyFacts.carries_term_tname.
  rewrite ChunkKeyFacts.tname_of_make_key_did by exact term_not_empty.
  apply KeyFacts.bytes_eqb_eq. reflexivity.
Qed.

(** The cursor of [get_chunk] on the table with the first chunk of the
    term added. *)
Lemma find_first_chunk : forall (tag : bytes) (did : docid),
    BrassCursor.find_entry (add (Key.make_key term) tag table)
                           (Key.make_key_did term did)
    = (key_exists (Key.make_key_did term did)
                  (add (Key.make_key term) tag table),
       BrassCursor.mk (Key.make_key term) tag false).
Proof.
  intros tag did. unfold BrassCursor.find_entry.
  rewrite (floor_entry_below _ (Key.make_key term) tag).
  - reflexivity.
  - apply add_sorted. exact table_sorted.
  - rewrite get_exact_entry_add by exact table_sorted.
    assert (Hb : Key.bytes_eqb (Key.make_key term) (Key.make_key term) = true)
      by (apply KeyFacts.bytes_eqb_eq; reflexivity).
    rewrite Hb. reflexivity.
  - apply make_key_below_make_key_did.
  - intros k tg Hin Hlt.
    apply ChunkBoundFacts.add_in in Hin. destruct Hin as [Heq|Hin].
    { inversion Heq; subst. rewrite key_compare_refl in Hlt. discriminate. }
    destruct (key_compare k (Key.make_key_did term did)) eqn:E.
    + apply key_compare_eq in E. subst k. apply term_absent in Hin.
      rewrite carries_term_make_key_did in Hin. discriminate.
    + pose proof (KeyFacts.carries_term_between _ k _ term
                    (KeyFacts.carries_term_make_key term term_not_empty)
                    (carries_term_make_key_did did) Hlt E) as Hc.
      apply term_absent in Hin. congruence.
    + reflexivity.
Qed.

Lemma stored_header_absent : forall doclen_pl_ : option BrassPostList.t,
    BrassPostListTable.stored_header
      (BrassPostListTable.mk table doclen_pl_) term
    = Ok (0, 0, 0, 0, true, []).
Proof.
  intro doclen_pl_. unfold BrassPostListTable.stored_header.
  cbn [BrassPostListTable.entries]. rewrite term_key_absent. reflexivity.
Qed.

Lemma get_chunk_first_chunk_without_postings :
  forall (termfreq collfreq : Z) (did : docid)
         (doclen_pl_ : option BrassPostList.t),
    is_u32 termfreq -> is_u32 collfreq -> 0 < did ->
    BrassPostListTable.get_chunk
      (BrassPostListTable.mk
         (add (Key.make_key term)
              (make_start_of_first_chunk termfreq collfreq 0
                 ++ make_start_of_chunk true 0 0) table)
         doclen_pl_)
      term did false
    = Ok (u32 (-1), None,
          Some (PostlistChunkWriter.make (Key.make_key term) true term true)).
Proof.
  intros termfreq collfreq did doclen_pl_ Htf Hcf Hdid.
  assert (G : forall tn : bytes, tn = term ->
    BrassPostListTable.get_chunk
      (BrassPostListTable.mk
         (add (Key.make_key term)
              (make_start_of_first_chunk termfreq collfreq 0
                 ++ make_start_of_chunk true 0 0) table)
         doclen_pl_)
      tn did false
    = Ok (u32 (-1), None,
          Some (PostlistChunkWriter.make (Key.make_key term) true term true))).
  { intros tn Etn. destruct tn as [|b tn']; [symmetry in Etn; contradiction|].
    unfold BrassPostListTable.get_chunk. rewrite Etn.
    cbn [BrassPostListTable.entries].
    rewrite find_first_chunk.
    cbn [BrassCursor.current_key BrassCursor.current_tag].
    rewrite CodecFacts.check_make_key.
    assert (Hb : Key.bytes_eqb term term = true)
      by (apply KeyFacts.bytes_eqb_eq; reflexivity).
    rewrite Hb. cbn [negb BrassPostList.is_empty].
    rewrite HeaderFacts.read_make_start_of_first_chunk by assumption.
    cbn [bind].
    rewrite <- (app_nil_r (make_start_of_chunk true 0 0)).
    rewrite HeaderFacts.read_make_start_of_chunk. cbn [bind].
    replace (u32 (u32 (0 - 1) + 1)) with 0 by reflexivity.
    replace (u32 (0 + u32 (0 - 0))) with 0 by reflexivity.
    destruct (0 <? did) eqn:E; [|apply Z.ltb_ge in E; lia].
    cbn [bind]. reflexivity. }
  apply G. reflexivity.
Qed.

Lemma flush_new_list :
  forall (termfreq collfreq : Z) (first_did current_did : docid)
         (chunk : bytes),
    is_u32 termfreq -> is_u32 collfreq ->
    PostlistChunkWriter.flush
      (add (Key.make_key term)
           (make_start_of_first_chunk termfreq collfreq 0
              ++ make_start_of_chunk true 0 0) table)
      (PostlistChunkWriter.mk (Key.make_key term) term true true true
                              first_did current_did chunk)
    = Ok (add (Key.make_key term)
              (make_start_of_first_chunk termfreq collfreq first_did
                 ++ make_start_of_chunk true first_did current_did ++ chunk)
              table).
Proof.
  intros termfreq collfreq first_did current_did chunk Htf Hcf.
  unfold PostlistChunkWriter.flush.
  cbn [PostlistChunkWriter.started PostlistChunkWriter.is_first_chunk negb
       PostlistChunkWriter.tname PostlistChunkWriter.is_last_chunk
       PostlistChunkWriter.first_did PostlistChunkWriter.current_did
       PostlistChunkWriter.chunk].
  rewrite get_exact_entry_add by exact table_sorted.
  assert (Hb : Key.bytes_eqb (Key.make_key term) (Key.make_key term) = true)
    by (apply KeyFacts.bytes_eqb_eq; reflexivity).
  rewrite Hb.
  rewrite HeaderFacts.read_make_start_of_first_chunk by assumption.
  cbn [bind]. rewrite add_add. reflexivity.
Qed.

End NewList.

(** The update loop on a writer that has no chunk to read from and no
    chunk after it appends the changes one by one. *)
Lemma update_postings_appends :
  forall (postings : doclen_map) (fuel : nat)
         (doclen_pl_ : option BrassPostList.t) (term : bytes)
         (entries_ entries' : BrassTable.t) (w w' : PostlistChunkWriter.t),
    Forall (fun p => is_u32 (fst p) /\ snd p <> u32 (-1)) postings ->
    append_all entries_ postings w = Ok (entries', w') ->
    BrassPostListTable.update_postings fuel doclen_pl_ term postings
      (BrassPostListTable.mkUpdate entries_ None (Some w) (u32 (-1)))
    = Ok (BrassPostListTable.mkUpdate entries' None (Some w') (u32 (-1))).
Proof.
  induction postings as [|[did wdf] postings IH];
    intros fuel doclen_pl_ term entries_ entries' w w' Hall H.
  - cbn in H. inversion H; subst. reflexivity.
  - inversion Hall as [|x l [Hd Hw] Hl]; subst. cbn [fst snd] in Hd, Hw.
    cbn [append_all] in H.
    destruct (PostlistChunkWriter.append entries_ did wdf w)
      as [[entries1 w1]|err] eqn:Ea; cbn [bind] in H; [|discriminate].
    cbn [BrassPostListTable.update_postings].
    assert (Hstep :
      BrassPostListTable.update_posting fuel doclen_pl_ term did wdf
        (BrassPostListTable.mkUpdate entries_ None (Some w) (u32 (-1)))
      = Ok (BrassPostListTable.mkUpdate entries1 None (Some w1) (u32 (-1)))).
    { assert (Hm : (u32 (-1) <? did) = false).
      { apply Z.ltb_ge. destruct Hd as [_ Hd].
        change (u32 (-1)) with 4294967295.
        change (2 ^ 32) with 4294967296 in Hd. lia. }
      assert (Hn : negb (wdf =? u32 (-1)) = true).
      { destruct (wdf =? u32 (-1)) eqn:E; [apply Z.eqb_eq in E; contradiction|].
        reflexivity. }
      destruct fuel; cbn [BrassPostListTable.update_posting
        BrassPostListTable.u_from BrassPostListTable.u_max_did bind andb];
        rewrite Hm; cbn [andb]; rewrite Hn;
        unfold BrassPostListTable.append_to;
        cbn [BrassPostListTable.u_to BrassPostListTable.u_entries
             BrassPostListTable.u_from BrassPostListTable.u_max_did];
        rewrite Ea; reflexivity. }
    rewrite Hstep. cbn [bind]. apply IH; assumption.
Qed.

(** The list of a term whose one chunk holds the postings: the cursor on
    the entries after the one it stands on. *)
Lemma list_postings_encoded :
  forall (postings : doclen_map) (fuel : nat) (table : BrassTable.t)
         (term : bytes) (cursor : BrassCursor.t) (d : docid) (wdf : termcount)
         (entries first last_ : Z) (is_first : bool)
         (reader : option DoclenChunkReader.t),
    is_u32 d -> ascending_from d postings = true ->
    (length postings < fuel)%nat ->
    list_postings fuel table
      (BrassPostList.mk term true false cursor
         (Some (encode_postings d postings)) d wdf entries first last_
         is_first true reader false)
    = Ok postings.
Proof.
  induction postings as [|[d' wdf'] postings IH];
    intros fuel table term cursor d wdf entries first last_ is_first reader
           Hd Ha Hf.
  - destruct fuel as [|fuel]; [cbn in Hf; lia|]. reflexivity.
  - apply ascending_from_cons in Ha. destruct Ha as [Hlt [Hd' [Hw' Hrest]]].
    destruct fuel as [|fuel]; [cbn in Hf; lia|].
    cbn [list_postings]. unfold BrassPostList.next.
    cbn [BrassPostList.have_started negb]. unfold BrassPostList.next_in_chunk.
    cbn [BrassPostList.is_doclen_list BrassPostList.pos encode_postings
         BrassPostList.did].
    pose proof (RoundTrip.pack_uint_nonempty (u32 (d' - d - 1))) as Hne.
    destruct (pack_uint (u32 (d' - d - 1)) ++ pack_uint wdf'
                ++ encode_postings d' postings) as [|b rest] eqn:E.
    { apply app_eq_nil in E. destruct E as [E _]. contradiction. }
    rewrite <- E. rewrite PostingFacts.read_did_increase_packed by assumption.
    cbn [bind]. unfold read_wdf.
    rewrite HeaderFacts.read_pack_uint by exact Hw'.
    cbn [bind BrassPostList.is_at_end BrassPostList.did BrassPostList.wdf
         BrassPostList.term BrassPostList.have_started BrassPostList.cursor
         BrassPostList.number_of_entries BrassPostList.first_did_in_chunk
         BrassPostList.last_did_in_chunk BrassPostList.is_first_chunk
         BrassPostList.is_last_chunk BrassPostList.p_doclen_chunk_reader
         BrassPostList.is_doclen_list].
    rewrite IH; [reflexivity|assumption|assumption|].
    cbn [length] in Hf. lia.
Qed.

End NewListFacts.

(** X5: postings merged for a term of which the table has no chunk are
    the postings its list delivers.  On a table in key order without a
    key of the term, [merge_changes] with changes that delete nothing, at
    most 200 so that one chunk holds them, and a termfreq delta that is
    not 0 returns a table in which [get_freqs] gives the two deltas for
    the term and on which a posting list opened for the term delivers
    exactly the changes, docid and wdf, in ascending order, and is at the
    end after them. *)
Theorem merged_postings_are_listed :
  forall (fuel : nat) (table : BrassPostListTable.t) (term : bytes)
         (changes : BrassPostListTable.PostingChanges),
    term <> [] ->
    BrassTable.sorted (BrassPostListTable.entries table) = true ->
    (forall key tag : bytes,
        In (key, tag) (BrassPostListTable.entries table) ->
        carries_term key term = false) ->
    BrassPostListTable.pl_changes changes <> [] ->
    well_formed_map (BrassPostListTable.pl_changes changes) = true ->
    Forall (fun p => snd p <> u32 (-1)) (BrassPostListTable.pl_changes changes) ->
    10 * Z.of_nat (length (BrassPostListTable.pl_changes changes)) <= CHUNKSIZE ->
    u32 (BrassPostListTable.tfdelta changes) <> 0 ->
    exists table' : BrassPostListTable.t,
      BrassPostListTable.merge_changes fuel table term changes = Ok table'
      /\ BrassPostListTable.get_freqs table' term
         = Ok (u32 (BrassPostListTable.tfdelta changes),
               u32 (BrassPostListTable.cfdelta changes))
      /\ (l <- BrassPostList.init (BrassPostListTable.entries table') term ;;
          list_postings
            (S (length (BrassPostListTable.pl_changes changes)))
            (BrassPostListTable.entries table') l)
         = Ok (BrassPostListTable.pl_changes changes).
Proof.
  intros fuel [entries_ doclen_pl_] term [tfdelta cfdelta postings]
         Hterm Hsorted Habsent Hne Hwf Hnodel Hlen Htf.
  cbn [BrassPostListTable.entries BrassPostListTable.pl_changes
       BrassPostListTable.tfdelta BrassPostListTable.cfdelta] in *.
  destruct postings as [|[d wdf] postings]; [contradiction|].
  destruct (PostingFacts.well_formed_map_first _ _ _ Hwf) as [H1 [Hd [Hw Ha]]].
  set (key := Key.make_key term).
  set (tag := make_start_of_first_chunk (u32 tfdelta) (u32 cfdelta) d
                ++ make_start_of_chunk true d (last_docid_of postings d)
                ++ chunk_of ((d, wdf) :: postings)).
  assert (Hin_range : forall (m : doclen_map) (d0 : docid),
             ascending_from d0 m = true ->
             Forall (fun p => snd p <> u32 (-1)) m ->
             Forall (fun p => is_u32 (fst p) /\ snd p <> u32 (-1)) m).
  { induction m as [|[d1 w1] m IH]; intros d0 Hm Hn; [constructor|].
    apply ascending_from_cons in Hm. destruct Hm as [_ [Hd1 [_ Hm]]].
    inversion Hn; subst. constructor; [split; assumption|].
    eapply IH; eassumption. }
  assert (Hlast : is_u32 (last_docid_of postings d)
                  /\ d <= last_docid_of postings d).
  { clear - Hd Ha. revert d Hd Ha.
    induction postings as [|[d1 w1] m IH]; intros d Hd Ha.
    - unfold last_docid_of. cbn. split; [exact Hd|lia].
    - apply ascending_from_cons in Ha. destruct Ha as [Hlt [Hd1 [_ Hm]]].
      rewrite last_docid_of_cons. destruct (IH d1 Hd1 Hm). split; [assumption|lia]. }
  destruct Hlast as [Hlast Hle].
  assert (Hasc : ascending_from 0 ((d, wdf) :: postings) = true).
  { apply ascending_from_cons. split; [lia|]. split; [exact Hd|].
    split; [exact Hw|exact Ha]. }
  exists (BrassPostListTable.mk (BrassTable.add key tag entries_) doclen_pl_).
  split; [|split].
  - unfold BrassPostListTable.merge_changes.
    rewrite (NewListFacts.stored_header_absent term Hterm entries_ Habsent).
    cbn [bind BrassPostListTable.tfdelta BrassPostListTable.cfdelta
         BrassPostListTable.pl_changes BrassPostListTable.entries
         BrassPostListTable.doclen_pl Z.add].
    destruct (u32 tfdelta =? 0) eqn:E; [apply Z.eqb_eq in E; contradiction|].
    rewrite (NewListFacts.get_chunk_first_chunk_without_postings
               term Hterm entries_ Hsorted Habsent)
      by (try apply u32_range; lia).
    cbn [bind].
    rewrite (NewListFacts.update_postings_appends ((d, wdf) :: postings)
               fuel doclen_pl_ term _ _ _ _
               (Hin_range _ 0 Hasc Hnodel)
               (PostingFacts.append_all_fresh postings _ key term true true
                  d wdf Hwf Hlen)).
    cbn [bind BrassPostListTable.u_from BrassPostListTable.u_to
         BrassPostListTable.u_entries].
    unfold key.
    rewrite (NewListFacts.flush_new_list term entries_ Hsorted)
      by apply u32_range.
    reflexivity.
  - unfold BrassPostListTable.get_freqs. cbn [BrassPostListTable.entries].
    rewrite TableFacts.get_exact_entry_add by exact Hsorted.
    assert (Hb : Key.bytes_eqb key key = true)
      by (apply KeyFacts.bytes_eqb_eq; reflexivity).
    fold key. rewrite Hb. unfold tag, make_start_of_first_chunk.
    unfold read_number_of_entries. rewrite <- !app_assoc.
    rewrite HeaderFacts.read_pack_uint by apply u32_range. cbn [bind].
    rewrite HeaderFacts.read_pack_uint by apply u32_range. reflexivity.
  - cbn [BrassPostListTable.entries]. unfold BrassPostList.init.
    fold key.
    rewrite (CursorFacts.find_entry_exact _ key tag).
    + cbn [negb BrassCursor.current_tag]. unfold tag.
      rewrite HeaderFacts.read_make_start_of_first_chunk by apply u32_range.
      cbn [bind]. rewrite CodecFacts.u32_pred_succ by exact Hd.
      rewrite HeaderFacts.read_make_start_of_chunk. cbn [bind].
      replace (u32 (d + u32 (last_docid_of postings d - d)))
        with (last_docid_of postings d).
      2:{ destruct Hd, Hlast. unfold u32.
          rewrite (Z.mod_small (last_docid_of postings d - d)) by lia.
          replace (d + (last_docid_of postings d - d))
            with (last_docid_of postings d) by lia.
          symmetry. apply Z.mod_small. lia. }
      unfold BrassPostList.enter_chunk.
      assert (He : BrassPostList.is_empty term = false)
        by (destruct term; [contradiction|reflexivity]).
      cbn [BrassPostList.is_doclen_list]. rewrite He. cbn [negb].
      unfold chunk_of, read_wdf.
      rewrite HeaderFacts.read_pack_uint by exact Hw.
      cbn [bind BrassPostList.term BrassPostList.have_started
           BrassPostList.is_at_end BrassPostList.p_doclen_chunk_reader
           BrassPostList.is_doclen_list].
      cbn [list_postings]. unfold BrassPostList.next at 1.
      cbn [BrassPostList.have_started negb bind BrassPostList.is_at_end
           BrassPostList.term BrassPostList.cursor BrassPostList.pos
           BrassPostList.did BrassPostList.wdf BrassPostList.number_of_entries
           BrassPostList.first_did_in_chunk BrassPostList.last_did_in_chunk
           BrassPostList.is_first_chunk BrassPostList.is_last_chunk
           BrassPostList.p_doclen_chunk_reader BrassPostList.is_doclen_list].
      rewrite NewListFacts.list_postings_encoded;
        [reflexivity|exact Hd|exact Ha|].
      cbn [length]. lia.
    + apply TableFacts.add_sorted. exact Hsorted.
    + rewrite TableFacts.get_exact_entry_add by exact Hsorted.
      assert (Hb : Key.bytes_eqb key key = true)
        by (apply KeyFacts.bytes_eqb_eq; reflexivity).
      rewrite Hb. reflexivity.
Qed.

Lemma merged_postings_are_listed_witness :
  exists table' : BrassPostListTable.t,
    BrassPostListTable.merge_changes 0 empty_table cat
      (BrassPostListTable.mkChanges 3 6 cat_postings) = Ok table'
    /\ BrassPostListTable.get_freqs table' cat = Ok (3, 6)
    /\ (l <- BrassPostList.init (BrassPostListTable.entries table') cat ;;
        list_postings 4 (BrassPostListTable.entries table') l)
       = Ok cat_postings.
Proof.
  apply (merged_postings_are_listed 0 empty_table cat
           (BrassPostListTable.mkChanges 3 6 cat_postings)).
  - discriminate.
  - reflexivity.
  - intros key tag H. destruct H.
  - discriminate.
  - reflexivity.
  - repeat constructor; cbn; discriminate.
  - vm_compute. discriminate.
  - vm_compute. discriminate.
Defined.

(** ** The merge of doclen changes *)

Module MergeFacts.

Lemma keys_ascending_app : forall a b : doclen_map,
    keys_ascending (a ++ b) <->
    keys_ascending a /\ keys_ascending b
    /\ Forall (fun x => Forall (fun y => fst x < fst y) b) a.
Proof.
  induction a as [|[k v] a IH]; intro b.
  - cbn. split; [intro H; repeat split; [exact H|constructor]|tauto].
  - cbn [app keys_ascending]. rewrite Forall_app, IH. split.
    + intros [[H1 H2] [H3 [H4 H5]]]. repeat split; try assumption.
      constructor; assumption.
    + intros [[H1 H3] [H4 H5]]. inversion H5; subst.
      repeat split; assumption.
Qed.

Lemma find_all_below : forall (m : doclen_map) (c : docid),
    all_below c m -> DocMap.find c m = None.
Proof.
  induction m as [|[k v] m IH]; intros c H; [reflexivity|].
  inversion H; subst. cbn [fst] in *. cbn [DocMap.find].
  destruct (c =? k) eqn:E; [apply Z.eqb_eq in E; lia|]. apply IH. assumption.
Qed.

Lemma find_app_below : forall (before after : doclen_map) (c : docid),
    all_below c before ->
    DocMap.find c (before ++ after) = DocMap.find c after.
Proof.
  induction before as [|[k v] before IH]; intros after c H; [reflexivity|].
  inversion H; subst. cbn [fst] in *. cbn [app DocMap.find].
  destruct (c =? k) eqn:E; [apply Z.eqb_eq in E; lia|]. apply IH. assumption.
Qed.

Lemma find_app_other : forall (before a1 a2 : doclen_map) (d : docid),
    DocMap.find d a1 = DocMap.find d a2 ->
    DocMap.find d (before ++ a1) = DocMap.find d (before ++ a2).
Proof.
  induction before as [|[k v] before IH]; intros a1 a2 d H; [exact H|].
  cbn [app DocMap.find]. destruct (d =? k); [reflexivity|]. apply IH. exact H.
Qed.

Lemma find_above : forall (m : doclen_map) (c : docid),
    Forall (fun e => c < fst e) m -> DocMap.find c m = None.
Proof.
  induction m as [|[k v] m IH]; intros c H; [reflexivity|].
  inversion H; subst. cbn [fst] in *. cbn [DocMap.find].
  destruct (c =? k) eqn:E; [apply Z.eqb_eq in E; lia|]. apply IH. assumption.
Qed.

(** The operations of the map at an iterator, with the map split where
    the iterator stands. *)
Lemma from_split : forall (before rest : doclen_map) (o : docid) (x : termcount),
    all_below o before ->
    DocMap.from o (before ++ (o, x) :: rest) = (o, x) :: rest.
Proof.
  induction before as [|[k v] before IH]; intros rest o x H.
  - cbn [app DocMap.from]. rewrite Z.eqb_refl. reflexivity.
  - inversion H; subst. cbn [fst] in *. cbn [app DocMap.from].
    destruct (o =? k) eqn:E; [apply Z.eqb_eq in E; lia|]. apply IH. assumption.
Qed.

Lemma assign_split : forall (before rest : doclen_map) (o : docid)
    (x v : termcount),
    all_below o before ->
    DocMap.assign o v (before ++ (o, x) :: rest) = before ++ (o, v) :: rest.
Proof.
  induction before as [|[k w] before IH]; intros rest o x v H.
  - cbn [app DocMap.assign]. rewrite Z.eqb_refl. reflexivity.
  - inversion H; subst. cbn [fst] in *. cbn [app DocMap.assign].
    destruct (o =? k) eqn:E; [apply Z.eqb_eq in E; lia|].
    f_equal. apply IH. assumption.
Qed.

Lemma erase_split : forall (before rest : doclen_map) (o : docid) (x : termcount),
    all_below o before ->
    DocMap.erase o (before ++ (o, x) :: rest) = before ++ rest.
Proof.
  induction before as [|[k w] before IH]; intros rest o x H.
  - cbn [app DocMap.erase]. rewrite Z.eqb_refl. reflexivity.
  - inversion H; subst. cbn [fst] in *. cbn [app DocMap.erase].
    destruct (o =? k) eqn:E; [apply Z.eqb_eq in E; lia|].
    f_equal. apply IH. assumption.
Qed.

Lemma next_split : forall (before rest : doclen_map) (o : docid) (x : termcount),
    all_below o before ->
    DocMap.next o (before ++ (o, x) :: rest) = DocMap.begin rest.
Proof.
  induction before as [|[k w] before IH]; intros rest o x H.
  - cbn [app DocMap.next]. rewrite Z.eqb_refl. reflexivity.
  - inversion H; subst. cbn [fst] in *. cbn [app DocMap.next].
    destruct (o =? k) eqn:E; [apply Z.eqb_eq in E; lia|]. apply IH. assumption.
Qed.

Lemma insert_split : forall (before after : doclen_map) (c : docid)
    (v : termcount),
    all_below c before ->
    match after with [] => True | (k, _) :: _ => c < k end ->
    DocMap.insert c v (before ++ after) = before ++ (c, v) :: after.
Proof.
  induction before as [|[k w] before IH]; intros after c v H Ha.
  - cbn [app]. destruct after as [|[k x] after]; [reflexivity|].
    cbn [DocMap.insert].
    destruct (c <? k) eqn:E; [reflexivity|apply Z.ltb_ge in E; lia].
  - inversion H; subst. cbn [fst] in *. cbn [app DocMap.insert].
    destruct (c <? k) eqn:E; [apply Z.ltb_lt in E; lia|].
    destruct (c =? k) eqn:E'; [apply Z.eqb_eq in E'; lia|].
    f_equal. apply IH; assumption.
Qed.

(** The inner loop of the merge leaves the iterator on the first key
    that is not below the changed docid. *)
Lemma skip_split : forall (after : doclen_map) (c : docid),
    exists skipped after' : doclen_map,
      after = skipped ++ after'
      /\ all_below c skipped
      /\ head_at_least c after'
      /\ DoclenChunkWriter.skip_smaller_from c after = DocMap.begin after'.
Proof.
  induction after as [|[k x] after IH]; intro c.
  - exists [], []. repeat split. constructor.
  - cbn [DoclenChunkWriter.skip_smaller_from]. destruct (k <? c) eqn:E.
    + destruct (IH c) as [skipped [after' [H1 [H2 [H3 H4]]]]].
      exists ((k, x) :: skipped), after'. split; [cbn; f_equal; exact H1|].
      split; [constructor; [apply Z.ltb_lt in E; exact E|exact H2]|].
      split; assumption.
    + exists [], ((k, x) :: after). apply Z.ltb_ge in E.
      repeat split; [constructor|exact E].
Qed.

Lemma changed_doclen_cons_other :
  forall (c : docid) (v : termcount) (changes m m1 : doclen_map) (d : docid),
    d <> c -> DocMap.find d m1 = DocMap.find d m ->
    changed_doclen changes m1 d = changed_doclen ((c, v) :: changes) m d.
Proof.
  intros c v changes m m1 d Hd H. unfold changed_doclen.
  cbn [DocMap.find]. destruct (d =? c) eqn:E; [apply Z.eqb_eq in E; contradiction|].
  rewrite H. reflexivity.
Qed.

Lemma changed_doclen_cons_same :
  forall (c : docid) (v : termcount) (changes m m1 : doclen_map),
    Forall (fun e => c < fst e) changes ->
    DocMap.find c m1 = (if v =? SEPERATOR then None else Some v) ->
    changed_doclen changes m1 c = changed_doclen ((c, v) :: changes) m c.
Proof.
  intros c v changes m m1 Hc H. unfold changed_doclen.
  rewrite (find_above changes c Hc). cbn [DocMap.find]. rewrite Z.eqb_refl.
  exact H.
Qed.

(** The loop that appends what is left of the changes. *)
Lemma insert_rest_spec : forall (changes m : doclen_map),
    keys_ascending changes -> keys_ascending m ->
    Forall (fun e => all_below (fst e) m) changes ->
    keys_ascending (DoclenChunkWriter.insert_rest changes m)
    /\ forall d, DocMap.find d (DoclenChunkWriter.insert_rest changes m) = changed_doclen changes m d.
Proof.
  induction changes as [|[c v] changes IH]; intros m Hc Hm Hb.
  - cbn [DoclenChunkWriter.insert_rest]. split; [exact Hm|]. intro d. reflexivity.
  - cbn [keys_ascending] in Hc. destruct Hc as [Hc1 Hc2].
    inversion Hb as [|x l Hbc Hbl]; subst. cbn [fst] in Hbc.
    cbn [DoclenChunkWriter.insert_rest]. destruct (v =? SEPERATOR) eqn:Ev.
    + destruct (IH m Hc2 Hm Hbl) as [Ha Hf]. split; [exact Ha|].
      intro d. rewrite Hf. destruct (Z.eq_dec d c) as [->|Hd].
      * apply changed_doclen_cons_same; [exact Hc1|].
        rewrite Ev. apply find_all_below. exact Hbc.
      * apply changed_doclen_cons_other; [exact Hd|reflexivity].
    + pose proof (insert_split m [] c v Hbc I) as Hi.
      rewrite app_nil_r in Hi. rewrite Hi.
      destruct (IH (m ++ [(c, v)]) Hc2) as [Ha Hf].
      * apply keys_ascending_app. split; [exact Hm|]. split; [cbn; auto|].
        apply Forall_forall. intros x Hx. constructor; [|constructor].
        cbn [fst]. unfold all_below in Hbc.
        rewrite Forall_forall in Hbc. apply Hbc. exact Hx.
      * rewrite Forall_forall in *. intros e He. apply Forall_app. split.
        -- apply Hbl. exact He.
        -- constructor; [|constructor]. cbn [fst]. apply Hc1. exact He.
      * split; [exact Ha|]. intro d. rewrite Hf.
        destruct (Z.eq_dec d c) as [->|Hd].
        -- apply changed_doclen_cons_same; [exact Hc1|].
           rewrite Ev. rewrite find_app_below by exact Hbc.
           cbn [DocMap.find]. rewrite Z.eqb_refl. reflexivity.
        -- apply changed_doclen_cons_other; [exact Hd|].
           rewrite (find_app_other m [(c, v)] [] d); [rewrite app_nil_r; reflexivity|].
           cbn [DocMap.find].
           destruct (d =? c) eqn:E; [apply Z.eqb_eq in E; contradiction|].
           reflexivity.
Qed.

Lemma all_below_weaken : forall (m : doclen_map) (c c' : docid),
    c <= c' -> all_below c m -> all_below c' m.
Proof.
  intros m c c' Hc H. unfold all_below in *. rewrite Forall_forall in *.
  intros e He. specialize (H e He). lia.
Qed.

Lemma keys_ascending_cons_above : forall (k : docid) (v : termcount)
    (m : doclen_map),
    keys_ascending ((k, v) :: m) -> Forall (fun e => k < fst e) m.
Proof. intros k v m [H _]. exact H. Qed.

Lemma keys_ascending_replace : forall (before rest : doclen_map) (o : docid)
    (x v : termcount),
    keys_ascending (before ++ (o, x) :: rest) ->
    keys_ascending (before ++ (o, v) :: rest).
Proof.
  intros before rest o x v H. apply keys_ascending_app in H.
  apply keys_ascending_app. destruct H as [H1 [H2 H3]].
  split; [exact H1|]. split; [exact H2|].
  rewrite Forall_forall in *. intros e He. specialize (H3 e He).
  inversion H3; subst. constructor; assumption.
Qed.

Lemma keys_ascending_remove : forall (before rest : doclen_map) (o : docid)
    (x : termcount),
    keys_ascending (before ++ (o, x) :: rest) ->
    keys_ascending (before ++ rest).
Proof.
  intros before rest o x H. apply keys_ascending_app in H.
  apply keys_ascending_app. destruct H as [H1 [[H2 H2'] H3]].
  split; [exact H1|]. split; [exact H2'|].
  rewrite Forall_forall in *. intros e He. specialize (H3 e He).
  inversion H3; subst. assumption.
Qed.

Lemma keys_ascending_insert : forall (before after : doclen_map) (c : docid)
    (v : termcount),
    keys_ascending (before ++ after) -> all_below c before ->
    Forall (fun e => c < fst e) after ->
    keys_ascending (before ++ (c, v) :: after).
Proof.
  intros before after c v H Hb Ha. apply keys_ascending_app in H.
  apply keys_ascending_app. destruct H as [H1 [H2 H3]].
  split; [exact H1|]. split; [split; assumption|].
  unfold all_below in Hb. rewrite Forall_forall in *. intros e He.
  constructor; [apply Hb; exact He|apply H3; exact He].
Qed.

Lemma changes_above : forall (c : docid) (chg : doclen_map) (m : doclen_map),
    Forall (fun e => c < fst e) chg -> all_below c m ->
    Forall (fun e => all_below (fst e) m) chg.
Proof.
  intros c chg m Hc Hm. rewrite Forall_forall in *. intros e He.
  apply (all_below_weaken m c); [exact (Z.lt_le_incl _ _ (Hc e He))|exact Hm].
Qed.

(** The merge loop with the map split where [ori_it] stands. *)
Lemma merge_split :
  forall (chg before after r : doclen_map),
    keys_ascending chg -> keys_ascending (before ++ after) ->
    Forall (fun e => all_below (fst e) before) chg ->
    DoclenChunkWriter.merge chg (DocMap.begin after) (before ++ after) = Ok r ->
    keys_ascending r
    /\ forall d, DocMap.find d r = changed_doclen chg (before ++ after) d.
Proof.
  induction chg as [|[c v] chg IH]; intros before after r Hc Hm Hb H.
  - cbn in H. inversion H; subst. split; [exact Hm|]. intro d. reflexivity.
  - pose proof Hc as [Hc1 Hc2].
    inversion Hb as [|e l Hbc Hbl]; subst. cbn [fst] in Hbc.
    cbn [DoclenChunkWriter.merge] in H.
    destruct after as [|[o x] rest]; [discriminate|].
    cbn [DocMap.begin DoclenChunkWriter.skip_smaller bind] in H.
    assert (Hbo : all_below o before).
    { apply keys_ascending_app in Hm. destruct Hm as [_ [_ Hm]].
      unfold all_below. rewrite Forall_forall in *. intros e He.
      specialize (Hm e He). inversion Hm; subst. assumption. }
    rewrite from_split in H by exact Hbo.
    destruct (skip_split ((o, x) :: rest) c)
      as [skipped [after' [Hsplit [Hskipped [Hhead Hskip]]]]].
    rewrite Hskip in H. rewrite Hsplit in *. clear Hsplit Hskip Hbo o x rest.
    assert (HB : all_below c (before ++ skipped))
      by (apply Forall_app; split; assumption).
    rewrite app_assoc in *.
    set (B := before ++ skipped) in *.
    destruct after' as [|[o x] rest].
    + cbn [DocMap.begin] in H. apply ChunkBoundFacts.Ok_inj in H. subst r.
      rewrite app_nil_r in *.
      apply insert_rest_spec; [exact Hc|exact Hm|].
      constructor; [exact HB|].
      apply (changes_above c); assumption.
    + cbn [DocMap.begin] in H. cbn in Hhead.
      assert (Hrest : Forall (fun e => o < fst e) rest).
      { apply keys_ascending_app in Hm. destruct Hm as [_ [Hm _]].
        eapply keys_ascending_cons_above. exact Hm. }
      assert (HB' : Forall (fun e => all_below (fst e) B) chg)
        by (apply (changes_above c); assumption).
      destruct (o =? c) eqn:Eo.
      * apply Z.eqb_eq in Eo. subst o.
        destruct (v =? SEPERATOR) eqn:Ev; cbn [negb] in H.
        -- rewrite next_split, erase_split in H by exact HB.
           destruct (IH B rest r Hc2
                       (keys_ascending_remove _ _ _ _ Hm) HB' H) as [Ha Hf].
           split; [exact Ha|]. intro d. rewrite Hf.
           destruct (Z.eq_dec d c) as [->|Hd].
           ++ apply changed_doclen_cons_same; [exact Hc1|].
              rewrite Ev. rewrite find_app_below by exact HB.
              apply find_above. exact Hrest.
           ++ apply changed_doclen_cons_other; [exact Hd|].
              apply find_app_other. cbn [DocMap.find].
              destruct (d =? c) eqn:E; [apply Z.eqb_eq in E; contradiction|].
              reflexivity.
        -- rewrite assign_split in H by exact HB.
           destruct (IH B ((c, v) :: rest) r Hc2
                       (keys_ascending_replace _ _ _ _ _ Hm) HB' H) as [Ha Hf].
           split; [exact Ha|]. intro d. rewrite Hf.
           destruct (Z.eq_dec d c) as [->|Hd].
           ++ apply changed_doclen_cons_same; [exact Hc1|].
              rewrite Ev. rewrite find_app_below by exact HB.
              cbn [DocMap.find]. rewrite Z.eqb_refl. reflexivity.
           ++ apply changed_doclen_cons_other; [exact Hd|].
              apply find_app_other. cbn [DocMap.find].
              destruct (d =? c) eqn:E; [apply Z.eqb_eq in E; contradiction|].
              reflexivity.
      * apply Z.eqb_neq in Eo.
        assert (Hco : c < o) by lia.
        assert (Hafter : Forall (fun e => c < fst e) ((o, x) :: rest)).
        { constructor; [exact Hco|].
          rewrite Forall_forall in *. intros e He. specialize (Hrest e He). lia. }
        destruct (v =? SEPERATOR) eqn:Ev; cbn [negb] in H.
        -- destruct (IH B ((o, x) :: rest) r Hc2 Hm HB' H) as [Ha Hf].
           split; [exact Ha|]. intro d. rewrite Hf.
           destruct (Z.eq_dec d c) as [->|Hd].
           ++ apply changed_doclen_cons_same; [exact Hc1|].
              rewrite Ev. rewrite find_app_below by exact HB.
              apply find_above. exact Hafter.
           ++ apply changed_doclen_cons_other; [exact Hd|reflexivity].
        -- rewrite insert_split in H by (try exact HB; exact Hco).
           change (B ++ (c, v) :: (o, x) :: rest)
             with (B ++ [(c, v)] ++ (o, x) :: rest) in H.
           rewrite app_assoc in H.
           destruct (IH (B ++ [(c, v)]) ((o, x) :: rest) r Hc2) as [Ha Hf].
           ++ rewrite <- app_assoc. cbn [app].
              apply keys_ascending_insert; assumption.
           ++ rewrite Forall_forall in *. intros e He. apply Forall_app.
              split; [apply HB'; exact He|].
              constructor; [|constructor]. cbn [fst]. apply Hc1. exact He.
           ++ exact H.
           ++ split; [exact Ha|]. intro d. rewrite Hf.
              rewrite <- app_assoc. cbn [app].
              destruct (Z.eq_dec d c) as [->|Hd].
              ** apply changed_doclen_cons_same; [exact Hc1|].
                 rewrite Ev. rewrite find_app_below by exact HB.
                 cbn [DocMap.find]. rewrite Z.eqb_refl. reflexivity.
              ** apply changed_doclen_cons_other; [exact Hd|].
                 apply find_app_other. cbn [DocMap.find].
                 destruct (d =? c) eqn:E; [apply Z.eqb_eq in E; contradiction|].
                 reflexivity.
Qed.

End MergeFacts.

(** X6: the merge loop of [get_new_doclen], whenever it runs to its end,
    applies the changes to the map it was given.  For changes and a map
    with ascending docids, the map it returns has ascending docids and
    holds for every docid the changed length, nothing when the change is
    the tombstone, and the length the old map held when the changes do
    not name the docid. *)
Theorem merge_applies_changes :
  forall (chg old merged : doclen_map),
    keys_ascending chg -> keys_ascending old ->
    DoclenChunkWriter.merge chg (DocMap.begin old) old = Ok merged ->
    keys_ascending merged
    /\ forall d : docid, DocMap.find d merged = changed_doclen chg old d.
Proof.
  intros chg old merged Hc Ho H.
  apply (MergeFacts.merge_split chg [] old merged Hc Ho).
  - apply Forall_forall. intros e _. constructor.
  - exact H.
Qed.

Lemma merge_applies_changes_witness :
  DocMap.find 5
    (match DoclenChunkWriter.merge [(2, 7); (5, SEPERATOR); (9, 4)]
             (DocMap.begin [(1, 1); (5, 3); (9, 2)]) [(1, 1); (5, 3); (9, 2)]
     with Ok merged => merged | Err _ => [] end)
  = None.
Proof.
  destruct (merge_applies_changes [(2, 7); (5, SEPERATOR); (9, 4)]
              [(1, 1); (5, 3); (9, 2)] [(1, 1); (2, 7); (9, 4)]) as [_ H].
  - cbn. repeat split; repeat constructor.
  - cbn. repeat split; repeat constructor.
  - reflexivity.
  - exact (H 5).
Defined.

(** ** Skipping forward in a posting list *)

Module SkipFacts.

Lemma read_uint_shorter : forall (p : bytes) (v : Z) (rest : bytes),
    read_uint p = Ok (v, rest) -> (length rest < length p)%nat.
Proof.
  intros p v rest H. apply HeaderFacts.read_uint_prefix in H.
  destruct H as [_ [consumed [Hp Hother]]]. subst p.
  destruct consumed as [|b consumed].
  - specialize (Hother []). cbn in Hother. discriminate.
  - rewrite length_app. cbn [length]. lia.
Qed.

Lemma move_forward_loop_spec :
  forall (fuel : nat) (desired_did : docid) (p : bytes) (did_ : docid)
         (wdf_ : termcount) (found : bool) (p' : bytes) (did' : docid)
         (wdf' : termcount),
    (length p <= fuel)%nat -> did_ < desired_did ->
    BrassPostList.move_forward_loop fuel desired_did p did_ wdf_
    = Ok (found, p', did', wdf') ->
    if found then desired_did <= did' else did' < desired_did /\ p' = [].
Proof.
  induction fuel as [|fuel IH];
    intros desired_did p did_ wdf_ found p' did' wdf' Hf Hd H.
  - destruct p; [|cbn in Hf; lia]. cbn in H. inversion H; subst.
    split; [exact Hd|reflexivity].
  - cbn [BrassPostList.move_forward_loop] in H.
    destruct p as [|b p].
    { inversion H; subst. split; [exact Hd|reflexivity]. }
    unfold read_did_increase in H.
    destruct (read_uint (b :: p)) as [[inc p1]|err] eqn:E1; cbn [bind] in H;
      [|discriminate].
    apply read_uint_shorter in E1.
    destruct (desired_did <=? u32 (did_ + (inc + 1))) eqn:E.
    + unfold read_wdf in H.
      destruct (read_uint p1) as [[w p2]|err]; cbn [bind] in H; [|discriminate].
      inversion H; subst. apply Z.leb_le in E. exact E.
    + unfold read_wdf in H.
      destruct (read_uint p1) as [[w p2]|err] eqn:E2; cbn [bind] in H;
        [|discriminate].
      apply read_uint_shorter in E2. apply Z.leb_gt in E.
      eapply IH; [|exact E|exact H]. cbn [length] in *. lia.
Qed.

(** [move_forward_in_chunk_to_at_least] tells whether the list stands on
    a docid that is at least the one asked for; when it does not, nothing
    is left of the chunk. *)
Lemma move_forward_spec :
  forall (desired_did : docid) (l l' : BrassPostList.t) (found : bool),
    BrassPostList.move_forward_in_chunk_to_at_least desired_did l
    = Ok (found, l') ->
    BrassPostList.have_started l' = BrassPostList.have_started l
    /\ BrassPostList.is_at_end l' = BrassPostList.is_at_end l
    /\ if found then desired_did <= BrassPostList.did l'
       else BrassPostList.did l' < desired_did /\ chunk_exhausted l'.
Proof.
  intros desired_did l l' found H.
  unfold BrassPostList.move_forward_in_chunk_to_at_least in H.
  destruct (desired_did <=? BrassPostList.did l) eqn:Ed.
  - inversion H; subst. apply Z.leb_le in Ed. repeat split. exact Ed.
  - apply Z.leb_gt in Ed.
    destruct (desired_did <=? BrassPostList.last_did_in_chunk l).
    + destruct (BrassPostList.pos l) as [p|] eqn:Ep.
      * destruct (BrassPostList.move_forward_loop _ _ _ _ _)
          as [[[[f p1] d1] w1]|err] eqn:El; cbn [bind] in H; [|discriminate].
        apply move_forward_loop_spec in El; [|apply Nat.le_refl|exact Ed].
        destruct f; inversion H; subst; cbn; repeat split; tauto.
      * inversion H; subst. cbn. repeat split. exact Ed.
    + inversion H; subst. cbn. repeat split; [exact Ed|].
      unfold chunk_exhausted. cbn. destruct (BrassPostList.pos l); exact I.
Qed.

End SkipFacts.

(** X7: where [skip_to] leaves the list of a term.  Whenever it returns,
    the list has started, and it is at the end, or it stands on a docid
    that is at least the one asked for, or it stands below that docid
    with nothing left of its chunk, which is what a chunk that ends
    before the last docid of its header gives. *)
Theorem skip_to_lands_at_or_after :
  forall (table : BrassTable.t) (desired_did : docid)
         (l l' : BrassPostList.t),
    BrassPostList.is_doclen_list l = false ->
    BrassPostList.skip_to table desired_did l = Ok l' ->
    BrassPostList.have_started l' = true
    /\ (BrassPostList.is_at_end l' = true
        \/ desired_did <= BrassPostList.did l'
        \/ (BrassPostList.did l' < desired_did /\ chunk_exhausted l')).
Proof.
  intros table desired_did l l' Hterm H.
  unfold BrassPostList.skip_to in H. rewrite Hterm in H.
  cbn [BrassPostList.is_at_end BrassPostList.did] in H.
  destruct (BrassPostList.is_at_end l) eqn:Eend; cbn [orb] in H.
  { inversion H; subst. cbn. split; [reflexivity|]. left. reflexivity. }
  destruct (desired_did <=? BrassPostList.did l) eqn:Ed.
  { inversion H; subst. cbn. split; [reflexivity|]. right. left.
    apply Z.leb_le. exact Ed. }
  match type of H with
  | (l0 <- ?moved ;; _) = _ =>
      destruct moved as [l1|err] eqn:Em; cbn [bind] in H; [|discriminate]
  end.
  assert (Hs : BrassPostList.have_started l1 = true).
  { destruct (negb _) in Em.
    - unfold BrassPostList.move_to_chunk_containing in Em.
      cbn [BrassPostList.term BrassPostList.have_started] in Em.
      destruct (BrassCursor.find_entry table _) as [found cursor_].
      destruct (Key.check_tname_in_key_lite _ _) as [same keypos].
      destruct same; cbn [negb] in Em.
      + match type of Em with
        | (x <- ?a ;; _) = _ =>
            destruct a as [[did_ pos_]|err]; cbn [bind] in Em; [|discriminate]
        end.
        destruct (read_start_of_chunk pos_ did_) as [[[il ld] ps]|err];
          cbn [bind] in Em; [|discriminate].
        unfold BrassPostList.enter_chunk in Em.
        cbn [BrassPostList.is_doclen_list] in Em. try rewrite Hterm in Em.
        cbn [negb] in Em.
        destruct (read_wdf ps) as [[w ps']|err]; cbn [bind] in Em;
          [|discriminate].
        cbn [BrassPostList.last_did_in_chunk] in Em.
        destruct (ld <? desired_did).
        * unfold BrassPostList.next_chunk in Em.
          cbn [BrassPostList.is_last_chunk BrassPostList.term
               BrassPostList.have_started BrassPostList.cursor
               BrassPostList.did] in Em.
          destruct il.
          -- inversion Em; subst. reflexivity.
          -- destruct (BrassCursor.after_end _); [discriminate|].
             destruct (Key.check_tname_in_key_lite _ _) as [same' keypos'].
             destruct same'; cbn [negb] in Em; [|discriminate].
             destruct (Key.read_uint_preserving_sort keypos')
               as [[newdid r]|err]; cbn [bind] in Em; [|discriminate].
             destruct (newdid <=? did_); [discriminate|].
             destruct (read_start_of_chunk _ newdid) as [[[il' ld'] ps2]|err];
               cbn [bind] in Em; [|discriminate].
             unfold BrassPostList.enter_chunk in Em.
             cbn [BrassPostList.is_doclen_list] in Em. try rewrite Hterm in Em.
             cbn [negb] in Em.
             destruct (read_wdf ps2) as [[w2 ps2']|err]; cbn [bind] in Em;
               [|discriminate].
             inversion Em; subst. reflexivity.
        * inversion Em; subst. reflexivity.
      + inversion Em; subst. reflexivity.
    - inversion Em; subst. reflexivity. }
  destruct (BrassPostList.is_at_end l1) eqn:Eend1.
  { inversion H; subst. split; [exact Hs|]. left. exact Eend1. }
  destruct (BrassPostList.move_forward_in_chunk_to_at_least desired_did l1)
    as [[found l2]|err] eqn:Ef; cbn [bind] in H; [|discriminate].
  inversion H; subst l2. clear H.
  apply SkipFacts.move_forward_spec in Ef. destruct Ef as [Hs' [_ Hf]].
  split; [rewrite Hs'; exact Hs|]. right.
  destruct found; [left; exact Hf|right; exact Hf].
Qed.

Lemma skip_to_lands_at_or_after_witness :
  match BrassPostList.skip_to two_chunk_table 11 cat_list with
  | Ok l' => 11 <= BrassPostList.did l'
  | Err _ => False
  end.
Proof.
  destruct (BrassPostList.skip_to two_chunk_table 11 cat_list) as [l'|err] eqn:E.
  - destruct (skip_to_lands_at_or_after two_chunk_table 11 cat_list l'
                eq_refl E) as [_ [H|[H|[H _]]]].
    + vm_compute in E. inversion E; subst. discriminate H.
    + exact H.
    + vm_compute in E. inversion E; subst. vm_compute in H. discriminate H.
  - vm_compute in E. discriminate E.
Defined.

(** ** A term or a doclen list that the table does not have *)

Module AbsentFacts.

(** The cursor of a lookup stands on an entry of the table or on the
    null entry. *)
Lemma find_entry_on_table : forall (table : BrassTable.t) (key : bytes),
    BrassCursor.current_key (snd (BrassCursor.find_entry table key)) = []
    \/ In (BrassCursor.current_key (snd (BrassCursor.find_entry table key)),
           BrassCursor.current_tag (snd (BrassCursor.find_entry table key)))
          table.
Proof.
  intros table key. unfold BrassCursor.find_entry.
  destruct (ChunkBoundFacts.floor_entry_in table key ([], [])) as [H|H].
  - rewrite H. left. reflexivity.
  - destruct (BrassCursor.floor_entry key table ([], [])) as [k tag].
    right. exact H.
Qed.

End AbsentFacts.

(** X8: [get_chunk] for a term of which the table has no chunk.  When no
    key of the table carries the term, the call for a change that does not
    add raises DatabaseCorruptError, and the call for one that adds gives
    no reader, a writer that has nothing in it, stands for a chunk that is
    the first and the last of its list and has no key yet, and the largest
    docid as the last one to allow. *)
Theorem get_chunk_of_absent_term :
  forall (table : BrassPostListTable.t) (tname : bytes) (did : docid),
    tname <> [] ->
    (forall key tag : bytes,
        In (key, tag) (BrassPostListTable.entries table) ->
        carries_term key tname = false) ->
    BrassPostListTable.get_chunk table tname did false
    = Err DatabaseCorruptError
    /\ BrassPostListTable.get_chunk table tname did true
       = Ok (u32 (-1), None,
             Some (PostlistChunkWriter.make [] true tname true)).
Proof.
  intros table tname did Hne Habsent.
  assert (Hcheck :
    fst (Key.check_tname_in_key
           (BrassCursor.current_key
              (snd (BrassCursor.find_entry (BrassPostListTable.entries table)
                      (Key.make_key_did tname did))))
           tname) = false).
  { destruct (AbsentFacts.find_entry_on_table
                (BrassPostListTable.entries table)
                (Key.make_key_did tname did)) as [H|H].
    - rewrite H. reflexivity.
    - apply Habsent in H. unfold Key.check_tname_in_key.
      destruct (BrassCursor.current_key _); [reflexivity|exact H]. }
  destruct tname as [|b tname']; [contradiction|].
  unfold BrassPostListTable.get_chunk.
  destruct (BrassCursor.find_entry _ _) as [found cursor].
  cbn [snd] in Hcheck.
  destruct (Key.check_tname_in_key _ _) as [same keypos].
  cbn [fst] in Hcheck. subst same. split; reflexivity.
Qed.

Lemma get_chunk_of_absent_term_witness :
  BrassPostListTable.get_chunk empty_table cat 7 false
  = Err DatabaseCorruptError.
Proof.
  destruct (get_chunk_of_absent_term empty_table cat 7) as [H _].
  - discriminate.
  - intros key tag Hin. destruct Hin.
  - exact H.
Defined.

(** X9: a table without a doclen list knows no document.  When the
    table has no entry under the key of the doclen list and no list is
    cached, [get_doclength] raises DocNotFoundError and [document_exists]
    answers false for every docid, and the entries of the table are left
    as they are. *)
Theorem no_doclen_list_no_document :
  forall (entries_ : BrassTable.t) (did : docid),
    BrassTable.key_exists (Key.make_key []) entries_ = false ->
    BrassPostListTable.get_doclength
      (BrassPostListTable.mk entries_ None) did = Err DocNotFoundError
    /\ exists table' : BrassPostListTable.t,
         BrassPostListTable.document_exists
           (BrassPostListTable.mk entries_ None) did = Ok (false, table')
         /\ BrassPostListTable.entries table' = entries_.
Proof.
  intros entries_ did H.
  unfold BrassPostListTable.get_doclength, BrassPostListTable.document_exists,
    BrassPostListTable.open_doclen_pl.
  cbn [BrassPostListTable.doclen_pl BrassPostListTable.entries].
  unfold BrassPostList.init, BrassCursor.find_entry.
  destruct (BrassCursor.floor_entry _ entries_ _) as [k tag].
  rewrite H. cbn [negb bind]. unfold BrassPostList.jump_to.
  cbn [BrassPostList.pos bind negb]. split; [reflexivity|].
  eexists. split; reflexivity.
Qed.

Lemma no_doclen_list_no_document_witness :
  BrassPostListTable.get_doclength
    (BrassPostListTable.mk two_chunk_table None) 1 = Err DocNotFoundError.
Proof.
  destruct (no_doclen_list_no_document two_chunk_table 1) as [H _].
  - reflexivity.
  - exact H.
Defined.

(** ** The last chunk of a list emptied *)

Module PreviousChunkFacts.
Import BrassTable TableFacts.

Lemma sorted_from_split : forall (a b : BrassTable.t) (k0 k t : bytes),
    sorted_from k0 (a ++ (k, t) :: b) = true ->
    keys_below k a /\ key_compare k0 k = Lt /\ sorted_from k b = true.
Proof.
  induction a as [|[k1 t1] a IH]; intros b k0 k t H.
  - cbn [app] in H. apply sorted_from_cons in H. destruct H as [H1 H2].
    split; [constructor|]. split; assumption.
  - cbn [app] in H. apply sorted_from_cons in H. destruct H as [H1 H2].
    destruct (IH b k1 k t H2) as [Ha [Hk Hb]].
    split; [constructor; assumption|].
    split; [eapply key_compare_trans; eassumption|exact Hb].
Qed.

Lemma sorted_split : forall (a b : BrassTable.t) (k t : bytes),
    sorted (a ++ (k, t) :: b) = true ->
    keys_below k a /\ sorted_from k b = true.
Proof.
  intros [|[k1 t1] a] b k t H.
  - cbn in H. split; [constructor|exact H].
  - cbn [app sorted] in H. destruct (sorted_from_split a b k1 k t H) as [Ha [Hk Hb]].
    split; [constructor; assumption|exact Hb].
Qed.

Lemma del_middle : forall (a b : BrassTable.t) (k t : bytes),
    keys_below k a -> del k (a ++ (k, t) :: b) = a ++ b.
Proof.
  induction a as [|[k1 t1] a IH]; intros b k t H.
  - cbn [app del]. rewrite key_compare_refl. reflexivity.
  - inversion H; subst. cbn [fst] in *. cbn [app del].
    assert (Hg : key_compare k k1 = Gt) by (apply key_compare_gt_lt; assumption).
    rewrite Hg. f_equal. apply IH. assumption.
Qed.

Lemma add_middle : forall (a b : BrassTable.t) (k t t' : bytes),
    keys_below k a -> add k t' (a ++ (k, t) :: b) = a ++ (k, t') :: b.
Proof.
  induction a as [|[k1 t1] a IH]; intros b k t t' H.
  - cbn [app add]. rewrite key_compare_refl. reflexivity.
  - inversion H; subst. cbn [fst] in *. cbn [app add].
    assert (Hg : key_compare k k1 = Gt) by (apply key_compare_gt_lt; assumption).
    rewrite Hg. f_equal. apply IH. assumption.
Qed.

Lemma get_exact_entry_gap : forall (a b : BrassTable.t) (k : bytes),
    keys_below k a -> sorted_from k b = true ->
    get_exact_entry k (a ++ b) = None.
Proof.
  induction a as [|[k1 t1] a IH]; intros b k Ha Hb.
  - cbn [app]. eapply get_exact_entry_above; [exact Hb|].
    rewrite key_compare_refl. discriminate.
  - inversion Ha; subst. cbn [fst] in *. cbn [app get_exact_entry].
    assert (Hg : key_compare k k1 = Gt) by (apply key_compare_gt_lt; assumption).
    rewrite Hg. apply IH; assumption.
Qed.

Lemma floor_entry_gap : forall (a b : BrassTable.t) (k : bytes)
    (best : bytes * bytes),
    keys_below k a -> sorted_from k b = true ->
    BrassCursor.floor_entry k (a ++ b) best = last a best.
Proof.
  induction a as [|[k1 t1] a IH]; intros b k best Ha Hb.
  - cbn [app last]. eapply CursorFacts.floor_entry_above; [exact Hb|].
    rewrite key_compare_refl. discriminate.
  - inversion Ha; subst. cbn [fst] in *. cbn [app BrassCursor.floor_entry].
    rewrite H1. rewrite IH by assumption.
    destruct a as [|e a]; [reflexivity|].
    change (last ((k1, t1) :: e :: a) best) with (last (e :: a) best).
    apply last_nonempty_default.
Qed.

End PreviousChunkFacts.

(** X10: [flush] of a writer to which nothing was appended, for a chunk
    that is the last of its list and not the first.  On a table in key
    order in which the chunk follows a chunk of the same term, the first
    of the list or a later one, the entry of the chunk is deleted and the
    chunk before it is written back with the same headers and body but
    marked as the last; no other entry changes. *)
Theorem flush_marks_previous_chunk_last :
  forall (before after : BrassTable.t) (w : PostlistChunkWriter.t)
         (tag body : bytes) (previous_is_first previous_is_last : bool)
         (entries : doccount) (collectionfreq : termcount)
         (first_did last_did : docid),
    let term := PostlistChunkWriter.tname w in
    let previous_key :=
      if previous_is_first then Key.make_key term
      else Key.make_key_did term first_did in
    let first_header :=
      if previous_is_first
      then make_start_of_first_chunk entries collectionfreq first_did
      else [] in
    let previous_tag (is_last : bool) :=
      first_header ++ make_start_of_chunk is_last first_did last_did ++ body in
    BrassTable.sorted
      (before ++ (previous_key, previous_tag previous_is_last)
              :: (PostlistChunkWriter.orig_key w, tag) :: after) = true ->
    PostlistChunkWriter.started w = false ->
    PostlistChunkWriter.is_first_chunk w = false ->
    PostlistChunkWriter.is_last_chunk w = true ->
    is_u32 entries -> is_u32 collectionfreq ->
    is_u32 first_did -> is_u32 last_did -> first_did <= last_did ->
    PostlistChunkWriter.flush
      (before ++ (previous_key, previous_tag previous_is_last)
              :: (PostlistChunkWriter.orig_key w, tag) :: after) w
    = Ok (before ++ (previous_key, previous_tag true) :: after).
Proof.
  intros before after w tag body previous_is_first previous_is_last
         entries collectionfreq first_did last_did term previous_key
         first_header previous_tag Hs Hstarted Hfirst Hlast He Hc Hf Hl Hle.
  set (k := PostlistChunkWriter.orig_key w) in *.
  set (t0 := previous_tag previous_is_last) in *.
  assert (Hs1 : BrassTable.sorted
                  ((before ++ [(previous_key, t0)]) ++ (k, tag) :: after) = true)
    by (rewrite <- app_assoc; exact Hs).
  destruct (PreviousChunkFacts.sorted_split _ _ _ _ Hs1) as [Hbelow Hafter].
  destruct (PreviousChunkFacts.sorted_split _ _ _ _ Hs) as [Hbefore _].
  unfold PostlistChunkWriter.flush. rewrite Hstarted, Hfirst, Hlast.
  cbn [negb]. fold k.
  change (before ++ (previous_key, t0) :: (k, tag) :: after)
    with (before ++ [(previous_key, t0)] ++ (k, tag) :: after).
  rewrite app_assoc.
  rewrite PreviousChunkFacts.del_middle by exact Hbelow.
  unfold PostlistChunkWriter.flush_update_previous, BrassCursor.find_entry.
  fold k. rewrite PreviousChunkFacts.floor_entry_gap by assumption.
  unfold BrassTable.key_exists.
  rewrite PreviousChunkFacts.get_exact_entry_gap by assumption.
  rewrite last_last.
  cbn [BrassCursor.current_key BrassCursor.current_tag].
  fold term.
  assert (Hb : Key.bytes_eqb term term = true)
    by (apply KeyFacts.bytes_eqb_eq; reflexivity).
  assert (Hd : u32 (first_did + u32 (last_did - first_did)) = last_did).
  { destruct Hf, Hl. unfold u32.
    rewrite (Z.mod_small (last_did - first_did)) by lia.
    replace (first_did + (last_did - first_did)) with last_did by lia.
    apply Z.mod_small. lia. }
  rewrite <- app_assoc. cbn [app].
  unfold previous_key, t0, previous_tag, first_header.
  destruct previous_is_first.
  - rewrite CodecFacts.check_make_key. rewrite Hb. cbn [negb].
    rewrite HeaderFacts.read_make_start_of_first_chunk by assumption.
    cbn [bind]. rewrite CodecFacts.u32_pred_succ by exact Hf.
    rewrite HeaderFacts.read_make_start_of_chunk. cbn [bind]. rewrite Hd.
    unfold PostlistChunkWriter.write_start_of_chunk.
    set (h1 := make_start_of_first_chunk entries collectionfreq first_did).
    set (h2 := make_start_of_chunk previous_is_last first_did last_did).
    replace (length (h1 ++ h2 ++ body) - length (h2 ++ body))%nat
      with (length h1 + 0)%nat by (rewrite !length_app; lia).
    replace (length (h1 ++ h2 ++ body) - length body)%nat
      with (length (h1 ++ h2) + 0)%nat by (rewrite !length_app; lia).
    rewrite firstn_app_2. cbn [firstn]. rewrite app_nil_r.
    rewrite (app_assoc h1 h2 body). rewrite skipn_app.
    replace (length (h1 ++ h2) + 0 - length (h1 ++ h2))%nat with 0%nat by lia.
    rewrite Nat.add_0_r, skipn_all. cbn [app skipn].
    rewrite PreviousChunkFacts.add_middle by exact Hbefore. reflexivity.
  - rewrite CodecFacts.check_make_key_did. rewrite Hb. cbn [negb].
    unfold Key.pack_uint_preserving_sort at 1.
    rewrite <- (app_nil_r (Key.pack_uint_preserving_sort first_did)).
    unfold Key.pack_uint_preserving_sort at 1. cbn [app].
    change (byte_of_Z (get_max_bytes first_did)
              :: pack_uint_in_bytes first_did (Z.to_nat (get_max_bytes first_did))
              ++ [])
      with (Key.pack_uint_preserving_sort first_did ++ []).
    rewrite CodecFacts.read_pack_uint_preserving_sort by exact Hf.
    cbn [bind app].
    rewrite HeaderFacts.read_make_start_of_chunk. cbn [bind]. rewrite Hd.
    unfold PostlistChunkWriter.write_start_of_chunk.
    set (h2 := make_start_of_chunk previous_is_last first_did last_did).
    rewrite Nat.sub_diag. cbn [firstn app].
    replace (length (h2 ++ body) - length body)%nat
      with (length h2 + 0)%nat by (rewrite !length_app; lia).
    rewrite skipn_app.
    replace (length h2 + 0 - length h2)%nat with 0%nat by lia.
    rewrite Nat.add_0_r, skipn_all. cbn [app skipn].
    rewrite PreviousChunkFacts.add_middle by exact Hbefore. reflexivity.
Qed.

Lemma flush_marks_previous_chunk_last_witness :
  PostlistChunkWriter.flush two_chunk_table
    (PostlistChunkWriter.make (Key.make_key_did cat 10) false cat true)
  = Ok [(Key.make_key cat,
         make_start_of_first_chunk 4 9 1 ++ make_start_of_chunk true 1 4
           ++ pack_uint 2 ++ pack_uint 2 ++ pack_uint 1)].
Proof.
  apply (flush_marks_previous_chunk_last [] []
           (PostlistChunkWriter.make (Key.make_key_did cat 10) false cat true)
           cat_second_tag (pack_uint 2 ++ pack_uint 2 ++ pack_uint 1)
           true false 4 9 1 4);
    try reflexivity; try (unfold is_u32; lia); lia.
Defined.

(** ** Looking up a docid in a doclen chunk *)

Module JumpRoundTrip.
Import FixedWidthChunkReader DecodeFacts RoundTrip.

Lemma advance_shorter : forall (p p' : bytes) (n : Z),
    advance p n = Ok p' -> (length p' <= length p)%nat.
Proof.
  intros p p' n H. unfold advance in H.
  destruct (n <=? Z.of_nat (length p)); [|discriminate].
  inversion H; subst. rewrite length_skipn. lia.
Qed.

Lemma jump_to_loop_empty : forall (fuel : nat) (d : docid) (r : t),
    pos r = [] -> jump_to_loop fuel d r = Ok (false, r).
Proof.
  intros [|fuel] d r H; cbn [jump_to_loop]; [reflexivity|].
  rewrite H. reflexivity.
Qed.

(** The loop reads at least one byte a turn: any bound that is at least
    the length of what is left gives the same result. *)
Lemma jump_to_loop_fuel : forall (f1 f2 : nat) (d : docid) (r : t),
    (length (pos r) <= f1)%nat -> (length (pos r) <= f2)%nat ->
    jump_to_loop f1 d r = jump_to_loop f2 d r.
Proof.
  induction f1 as [|f1 IH]; intros f2 d r H1 H2.
  - destruct (pos r) eqn:E; [|cbn in H1; lia].
    rewrite !jump_to_loop_empty by exact E. reflexivity.
  - destruct f2 as [|f2].
    { destruct (pos r) eqn:E; [|cbn in H2; lia].
      rewrite !jump_to_loop_empty by exact E. reflexivity. }
    cbn [jump_to_loop]. destruct (pos r) as [|b p] eqn:E; [reflexivity|].
    destruct (unchecked_uint (b :: p)) as [[incre p1]|err] eqn:E1;
      cbn [bind]; [|reflexivity].
    apply unchecked_uint_shorter in E1. cbn [length] in *.
    destruct (negb (incre =? SEPERATOR)).
    + destruct (unchecked_uint p1) as [[len p2]|err] eqn:E2;
        cbn [bind]; [|reflexivity].
      apply unchecked_uint_shorter in E2.
      destruct (u32 (cur_did r + incre) =? d); [reflexivity|].
      destruct (d <? u32 (cur_did r + incre)); [reflexivity|].
      apply IH; cbn [pos]; lia.
    + destruct (unchecked_uint p1) as [[incre2 p2]|err] eqn:E2;
        cbn [bind]; [|reflexivity].
      apply unchecked_uint_shorter in E2.
      destruct (unchecked_uint_in_bytes p2 2) as [[li p3]|err] eqn:E3;
        cbn [bind]; [|reflexivity].
      apply unchecked_uint_in_bytes_shorter in E3.
      destruct (unchecked_uint_in_bytes p3 1) as [[bi p4]|err] eqn:E4;
        cbn [bind]; [|reflexivity].
      apply unchecked_uint_in_bytes_shorter in E4.
      destruct (d <? u32 (cur_did r + incre2)); [reflexivity|].
      destruct (d <=? u32 (u32 (cur_did r + incre2) + li - 1)); [reflexivity|].
      destruct (advance p4 _) as [p5|err] eqn:E5; cbn [bind]; [|reflexivity].
      apply advance_shorter in E5.
      apply IH; cbn [pos]; lia.
Qed.

(** One turn of the loop on an entry in the normal format. *)
Lemma jump_to_loop_normal :
  forall (fuel : nat) (delta len : Z) (rest : bytes) (d : docid) (r : t),
    is_u32 delta -> delta <> SEPERATOR -> is_u32 len ->
    pos r = pack_uint delta ++ pack_uint len ++ rest ->
    (length (pos r) <= fuel)%nat ->
    let r1 := mk rest (ori_pos r) (pos r) (u32 (cur_did r + delta))
                 (did_before_block r) len (is_at_end r) false
                 (len_info r) (bytes_info r) (first_did_in_chunk r) in
    jump_to_loop fuel d r =
      if u32 (cur_did r + delta) =? d then Ok (true, r1)
      else if d <? u32 (cur_did r + delta) then Ok (false, r1)
      else jump_to_loop (length rest) d r1.
Proof.
  intros fuel delta len rest d r Hdelta Hsep Hlen Hpos Hfuel r1.
  destruct fuel as [|fuel].
  { rewrite Hpos in Hfuel. rewrite length_app in Hfuel.
    pose proof (pack_uint_nonempty delta) as Hne.
    destruct (pack_uint delta); [contradiction|]. cbn in Hfuel. lia. }
  cbn [jump_to_loop].
  destruct (pos r) as [|b p] eqn:E.
  { symmetry in Hpos. apply app_eq_nil in Hpos. destruct Hpos as [Hpos _].
    apply pack_uint_nonempty in Hpos. contradiction. }
  rewrite Hpos. rewrite unchecked_pack_uint by exact Hdelta. cbn [bind].
  replace (delta =? SEPERATOR) with false
    by (symmetry; apply Z.eqb_neq; exact Hsep).
  cbn [negb]. rewrite unchecked_pack_uint by exact Hlen. cbn [bind].
  rewrite <- Hpos. fold r1.
  destruct (u32 (cur_did r + delta) =? d); [reflexivity|].
  destruct (d <? u32 (cur_did r + delta)); [reflexivity|].
  apply jump_to_loop_fuel; [|apply Nat.le_refl].
  cbn [pos r1]. subst r1. cbn [pos].
  rewrite Hpos in Hfuel. rewrite !length_app in Hfuel.
  pose proof (pack_uint_nonempty delta) as Hne.
  destruct (pack_uint delta); [contradiction|]. cbn [length] in Hfuel. lia.
Qed.

(** The entries that follow an entry in the normal format: a docid among
    them is found with its length, and for a docid past them the loop
    goes on where they end. *)
Lemma jump_to_loop_normal_tail :
  forall (tail : doclen_map) (d0 : docid) (rest : bytes) (d : docid)
         (fuel : nat) (r : t),
    is_u32 d0 -> 1 <= d0 -> ascending_from d0 tail = true ->
    pos r = encode_normal tail d0 ++ rest -> cur_did r = d0 ->
    (length (pos r) <= fuel)%nat ->
    (forall len, In (d, len) tail ->
       exists r', jump_to_loop fuel d r = Ok (true, r')
                  /\ cur_did r' = d /\ cur_length r' = len)
    /\ (Forall (fun e => fst e < d) tail ->
        exists r1, jump_to_loop fuel d r = jump_to_loop (length rest) d r1
                   /\ pos r1 = rest /\ cur_did r1 = last_docid_of tail d0).
Proof.
  induction tail as [|[d1 l1] tail IH];
    intros d0 rest d fuel r Hd0 H1 Hasc Hpos Hcur Hfuel.
  - split; [intros len []|]. intros _. exists r.
    cbn [encode_normal app] in Hpos. split; [|split].
    + apply jump_to_loop_fuel; [exact Hfuel|rewrite Hpos; apply Nat.le_refl].
    + exact Hpos.
    + exact Hcur.
  - apply ascending_from_cons in Hasc. destruct Hasc as (Hlt & Hd1 & Hl1 & Hasc).
    rewrite RoundTripMain.encode_normal_cons in Hpos.
    rewrite <- !app_assoc in Hpos.
    assert (Hdelta : u32 (d1 - d0) = d1 - d0)
      by (apply u32_small; destruct Hd0, Hd1; split; lia).
    rewrite Hdelta in Hpos.
    pose proof (jump_to_loop_normal fuel (d1 - d0) l1 _ d r
                  ltac:(destruct Hd0, Hd1; split; lia)
                  ltac:(unfold SEPERATOR; destruct Hd1;
                        change (2 ^ 32) with 4294967296 in *; lia)
                  Hl1 Hpos Hfuel) as Hstep.
    cbv zeta in Hstep. rewrite Hcur in Hstep.
    replace (d0 + (d1 - d0)) with d1 in Hstep by lia.
    rewrite (u32_small d1) in Hstep by exact Hd1.
    set (r1 := mk (encode_normal tail d1 ++ rest) (ori_pos r) (pos r) d1
                  (did_before_block r) l1 (is_at_end r) false
                  (len_info r) (bytes_info r) (first_did_in_chunk r)) in *.
    destruct (IH d1 rest d (length (encode_normal tail d1 ++ rest)) r1
                Hd1 ltac:(lia) Hasc eq_refl eq_refl (Nat.le_refl _))
      as [IHin IHpast].
    split.
    + intros len [Heq|Hin].
      * inversion Heq; subst. rewrite Hstep, Z.eqb_refl.
        exists r1. repeat split.
      * assert (Hgt : d1 < d).
        { clear - Hasc Hin. revert d1 Hasc.
          induction tail as [|[a b] tail IHt]; intros d1 Hasc; [destruct Hin|].
          apply ascending_from_cons in Hasc. destruct Hasc as (Hlt & _ & _ & Hasc).
          destruct Hin as [Heq|Hin]; [inversion Heq; subst; exact Hlt|].
          specialize (IHt Hin a Hasc). lia. }
        rewrite Hstep.
        destruct (d1 =? d) eqn:E1; [apply Z.eqb_eq in E1; lia|].
        destruct (d <? d1) eqn:E2; [apply Z.ltb_lt in E2; lia|].
        apply IHin. exact Hin.
    + intro Hall. inversion Hall; subst. cbn [fst] in *.
      rewrite Hstep.
      destruct (d1 =? d) eqn:E1; [apply Z.eqb_eq in E1; lia|].
      destruct (d <? d1) eqn:E2; [apply Z.ltb_lt in E2; lia|].
      destruct (IHpast H3) as [r2 [Hr2 [Hp2 Hc2]]].
      exists r2. rewrite last_docid_of_cons. split; [|split]; assumption.
Qed.

Lemma encode_fixed_width_length : forall (entries : doclen_map) (max_bytes : Z),
    length (encode_fixed_width entries max_bytes)
    = (Z.to_nat max_bytes * length entries)%nat.
Proof.
  induction entries as [|[d len] entries IH]; intro max_bytes.
  - cbn. lia.
  - cbn [encode_fixed_width length]. rewrite length_app, IH.
    rewrite PackFacts.pack_uint_in_bytes_length. lia.
Qed.

Lemma skipn_encode_fixed_width :
  forall (entries : doclen_map) (i : nat) (max_bytes : Z) (rest : bytes),
    (i <= length entries)%nat ->
    skipn (Z.to_nat max_bytes * i) (encode_fixed_width entries max_bytes ++ rest)
    = encode_fixed_width (skipn i entries) max_bytes ++ rest.
Proof.
  induction entries as [|[d len] entries IH]; intros i max_bytes rest Hi.
  - destruct i; [|cbn in Hi; lia]. rewrite Nat.mul_0_r. reflexivity.
  - destruct i as [|i]; [rewrite Nat.mul_0_r; reflexivity|].
    cbn [encode_fixed_width skipn]. rewrite <- app_assoc.
    replace (Z.to_nat max_bytes * S i)%nat
      with (Z.to_nat max_bytes * i + Z.to_nat max_bytes)%nat by lia.
    rewrite <- skipn_skipn.
    rewrite <- (PackFacts.pack_uint_in_bytes_length (Z.to_nat max_bytes) len)
      at 2.
    rewrite skipn_app, skipn_all, Nat.sub_diag. cbn [skipn app].
    apply IH. cbn [length] in Hi. lia.
Qed.

Lemma consecutive_nth :
  forall (entries : doclen_map) (d0 d : docid) (len : termcount),
    consecutive_from (d0 - 1) entries -> In (d, len) entries ->
    exists i : nat,
      (i < length entries)%nat /\ d = d0 + Z.of_nat i
      /\ exists after, skipn i entries = (d, len) :: after.
Proof.
  induction entries as [|[d1 l1] entries IH]; intros d0 d len Hc Hin;
    [destruct Hin|].
  cbn [consecutive_from] in Hc. destruct Hc as [Hd1 Hc].
  destruct Hin as [Heq|Hin].
  - inversion Heq; subst. exists 0%nat. cbn [length skipn Z.of_nat].
    split; [lia|]. split; [lia|]. exists entries. reflexivity.
  - replace d1 with (d0 + 1 - 1) in Hc by lia.
    destruct (IH (d0 + 1) d len Hc Hin) as [i [Hi [Hd [after Hs]]]].
    exists (S i). cbn [length skipn]. split; [lia|].
    split; [rewrite Nat2Z.inj_succ; lia|]. exists after. exact Hs.
Qed.

Lemma consecutive_below :
  forall (entries : doclen_map) (d0 : docid),
    consecutive_from (d0 - 1) entries ->
    Forall (fun e => d0 <= fst e < d0 + Z.of_nat (length entries)) entries.
Proof.
  induction entries as [|[d1 l1] entries IH]; intros d0 Hc; [constructor|].
  cbn [consecutive_from] in Hc. destruct Hc as [Hd1 Hc].
  replace d1 with (d0 + 1 - 1) in Hc by lia.
  specialize (IH (d0 + 1) Hc). cbn [length]. rewrite Nat2Z.inj_succ.
  constructor; [cbn [fst]; lia|].
  eapply Forall_impl; [|exact IH]. cbv beta. intros e He. lia.
Qed.

Lemma consecutive_last_u32 :
  forall (entries : doclen_map) (d0 : docid),
    consecutive_from (d0 - 1) entries ->
    Forall (fun e => is_u32 (fst e)) entries -> entries <> [] ->
    is_u32 d0 /\ is_u32 (d0 + Z.of_nat (length entries) - 1).
Proof.
  induction entries as [|[d1 l1] entries IH]; intros d0 Hc Ha Hne;
    [contradiction|].
  cbn [consecutive_from] in Hc. destruct Hc as [Hd1 Hc].
  inversion Ha as [|x l Hu Ha']; subst. cbn [fst] in Hu.
  replace (d0 - 1 + 1) with d0 in Hu by lia. split; [exact Hu|].
  destruct entries as [|e entries].
  - cbn [length]. change (Z.of_nat 1) with 1.
    replace (d0 + 1 - 1) with d0 by lia. exact Hu.
  - replace (d0 - 1 + 1) with (d0 + 1 - 1) in Hc by lia.
    destruct (IH (d0 + 1) Hc Ha' ltac:(discriminate)) as [_ H].
    cbn [length] in *. rewrite !Nat2Z.inj_succ in *.
    replace (d0 + Z.succ (Z.succ (Z.of_nat (length entries))) - 1)
      with (d0 + 1 + Z.succ (Z.of_nat (length entries)) - 1) by lia.
    exact H.
Qed.

Lemma consecutive_nth_last :
  forall (entries : doclen_map) (d0 : docid),
    consecutive_from (d0 - 1) entries -> entries <> [] ->
    exists len, In (d0 + Z.of_nat (length entries) - 1, len) entries.
Proof.
  induction entries as [|[d1 l1] entries IH]; intros d0 Hc Hne; [contradiction|].
  cbn [consecutive_from] in Hc. destruct Hc as [Hd1 Hc].
  destruct entries as [|e entries].
  - exists l1. left. cbn [length]. change (Z.of_nat 1) with 1.
    f_equal. lia.
  - replace d1 with (d0 + 1 - 1) in Hc by lia.
    destruct (IH (d0 + 1) Hc ltac:(discriminate)) as [len Hin].
    exists len. right. cbn [length] in *. rewrite !Nat2Z.inj_succ in *.
    replace (d0 + Z.succ (Z.succ (Z.of_nat (length entries))) - 1)
      with (d0 + 1 + Z.succ (Z.of_nat (length entries)) - 1) by lia.
    exact Hin.
Qed.

(** One turn of the loop on a block in the fixed width format: a docid
    of the block is found by its offset, and for a docid past the block
    the loop goes on after the block. *)
Lemma jump_to_loop_fixed_width :
  forall (fuel : nat) (delta max_bytes : Z) (entries : doclen_map)
         (rest : bytes) (d : docid) (r : t),
    is_u32 delta ->
    0 < Z.of_nat (length entries) < 65536 ->
    0 <= max_bytes < 256 ->
    consecutive_from (cur_did r + delta - 1) entries ->
    Forall (fun e => is_u32 (fst e) /\ 0 <= snd e < 256 ^ max_bytes) entries ->
    pos r = pack_uint SEPERATOR ++ pack_uint delta
              ++ pack_uint_in_bytes (Z.of_nat (length entries)) 2
              ++ pack_uint_in_bytes max_bytes 1
              ++ encode_fixed_width entries max_bytes ++ rest ->
    (length (pos r) <= fuel)%nat ->
    (forall len, In (d, len) entries ->
       exists r', jump_to_loop fuel d r = Ok (true, r')
                  /\ cur_did r' = d /\ cur_length r' = len)
    /\ (Forall (fun e => fst e < d) entries ->
        exists r1, jump_to_loop fuel d r = jump_to_loop (length rest) d r1
                   /\ pos r1 = rest
                   /\ cur_did r1
                      = cur_did r + delta + Z.of_nat (length entries) - 1).
Proof.
  intros fuel delta max_bytes entries rest d r
         Hdelta Hn Hmb Hcons Hall Hpos Hfuel.
  set (d0 := cur_did r + delta) in *.
  set (n := Z.of_nat (length entries)) in *.
  assert (Hu : Forall (fun e => is_u32 (fst e)) entries)
    by (eapply Forall_impl; [|exact Hall]; cbv beta; intros e He; tauto).
  assert (Hne : entries <> [])
    by (destruct entries; [cbn in Hn; lia|discriminate]).
  destruct (consecutive_last_u32 entries d0 Hcons Hu Hne) as [Hd0 Hlast].
  fold n in Hlast.
  pose proof (consecutive_below entries d0 Hcons) as Hrange. fold n in Hrange.
  destruct fuel as [|fuel].
  { rewrite Hpos in Hfuel. rewrite length_app in Hfuel.
    pose proof (pack_uint_nonempty SEPERATOR) as Hsep.
    destruct (pack_uint SEPERATOR); [contradiction|]. cbn in Hfuel. lia. }
  cbn [jump_to_loop].
  destruct (pos r) as [|b p] eqn:E.
  { symmetry in Hpos. apply app_eq_nil in Hpos. destruct Hpos as [Hpos _].
    apply pack_uint_nonempty in Hpos. contradiction. }
  rewrite Hpos.
  rewrite unchecked_pack_uint by (unfold SEPERATOR, is_u32; lia). cbn [bind].
  rewrite Z.eqb_refl. cbn [negb].
  rewrite unchecked_pack_uint by exact Hdelta. cbn [bind].
  rewrite (unchecked_pack_uint_in_bytes_nat 2)
    by (change (256 ^ Z.of_nat 2) with 65536; lia).
  cbn [bind].
  rewrite (unchecked_pack_uint_in_bytes_nat 1)
    by (change (256 ^ Z.of_nat 1) with 256; lia).
  cbn [bind]. fold d0. rewrite (u32_small d0) by exact Hd0.
  rewrite (u32_small (d0 + n - 1)) by exact Hlast.
  assert (Hlen : length (encode_fixed_width entries max_bytes ++ rest)
                 = (Z.to_nat max_bytes * length entries + length rest)%nat)
    by (rewrite length_app, encode_fixed_width_length; reflexivity).
  split.
  - intros len Hin.
    destruct (consecutive_nth entries d0 d len Hcons Hin)
      as [i [Hi [Hd [after Hskip]]]].
    destruct (d <? d0) eqn:E1; [apply Z.ltb_lt in E1; lia|].
    destruct (d <=? d0 + n - 1) eqn:E2; [|apply Z.leb_gt in E2; unfold n in E2; lia].
    replace (d - d0) with (Z.of_nat i) by lia.
    rewrite (u32_small (Z.of_nat i))
      by (unfold is_u32; change (2 ^ 32) with 4294967296; unfold n in Hn; lia).
    rewrite (u32_small (max_bytes * Z.of_nat i))
      by (unfold is_u32; change (2 ^ 32) with 4294967296; unfold n in Hn; nia).
    unfold advance. rewrite Hlen.
    destruct (max_bytes * Z.of_nat i
              <=? Z.of_nat (Z.to_nat max_bytes * length entries + length rest))
      eqn:E3; [|apply Z.leb_gt in E3; nia].
    cbn [bind].
    replace (Z.to_nat (max_bytes * Z.of_nat i))
      with (Z.to_nat max_bytes * i)%nat by nia.
    rewrite skipn_encode_fixed_width by lia.
    rewrite Hskip. cbn [encode_fixed_width]. rewrite <- app_assoc.
    assert (Hl : 0 <= len < 256 ^ max_bytes).
    { rewrite Forall_forall in Hall. apply (Hall (d, len) Hin). }
    rewrite unchecked_pack_uint_in_bytes by (try exact Hl; lia).
    cbn [bind]. eexists. split; [reflexivity|]. cbn [cur_did cur_length].
    split; reflexivity.
  - intro Hpast.
    assert (Hd : d0 + n - 1 < d).
    { rewrite Forall_forall in Hrange, Hpast.
      destruct (consecutive_nth_last entries d0 Hcons Hne) as [l Hin].
      specialize (Hpast _ Hin). cbn [fst] in Hpast. unfold n. lia. }
    destruct (d <? d0) eqn:E1; [apply Z.ltb_lt in E1; lia|].
    destruct (d <=? d0 + n - 1) eqn:E2; [apply Z.leb_le in E2; lia|].
    rewrite (u32_small (max_bytes * n))
      by (unfold is_u32; change (2 ^ 32) with 4294967296; unfold n in *; nia).
    unfold advance. rewrite Hlen.
    destruct (max_bytes * n
              <=? Z.of_nat (Z.to_nat max_bytes * length entries + length rest))
      eqn:E3; [|apply Z.leb_gt in E3; unfold n in E3; nia].
    cbn [bind].
    replace (Z.to_nat (max_bytes * n))
      with (Z.to_nat max_bytes * length entries)%nat by (unfold n; nia).
    rewrite skipn_encode_fixed_width by apply Nat.le_refl.
    rewrite skipn_all. cbn [encode_fixed_width app].
    rewrite (u32_small (n - 1))
      by (unfold is_u32; change (2 ^ 32) with 4294967296; unfold n in *; lia).
    replace (d0 + (n - 1)) with (d0 + n - 1) by lia.
    rewrite (u32_small (d0 + n - 1)) by exact Hlast.
    eexists. split; [|split].
    + apply jump_to_loop_fuel; [|apply Nat.le_refl].
      cbn [pos]. rewrite Hpos in Hfuel. rewrite !length_app in Hfuel.
      pose proof (pack_uint_nonempty SEPERATOR) as Hsep.
      destruct (pack_uint SEPERATOR); [contradiction|].
      cbn [length] in Hfuel. lia.
    + reflexivity.
    + reflexivity.
Qed.

Lemma ascending_in_above : forall (m : doclen_map) (lo d : docid)
    (len : termcount),
    ascending_from lo m = true -> In (d, len) m -> lo < d.
Proof.
  induction m as [|[a b] m IH]; intros lo d len Hasc Hin; [destruct Hin|].
  apply ascending_from_cons in Hasc. destruct Hasc as (Hlt & _ & _ & Hasc).
  destruct Hin as [Heq|Hin]; [inversion Heq; subst; exact Hlt|].
  specialize (IH a d len Hasc Hin). lia.
Qed.

Lemma ascending_below_last : forall (es : doclen_map) (lo : docid),
    ascending_from lo es = true ->
    Forall (fun e => fst e <= last_docid_of es lo) es.
Proof.
  induction es as [|[a b] es IHes]; intros lo Ha; constructor.
  - rewrite last_docid_of_cons. apply ascending_from_cons in Ha.
    destruct Ha as (_ & _ & _ & Ha).
    apply last_docid_of_ascending in Ha. cbn [fst]. lia.
  - rewrite last_docid_of_cons. apply ascending_from_cons in Ha.
    destruct Ha as (_ & _ & _ & Ha). apply IHes. exact Ha.
Qed.

Lemma consecutive_last : forall (passed : doclen_map) (d0 : docid),
    consecutive_from d0 passed ->
    last_docid_of passed d0 = d0 + Z.of_nat (length passed).
Proof.
  induction passed as [|[d1 l1] passed IHp]; intros d0 Hcons.
  - unfold last_docid_of. cbn. lia.
  - cbn [consecutive_from] in Hcons. destruct Hcons as [-> Hcons].
    rewrite last_docid_of_cons, (IHp _ Hcons).
    cbn [length]. rewrite !Nat2Z.inj_succ. lia.
Qed.

Section Loop.
Context {T : Tunables}.

(** A docid that [encode_loop] wrote is found with its length. *)
Lemma jump_to_loop_encode_loop :
  forall (f : nat) (it : doclen_map) (docid_before d : docid)
         (len : termcount) (r : t),
    (length it <= f)%nat ->
    Z.of_nat (length it) < 65536 ->
    ascending_from 0 it = true ->
    1 <= docid_before ->
    match it with
    | [] => True
    | (d0, _) :: _ => docid_before <= d0
    end ->
    In (d, len) it ->
    pos r = encode_loop f it docid_before -> cur_did r = docid_before ->
    exists r', jump_to_loop (length (pos r)) d r = Ok (true, r')
               /\ cur_did r' = d /\ cur_length r' = len.
Proof.
  induction f as [|f IH];
    intros it docid_before d len r Hf Hlen Hasc Hbefore Hle Hin Hpos Hcur.
  - destruct it; [destruct Hin|cbn in Hf; lia].
  - destruct it as [|[d0 l0] it1]; [destruct Hin|].
    apply ascending_from_cons in Hasc. destruct Hasc as (Hd0pos & Hd0 & Hl0 & Hasc).
    cbn [length] in Hf, Hlen. rewrite Nat2Z.inj_succ in Hlen.
    cbn [encode_loop] in Hpos.
    destruct (encode_scan it1 d0 (get_max_bytes l0) 0 0 1)
      as [[[[n u] g] passed] it'] eqn:Escan.
    pose proof (encode_scan_passed _ _ _ _ _ _ _ _ _ _ _ Escan Hasc ltac:(lia))
      as (Happ & Hcons & Hall).
    pose proof (encode_scan_count _ _ _ _ _ _ _ _ _ _ _ Escan ltac:(lia) ltac:(lia))
      as Hcount.
    pose proof (get_max_bytes_range l0) as Hmb.
    assert (Hsplit : ascending_from d0 passed = true
                     /\ ascending_from (last_docid_of passed d0) it' = true)
      by (apply ascending_from_app; rewrite <- Happ; exact Hasc).
    destruct Hsplit as [Hpassed Hit'].
    pose proof (last_docid_of_ascending _ _ Hpassed) as Hlast.
    assert (Hlen' : (length it' <= f)%nat /\ Z.of_nat (length it') < 65536)
      by (rewrite Happ, length_app in Hf, Hlen; lia).
    destruct Hlen' as [Hf' Hlen'].
    rewrite last_docid_of_cons in Hpos.
    (* the docid is in the block or after it *)
    assert (Hwhere : In (d, len) ((d0, l0) :: passed)
                     \/ (In (d, len) it'
                         /\ Forall (fun e => fst e < d) ((d0, l0) :: passed))).
    { destruct Hin as [Heq|Hin]; [left; left; exact Heq|].
      rewrite Happ in Hin. apply in_app_or in Hin.
      destruct Hin as [Hin|Hin]; [left; right; exact Hin|].
      right. split; [exact Hin|].
      pose proof (ascending_in_above _ _ _ _ Hit' Hin) as Hgt.
      constructor; [cbn [fst]; lia|].
      eapply Forall_impl; [|apply (ascending_below_last passed d0 Hpassed)].
      cbv beta. intros e He. lia. }
    (* the loop after the block *)
    assert (Hrec : forall r1 : t,
               In (d, len) it' ->
               pos r1 = encode_loop f it' (last_docid_of passed d0) ->
               cur_did r1 = last_docid_of passed d0 ->
               exists r', jump_to_loop (length (pos r1)) d r1 = Ok (true, r')
                          /\ cur_did r' = d /\ cur_length r' = len).
    { intros r1 Hin' Hp1 Hc1.
      apply (IH it' (last_docid_of passed d0)); try assumption.
      - eapply ascending_from_weaken; [|exact Hit']. lia.
      - lia.
      - destruct it' as [|[d' l'] it'']; [exact I|].
        apply ascending_from_cons in Hit'. destruct Hit' as (Hd' & _). lia. }
    destruct (DOCLEN_CHUNK_MIN_CONTIGUOUS_LENGTH <? n) eqn:Emin.
    + (* a fixed width block *)
      rewrite <- !app_assoc in Hpos.
      assert (Hdelta : u32 (d0 - docid_before) = d0 - docid_before)
        by (apply u32_small; destruct Hd0; split; lia).
      rewrite Hdelta in Hpos.
      assert (Hn : n = Z.of_nat (length ((d0, l0) :: passed)))
        by (cbn [length]; rewrite Nat2Z.inj_succ; lia).
      rewrite Hn in Hpos.
      assert (Hrange : 0 < Z.of_nat (length ((d0, l0) :: passed)) < 65536).
      { rewrite Happ, length_app in Hlen. cbn [length].
        rewrite Nat2Z.inj_succ. lia. }
      assert (Hfits : forall l : Z,
                 is_u32 l -> get_max_bytes l <= get_max_bytes l0 ->
                 0 <= l < 256 ^ get_max_bytes l0).
      { intros l Hu Hle'. split; [destruct Hu; lia|].
        eapply Z.lt_le_trans; [apply get_max_bytes_fits; exact Hu|].
        apply Z.pow_le_mono_r; lia. }
      assert (Hentries :
                Forall (fun e => is_u32 (fst e)
                                 /\ 0 <= snd e < 256 ^ get_max_bytes l0)
                       ((d0, l0) :: passed)).
      { constructor; [split; [exact Hd0|apply Hfits; [exact Hl0|apply Z.le_refl]]|].
        clear - Hall Hpassed Hfits. revert d0 Hpassed.
        induction passed as [|[d1 l1] passed IHp]; intros d0 Hpassed; constructor.
        -- apply ascending_from_cons in Hpassed.
           destruct Hpassed as (_ & Hd1 & Hl1 & _).
           inversion Hall; subst. split; [exact Hd1|apply Hfits; assumption].
        -- apply ascending_from_cons in Hpassed.
           destruct Hpassed as (_ & _ & _ & Hpassed).
           inversion Hall; subst. eapply IHp; eassumption. }
      destruct (jump_to_loop_fixed_width (length (pos r)) (d0 - docid_before)
                  (get_max_bytes l0) ((d0, l0) :: passed)
                  (encode_loop f it' (last_docid_of passed d0)) d r)
        as [Hfound Hpast].
      * destruct Hd0. split; lia.
      * exact Hrange.
      * lia.
      * rewrite Hcur.
        replace (docid_before + (d0 - docid_before) - 1) with (d0 - 1) by lia.
        cbn [consecutive_from]. split; [lia|exact Hcons].
      * exact Hentries.
      * exact Hpos.
      * apply Nat.le_refl.
      * destruct Hwhere as [Hblock|[Hafter Hbelow]].
        -- apply Hfound. exact Hblock.
        -- destruct (Hpast Hbelow) as [r1 [Hr1 [Hp1 Hc1]]].
           rewrite Hr1. rewrite <- Hp1. apply Hrec; [exact Hafter|exact Hp1|].
           rewrite Hc1, Hcur. rewrite (consecutive_last passed d0 Hcons).
           cbn [length]. rewrite Nat2Z.inj_succ. lia.
    + (* entries in the normal format *)
      rewrite RoundTripMain.encode_normal_cons in Hpos.
      rewrite <- !app_assoc in Hpos.
      assert (Hdelta : u32 (d0 - docid_before) = d0 - docid_before)
        by (apply u32_small; destruct Hd0; split; lia).
      rewrite Hdelta in Hpos.
      pose proof (jump_to_loop_normal (length (pos r)) (d0 - docid_before) l0
                    _ d r
                    ltac:(destruct Hd0; split; lia)
                    ltac:(unfold SEPERATOR; destruct Hd0;
                          change (2 ^ 32) with 4294967296 in *; lia)
                    Hl0 Hpos (Nat.le_refl _)) as Hstep.
      cbv zeta in Hstep. rewrite Hcur in Hstep.
      replace (docid_before + (d0 - docid_before)) with d0 in Hstep by lia.
      rewrite (u32_small d0) in Hstep by exact Hd0.
      set (r1 := mk (encode_normal passed d0
                       ++ encode_loop f it' (last_docid_of passed d0))
                    (ori_pos r) (pos r) d0 (did_before_block r) l0
                    (is_at_end r) false (len_info r) (bytes_info r)
                    (first_did_in_chunk r)) in *.
      destruct (jump_to_loop_normal_tail passed d0
                  (encode_loop f it' (last_docid_of passed d0)) d
                  (length (pos r1)) r1 Hd0 ltac:(lia) Hpassed eq_refl eq_refl
                  (Nat.le_refl _)) as [Hfound Hpast].
      rewrite Hstep.
      destruct Hwhere as [[Heq|Hblock]|[Hafter Hbelow]].
      * inversion Heq; subst. rewrite Z.eqb_refl.
        exists r1. repeat split.
      * pose proof (ascending_in_above _ _ _ _ Hpassed Hblock) as Hgt.
        destruct (d0 =? d) eqn:E1; [apply Z.eqb_eq in E1; lia|].
        destruct (d <? d0) eqn:E2; [apply Z.ltb_lt in E2; lia|].
        apply Hfound. exact Hblock.
      * inversion Hbelow as [|x l Hx Hl]; subst. cbn [fst] in Hx.
        destruct (d0 =? d) eqn:E1; [apply Z.eqb_eq in E1; lia|].
        destruct (d <? d0) eqn:E2; [apply Z.ltb_lt in E2; lia|].
        destruct (Hpast Hl) as [r2 [Hr2 [Hp2 Hc2]]].
        change (length (encode_normal passed d0
                          ++ encode_loop f it' (last_docid_of passed d0)))
          with (length (pos r1)).
        rewrite Hr2. rewrite <- Hp2. apply Hrec; assumption.
Qed.

(** The reader that the constructor leaves on the first entry of a body
    that [encode_loop] wrote finds every docid of the body. *)
Lemma jump_to_made_reader :
  forall (f : nat) (d0 : docid) (l0 : termcount) (it1 : doclen_map)
         (d : docid) (len : termcount),
    (length it1 < f)%nat ->
    Z.of_nat (length ((d0, l0) :: it1)) < 65536 ->
    well_formed_map ((d0, l0) :: it1) = true ->
    In (d, len) ((d0, l0) :: it1) ->
    exists r,
      make (encode_loop f ((d0, l0) :: it1) d0) d0 = Ok r
      /\ cur_did r = d0 /\ cur_length r = l0 /\ is_at_end r = false
      /\ exists r', jump_to d r = Ok (true, r')
                    /\ cur_did r' = d /\ cur_length r' = len.
Proof.
  intros f d0 l0 it1 d len Hf Hlen Hwf Hin.
  destruct (PostingFacts.well_formed_map_first _ _ _ Hwf)
    as [H1 [Hd0 [Hl0 Hasc]]].
  destruct f as [|f]; [lia|].
  assert (Hasc0 : ascending_from 0 ((d0, l0) :: it1) = true).
  { apply ascending_from_cons. split; [lia|]. split; [exact Hd0|].
    split; [exact Hl0|exact Hasc]. }
  (* the whole body, for the rewinds of [jump_to] *)
  assert (Hwhole : forall r : t,
             pos r = encode_loop (S f) ((d0, l0) :: it1) d0 ->
             cur_did r = d0 ->
             exists r', jump_to_loop (length (pos r)) d r = Ok (true, r')
                        /\ cur_did r' = d /\ cur_length r' = len).
  { intros r Hp Hc.
    apply (jump_to_loop_encode_loop (S f) ((d0, l0) :: it1) d0 d len r);
      [cbn [length]; lia|exact Hlen|exact Hasc0|lia|cbv iota beta; lia
      |exact Hin|exact Hp|exact Hc]. }
  cbn [length] in Hlen. rewrite Nat2Z.inj_succ in Hlen.
  unfold make, init.
  remember (encode_loop (S f) ((d0, l0) :: it1) d0) as body eqn:Ebody.
  pose proof Ebody as Hbody. cbn [encode_loop] in Hbody.
  destruct (encode_scan it1 d0 (get_max_bytes l0) 0 0 1)
    as [[[[n u] g] passed] it'] eqn:Escan.
  pose proof (encode_scan_passed _ _ _ _ _ _ _ _ _ _ _ Escan Hasc ltac:(lia))
    as (Happ & Hcons & Hall).
  pose proof (encode_scan_count _ _ _ _ _ _ _ _ _ _ _ Escan ltac:(lia) ltac:(lia))
    as Hcount.
  pose proof (get_max_bytes_range l0) as Hmb.
  assert (Hsplit : ascending_from d0 passed = true
                   /\ ascending_from (last_docid_of passed d0) it' = true)
    by (apply ascending_from_app; rewrite <- Happ; exact Hasc).
  destruct Hsplit as [Hpassed Hit'].
  pose proof (last_docid_of_ascending _ _ Hpassed) as Hlast.
  assert (Hlen' : (length it' <= f)%nat /\ Z.of_nat (length it') < 65536)
    by (rewrite Happ, length_app in Hf, Hlen; lia).
  destruct Hlen' as [Hf' Hlen'].
  rewrite last_docid_of_cons in Hbody.
  assert (Hzero : u32 (d0 - d0) = 0) by (rewrite Z.sub_diag; reflexivity).
  rewrite Hzero in Hbody.
  assert (Hd00 : u32 (d0 + 0) = d0)
    by (rewrite Z.add_0_r; apply u32_small; exact Hd0).
  assert (Hrec : forall r1 : t,
             In (d, len) it' ->
             pos r1 = encode_loop f it' (last_docid_of passed d0) ->
             cur_did r1 = last_docid_of passed d0 ->
             exists r', jump_to_loop (length (pos r1)) d r1 = Ok (true, r')
                        /\ cur_did r' = d /\ cur_length r' = len).
  { intros r1 Hin' Hp1 Hc1.
    apply (jump_to_loop_encode_loop f it' (last_docid_of passed d0));
      try assumption.
    - eapply ascending_from_weaken; [|exact Hit']. lia.
    - lia.
    - destruct it' as [|[d' l'] it'']; [exact I|].
      apply ascending_from_cons in Hit'. destruct Hit' as (Hd' & _). lia. }
  assert (Hsame : d = d0 -> len = l0).
  { intro Hd. subst d. destruct Hin as [Heq|Hin']; [congruence|].
    pose proof (ascending_in_above _ _ _ _ Hasc Hin'). lia. }
  assert (Hafter : d <> d0 -> d0 < d).
  { intro Hd. destruct Hin as [Heq|Hin']; [congruence|].
    exact (ascending_in_above _ _ _ _ Hasc Hin'). }
  destruct (DOCLEN_CHUNK_MIN_CONTIGUOUS_LENGTH <? n) eqn:Emin.
  - (* the body opens with a fixed width block *)
    rewrite <- !app_assoc in Hbody. cbn [encode_fixed_width] in Hbody.
    rewrite <- !app_assoc in Hbody.
    assert (Hn : 0 < n < 65536).
    { rewrite Happ, length_app in Hlen. lia. }
    assert (Hl0fits : 0 <= l0 < 256 ^ get_max_bytes l0).
    { split; [destruct Hl0; lia|apply get_max_bytes_fits; exact Hl0]. }
    unfold next. cbn [is_at_end pos is_in_block andb].
    assert (Hne : body <> []).
    { rewrite Hbody. intro E. apply app_eq_nil in E. destruct E as [E _].
      apply pack_uint_nonempty in E. exact E. }
    destruct body as [|b body'] eqn:Eb; [contradiction|].
    rewrite <- Eb in *. clear Eb b body'.
    match type of Hbody with
    | body = _ ++ ?tail =>
        assert (Hread : unchecked_uint body = Ok (SEPERATOR, tail))
          by (rewrite Hbody;
              apply unchecked_pack_uint; unfold SEPERATOR, is_u32; lia)
    end.
    rewrite Hread. cbn [bind]. rewrite Z.eqb_refl. cbn [negb].
    rewrite unchecked_pack_uint by (unfold is_u32; lia). cbn [bind].
    replace (pack_uint_in_bytes n 2) with (pack_uint_in_bytes n (Z.to_nat 2))
      by reflexivity.
    rewrite unchecked_pack_uint_in_bytes
      by (try lia; change (256 ^ 2) with 65536; lia).
    cbn [bind].
    replace (pack_uint_in_bytes (get_max_bytes l0) 1)
      with (pack_uint_in_bytes (get_max_bytes l0) (Z.to_nat 1)) by reflexivity.
    rewrite unchecked_pack_uint_in_bytes
      by (try lia; change (256 ^ 1) with 256; lia).
    cbn [bind cur_did].
    rewrite unchecked_pack_uint_in_bytes by (try exact Hl0fits; lia).
    cbn [bind]. rewrite Hd00.
    eexists. split; [reflexivity|].
    cbn [cur_did cur_length is_at_end].
    split; [reflexivity|]. split; [reflexivity|]. split; [reflexivity|].
    unfold jump_to. cbn [cur_did].
    destruct (d0 =? d) eqn:Ed.
    + apply Z.eqb_eq in Ed. eexists. split; [reflexivity|].
      cbn [cur_did cur_length]. split; [exact Ed|].
      symmetry; apply Hsame; symmetry; exact Ed.
    + apply Z.eqb_neq in Ed.
      assert (Hgt : d0 < d) by (apply Hafter; congruence).
      cbn [is_in_block did_before_block pos_of_block ori_pos cur_length
           is_at_end len_info bytes_info first_did_in_chunk pos].
      destruct (u32 (n - 1) =? 0) eqn:Eone.
      * (* a block of one entry: the reader goes on after it *)
        apply Z.eqb_eq in Eone.
        rewrite u32_small in Eone
          by (unfold is_u32; change (2 ^ 32) with 4294967296; lia).
        assert (Hp : passed = [])
          by (destruct passed; [reflexivity|cbn [length] in Hcount; lia]).
        subst passed. cbn [encode_fixed_width app] in *.
        destruct (d <? d0) eqn:E2; [apply Z.ltb_lt in E2; lia|].
        match goal with
        | |- exists _, jump_to_loop ?f' d ?r1 = _ /\ _ =>
            destruct (Hrec r1) as [r' [Hr' [Hc' Hl']]]
        end.
        -- destruct Hin as [Heq|Hin']; [congruence|].
           rewrite Happ in Hin'. exact Hin'.
        -- reflexivity.
        -- reflexivity.
        -- exists r'. split; [exact Hr'|]. split; [exact Hc'|exact Hl'].
      * destruct (d <=? d0) eqn:E2; [apply Z.leb_le in E2; lia|].
        match goal with
        | |- exists _, jump_to_loop ?f' d ?r1 = _ /\ _ =>
            destruct (Hwhole r1) as [r' [Hr' [Hc' Hl']]]
        end.
        -- cbn [pos]. rewrite Ebody. reflexivity.
        -- reflexivity.
        -- exists r'. split; [exact Hr'|]. split; [exact Hc'|exact Hl'].
  - (* the body opens with an entry in the normal format *)
    rewrite RoundTripMain.encode_normal_cons in Hbody.
    rewrite <- !app_assoc in Hbody. rewrite Hzero in Hbody.
    unfold next. cbn [is_at_end pos is_in_block andb].
    assert (Hne : body <> []).
    { rewrite Hbody. intro E. apply app_eq_nil in E. destruct E as [E _].
      apply pack_uint_nonempty in E. exact E. }
    destruct body as [|b body'] eqn:Eb; [contradiction|].
    rewrite <- Eb in *. clear Eb b body'.
    match type of Hbody with
    | body = _ ++ ?tail =>
        assert (Hread : unchecked_uint body = Ok (0, tail))
          by (rewrite Hbody;
              apply unchecked_pack_uint; unfold is_u32; lia)
    end.
    rewrite Hread. cbn [bind].
    change (0 =? SEPERATOR) with false. cbn [negb].
    rewrite unchecked_pack_uint by exact Hl0.
    cbn [bind cur_did]. rewrite Hd00.
    eexists. split; [reflexivity|].
    cbn [cur_did cur_length is_at_end].
    split; [reflexivity|]. split; [reflexivity|]. split; [reflexivity|].
    unfold jump_to. cbn [cur_did].
    destruct (d0 =? d) eqn:Ed.
    + apply Z.eqb_eq in Ed. eexists. split; [reflexivity|].
      cbn [cur_did cur_length]. split; [exact Ed|].
      symmetry; apply Hsame; symmetry; exact Ed.
    + apply Z.eqb_neq in Ed.
      assert (Hgt : d0 < d) by (apply Hafter; congruence).
      cbn [is_in_block cur_did].
      destruct (d <? d0) eqn:E2; [apply Z.ltb_lt in E2; lia|].
      match goal with
      | |- exists _, jump_to_loop ?f' d ?r1 = _ /\ _ =>
          destruct (jump_to_loop_normal_tail passed d0
                      (encode_loop f it' (last_docid_of passed d0)) d
                      (length (pos r1)) r1 Hd0 ltac:(lia) Hpassed eq_refl
                      eq_refl (Nat.le_refl _)) as [Hfound Hpast]
      end.
      destruct Hin as [Heq|Hin']; [congruence|].
      rewrite Happ in Hin'. apply in_app_or in Hin'.
      destruct Hin' as [Hblock|Hafter'].
      * apply Hfound. exact Hblock.
      * pose proof (ascending_in_above _ _ _ _ Hit' Hafter') as Hgt'.
        assert (Hbelow : Forall (fun e => fst e < d) passed).
        { eapply Forall_impl; [|apply (ascending_below_last passed d0 Hpassed)].
          cbv beta. intros e He. lia. }
        destruct (Hpast Hbelow) as [r2 [Hr2 [Hp2 Hc2]]].
        rewrite Hr2. rewrite <- Hp2. apply Hrec; assumption.
Qed.

End Loop.

End JumpRoundTrip.

(** X11: a docid that [FixedWidthChunk::encode] wrote is found by
    [FixedWidthChunkReader::jump_to].  For a map with ascending docids and
    fewer than 65536 entries, the reader built on the encoded body with
    the first docid of the map stands on that docid, and [jump_to] for any
    docid of the map returns true and leaves the reader on that docid and
    its length. *)
Theorem jump_to_finds_encoded_docid :
  forall (T : Tunables) (m : doclen_map) (d : docid) (len : termcount),
    well_formed_map m = true ->
    Z.of_nat (length m) < 65536 ->
    In (d, len) m ->
    exists r : FixedWidthChunkReader.t,
      FixedWidthChunkReader.make (snd (encode m [])) (fst (hd (0, 0) m)) = Ok r
      /\ FixedWidthChunkReader.get_docid r = fst (hd (0, 0) m)
      /\ exists r' : FixedWidthChunkReader.t,
           FixedWidthChunkReader.jump_to d r = Ok (true, r')
           /\ FixedWidthChunkReader.get_docid r' = d
           /\ FixedWidthChunkReader.get_doclen r' = len.
Proof.
  intros T m d len Hwf Hlen Hin.
  destruct m as [|[d0 l0] it1]; [destruct Hin|].
  unfold encode. cbn [snd app hd fst].
  destruct (JumpRoundTrip.jump_to_made_reader
              (length ((d0, l0) :: it1)) d0 l0 it1 d len
              ltac:(cbn [length]; lia) Hlen Hwf Hin)
    as [r [Hmake [Hc [_ [_ [r' [Hjump [Hc' Hl']]]]]]]].
  exists r. split; [exact Hmake|]. split; [exact Hc|].
  exists r'. split; [exact Hjump|]. split; [exact Hc'|exact Hl'].
Qed.

Lemma jump_to_finds_encoded_docid_witness :
  exists r r' : FixedWidthChunkReader.t,
    FixedWidthChunkReader.make (snd (@encode sample_tunables dense_run [])) 3
    = Ok r
    /\ FixedWidthChunkReader.jump_to 11 r = Ok (true, r')
    /\ FixedWidthChunkReader.get_doclen r' = 65535.
Proof.
  destruct (jump_to_finds_encoded_docid sample_tunables dense_run 11 65535)
    as [r [Hmake [_ [r' [Hjump [_ Hlen]]]]]].
  - reflexivity.
  - vm_compute. reflexivity.
  - cbn. tauto.
  - exists r, r'. split; [exact Hmake|]. split; [exact Hjump|exact Hlen].
Defined.

(** ** A doclen list merged into a table that has none *)

Module DoclenListFacts.
Import BrassTable TableFacts.

(** The keys of terms come after the keys of the doclen list. *)
Lemma term_key_above_doclen_keys : forall (k suffix : bytes),
    carries_term k [] = false ->
    key_compare k (x00 :: xe0 :: suffix) = Gt.
Proof.
  intros k suffix H. rewrite KeyFacts.carries_term_tname in H.
  unfold tname_of in H.
  destruct k as [|b0 k]; [discriminate H|].
  cbn [Key.unpack_string_preserving_sort] in H. cbn [key_compare].
  pose proof (Z_of_byte_range b0) as Hr0.
  change (Z_of_byte x00) with 0.
  destruct (Z_of_byte b0 =? 0) eqn:E0.
  - apply Z.eqb_eq in E0. rewrite E0. cbn [Z.compare].
    destruct k as [|b1 k]; [discriminate H|].
    destruct (Z_of_byte b1 =? 255) eqn:E1; [|discriminate H].
    apply Z.eqb_eq in E1. cbn [key_compare]. rewrite E1. reflexivity.
  - apply Z.eqb_neq in E0.
    destruct (Z_of_byte b0 ?= 0) eqn:Ec; [apply Z.compare_eq in Ec; lia| |reflexivity].
    rewrite Z.compare_lt_iff in Ec. lia.
Qed.

Lemma del_add_absent : forall (table : t) (key tag : bytes),
    sorted table = true -> get_exact_entry key table = None ->
    del key (add key tag table) = table.
Proof.
  induction table as [|[k0 t0] table IH]; intros key tag Hs Hg.
  - cbn [add del]. rewrite key_compare_refl. reflexivity.
  - cbn [get_exact_entry] in Hg. cbn [add].
    destruct (key_compare key k0) eqn:E; [discriminate| |].
    + cbn [del]. rewrite key_compare_refl. reflexivity.
    + cbn [del]. rewrite E. f_equal. apply IH; [|exact Hg].
      eapply sorted_tail. exact Hs.
Qed.

Lemma insert_changes_appends : forall (doclens m : doclen_map) (lo : docid),
    ascending_from lo doclens = true ->
    Forall (fun e => fst e <= lo) m ->
    Forall (fun e => snd e <> SEPERATOR) doclens ->
    DoclenChunkWriter.insert_changes doclens m = m ++ doclens.
Proof.
  induction doclens as [|[d len] doclens IH]; intros m lo Hasc Hm Hn.
  - cbn. rewrite app_nil_r. reflexivity.
  - apply ascending_from_cons in Hasc. destruct Hasc as (Hlt & Hd & Hl & Hasc).
    inversion Hn as [|x l Hx Hl']; subst. cbn [snd] in Hx.
    cbn [DoclenChunkWriter.insert_changes].
    destruct (len =? SEPERATOR) eqn:E; [apply Z.eqb_eq in E; contradiction|].
    cbn [negb]. rewrite DecodeFacts.insert_last.
    + rewrite (IH _ d Hasc); [rewrite <- app_assoc; reflexivity| |exact Hl'].
      apply Forall_app. split.
      * eapply Forall_impl; [|exact Hm]. cbv beta. intros e He. lia.
      * constructor; [cbn [fst]; lia|constructor].
    + eapply Forall_impl; [|exact Hm]. cbv beta. intros e He. lia.
Qed.

Section NewDoclenList.
Variable table : BrassTable.t.
Hypothesis table_sorted : sorted table = true.
Hypothesis no_doclen_key :
  forall key tag : bytes, In (key, tag) table -> carries_term key [] = false.

Lemma doclen_key_absent : get_exact_entry (Key.make_key []) table = None.
Proof.
  destruct (get_exact_entry (Key.make_key []) table) as [tag|] eqn:E;
    [|reflexivity].
  apply ChunkBoundFacts.get_exact_entry_in in E.
  apply no_doclen_key in E. discriminate E.
Qed.

(** The cursor of a lookup in the doclen list stands on the first chunk
    when the list has no other. *)
Lemma find_doclen_first_chunk : forall (tag : bytes) (did : docid),
    BrassCursor.find_entry (add (Key.make_key []) tag table)
                           (Key.make_key_did [] did)
    = (key_exists (Key.make_key_did [] did)
                  (add (Key.make_key []) tag table),
       BrassCursor.mk (Key.make_key []) tag false).
Proof.
  intros tag did. unfold BrassCursor.find_entry.
  rewrite (NewListFacts.floor_entry_below _ (Key.make_key []) tag).
  - reflexivity.
  - apply add_sorted. exact table_sorted.
  - rewrite get_exact_entry_add by exact table_sorted. reflexivity.
  - reflexivity.
  - intros k tg Hin Hlt.
    apply ChunkBoundFacts.add_in in Hin. destruct Hin as [Heq|Hin].
    { inversion Heq; subst. rewrite key_compare_refl in Hlt. discriminate. }
    apply no_doclen_key in Hin.
    apply term_key_above_doclen_keys. exact Hin.
Qed.

Context {T : Tunables}.

Lemma dummy_first_chunk_header :
  read_start_of_first_chunk
    (make_start_of_first_chunk 0 0 0 ++ make_start_of_chunk true 0 0)
  = Ok (0, 0, 0, make_start_of_chunk true 0 0).
Proof. reflexivity. Qed.

Lemma dummy_chunk_header : forall d : docid,
    read_start_of_chunk (make_start_of_chunk true 0 0) d
    = Ok (true, u32 (d + 0), []).
Proof. intro d. reflexivity. Qed.

(** [merge_doclen_changes] on a table without a doclen list writes the
    changes as the one chunk of a new list. *)
Lemma merge_new_doclen_list :
  forall (fuel : nat) (doclens : doclen_map)
         (doclen_pl_ : option BrassPostList.t),
    doclens <> [] ->
    well_formed_map doclens = true ->
    Forall (fun e => snd e <> SEPERATOR) doclens ->
    Z.of_nat (length doclens) <= MAX_ENTRIES_IN_CHUNK ->
    BrassPostListTable.merge_doclen_changes (S fuel)
      (BrassPostListTable.mk table doclen_pl_) doclens
    = Ok (BrassPostListTable.mk
            (add (Key.make_key []) (doclen_tag doclens) table) None).
Proof.
  intros fuel doclens doclen_pl_ Hne Hwf Hnodel Hmax.
  destruct doclens as [|[d0 l0] doclens]; [contradiction|].
  destruct (PostingFacts.well_formed_map_first _ _ _ Hwf)
    as [H1 [Hd0 [Hl0 Hasc]]].
  assert (Hasc0 : ascending_from 0 ((d0, l0) :: doclens) = true).
  { apply ascending_from_cons. split; [lia|]. split; [exact Hd0|].
    split; [exact Hl0|exact Hasc]. }
  unfold BrassPostListTable.merge_doclen_changes.
  cbn [BrassPostListTable.entries].
  unfold key_exists at 1. rewrite doclen_key_absent. cbn [negb].
  cbn [BrassPostListTable.merge_doclen_loop].
  rewrite find_doclen_first_chunk.
  cbn [BrassCursor.current_key BrassCursor.current_tag].
  change (Key.check_tname_in_key (Key.make_key []) []) with (true, @nil byte).
  cbn [BrassPostList.is_empty].
  rewrite dummy_first_chunk_header. cbn [bind].
  rewrite dummy_chunk_header. cbn [bind].
  rewrite del_add_absent by (try exact table_sorted; exact doclen_key_absent).
  unfold DoclenChunkWriter.merge_doclen_changes,
    DoclenChunkWriter.get_new_doclen.
  cbn [DoclenChunkWriter.is_first_chunk DoclenChunkWriter.chunk_from
       DoclenChunkWriter.changes DoclenChunkWriter.new_doclen
       DoclenChunkWriter.first_did_in_chunk].
  rewrite dummy_first_chunk_header. cbn [bind].
  rewrite dummy_chunk_header. cbn [bind].
  rewrite (insert_changes_appends _ [] 0 Hasc0 (Forall_nil _) Hnodel).
  cbn [app bind DoclenChunkWriter.new_doclen DoclenChunkWriter.is_first_chunk
       DoclenChunkWriter.is_last_chunk].
  destruct (Z.of_nat (length ((d0, l0) :: doclens)) <=? MAX_ENTRIES_IN_CHUNK)
    eqn:E; [|apply Z.leb_gt in E; lia].
  cbn [bind BrassPostListTable.merge_doclen_loop].
  unfold DoclenChunkWriter.write_chunk, doclen_tag, encode.
  cbn [snd hd fst app]. destruct fuel; reflexivity.
Qed.

Lemma last_of_map : forall (d0 : docid) (l0 : termcount) (it1 : doclen_map),
    fst (last ((d0, l0) :: it1) (0, 0)) = last_docid_of it1 d0.
Proof.
  intros d0 l0 it1. unfold last_docid_of.
  destruct it1 as [|e it1]; [reflexivity|].
  change (last ((d0, l0) :: e :: it1) (0, 0)) with (last (e :: it1) (0, 0)).
  f_equal. apply last_nonempty_default.
Qed.

Lemma last_docid_u32 : forall (it1 : doclen_map) (d0 : docid),
    is_u32 d0 -> ascending_from d0 it1 = true ->
    is_u32 (last_docid_of it1 d0).
Proof.
  induction it1 as [|[d1 l1] it1 IH]; intros d0 Hd0 Hasc.
  - exact Hd0.
  - apply ascending_from_cons in Hasc. destruct Hasc as (_ & Hd1 & _ & Hasc).
    rewrite last_docid_of_cons. apply IH; assumption.
Qed.

(** The doclen list of one chunk that [merge_doclen_changes] wrote, looked
    up. *)
Lemma lookup_new_doclen_list :
  forall (m : doclen_map) (d : docid) (len : termcount),
    well_formed_map m = true ->
    Z.of_nat (length m) < 65536 ->
    In (d, len) m -> len <> SEPERATOR ->
    let table' :=
      BrassPostListTable.mk (add (Key.make_key []) (doclen_tag m) table) None in
    exists table'' : BrassPostListTable.t,
      BrassPostListTable.get_doclength table' d = Ok (len, table'')
      /\ BrassPostListTable.document_exists table' d = Ok (true, table'')
      /\ BrassPostListTable.entries table'' = BrassPostListTable.entries table'.
Proof.
  intros m d len Hwf Hlen Hin Hnot table'.
  destruct m as [|[d0 l0] it1]; [destruct Hin|].
  destruct (PostingFacts.well_formed_map_first _ _ _ Hwf)
    as [H1 [Hd0 [Hl0 Hasc]]].
  pose proof (last_docid_u32 it1 d0 Hd0 Hasc) as Hlast.
  pose proof (last_docid_of_ascending _ _ Hasc) as Hle.
  assert (Hrange : d0 <= d <= last_docid_of it1 d0).
  { destruct Hin as [Heq|Hin']; [injection Heq as Hdd _; lia|].
    pose proof (JumpRoundTrip.ascending_in_above _ _ _ _ Hasc Hin').
    pose proof (JumpRoundTrip.ascending_below_last it1 d0 Hasc) as Hb.
    rewrite Forall_forall in Hb. specialize (Hb _ Hin'). cbn [fst] in Hb. lia. }
  destruct (JumpRoundTrip.jump_to_made_reader
              (length ((d0, l0) :: it1)) d0 l0 it1 d len
              ltac:(cbn [length]; lia) Hlen Hwf Hin)
    as [r [Hmake [Hc [Hl [Hend [r' [Hjump [Hc' Hl']]]]]]]].
  assert (Hd : u32 (d0 + u32 (last_docid_of it1 d0 - d0)) = last_docid_of it1 d0).
  { destruct Hd0, Hlast. unfold u32.
    rewrite (Z.mod_small (last_docid_of it1 d0 - d0)) by lia.
    replace (d0 + (last_docid_of it1 d0 - d0)) with (last_docid_of it1 d0) by lia.
    apply Z.mod_small. lia. }
  set (tag := doclen_tag ((d0, l0) :: it1)) in *.
  assert (Htag : tag = make_start_of_first_chunk 0 0 d0
                         ++ make_start_of_chunk true d0 (last_docid_of it1 d0)
                         ++ encode_loop (length ((d0, l0) :: it1))
                                        ((d0, l0) :: it1) d0).
  { unfold tag, doclen_tag, encode. cbn [hd fst snd app].
    rewrite last_of_map. reflexivity. }
  assert (Hfirst : read_start_of_first_chunk tag
                   = Ok (0, 0, d0,
                         make_start_of_chunk true d0 (last_docid_of it1 d0)
                           ++ encode_loop (length ((d0, l0) :: it1))
                                          ((d0, l0) :: it1) d0)).
  { rewrite Htag.
    rewrite HeaderFacts.read_make_start_of_first_chunk
      by (unfold is_u32; lia).
    rewrite CodecFacts.u32_pred_succ by exact Hd0. reflexivity. }
  assert (Hinit :
    BrassPostList.init (BrassPostListTable.entries table') []
    = Ok (BrassPostList.mk [] false false
            (BrassCursor.mk (Key.make_key []) tag false)
            (Some (encode_loop (length ((d0, l0) :: it1)) ((d0, l0) :: it1) d0))
            d0 l0 0 d0 (last_docid_of it1 d0) true true (Some r) true)).
  { unfold BrassPostList.init. cbn [BrassPostListTable.entries table'].
    rewrite (CursorFacts.find_entry_exact _ (Key.make_key []) tag).
    - cbn [negb BrassCursor.current_tag]. rewrite Hfirst. cbn [bind].
      rewrite HeaderFacts.read_make_start_of_chunk. cbn [bind]. rewrite Hd.
      unfold BrassPostList.enter_chunk.
      cbn [BrassPostList.is_doclen_list BrassPostList.is_empty negb
           BrassCursor.current_tag].
      unfold DoclenChunkReader.make. rewrite Hfirst. cbn [bind].
      rewrite HeaderFacts.read_make_start_of_chunk. cbn [bind].
      rewrite Hmake. cbn [bind].
      unfold DoclenChunkReader.at_end, DoclenChunkReader.get_docid,
        DoclenChunkReader.get_doclen, FixedWidthChunkReader.at_end,
        FixedWidthChunkReader.get_docid, FixedWidthChunkReader.get_doclen.
      rewrite Hc, Hl, Hend. reflexivity.
    - apply add_sorted. exact table_sorted.
    - rewrite get_exact_entry_add by exact table_sorted. reflexivity. }
  assert (Hjump' : exists l',
    BrassPostList.jump_to (BrassPostListTable.entries table') d
      (BrassPostList.mk [] false false
            (BrassCursor.mk (Key.make_key []) tag false)
            (Some (encode_loop (length ((d0, l0) :: it1)) ((d0, l0) :: it1) d0))
            d0 l0 0 d0 (last_docid_of it1 d0) true true (Some r) true)
    = Ok (true, l') /\ BrassPostList.wdf l' = len).
  { unfold BrassPostList.jump_to.
    cbn [BrassPostList.pos BrassPostList.is_at_end BrassPostList.did
         BrassPostList.first_did_in_chunk BrassPostList.last_did_in_chunk
         BrassPostList.term BrassPostList.have_started BrassPostList.cursor
         BrassPostList.wdf BrassPostList.number_of_entries
         BrassPostList.is_first_chunk BrassPostList.is_last_chunk
         BrassPostList.p_doclen_chunk_reader BrassPostList.is_doclen_list].
    unfold BrassPostList.current_chunk_contains.
    cbn [BrassPostList.first_did_in_chunk BrassPostList.last_did_in_chunk].
    destruct (d0 <=? d) eqn:E1; [|apply Z.leb_gt in E1; lia].
    destruct (d <=? last_docid_of it1 d0) eqn:E2; [|apply Z.leb_gt in E2; lia].
    destruct (d <? d0) eqn:E3; [apply Z.ltb_lt in E3; lia|].
    cbn [andb negb orb bind BrassPostList.is_at_end
         BrassPostList.p_doclen_chunk_reader].
    unfold DoclenChunkReader.get_doclen_of. rewrite Hjump. cbn [bind].
    unfold FixedWidthChunkReader.get_doclen. rewrite Hl'.
    destruct (len =? u32 (-1)) eqn:E4; [apply Z.eqb_eq in E4; contradiction|].
    eexists. split; [reflexivity|]. reflexivity. }
  destruct Hjump' as [l' [Hj Hw]].
  exists (BrassPostListTable.mk (BrassPostListTable.entries table') (Some l')).
  unfold BrassPostListTable.get_doclength, BrassPostListTable.document_exists,
    BrassPostListTable.open_doclen_pl.
  cbn [BrassPostListTable.doclen_pl table'].
  fold table'. rewrite Hinit. cbn [bind]. rewrite Hj. cbn [bind negb].
  rewrite Hw. repeat split.
Qed.

End NewDoclenList.

End DoclenListFacts.

(** X12: doclens merged into a table that has no doclen list are the
    lengths the table gives.  On a table in key order that holds keys of
    terms only, [merge_doclen_changes] with a map of ascending docids that
    deletes nothing and fits one chunk, at most [MAX_ENTRIES_IN_CHUNK]
    entries and fewer than 65536, returns a table in which, for every
    docid of the map, [get_doclength] gives the length merged and
    [document_exists] answers true; the lookups leave the entries as they
    are. *)
Theorem merged_doclens_are_found :
  forall (T : Tunables) (fuel : nat) (table : BrassPostListTable.t)
         (doclens : doclen_map) (d : docid) (len : termcount),
    BrassTable.sorted (BrassPostListTable.entries table) = true ->
    (forall key tag : bytes,
        In (key, tag) (BrassPostListTable.entries table) ->
        carries_term key [] = false) ->
    well_formed_map doclens = true ->
    Forall (fun e => snd e <> SEPERATOR) doclens ->
    Z.of_nat (length doclens) <= MAX_ENTRIES_IN_CHUNK ->
    Z.of_nat (length doclens) < 65536 ->
    In (d, len) doclens ->
    exists table' table'' : BrassPostListTable.t,
      BrassPostListTable.merge_doclen_changes (S fuel) table doclens = Ok table'
      /\ BrassPostListTable.get_doclength table' d = Ok (len, table'')
      /\ BrassPostListTable.document_exists table' d = Ok (true, table'')
      /\ BrassPostListTable.entries table'' = BrassPostListTable.entries table'.
Proof.
  intros T fuel [entries_ doclen_pl_] doclens d len
         Hsorted Hterms Hwf Hnodel Hmax Hlen Hin.
  cbn [BrassPostListTable.entries] in *.
  assert (Hne : doclens <> []) by (destruct doclens; [destruct Hin|discriminate]).
  assert (Hnot : len <> SEPERATOR).
  { rewrite Forall_forall in Hnodel. exact (Hnodel _ Hin). }
  destruct (DoclenListFacts.lookup_new_doclen_list entries_ Hsorted
              doclens d len Hwf Hlen Hin Hnot) as [table'' [Hg [He Hentries]]].
  eexists. exists table''. split.
  - apply (DoclenListFacts.merge_new_doclen_list entries_ Hsorted Hterms);
      assumption.
  - split; [exact Hg|]. split; [exact He|exact Hentries].
Qed.

Lemma merged_doclens_are_found_witness :
  exists table' table'' : BrassPostListTable.t,
    @BrassPostListTable.merge_doclen_changes sample_tunables 1
      (BrassPostListTable.mk two_chunk_table None) dense_run = Ok table'
    /\ BrassPostListTable.get_doclength table' 8 = Ok (256, table'').
Proof.
  destruct (merged_doclens_are_found sample_tunables 0
              (BrassPostListTable.mk two_chunk_table None) dense_run 8 256)
    as [table' [table'' [Hm [Hg _]]]].
  - reflexivity.
  - intros key tag Hin. cbn in Hin.
    destruct Hin as [Heq|[Heq|[]]]; inversion Heq; subst; reflexivity.
  - reflexivity.
  - repeat constructor; cbn; discriminate.
  - vm_compute. discriminate.
  - vm_compute. reflexivity.
  - cbn. tauto.
  - exists table', table''. split; [exact Hm|exact Hg].
Defined.

Module ChunkWalkFacts.

Import BrassTable TableFacts.

Lemma higher_entry_next : forall (a b : BrassTable.t) (k t k2 t2 : bytes),
    sorted (a ++ (k, t) :: (k2, t2) :: b) = true ->
    BrassCursor.higher_entry k (a ++ (k, t) :: (k2, t2) :: b) = Some (k2, t2).
Proof.
  induction a as [|[ka ta] a IH]; intros b k t k2 t2 Hs.
  - cbn [app BrassCursor.higher_entry]. unfold key_ltb at 1.
    rewrite key_compare_refl.
    cbn [app sorted] in Hs. apply sorted_from_cons in Hs.
    destruct Hs as [Hlt _]. unfold key_ltb. rewrite Hlt. reflexivity.
  - cbn [app BrassCursor.higher_entry].
    assert (Hlt : key_compare ka k = Lt).
    { cbn [app sorted] in Hs.
      apply (sorted_from_above _ ka k t Hs). apply in_or_app. right. left.
      reflexivity. }
    apply key_compare_gt_lt in Hlt. unfold key_ltb at 1. rewrite Hlt.
    apply IH. exact (sorted_tail _ _ _ Hs).
Qed.

Lemma get_exact_entry_middle : forall (a b : BrassTable.t) (k t : bytes),
    sorted (a ++ (k, t) :: b) = true ->
    get_exact_entry k (a ++ (k, t) :: b) = Some t.
Proof.
  induction a as [|[ka ta] a IH]; intros b k t Hs.
  - cbn [app get_exact_entry]. rewrite key_compare_refl. reflexivity.
  - cbn [app get_exact_entry].
    assert (Hlt : key_compare ka k = Lt).
    { cbn [app sorted] in Hs.
      apply (sorted_from_above _ ka k t Hs). apply in_or_app. right. left.
      reflexivity. }
    apply key_compare_gt_lt in Hlt. rewrite Hlt.
    apply IH. exact (sorted_tail _ _ _ Hs).
Qed.

Lemma check_lite_make_key_did : forall (term tname : bytes) (did : docid),
    term <> [] ->
    Key.check_tname_in_key_lite (Key.make_key_did term did) tname
    = (Key.bytes_eqb term tname, Key.pack_uint_preserving_sort did).
Proof.
  intros term tname did Hne.
  rewrite <- CodecFacts.check_make_key_did. unfold Key.check_tname_in_key.
  destruct (Key.make_key_did term did) eqn:E; [|reflexivity].
  exfalso. destruct term as [|b term]; [contradiction|].
  unfold Key.make_key_did, Key.pack_string_preserving_sort in E.
  apply app_eq_nil in E. destruct E as [E _].
  apply app_eq_nil in E. destruct E as [E _].
  exact (CodecFacts.escape_not_empty _ Hne E).
Qed.

Lemma last_cons_default : forall (A : Type) (x d : A) (l : list A),
    last (x :: l) d = last l x.
Proof.
  intros A x d l. revert x d.
  induction l as [|y l IH]; intros x d; [reflexivity|].
  change (last (x :: y :: l) d) with (last (y :: l) d).
  rewrite (IH y d). symmetry. apply IH.
Qed.

(** Listing from inside a chunk: the postings left in the chunk, then
    what the list delivers from the end of the chunk. *)
Lemma walk_in_chunk :
  forall (postings : doclen_map) (fuel : nat) (table : BrassTable.t)
         (term : bytes) (cursor : BrassCursor.t) (d : docid) (wdf : termcount)
         (entries first last_ : Z) (is_first is_last : bool)
         (reader : option DoclenChunkReader.t) (rest : doclen_map),
    is_u32 d -> ascending_from d postings = true ->
    list_postings fuel table
      (BrassPostList.mk term true false cursor (Some [])
         (last_docid_of postings d) (snd (last postings (d, wdf)))
         entries first last_ is_first is_last reader false)
    = Ok rest ->
    list_postings (length postings + fuel) table
      (BrassPostList.mk term true false cursor
         (Some (encode_postings d postings)) d wdf entries first last_
         is_first is_last reader false)
    = Ok (postings ++ rest).
Proof.
  induction postings as [|[d' wdf'] postings IH];
    intros fuel table term cursor d wdf entries first last_ is_first is_last
           reader rest Hd Ha Hrest.
  - exact Hrest.
  - apply ascending_from_cons in Ha. destruct Ha as [Hlt [Hd' [Hw' Ha]]].
    cbn [length Nat.add list_postings]. unfold BrassPostList.next.
    cbn [BrassPostList.have_started negb]. unfold BrassPostList.next_in_chunk.
    cbn [BrassPostList.is_doclen_list BrassPostList.pos encode_postings
         BrassPostList.did].
    pose proof (RoundTrip.pack_uint_nonempty (u32 (d' - d - 1))) as Hne.
    destruct (pack_uint (u32 (d' - d - 1)) ++ pack_uint wdf'
                ++ encode_postings d' postings) as [|b tail] eqn:E.
    { apply app_eq_nil in E. destruct E as [E _]. contradiction. }
    rewrite <- E. rewrite PostingFacts.read_did_increase_packed by assumption.
    cbn [bind]. unfold read_wdf.
    rewrite HeaderFacts.read_pack_uint by exact Hw'.
    cbn [bind BrassPostList.is_at_end BrassPostList.did BrassPostList.wdf
         BrassPostList.term BrassPostList.have_started BrassPostList.cursor
         BrassPostList.number_of_entries BrassPostList.first_did_in_chunk
         BrassPostList.last_did_in_chunk BrassPostList.is_first_chunk
         BrassPostList.is_last_chunk BrassPostList.p_doclen_chunk_reader
         BrassPostList.is_doclen_list].
    rewrite (IH fuel table term cursor d' wdf' entries first last_ is_first
                is_last reader rest Hd' Ha); [reflexivity|].
    rewrite last_docid_of_cons, last_cons_default in Hrest. exact Hrest.
Qed.

(** [next] at the end of a chunk that is not the last: the list enters
    the chunk the table holds after it. *)
Lemma next_enters_chunk :
  forall (table : BrassTable.t) (term k t body : bytes) (after : bool)
         (d0 d2 last2 : docid) (w0 w2 : termcount) (entries first last_ : Z)
         (is_first is_last2 : bool) (reader : option DoclenChunkReader.t),
    term <> [] ->
    BrassCursor.higher_entry k table
    = Some (Key.make_key_did term d2,
            make_start_of_chunk is_last2 d2 last2 ++ pack_uint w2 ++ body) ->
    d0 < d2 -> is_u32 d2 -> is_u32 w2 -> is_u32 last2 -> d2 <= last2 ->
    BrassPostList.next table
      (BrassPostList.mk term true false (BrassCursor.mk k t after) (Some [])
         d0 w0 entries first last_ is_first false reader false)
    = Ok (BrassPostList.mk term true false
            (BrassCursor.mk (Key.make_key_did term d2)
               (make_start_of_chunk is_last2 d2 last2 ++ pack_uint w2 ++ body)
               false)
            (Some body) d2 w2 entries d2 last2 false is_last2 reader false).
Proof.
  intros table term k t body after d0 d2 last2 w0 w2 entries first last_
         is_first is_last2 reader Hne Hs Hlt Hd2 Hw2 Hl2 Hle.
  unfold BrassPostList.next. cbn [BrassPostList.have_started negb].
  unfold BrassPostList.next_in_chunk.
  cbn [BrassPostList.is_doclen_list BrassPostList.pos bind].
  unfold BrassPostList.next_chunk.
  cbn [BrassPostList.is_last_chunk BrassPostList.cursor BrassPostList.term
       BrassPostList.did BrassPostList.number_of_entries].
  unfold BrassCursor.next. cbn [BrassCursor.current_key].
  rewrite Hs.
  unfold BrassCursor.after_end.
  cbn [BrassCursor.is_after_end BrassCursor.current_key
       BrassCursor.current_tag].
  rewrite check_lite_make_key_did by exact Hne.
  assert (He : Key.bytes_eqb term term = true) by (apply KeyFacts.bytes_eqb_eq; reflexivity).
  rewrite He. cbn [negb].
  rewrite <- (app_nil_r (Key.pack_uint_preserving_sort d2)).
  rewrite CodecFacts.read_pack_uint_preserving_sort by exact Hd2.
  cbn [bind].
  destruct (d2 <=? d0) eqn:E; [apply Z.leb_le in E; lia|].
  rewrite HeaderFacts.read_make_start_of_chunk. cbn [bind].
  assert (Hd : u32 (d2 + u32 (last2 - d2)) = last2).
  { destruct Hd2, Hl2. unfold u32.
    rewrite (Z.mod_small (last2 - d2)) by lia.
    replace (d2 + (last2 - d2)) with last2 by lia.
    apply Z.mod_small. lia. }
  rewrite Hd. unfold BrassPostList.enter_chunk.
  cbn [BrassPostList.is_doclen_list negb]. unfold read_wdf.
  rewrite HeaderFacts.read_pack_uint by exact Hw2. reflexivity.
Qed.

Lemma chunk_last_docid : forall (d : docid) (w : termcount)
    (postings : doclen_map),
    is_u32 d -> ascending_from d postings = true ->
    is_u32 (fst (last ((d, w) :: postings) (0, 0)))
    /\ d <= fst (last ((d, w) :: postings) (0, 0)).
Proof.
  intros d w postings Hd Ha. rewrite DoclenListFacts.last_of_map. split.
  - exact (DoclenListFacts.last_docid_u32 _ _ Hd Ha).
  - exact (last_docid_of_ascending _ _ Ha).
Qed.

(** Listing from inside a chunk to the end of the list, over the chunks
    the table holds after it. *)
Lemma walk_chunks :
  forall (chunks : list doclen_map) (table a b : BrassTable.t)
         (term k t : bytes) (after : bool) (d : docid) (wdf : termcount)
         (postings : doclen_map) (entries first last_ : Z) (is_first : bool)
         (reader : option DoclenChunkReader.t),
    term <> [] ->
    table = a ++ (k, t) :: later_entries term chunks ++ b ->
    sorted table = true ->
    Forall (fun c => c <> []) chunks ->
    is_u32 d -> ascending_from d (postings ++ concat chunks) = true ->
    list_postings (S (length (postings ++ concat chunks))) table
      (BrassPostList.mk term true false (BrassCursor.mk k t after)
         (Some (encode_postings d postings)) d wdf entries first last_
         is_first (no_more chunks) reader false)
    = Ok (postings ++ concat chunks).
Proof.
  induction chunks as [|c chunks IH];
    intros table a b term k t after d wdf postings entries first last_
           is_first reader Hne Et Hs Hall Hd Ha.
  - cbn [concat no_more] in *. rewrite app_nil_r in *.
    apply NewListFacts.list_postings_encoded; [assumption|assumption|lia].
  - inversion Hall as [|c' chunks' Hc Hall']; subst c' chunks'.
    destruct c as [|[d2 w2] postings2]; [contradiction|].
    cbn [concat] in *. rewrite <- app_comm_cons in Ha.
    apply ascending_from_app in Ha. destruct Ha as [Ha1 Ha2].
    apply ascending_from_cons in Ha2. destruct Ha2 as [Hlt [Hd2 [Hw2 Ha2]]].
    pose proof (proj1 (ascending_from_app _ _ _ Ha2)) as Ha3.
    destruct (chunk_last_docid d2 w2 postings2 Hd2 Ha3) as [Hl2 Hle].
    cbn [later_entries hd fst chunk_of no_more app] in Et.
    assert (Hh : BrassCursor.higher_entry k table
                 = Some (Key.make_key_did term d2,
                         make_start_of_chunk (no_more chunks) d2
                           (fst (last ((d2, w2) :: postings2) (0, 0)))
                           ++ pack_uint w2 ++ encode_postings d2 postings2)).
    { clear - Hs Et. subst table. apply higher_entry_next. exact Hs. }
    rewrite <- app_comm_cons, length_app. cbn [length].
    rewrite <- Nat.add_succ_r.
    apply walk_in_chunk; [assumption|assumption|].
    remember (S (length (postings2 ++ concat chunks))) as n eqn:En.
    cbn [list_postings].
    rewrite (next_enters_chunk table term k t _ after _ d2 _ _ w2 entries first
               last_ is_first (no_more chunks) reader Hne Hh Hlt Hd2 Hw2 Hl2
               Hle).
    cbn [bind BrassPostList.is_at_end BrassPostList.did BrassPostList.wdf].
    rewrite En.
    rewrite (IH table (a ++ [(k, t)]) b term _ _ false d2 w2 postings2 entries
                d2 _ false reader Hne); try assumption; [reflexivity|].
    rewrite Et, <- app_assoc. reflexivity.
Qed.

End ChunkWalkFacts.

(** X13: a list stored in several chunks is delivered whole.  On a table
    in key order that holds the chunks of the list of a term one after
    the other, each chunk with its header and the last one marked as the
    last, a posting list opened for the term and moved with [next]
    delivers the postings of the first chunk and then those of every
    later chunk, docid and wdf, and is at the end after them. *)
Theorem next_walks_all_chunks :
  forall (before after : BrassTable.t) (term : bytes) (entries : doccount)
         (collectionfreq : termcount) (c : doclen_map)
         (chunks : list doclen_map),
    term <> [] ->
    BrassTable.sorted
      (before ++ list_entries term entries collectionfreq c chunks ++ after)
    = true ->
    c <> [] -> Forall (fun c' => c' <> []) chunks ->
    well_formed_map (c ++ concat chunks) = true ->
    is_u32 entries -> is_u32 collectionfreq ->
    (l <- BrassPostList.init
            (before ++ list_entries term entries collectionfreq c chunks
                    ++ after) term ;;
     list_postings (S (length (c ++ concat chunks)))
       (before ++ list_entries term entries collectionfreq c chunks ++ after)
       l)
    = Ok (c ++ concat chunks).
Proof.
  intros before after term entries collectionfreq c chunks
         Hne Hs Hc Hall Hwf He Hcf.
  destruct c as [|[d w] postings]; [contradiction|].
  rewrite <- app_comm_cons in Hwf.
  destruct (PostingFacts.well_formed_map_first _ _ _ Hwf)
    as [H1 [Hd [Hw Ha]]].
  pose proof (proj1 (ascending_from_app _ _ _ Ha)) as Ha1.
  destruct (ChunkWalkFacts.chunk_last_docid d w postings Hd Ha1) as [Hl Hle].
  remember (before ++ list_entries term entries collectionfreq
                        ((d, w) :: postings) chunks ++ after)
    as table eqn:Et.
  unfold list_entries in Et. cbn [hd fst chunk_of app] in Et.
  assert (Hfind :
    BrassCursor.find_entry table (Key.make_key term)
    = (true,
       BrassCursor.mk (Key.make_key term)
         (make_start_of_first_chunk entries collectionfreq d
            ++ make_start_of_chunk (no_more chunks) d
                 (fst (last ((d, w) :: postings) (0, 0)))
            ++ pack_uint w ++ encode_postings d postings) false)).
  { apply CursorFacts.find_entry_exact; [exact Hs|].
    clear - Hs Et. subst table.
    apply ChunkWalkFacts.get_exact_entry_middle. exact Hs. }
  unfold BrassPostList.init. rewrite Hfind.
  cbn [negb BrassCursor.current_tag].
  rewrite HeaderFacts.read_make_start_of_first_chunk by assumption.
  rewrite CodecFacts.u32_pred_succ by exact Hd. cbn [bind].
  rewrite HeaderFacts.read_make_start_of_chunk. cbn [bind].
  assert (Hlast : u32 (d + u32 (fst (last ((d, w) :: postings) (0, 0)) - d))
                  = fst (last ((d, w) :: postings) (0, 0))).
  { destruct Hd, Hl. unfold u32.
    rewrite (Z.mod_small (fst (last ((d, w) :: postings) (0, 0)) - d)) by lia.
    replace (d + (fst (last ((d, w) :: postings) (0, 0)) - d))
      with (fst (last ((d, w) :: postings) (0, 0))) by lia.
    apply Z.mod_small. lia. }
  rewrite Hlast. unfold BrassPostList.enter_chunk.
  assert (Hterm : BrassPostList.is_empty term = false)
    by (destruct term; [contradiction|reflexivity]).
  cbn [BrassPostList.is_doclen_list]. rewrite Hterm. cbn [negb].
  unfold read_wdf. rewrite HeaderFacts.read_pack_uint by exact Hw.
  cbn [bind BrassPostList.term BrassPostList.have_started
       BrassPostList.is_at_end BrassPostList.p_doclen_chunk_reader
       BrassPostList.is_doclen_list].
  rewrite <- app_comm_cons. cbn [length].
  remember (S (length (postings ++ concat chunks))) as n eqn:En.
  cbn [list_postings]. unfold BrassPostList.next at 1.
  cbn [BrassPostList.have_started negb bind BrassPostList.is_at_end
       BrassPostList.term BrassPostList.cursor BrassPostList.pos
       BrassPostList.did BrassPostList.wdf BrassPostList.number_of_entries
       BrassPostList.first_did_in_chunk BrassPostList.last_did_in_chunk
       BrassPostList.is_first_chunk BrassPostList.is_last_chunk
       BrassPostList.p_doclen_chunk_reader BrassPostList.is_doclen_list].
  rewrite En.
  rewrite (ChunkWalkFacts.walk_chunks chunks table before after term _ _
             false d w postings entries d _ true None Hne Et Hs Hall Hd Ha).
  reflexivity.
Qed.

Lemma next_walks_all_chunks_witness :
  (l <- BrassPostList.init two_chunk_table cat ;;
   list_postings 5 two_chunk_table l)
  = Ok [(1, 2); (4, 1); (10, 3); (12, 3)].
Proof.
  apply (next_walks_all_chunks [] [] cat 4 9 [(1, 2); (4, 1)]
           [[(10, 3); (12, 3)]]).
  - discriminate.
  - reflexivity.
  - discriminate.
  - repeat constructor; discriminate.
  - reflexivity.
  - unfold is_u32. lia.
  - unfold is_u32. lia.
Defined.

(** ** The layout of what [encode] writes *)

Module ChunkLayout.

Lemma laid_out_normal :
  forall (block : doclen_map) (prev : docid) (m : doclen_map) (rest : bytes),
    1 <= prev ->
    match block with
    | [] => True
    | (d, _) :: _ => prev <= d
    end ->
    ascending_from 0 block = true ->
    laid_out (last_docid_of block prev) m rest ->
    laid_out prev (block ++ m) (encode_normal block prev ++ rest).
Proof.
  intro blk.
  induction blk as [|[d len] blk IH]; intros prev m rest Hprev Hle Ha Hm.
  - exact Hm.
  - apply ascending_from_cons in Ha. destruct Ha as (Hpos & Hd & Hl & Ha).
    rewrite RoundTripMain.encode_normal_cons.
    rewrite (u32_small (d - prev)) by (destruct Hd; split; lia).
    rewrite <- !app_assoc. cbn [app].
    apply laid_out_entry; [lia|exact Hd|exact Hl|].
    rewrite last_docid_of_cons in Hm.
    apply IH; [lia| |eapply ascending_from_weaken; [|exact Ha]; lia|exact Hm].
    destruct blk as [|[d' l'] blk']; [exact I|].
    apply ascending_from_cons in Ha. lia.
Qed.

Section Loop.
Context {T : Tunables}.

Lemma encode_loop_laid_out :
  forall (f : nat) (it : doclen_map) (prev : docid),
    (length it <= f)%nat ->
    Z.of_nat (length it) < 65536 ->
    ascending_from 0 it = true ->
    1 <= prev ->
    match it with
    | [] => True
    | (d0, _) :: _ => prev <= d0
    end ->
    laid_out prev it (encode_loop f it prev).
Proof.
  induction f as [|f IH]; intros it prev Hf Hlen Hasc Hprev Hle.
  - destruct it; [apply laid_out_end|cbn in Hf; lia].
  - destruct it as [|[d0 l0] it1]; [apply laid_out_end|].
    apply ascending_from_cons in Hasc.
    destruct Hasc as (Hd0pos & Hd0 & Hl0 & Hasc).
    cbn [length] in Hf, Hlen. rewrite Nat2Z.inj_succ in Hlen.
    cbn [encode_loop].
    destruct (encode_scan it1 d0 (get_max_bytes l0) 0 0 1)
      as [[[[n u] g] passed] it'] eqn:Escan.
    pose proof (encode_scan_passed _ _ _ _ _ _ _ _ _ _ _ Escan Hasc ltac:(lia))
      as (Happ & Hcons & Hall).
    pose proof (encode_scan_count _ _ _ _ _ _ _ _ _ _ _ Escan ltac:(lia) ltac:(lia))
      as Hcount.
    pose proof (get_max_bytes_range l0) as Hmb.
    assert (Hsplit : ascending_from d0 passed = true
                     /\ ascending_from (last_docid_of passed d0) it' = true)
      by (apply ascending_from_app; rewrite <- Happ; exact Hasc).
    destruct Hsplit as [Hpassed Hit'].
    pose proof (last_docid_of_ascending _ _ Hpassed) as Hlast.
    assert (Hlen' : (length it' <= f)%nat /\ Z.of_nat (length it') < 65536)
      by (rewrite Happ, length_app in Hf, Hlen; lia).
    destruct Hlen' as [Hf' Hlen'].
    rewrite last_docid_of_cons.
    assert (Hrest : laid_out (last_docid_of passed d0) it'
                             (encode_loop f it' (last_docid_of passed d0))).
    { apply IH; try assumption.
      - eapply ascending_from_weaken; [|exact Hit']. lia.
      - lia.
      - destruct it' as [|[d' l'] it'']; [exact I|].
        apply ascending_from_cons in Hit'. destruct Hit' as (Hd' & _). lia. }
    rewrite Happ.
    change ((d0, l0) :: passed ++ it') with (((d0, l0) :: passed) ++ it').
    destruct (DOCLEN_CHUNK_MIN_CONTIGUOUS_LENGTH <? n) eqn:Emin.
    + (* a fixed width block *)
      rewrite <- !app_assoc.
      rewrite (u32_small (d0 - prev)) by (destruct Hd0; split; lia).
      assert (Hn : n = Z.of_nat (length ((d0, l0) :: passed)))
        by (cbn [length]; rewrite Nat2Z.inj_succ; lia).
      rewrite Hn.
      assert (Hfits : forall l : Z,
                 is_u32 l -> get_max_bytes l <= get_max_bytes l0 ->
                 0 <= l < 256 ^ get_max_bytes l0).
      { intros l Hu Hle'. split; [destruct Hu; lia|].
        eapply Z.lt_le_trans; [apply get_max_bytes_fits; exact Hu|].
        apply Z.pow_le_mono_r; lia. }
      assert (Hentries :
                Forall (fun e => is_u32 (fst e)
                                 /\ 0 <= snd e < 256 ^ get_max_bytes l0)
                       ((d0, l0) :: passed)).
      { constructor; [split; [exact Hd0|apply Hfits; [exact Hl0|apply Z.le_refl]]|].
        clear - Hall Hpassed Hfits. revert d0 Hpassed.
        induction passed as [|[d1 l1] passed IHp]; intros d0 Hpassed; constructor.
        - apply ascending_from_cons in Hpassed.
          destruct Hpassed as (_ & Hd1 & Hl1 & _).
          inversion Hall; subst. split; [exact Hd1|apply Hfits; assumption].
        - apply ascending_from_cons in Hpassed.
          destruct Hpassed as (_ & _ & _ & Hpassed).
          inversion Hall; subst. eapply IHp; eassumption. }
      pose proof (laid_out_block prev (get_max_bytes l0) ((d0, l0) :: passed)
                    it' (encode_loop f it' (last_docid_of passed d0))) as Hb.
      unfold block_header in Hb. cbn [hd fst] in Hb.
      rewrite <- !app_assoc in Hb. apply Hb.
      * unfold dense. cbn [hd fst].
        split; [discriminate|]. split.
        { rewrite Happ, length_app in Hlen. cbn [length].
          rewrite Nat2Z.inj_succ. lia. }
        split; [lia|]. split; [|exact Hentries].
        cbn [consecutive_from]. split; [lia|exact Hcons].
      * lia.
      * rewrite (last_nonempty_default _ passed (d0, l0) (0, 0) (d0, 0)).
        change (fst (last ((d0, l0) :: passed) (d0, 0)))
          with (last_docid_of ((d0, l0) :: passed) d0).
        rewrite last_docid_of_cons. exact Hrest.
    + (* entries in the normal format *)
      apply laid_out_normal.
      * exact Hprev.
      * exact Hle.
      * apply ascending_from_cons. split; [lia|]. split; [exact Hd0|].
        split; [exact Hl0|exact Hpassed].
      * rewrite last_docid_of_cons. exact Hrest.
Qed.

End Loop.

End ChunkLayout.

(** ** The reader on a body that is laid out *)

Module ReaderFacts.
Import FixedWidthChunkReader DecodeFacts RoundTrip JumpRoundTrip.

Lemma split_nth : forall (A : Type) (l : list A) (i : nat) (d : A),
    (i < length l)%nat -> l = firstn i l ++ nth i l d :: skipn (S i) l.
Proof.
  intros A l. induction l as [|x l IH]; intros i d Hi; [cbn in Hi; lia|].
  destruct i as [|i]; [reflexivity|].
  cbn [firstn nth skipn app]. f_equal. apply IH. cbn [length] in Hi. lia.
Qed.

Lemma skipn_nth_cons : forall (A : Type) (l : list A) (i : nat) (d : A),
    (i < length l)%nat -> skipn i l = nth i l d :: skipn (S i) l.
Proof.
  intros A l. induction l as [|x l IH]; intros i d Hi; [cbn in Hi; lia|].
  destruct i as [|i]; [reflexivity|].
  cbn [nth skipn]. apply IH. cbn [length] in Hi. lia.
Qed.

Lemma consecutive_nth_docid :
  forall (block : doclen_map) (s : docid) (i : nat),
    consecutive_from (s - 1) block -> (i < length block)%nat ->
    fst (nth i block (0, 0)) = s + Z.of_nat i.
Proof.
  intro blk.
  induction blk as [|[d1 l1] blk IH]; intros s i Hc Hi;
    [cbn in Hi; lia|].
  cbn [consecutive_from] in Hc. destruct Hc as [Hd1 Hc].
  destruct i as [|i]; [cbn [nth fst Z.of_nat]; lia|].
  cbn [nth]. replace d1 with (s + 1 - 1) in Hc by lia.
  rewrite (IH (s + 1) i Hc) by (cbn [length] in Hi; lia).
  rewrite Nat2Z.inj_succ. lia.
Qed.

Lemma consecutive_firstn_below :
  forall (block : doclen_map) (s : docid) (i : nat),
    consecutive_from (s - 1) block ->
    Forall (fun e => fst e < s + Z.of_nat i) (firstn i block).
Proof.
  intros block s i Hc.
  pose proof (consecutive_below block s Hc) as Hb.
  assert (Hall : forall j, (j < length (firstn i block))%nat ->
                   fst (nth j (firstn i block) (0, 0)) < s + Z.of_nat i).
  { intros j Hj. rewrite length_firstn in Hj.
    rewrite nth_firstn.
    destruct (j <? i)%nat eqn:E; [|apply Nat.ltb_ge in E; lia].
    rewrite (consecutive_nth_docid block s j Hc) by lia.
    apply Nat.ltb_lt in E. lia. }
  apply Forall_forall. intros e He.
  destruct (In_nth _ _ (0, 0) He) as [j [Hj Hn]].
  rewrite <- Hn. apply Hall. exact Hj.
Qed.

Lemma last_as_nth : forall (A : Type) (l : list A) (d : A),
    last l d = nth (length l - 1) l d.
Proof.
  intros A l d. induction l as [|x l IH]; [reflexivity|].
  destruct l as [|y l]; [reflexivity|].
  change (last (x :: y :: l) d) with (last (y :: l) d).
  rewrite IH.
  replace (length (x :: y :: l) - 1)%nat with (S (length l))
    by (cbn [length]; lia).
  replace (length (y :: l) - 1)%nat with (length l)
    by (cbn [length]; lia).
  reflexivity.
Qed.

Lemma encode_fixed_width_skipn :
  forall (block : doclen_map) (w : Z) (i : nat),
    (i < length block)%nat ->
    encode_fixed_width (skipn i block) w
    = pack_uint_in_bytes (snd (nth i block (0, 0))) (Z.to_nat w)
        ++ encode_fixed_width (skipn (S i) block) w.
Proof.
  intros block w i Hi. rewrite (skipn_nth_cons _ block i (0, 0)) by exact Hi.
  destruct (nth i block (0, 0)) as [d l]. reflexivity.
Qed.

Section Block.
Variables (w : Z) (block : doclen_map).
Hypothesis Hdense : dense w block.

Let s := fst (hd (0, 0) block).
Let n := Z.of_nat (length block).

Lemma dense_length : 0 < n < 65536.
Proof.
  destruct Hdense as (Hne & Hlen & _). subst n.
  destruct block; [contradiction|]. cbn [length] in *. lia.
Qed.

Lemma dense_nth : forall i : nat,
    (i < length block)%nat ->
    fst (nth i block (0, 0)) = s + Z.of_nat i
    /\ is_u32 (fst (nth i block (0, 0)))
    /\ 0 <= snd (nth i block (0, 0)) < 256 ^ w.
Proof.
  intros i Hi. destruct Hdense as (_ & _ & _ & Hc & Hall).
  split; [apply consecutive_nth_docid; assumption|].
  rewrite Forall_forall in Hall. apply Hall. apply nth_In. exact Hi.
Qed.

Lemma dense_first : is_u32 s /\ 1 <= w <= 4.
Proof.
  pose proof dense_length as Hn. subst n.
  destruct (dense_nth 0 ltac:(lia)) as (_ & Hu & _).
  destruct Hdense as (_ & _ & Hw & _). split; [|exact Hw].
  subst s. destruct block; [cbn in Hn; lia|exact Hu].
Qed.

Lemma dense_last : fst (last block (0, 0)) = s + n - 1 /\ is_u32 (s + n - 1).
Proof.
  pose proof dense_length as Hn. subst n.
  pose proof (last_as_nth _ block (0, 0)) as E.
  rewrite E.
  destruct (dense_nth (length block - 1) ltac:(lia)) as (Hd & Hu & _).
  rewrite Hd in *. replace (s + Z.of_nat (length block - 1))
    with (s + Z.of_nat (length block) - 1) in * by lia.
  split; [reflexivity|exact Hu].
Qed.

Lemma dense_below_last :
  Forall (fun e => s <= fst e <= s + n - 1) block.
Proof.
  destruct Hdense as (_ & _ & _ & Hc & _).
  pose proof (consecutive_below block s Hc) as Hb.
  eapply Forall_impl; [|exact Hb]. cbv beta. intros e He. subst n. lia.
Qed.

(** One turn of the loop of [jump_to] on a fixed width block: before the
    block, inside it, or past it. *)
Lemma jump_to_loop_block :
  forall (rest : bytes) (d : docid) (r : t),
    1 <= cur_did r <= s ->
    pos r = block_header (cur_did r) w block
              ++ encode_fixed_width block w ++ rest ->
    jump_to_loop (length (pos r)) d r =
      if d <? s
      then Ok (false,
               mk (encode_fixed_width (skipn 1 block) w ++ rest) (ori_pos r)
                  (pos r) s (cur_did r) (snd (nth 0 block (0, 0)))
                  (is_at_end r) true (n - 1) w (first_did_in_chunk r))
      else if d <=? s + n - 1
      then Ok (true,
               mk (encode_fixed_width (skipn (S (Z.to_nat (d - s))) block) w
                     ++ rest)
                  (ori_pos r) (pos r) d (cur_did r)
                  (snd (nth (Z.to_nat (d - s)) block (0, 0)))
                  (is_at_end r)
                  (if n - (d - s + 1) =? 0 then false else true)
                  (n - (d - s + 1)) w (first_did_in_chunk r))
      else jump_to_loop (length rest) d
             (mk rest (ori_pos r) (pos r) (s + n - 1) (cur_did r)
                 (cur_length r) (is_at_end r) false n w
                 (first_did_in_chunk r)).
Proof.
  intros rest d r Hcur Hpos.
  pose proof dense_length as Hn.
  destruct dense_first as [Hs Hw].
  destruct dense_last as [_ Hlast].
  unfold block_header in Hpos. fold s in Hpos. fold n in Hpos.
  rewrite <- !app_assoc in Hpos.
  remember (length (pos r)) as fuel eqn:Efuel.
  destruct fuel as [|fuel].
  { rewrite Hpos in Efuel. rewrite length_app in Efuel.
    pose proof (pack_uint_nonempty SEPERATOR) as Hsep.
    destruct (pack_uint SEPERATOR); [contradiction|]. cbn in Efuel. lia. }
  cbn [jump_to_loop].
  destruct (pos r) as [|b p] eqn:E.
  { symmetry in Hpos. apply app_eq_nil in Hpos. destruct Hpos as [Hpos _].
    apply pack_uint_nonempty in Hpos. contradiction. }
  rewrite Hpos.
  rewrite unchecked_pack_uint by (unfold SEPERATOR, is_u32; lia). cbn [bind].
  rewrite Z.eqb_refl. cbn [negb].
  rewrite unchecked_pack_uint by (destruct Hs; split; lia). cbn [bind].
  rewrite (unchecked_pack_uint_in_bytes_nat 2)
    by (change (256 ^ Z.of_nat 2) with 65536; lia).
  cbn [bind].
  rewrite (unchecked_pack_uint_in_bytes_nat 1)
    by (change (256 ^ Z.of_nat 1) with 256; lia).
  cbn [bind].
  replace (cur_did r + (s - cur_did r)) with s by lia.
  rewrite (u32_small s) by exact Hs.
  rewrite (u32_small (s + n - 1)) by exact Hlast.
  assert (Hlen : length (encode_fixed_width block w ++ rest)
                 = (Z.to_nat w * length block + length rest)%nat)
    by (rewrite length_app, encode_fixed_width_length; reflexivity).
  rewrite <- Hpos.
  destruct (d <? s) eqn:E1.
  - (* before the block *)
    change (encode_fixed_width block w)
      with (encode_fixed_width (skipn 0 block) w).
    rewrite (encode_fixed_width_skipn block w 0) by (subst n; lia).
    rewrite <- app_assoc.
    destruct (dense_nth 0 ltac:(subst n; lia)) as (_ & _ & Hl0).
    rewrite unchecked_pack_uint_in_bytes by (try exact Hl0; lia).
    cbn [bind].
    rewrite (u32_small (n - 1))
      by (unfold is_u32; change (2 ^ 32) with 4294967296; lia).
    reflexivity.
  - apply Z.ltb_ge in E1.
    destruct (d <=? s + n - 1) eqn:E2.
    + (* inside the block *)
      apply Z.leb_le in E2.
      set (i := Z.to_nat (d - s)).
      assert (Hi : (i < length block)%nat) by (subst i n; lia).
      assert (Hdi : d - s = Z.of_nat i) by (subst i; lia).
      rewrite Hdi.
      rewrite (u32_small (Z.of_nat i))
        by (unfold is_u32; change (2 ^ 32) with 4294967296; subst n; lia).
      rewrite (u32_small (w * Z.of_nat i))
        by (unfold is_u32; change (2 ^ 32) with 4294967296; subst n; nia).
      unfold advance. rewrite Hlen.
      destruct (w * Z.of_nat i
                <=? Z.of_nat (Z.to_nat w * length block + length rest))
        eqn:E3; [|apply Z.leb_gt in E3; nia].
      cbn [bind].
      replace (Z.to_nat (w * Z.of_nat i)) with (Z.to_nat w * i)%nat by nia.
      rewrite skipn_encode_fixed_width by lia.
      rewrite (encode_fixed_width_skipn block w i) by exact Hi.
      rewrite <- app_assoc.
      destruct (dense_nth i Hi) as (_ & _ & Hli).
      rewrite unchecked_pack_uint_in_bytes by (try exact Hli; lia).
      cbn [bind].
      rewrite (u32_small (Z.of_nat i + 1))
        by (unfold is_u32; change (2 ^ 32) with 4294967296; subst n; lia).
      rewrite (u32_small (n - (Z.of_nat i + 1)))
        by (unfold is_u32; change (2 ^ 32) with 4294967296; subst n; lia).
      reflexivity.
    + (* past the block *)
      apply Z.leb_gt in E2.
      rewrite (u32_small (w * n))
        by (unfold is_u32; change (2 ^ 32) with 4294967296; nia).
      unfold advance. rewrite Hlen.
      destruct (w * n <=? Z.of_nat (Z.to_nat w * length block + length rest))
        eqn:E3; [|apply Z.leb_gt in E3; subst n; nia].
      cbn [bind].
      replace (Z.to_nat (w * n)) with (Z.to_nat w * length block)%nat
        by (subst n; nia).
      rewrite skipn_encode_fixed_width by apply Nat.le_refl.
      rewrite skipn_all. cbn [encode_fixed_width app].
      rewrite (u32_small (n - 1))
        by (unfold is_u32; change (2 ^ 32) with 4294967296; lia).
      replace (s + (n - 1)) with (s + n - 1) by lia.
      rewrite (u32_small (s + n - 1)) by exact Hlast.
      apply jump_to_loop_fuel; [|apply Nat.le_refl].
      cbn [pos]. rewrite Hpos in Efuel.
      rewrite !length_app, !PackFacts.pack_uint_in_bytes_length in Efuel. lia.
Qed.

End Block.

Lemma pair_of_nth : forall (block : doclen_map) (i : nat) (d : docid),
    fst (nth i block (0, 0)) = d ->
    nth i block (0, 0) = (d, snd (nth i block (0, 0))).
Proof.
  intros block i d H. rewrite <- H. apply surjective_pairing.
Qed.

(** The loop of [jump_to] over the tail [sfx] of the body, from a reader
    that has the entries [pre] behind it: it ends on the first entry of
    the tail whose docid is at least the docid asked for. *)
Lemma jump_to_loop_laid_out :
  forall (prev : docid) (sfx : doclen_map) (body : bytes),
    laid_out prev sfx body ->
    forall (m pre : doclen_map) (d : docid) (r : t),
      m = pre ++ sfx -> pos r = body -> cur_did r = prev ->
      Forall (fun e => fst e <= prev) pre ->
      Forall (fun e => fst e < d) pre ->
      Exists (fun e => d <= fst e) sfx ->
      exists (found : bool) (r' : t),
        jump_to_loop (length body) d r = Ok (found, r')
        /\ reads m r' /\ ori_pos r' = ori_pos r
        /\ first_did_in_chunk r' = first_did_in_chunk r
        /\ is_at_end r' = is_at_end r
        /\ landed m d found r'.
Proof.
  intros prev sfx body Hlay.
  induction Hlay as [prev|prev d1 len m0 rest Hprev Hd1 Hlen Hlay IH
                    |prev w block m0 rest Hdense Hprev Hlay IH];
    intros m pre d r Hm Hpos Hcur Hle Hlt Hex.
  - inversion Hex.
  - (* an entry in the normal format *)
    rewrite <- Hpos.
    pose proof (jump_to_loop_normal (length (pos r)) (d1 - prev) len rest d r
                  ltac:(destruct Hd1; split; lia)
                  ltac:(unfold SEPERATOR; destruct Hd1;
                        change (2 ^ 32) with 4294967296 in *; lia)
                  Hlen Hpos (Nat.le_refl _)) as Hstep.
    cbv zeta in Hstep. rewrite Hcur in Hstep.
    replace (prev + (d1 - prev)) with d1 in Hstep by lia.
    rewrite (u32_small d1) in Hstep by exact Hd1.
    set (r1 := mk rest (ori_pos r) (pos r) d1 (did_before_block r) len
                  (is_at_end r) false (len_info r) (bytes_info r)
                  (first_did_in_chunk r)) in *.
    assert (Hstop : d <= d1 ->
              reads m r1 /\ landed m d (d1 =? d) r1).
    { intro Hdd. split.
      - apply (reads_entry m r1 pre m0); [exact Hm|reflexivity|exact Hlay].
      - exists pre, m0. split; [exact Hm|]. split; [exact Hlt|].
        split; [exact Hdd|reflexivity]. }
    rewrite Hstep.
    destruct (d1 =? d) eqn:E1.
    { apply Z.eqb_eq in E1. destruct (Hstop ltac:(lia)) as [Hr Hl].
      exists true, r1. repeat split; try reflexivity; assumption. }
    destruct (d <? d1) eqn:E2.
    { apply Z.ltb_lt in E2. destruct (Hstop ltac:(lia)) as [Hr Hl].
      exists false, r1. repeat split; try reflexivity; assumption. }
    apply Z.eqb_neq in E1. apply Z.ltb_ge in E2.
    destruct (IH m (pre ++ [(d1, len)]) d r1) as [found [r' H]].
    + rewrite <- app_assoc. exact Hm.
    + reflexivity.
    + reflexivity.
    + apply Forall_app. split; [|constructor; [cbn [fst]; lia|constructor]].
      eapply Forall_impl; [|exact Hle]. cbv beta. intros e He. lia.
    + apply Forall_app. split; [exact Hlt|].
      constructor; [cbn [fst]; lia|constructor].
    + inversion Hex as [x l Hx|x l Hx]; subst; [cbn [fst] in Hx; lia|exact Hx].
    + exists found, r'. exact H.
  - (* a block in the fixed width format *)
    rewrite <- Hpos.
    pose proof (dense_length w block Hdense) as Hn.
    destruct (dense_first w block Hdense) as [Hs Hw].
    destruct (dense_last w block Hdense) as [Hlast Hlastu].
    pose proof (dense_below_last w block Hdense) as Hin.
    cbv zeta in Hn, Hs, Hlast, Hlastu, Hin.
    pose proof (jump_to_loop_block w block Hdense rest d r) as Hstep.
    cbv zeta in Hstep. rewrite Hcur in Hstep.
    specialize (Hstep Hprev Hpos).
    set (s := fst (hd (0, 0) block)) in *.
    set (n := Z.of_nat (length block)) in *.
    rewrite Hstep.
    destruct (d <? s) eqn:E1.
    { (* before the block *)
      apply Z.ltb_lt in E1.
      destruct (dense_nth w block Hdense 0 ltac:(subst n; lia)) as (H0 & _).
      cbv zeta in H0. fold s in H0. rewrite Z.add_0_r in H0.
      eexists false, _. split; [reflexivity|].
      split; [|split; [reflexivity|split; [reflexivity|split; [reflexivity|]]]].
      - apply (reads_block m _ pre block m0 w prev rest 0%nat);
          cbn [is_in_block cur_did cur_length pos pos_of_block
               did_before_block len_info bytes_info];
          try assumption; try reflexivity; try (subst n; lia).
        apply pair_of_nth. exact H0.
      - exists pre, (skipn 1 block ++ m0).
        cbn [cur_did cur_length].
        split; [|split; [exact Hlt|split; [lia|]]].
        + rewrite Hm. f_equal. rewrite app_comm_cons. f_equal.
          rewrite <- (pair_of_nth block 0 s H0).
          apply (skipn_nth_cons _ block 0 (0, 0)). subst n. lia.
        + symmetry. apply Z.eqb_neq. lia. }
    apply Z.ltb_ge in E1.
    destruct (d <=? s + n - 1) eqn:E2.
    { (* inside the block *)
      apply Z.leb_le in E2.
      set (i := Z.to_nat (d - s)) in *.
      assert (Hi : (i < length block)%nat) by (subst i n; lia).
      assert (Hdi : d = s + Z.of_nat i) by (subst i; lia).
      destruct (dense_nth w block Hdense i Hi) as (Hnth & _).
      cbv zeta in Hnth. fold s in Hnth. rewrite <- Hdi in Hnth.
      pose proof (split_nth _ block i (0, 0) Hi) as Hsplit.
      rewrite (pair_of_nth block i d Hnth) in Hsplit.
      assert (Hbelow : Forall (fun e => fst e < d) (firstn i block)).
      { rewrite Hdi. apply consecutive_firstn_below.
        destruct Hdense as (_ & _ & _ & Hc & _). exact Hc. }
      eexists true, _. split; [reflexivity|].
      split; [|split; [reflexivity|split; [reflexivity|split; [reflexivity|]]]].
      - destruct (n - (d - s + 1) =? 0) eqn:E3.
        + (* the last entry of the block *)
          apply Z.eqb_eq in E3.
          assert (Hall : skipn (S i) block = [])
            by (apply skipn_all2; subst i n; lia).
          apply (reads_entry m _ (pre ++ firstn i block) m0);
            cbn [is_in_block cur_did cur_length pos]; [|reflexivity|].
          * rewrite Hm. rewrite <- app_assoc. f_equal.
            rewrite Hsplit at 1. rewrite Hall. rewrite <- app_assoc.
            reflexivity.
          * rewrite Hall. cbn [encode_fixed_width app].
            replace d with (fst (last block (0, 0))) by (rewrite Hlast; lia).
            exact Hlay.
        + apply Z.eqb_neq in E3.
          apply (reads_block m _ pre block m0 w prev rest i);
            cbn [is_in_block cur_did cur_length pos pos_of_block
                 did_before_block len_info bytes_info];
            try assumption; try reflexivity; try (subst i n; lia).
          apply pair_of_nth. exact Hnth.
      - exists (pre ++ firstn i block), (skipn (S i) block ++ m0).
        cbn [cur_did cur_length].
        split; [|split; [|split; [lia|]]].
        + rewrite Hm. rewrite <- app_assoc. f_equal.
          rewrite Hsplit at 1. rewrite <- app_assoc. reflexivity.
        + apply Forall_app. split; assumption.
        + symmetry. apply Z.eqb_refl. }
    (* past the block *)
    apply Z.leb_gt in E2.
    match goal with
    | |- exists _ _, jump_to_loop _ _ ?r1 = _ /\ _ =>
        destruct (IH m (pre ++ block) d r1) as [found [r' H]]
    end.
    + rewrite <- app_assoc. exact Hm.
    + reflexivity.
    + cbn [cur_did]. rewrite Hlast. reflexivity.
    + rewrite Hlast. apply Forall_app. split.
      * eapply Forall_impl; [|exact Hle]. cbv beta. intros e He. lia.
      * eapply Forall_impl; [|exact Hin]. cbv beta. intros e He. lia.
    + apply Forall_app. split; [exact Hlt|].
      eapply Forall_impl; [|exact Hin]. cbv beta. intros e He. lia.
    + apply Exists_app in Hex. destruct Hex as [Hex|Hex]; [|exact Hex].
      apply Exists_exists in Hex. destruct Hex as [e [He Hde]].
      rewrite Forall_forall in Hin. specialize (Hin e He). cbv beta in Hin. lia.
    + exists found, r'. exact H.
Qed.

Lemma laid_out_nonempty : forall (prev : docid) (sfx : doclen_map) (body : bytes),
    laid_out prev sfx body -> body <> [] -> sfx <> [].
Proof.
  intros prev sfx body H Hne. destruct H; [contradiction|discriminate|].
  destruct H as (Hb & _). intro E. apply app_eq_nil in E. tauto.
Qed.

(** [reads] looks at the members that tell the position only. *)
Lemma reads_same_position : forall (m : doclen_map) (r r' : t),
    reads m r ->
    pos r' = pos r -> pos_of_block r' = pos_of_block r ->
    cur_did r' = cur_did r -> did_before_block r' = did_before_block r ->
    cur_length r' = cur_length r -> is_in_block r' = is_in_block r ->
    len_info r' = len_info r -> bytes_info r' = bytes_info r ->
    reads m r'.
Proof.
  intros m r r' H Hp Hb Hc Hd Hl Hi Hn Hw.
  destruct H as [pre post Hm Hin Hlay
                |before block after w prevb rest i Hm Hin Hdense Hprev Hle Hlay
                   Hlt Hnth Hpos Hblock Hdid Hlen Hbytes].
  - apply (reads_entry m r' pre post); rewrite ?Hc, ?Hl, ?Hi, ?Hp; assumption.
  - apply (reads_block m r' before block after w prevb rest i);
      rewrite ?Hc, ?Hl, ?Hi, ?Hp, ?Hb, ?Hd, ?Hn, ?Hw; assumption.
Qed.

Lemma ascending_split :
  forall (s1 s2 : doclen_map) (c : docid) (l : termcount) (lo : docid),
    ascending_from lo (s1 ++ (c, l) :: s2) = true ->
    Forall (fun e => fst e < c) s1 /\ Forall (fun e => c < fst e) s2.
Proof.
  intros s1 s2 c l lo H. apply ascending_from_app in H. destruct H as [H1 H2].
  apply ascending_from_cons in H2. destruct H2 as (Hlt & _ & _ & H2).
  split.
  - eapply Forall_impl; [|apply (ascending_below_last s1 lo H1)].
    cbv beta. intros e He. lia.
  - apply ascending_from_below. exact H2.
Qed.

Lemma reads_in : forall (m : doclen_map) (r : t),
    reads m r -> In (cur_did r, cur_length r) m.
Proof.
  intros m r H.
  destruct H as [pre post Hm Hin Hlay
                |before blk after w prevb rest i Hm Hin Hdense Hprev Hle Hlay
                   Hlt Hnth Hpos Hblock Hdid Hlen Hbytes].
  - rewrite Hm. apply in_or_app. right. left. reflexivity.
  - rewrite Hm. apply in_or_app. right. apply in_or_app. left.
    rewrite <- Hnth. apply nth_In. exact Hlt.
Qed.

(** [next] from where an entry or a block of the tail [sfx] begins. *)
Lemma next_laid_out :
  forall (prev : docid) (sfx : doclen_map) (body : bytes),
    laid_out prev sfx body -> sfx <> [] ->
    forall (m pre : doclen_map) (r : t),
      m = pre ++ sfx -> pos r = body -> cur_did r = prev ->
      Forall (fun e => fst e <= prev) pre ->
      is_at_end r = false ->
      is_in_block r && negb (len_info r =? 0) = false ->
      exists r' : t,
        next r = Ok (true, r')
        /\ reads m r' /\ ori_pos r' = ori_pos r
        /\ first_did_in_chunk r' = first_did_in_chunk r
        /\ is_at_end r' = false
        /\ fst (hd (0, 0) sfx) = cur_did r'.
Proof.
  intros prev sfx body Hlay Hne m pre r Hm Hpos Hcur Hle Hend Hcond.
  destruct Hlay as [prev|prev d1 len m0 rest Hprev Hd1 Hlen Hlay
                   |prev w block m0 rest Hdense Hprev Hlay];
    [contradiction| |].
  - (* an entry in the normal format *)
    unfold next. rewrite Hend, Hcond.
    destruct (pos r) as [|b p] eqn:E.
    { symmetry in Hpos. apply app_eq_nil in Hpos. destruct Hpos as [Hpos _].
      apply pack_uint_nonempty in Hpos. contradiction. }
    rewrite Hpos.
    rewrite unchecked_pack_uint by (destruct Hd1; split; lia). cbn [bind].
    replace (d1 - prev =? SEPERATOR) with false
      by (symmetry; apply Z.eqb_neq; unfold SEPERATOR; destruct Hd1;
          change (2 ^ 32) with 4294967296 in *; lia).
    cbn [negb]. rewrite unchecked_pack_uint by exact Hlen. cbn [bind].
    rewrite Hcur. replace (prev + (d1 - prev)) with d1 by lia.
    rewrite (u32_small d1) by exact Hd1.
    eexists. split; [reflexivity|].
    split; [|split; [reflexivity|split; [reflexivity|split; reflexivity]]].
    apply (reads_entry m _ pre m0); [exact Hm|reflexivity|exact Hlay].
  - (* a block in the fixed width format *)
    pose proof (dense_length w block Hdense) as Hn.
    destruct (dense_first w block Hdense) as [Hs Hw].
    destruct (dense_last w block Hdense) as [Hlast Hlastu].
    cbv zeta in Hn, Hs, Hlast, Hlastu.
    destruct (dense_nth w block Hdense 0 ltac:(lia)) as (H0 & _ & Hl0).
    cbv zeta in H0. rewrite Z.add_0_r in H0.
    set (s := fst (hd (0, 0) block)) in *.
    set (n := Z.of_nat (length block)) in *.
    unfold block_header in Hpos. fold s in Hpos. fold n in Hpos.
    rewrite <- !app_assoc in Hpos.
    unfold next. rewrite Hend, Hcond.
    destruct (pos r) as [|b p] eqn:E.
    { symmetry in Hpos. apply app_eq_nil in Hpos. destruct Hpos as [Hpos _].
      apply pack_uint_nonempty in Hpos. contradiction. }
    rewrite Hpos.
    rewrite unchecked_pack_uint by (unfold SEPERATOR, is_u32; lia). cbn [bind].
    rewrite Z.eqb_refl. cbn [negb].
    rewrite unchecked_pack_uint by (destruct Hs; split; lia). cbn [bind].
    rewrite (unchecked_pack_uint_in_bytes_nat 2)
      by (change (256 ^ Z.of_nat 2) with 65536; lia).
    cbn [bind].
    rewrite (unchecked_pack_uint_in_bytes_nat 1)
      by (change (256 ^ Z.of_nat 1) with 256; lia).
    cbn [bind]. rewrite <- Hpos.
    change (encode_fixed_width block w)
      with (encode_fixed_width (skipn 0 block) w).
    rewrite (encode_fixed_width_skipn block w 0) by (subst n; lia).
    rewrite <- app_assoc.
    rewrite unchecked_pack_uint_in_bytes by (try exact Hl0; lia).
    cbn [bind].
    rewrite Hcur. replace (prev + (s - prev)) with s by lia.
    rewrite (u32_small s) by exact Hs.
    rewrite (u32_small (n - 1))
      by (unfold is_u32; change (2 ^ 32) with 4294967296; lia).
    eexists. split; [reflexivity|].
    split; [|split; [reflexivity|split; [reflexivity|split; [reflexivity|]]]].
    2: { cbn [cur_did]. subst s.
         assert (Hb : block <> []) by (destruct Hdense as (Hb & _); exact Hb).
         destruct block; [contradiction|reflexivity]. }
    destruct (n - 1 =? 0) eqn:E1.
    + (* a block of one entry *)
      apply Z.eqb_eq in E1.
      assert (Hall : skipn 1 block = [])
        by (apply skipn_all2; subst n; lia).
      apply (reads_entry m _ pre m0); cbn [is_in_block cur_did cur_length pos];
        [|reflexivity|].
      * rewrite Hm. f_equal.
        rewrite (split_nth _ block 0 (0, 0)) at 1 by (subst n; lia).
        rewrite Hall. cbn [firstn app].
        rewrite (pair_of_nth block 0 s H0). reflexivity.
      * rewrite Hall. cbn [encode_fixed_width app].
        replace s with (fst (last block (0, 0))) by (rewrite Hlast; lia).
        exact Hlay.
    + apply Z.eqb_neq in E1.
      apply (reads_block m _ pre block m0 w prev rest 0%nat);
        cbn [is_in_block cur_did cur_length pos pos_of_block
             did_before_block len_info bytes_info];
        try assumption; try reflexivity; try (subst n; lia).
      * apply pair_of_nth. exact H0.
      * rewrite Hpos. unfold block_header. fold s. fold n.
        rewrite <- !app_assoc. reflexivity.
Qed.

(** The constructor leaves the reader on the first entry. *)
Lemma make_reads : forall (m : doclen_map) (body : bytes),
    m <> [] -> laid_out (fst (hd (0, 0) m)) m body ->
    exists r : t,
      make body (fst (hd (0, 0) m)) = Ok r
      /\ reader_on m r /\ is_at_end r = false
      /\ cur_did r = fst (hd (0, 0) m).
Proof.
  intros m body Hne Hlay.
  destruct (next_laid_out _ _ _ Hlay Hne m [] (init body (fst (hd (0, 0) m)))
              eq_refl eq_refl eq_refl (Forall_nil _) eq_refl eq_refl)
    as [r [Hnext [Hreads [Hori [Hfirst [Hend Hhd]]]]]].
  exists r. unfold make. rewrite Hnext. cbn [bind].
  split; [reflexivity|]. split; [|split; [exact Hend|symmetry; exact Hhd]].
  split; [rewrite Hori; exact Hlay|]. split; [rewrite Hfirst; reflexivity|].
  exact Hreads.
Qed.

(** [next] keeps the reader on the body; it returns false only with the
    end flag set. *)
Lemma next_reads : forall (m : doclen_map) (r : t),
    reader_on m r -> ascending_from 0 m = true ->
    exists (moved : bool) (r' : t),
      next r = Ok (moved, r') /\ reader_on m r'
      /\ (if moved then is_at_end r = false /\ is_at_end r' = false
          else is_at_end r' = true).
Proof.
  intros m r [Hori [Hfirst Hreads]] Hasc.
  destruct (is_at_end r) eqn:Hend.
  { exists false, r. unfold next. rewrite Hend.
    split; [reflexivity|].
    split; [split; [|split]; assumption|first [exact Hend|reflexivity]]. }
  destruct (pos r) as [|b p] eqn:Epos.
  { eexists false, _. unfold next. rewrite Hend, Epos.
    split; [reflexivity|]. split; [|reflexivity].
    split; [exact Hori|]. split; [exact Hfirst|].
    apply (reads_same_position m r); try reflexivity; [exact Hreads|].
    cbn [pos]. symmetry. exact Epos. }
  assert (Hne : pos r <> []) by (rewrite Epos; discriminate).
  (* from an entry, or from the end of a block *)
  assert (Hitem : forall (pre sfx : doclen_map),
             m = pre ++ sfx -> laid_out (cur_did r) sfx (pos r) ->
             Forall (fun e => fst e <= cur_did r) pre ->
             is_in_block r && negb (len_info r =? 0) = false ->
             exists (moved : bool) (r' : t),
               next r = Ok (moved, r') /\ reader_on m r'
               /\ (if moved then false = false /\ is_at_end r' = false
                   else is_at_end r' = true)).
  { intros pre sfx Hm Hlay Hle Hcond.
    destruct (next_laid_out _ _ _ Hlay (laid_out_nonempty _ _ _ Hlay Hne)
                m pre r Hm eq_refl eq_refl Hle Hend Hcond)
      as [r' [Hnext [Hr' [Ho [Hf [He _]]]]]].
    exists true, r'. split; [exact Hnext|].
    split; [|split; [reflexivity|exact He]].
    split; [rewrite Ho; exact Hori|]. split; [rewrite Hf; exact Hfirst|].
    exact Hr'. }
  clear Epos b p.
  destruct Hreads as [pre post Hm Hin Hlay
                     |before block after w prevb rest i Hm Hin Hdense Hprev Hle
                        Hlay Hlt Hnth Hpos Hblock Hdid Hlen Hbytes].
  - (* on an entry *)
    apply (Hitem (pre ++ [(cur_did r, cur_length r)]) post).
    + rewrite <- app_assoc. exact Hm.
    + exact Hlay.
    + rewrite Hm in Hasc.
      destruct (ascending_split _ _ _ _ _ Hasc) as [Hpre _].
      apply Forall_app. split.
      * eapply Forall_impl; [|exact Hpre]. cbv beta. intros e He. lia.
      * constructor; [cbn [fst]; lia|constructor].
    + rewrite Hin. reflexivity.
  - (* in a block *)
    pose proof (dense_length w block Hdense) as Hn.
    destruct (dense_first w block Hdense) as [Hs Hw].
    destruct (dense_last w block Hdense) as [Hlast Hlastu].
    pose proof (dense_below_last w block Hdense) as Hinb.
    destruct (dense_nth w block Hdense i Hlt) as (Hdi & _).
    cbv zeta in Hn, Hs, Hlast, Hlastu, Hinb, Hdi.
    rewrite Hnth in Hdi. cbn [fst] in Hdi.
    destruct (Nat.eq_dec (S i) (length block)) as [Elast|Emore].
    + (* its last entry is read *)
      assert (Hall : skipn (S i) block = [])
        by (apply skipn_all2; lia).
      rewrite Hall in Hpos. cbn [encode_fixed_width app] in Hpos.
      apply (Hitem (before ++ block) after).
      * rewrite <- app_assoc. exact Hm.
      * rewrite Hpos.
        replace (cur_did r) with (fst (last block (0, 0)))
          by (rewrite Hlast, Hdi; lia).
        exact Hlay.
      * apply Forall_app. split.
        -- eapply Forall_impl; [|exact Hle]. cbv beta. intros e He. lia.
        -- eapply Forall_impl; [|exact Hinb]. cbv beta. intros e He. lia.
      * rewrite Hlen. replace (length block - S i)%nat with 0%nat by lia.
        rewrite Bool.andb_false_r. reflexivity.
    + (* the next entry of the block *)
      assert (Hsi : (S i < length block)%nat) by lia.
      destruct (dense_nth w block Hdense (S i) Hsi) as (Hds & Hdu & Hdl).
      cbv zeta in Hds.
      unfold next. rewrite Hend.
      destruct (pos r) as [|b p] eqn:Epos; [contradiction|].
      rewrite Hin, Hlen.
      replace (Z.of_nat (length block - S i) =? 0) with false
        by (symmetry; apply Z.eqb_neq; lia).
      cbn [andb negb]. rewrite Hpos, Hbytes.
      rewrite (encode_fixed_width_skipn block w (S i)) by exact Hsi.
      rewrite <- app_assoc.
      rewrite unchecked_pack_uint_in_bytes by (try exact Hdl; lia).
      cbn [bind].
      assert (Hnext : u32 (cur_did r + 1) = fst (nth (S i) block (0, 0))).
      { rewrite Hds, Hdi, Nat2Z.inj_succ.
        replace (fst (hd (0, 0) block) + Z.succ (Z.of_nat i))
          with (fst (hd (0, 0) block) + Z.of_nat i + 1) by lia.
        apply u32_small. rewrite Hds, Nat2Z.inj_succ in Hdu.
        replace (fst (hd (0, 0) block) + Z.succ (Z.of_nat i))
          with (fst (hd (0, 0) block) + Z.of_nat i + 1) in Hdu by lia.
        exact Hdu. }
      rewrite Hnext.
      rewrite (u32_small (Z.of_nat (length block - S i) - 1))
        by (unfold is_u32; change (2 ^ 32) with 4294967296; lia).
      eexists true, _. split; [reflexivity|].
      split; [|split; reflexivity].
      split; [exact Hori|]. split; [exact Hfirst|].
      destruct (Z.of_nat (length block - S i) - 1 =? 0) eqn:E1.
      * (* it is the last of the block *)
        apply Z.eqb_eq in E1.
        assert (Hall : skipn (S (S i)) block = [])
          by (apply skipn_all2; lia).
        apply (reads_entry m _ (before ++ firstn (S i) block) after);
          cbn [is_in_block cur_did cur_length pos]; [|reflexivity|].
        -- rewrite Hm. rewrite <- app_assoc. f_equal.
           rewrite (split_nth _ block (S i) (0, 0)) at 1 by exact Hsi.
           rewrite Hall. rewrite <- app_assoc. cbn [app].
           rewrite <- surjective_pairing. reflexivity.
        -- rewrite Hall. cbn [encode_fixed_width app].
           replace (fst (nth (S i) block (0, 0)))
             with (fst (last block (0, 0)))
             by (rewrite Hlast, Hds; lia).
           exact Hlay.
      * apply Z.eqb_neq in E1.
        apply (reads_block m _ before block after w prevb rest (S i));
          cbn [is_in_block cur_did cur_length pos pos_of_block
               did_before_block len_info bytes_info];
          try assumption; try reflexivity; try lia.
        apply surjective_pairing.
Qed.

(** [jump_to] for a docid that is not past the last of the body: the
    reader ends on the first entry whose docid is at least the docid
    asked for, and stays on the body. *)
Lemma jump_to_reads : forall (m : doclen_map) (r : t) (d : docid),
    reader_on m r -> ascending_from 0 m = true ->
    Exists (fun e => d <= fst e) m ->
    exists (found : bool) (r' : t),
      jump_to d r = Ok (found, r') /\ reader_on m r'
      /\ is_at_end r' = is_at_end r /\ landed m d found r'.
Proof.
  intros m r d [Hori [Hfirst Hreads]] Hasc Hex.
  (* the loop from some place of the body *)
  assert (Hscan : forall (prev : docid) (pre sfx : doclen_map) (body : bytes)
                         (r0 : t),
             laid_out prev sfx body -> m = pre ++ sfx ->
             pos r0 = body -> cur_did r0 = prev ->
             ori_pos r0 = ori_pos r ->
             first_did_in_chunk r0 = first_did_in_chunk r ->
             is_at_end r0 = is_at_end r ->
             Forall (fun e => fst e <= prev) pre ->
             Forall (fun e => fst e < d) pre ->
             exists (found : bool) (r' : t),
               jump_to_loop (length (pos r0)) d r0 = Ok (found, r')
               /\ reader_on m r'
               /\ is_at_end r' = is_at_end r /\ landed m d found r').
  { intros prev pre sfx body r0 Hlay Hm Hp Hc Ho Hf He Hle Hlt.
    assert (Hex' : Exists (fun e => d <= fst e) sfx).
    { rewrite Hm in Hex. apply Exists_app in Hex.
      destruct Hex as [Hex|Hex]; [|exact Hex].
      apply Exists_exists in Hex. destruct Hex as [e [Hin Hde]].
      rewrite Forall_forall in Hlt. specialize (Hlt e Hin). cbv beta in Hlt.
      lia. }
    destruct (jump_to_loop_laid_out _ _ _ Hlay m pre d r0 Hm Hp Hc Hle Hlt Hex')
      as [found [r' [Hj [Hr' [Ho' [Hf' [He' Hl']]]]]]].
    exists found, r'. rewrite Hp. split; [exact Hj|].
    split; [|split; [congruence|exact Hl']].
    split; [rewrite Ho', Ho; exact Hori|].
    split; [rewrite Hf', Hf; exact Hfirst|exact Hr']. }
  assert (Hstart : forall r0 : t,
             pos r0 = ori_pos r -> cur_did r0 = first_did_in_chunk r ->
             ori_pos r0 = ori_pos r ->
             first_did_in_chunk r0 = first_did_in_chunk r ->
             is_at_end r0 = is_at_end r ->
             exists (found : bool) (r' : t),
               jump_to_loop (length (pos r0)) d r0 = Ok (found, r')
               /\ reader_on m r'
               /\ is_at_end r' = is_at_end r /\ landed m d found r').
  { intros r0 Hp Hc Ho Hf He.
    apply (Hscan (fst (hd (0, 0) m)) [] m (ori_pos r) r0); try assumption.
    - reflexivity.
    - rewrite Hc. exact Hfirst.
    - constructor.
    - constructor. }
  unfold jump_to.
  destruct (cur_did r =? d) eqn:Ecur.
  { apply Z.eqb_eq in Ecur. exists true, r.
    split; [reflexivity|]. split; [split; [|split]; assumption|].
    split; [reflexivity|].
    destruct Hreads as [pre post Hm Hin Hlay
                       |before block after w prevb rest i Hm Hin Hdense Hprev
                          Hle Hlay Hlt Hnth Hpos Hblock Hdid Hlen Hbytes].
    - exists pre, post. split; [exact Hm|].
      rewrite Hm in Hasc. destruct (ascending_split _ _ _ _ _ Hasc) as [Hpre _].
      rewrite Ecur in Hpre. split; [exact Hpre|].
      split; [lia|]. symmetry. apply Z.eqb_eq. exact Ecur.
    - pose proof (split_nth _ block i (0, 0) Hlt) as Hsplit.
      rewrite Hnth in Hsplit.
      exists (before ++ firstn i block), (skipn (S i) block ++ after).
      assert (Hm' : m = (before ++ firstn i block)
                          ++ (cur_did r, cur_length r)
                          :: skipn (S i) block ++ after).
      { rewrite Hm. rewrite <- app_assoc. f_equal.
        rewrite Hsplit at 1. rewrite <- app_assoc. reflexivity. }
      split; [exact Hm'|].
      rewrite Hm' in Hasc.
      destruct (ascending_split _ _ _ _ _ Hasc) as [Hpre _].
      rewrite Ecur in Hpre. split; [exact Hpre|].
      split; [lia|]. symmetry. apply Z.eqb_eq. exact Ecur. }
  apply Z.eqb_neq in Ecur.
  destruct Hreads as [pre post Hm Hin Hlay
                     |before block after w prevb rest i Hm Hin Hdense Hprev
                        Hle Hlay Hlt Hnth Hpos Hblock Hdid Hlen Hbytes].
  - (* on an entry *)
    rewrite Hin.
    destruct (d <? cur_did r) eqn:E1.
    + apply Hstart; reflexivity.
    + apply Z.ltb_ge in E1.
      pose proof Hasc as Hasc'. rewrite Hm in Hasc'.
      destruct (ascending_split _ _ _ _ _ Hasc') as [Hpre _].
      apply (Hscan (cur_did r) (pre ++ [(cur_did r, cur_length r)]) post
                   (pos r) r); try reflexivity.
      * exact Hlay.
      * rewrite <- app_assoc. exact Hm.
      * apply Forall_app. split.
        -- eapply Forall_impl; [|exact Hpre]. cbv beta. intros e He. lia.
        -- constructor; [cbn [fst]; lia|constructor].
      * apply Forall_app. split.
        -- eapply Forall_impl; [|exact Hpre]. cbv beta. intros e He. lia.
        -- constructor; [cbn [fst]; lia|constructor].
  - (* in a block *)
    rewrite Hin, Hdid.
    destruct (d <=? prevb) eqn:E1.
    + apply Hstart; reflexivity.
    + apply Z.leb_gt in E1.
      match goal with
      | |- exists _ _, jump_to_loop _ _ ?r0 = _ /\ _ =>
          apply (Hscan prevb before (block ++ after) (pos_of_block r) r0);
            try reflexivity
      end.
      * rewrite Hblock. apply laid_out_block; assumption.
      * exact Hm.
      * exact Hle.
      * eapply Forall_impl; [|exact Hle]. cbv beta. intros e He. lia.
Qed.

End ReaderFacts.

(** ** The keys of the chunks of the doclen list, in the order of their
    docids *)

Module DoclenKeyFacts.
Import BrassTable TableFacts.

Lemma pack_uint_in_bytes_order : forall (n : nat) (a b : Z),
    0 <= a -> 0 <= b ->
    a mod 256 ^ Z.of_nat n < b mod 256 ^ Z.of_nat n ->
    key_compare (pack_uint_in_bytes a n) (pack_uint_in_bytes b n) = Lt.
Proof.
  induction n as [|n IH]; intros a b Ha Hb Hlt.
  - change (256 ^ Z.of_nat 0) with 1 in Hlt. rewrite !Z.mod_1_r in Hlt. lia.
  - cbn [pack_uint_in_bytes key_compare].
    rewrite !Z_of_byte_of_Z.
    rewrite !Z.shiftr_div_pow2 by lia.
    replace (2 ^ (8 * Z.of_nat n)) with (256 ^ Z.of_nat n)
      by (change 256 with (2 ^ 8); rewrite <- Z.pow_mul_r by lia; reflexivity).
    assert (Hp : 0 < 256 ^ Z.of_nat n) by (apply Z.pow_pos_nonneg; lia).
    rewrite Nat2Z.inj_succ, Z.pow_succ_r in Hlt by lia.
    replace (256 * 256 ^ Z.of_nat n) with (256 ^ Z.of_nat n * 256) in Hlt by lia.
    rewrite !Z.rem_mul_r in Hlt by lia.
    pose proof (Z.mod_pos_bound a (256 ^ Z.of_nat n) Hp) as Hal.
    pose proof (Z.mod_pos_bound b (256 ^ Z.of_nat n) Hp) as Hbl.
    pose proof (Z.mod_pos_bound (a / 256 ^ Z.of_nat n) 256 ltac:(lia)) as Hah.
    pose proof (Z.mod_pos_bound (b / 256 ^ Z.of_nat n) 256 ltac:(lia)) as Hbh.
    destruct (Z.compare_spec ((a / 256 ^ Z.of_nat n) mod 256)
                             ((b / 256 ^ Z.of_nat n) mod 256)) as [E|E|E].
    + apply IH; try assumption. rewrite E in Hlt. lia.
    + reflexivity.
    + exfalso. nia.
Qed.

Lemma get_max_bytes_monotone : forall a b : Z,
    is_u32 a -> is_u32 b -> a <= b -> get_max_bytes a <= get_max_bytes b.
Proof.
  intros a b Ha Hb Hle.
  pose proof (get_max_bytes_range a) as Hra.
  pose proof (get_max_bytes_range b) as Hrb.
  pose proof (get_max_bytes_fits b Hb) as Hfb.
  unfold get_max_bytes in *.
  destruct (a =? 0) eqn:Ea; [lia|]. apply Z.eqb_neq in Ea.
  destruct (b =? 0) eqn:Eb; [apply Z.eqb_eq in Eb; destruct Ha; lia|].
  pose proof (CodecFacts.get_max_bytes_loop_least 4 a 0) as Hl.
  change (256 ^ Z.of_nat 4) with (2 ^ 32) in Hl.
  specialize (Hl ltac:(destruct Ha; lia)).
  set (ra := get_max_bytes_loop 4 a 0) in *.
  set (rb := get_max_bytes_loop 4 b 0) in *.
  destruct (Z_le_gt_dec ra rb) as [H|H]; [exact H|exfalso].
  assert (Hp : 256 ^ rb <= 256 ^ (ra - 0 - 1))
    by (apply Z.pow_le_mono_r; lia).
  lia.
Qed.

(** The keys of two later chunks compare as their first docids do. *)
Lemma make_key_did_order : forall a b : docid,
    is_u32 a -> is_u32 b -> a < b ->
    key_compare (Key.make_key_did [] a) (Key.make_key_did [] b) = Lt.
Proof.
  intros a b Ha Hb Hlt.
  unfold Key.make_key_did, Key.pack_uint_preserving_sort.
  cbn [app key_compare]. rewrite !Z.compare_refl.
  rewrite !Z_of_byte_of_Z.
  pose proof (get_max_bytes_range a) as Hra.
  pose proof (get_max_bytes_range b) as Hrb.
  pose proof (get_max_bytes_monotone a b Ha Hb ltac:(lia)) as Hmono.
  rewrite !Z.mod_small by lia.
  destruct (Z.compare_spec (get_max_bytes a) (get_max_bytes b)) as [E|E|E].
  - rewrite E. apply pack_uint_in_bytes_order; [destruct Ha; lia|destruct Hb; lia|].
    rewrite Z2Nat.id by lia.
    pose proof (get_max_bytes_fits a Ha) as Hfa.
    pose proof (get_max_bytes_fits b Hb) as Hfb.
    rewrite E in Hfa.
    rewrite !Z.mod_small by (destruct Ha, Hb; lia). exact Hlt.
  - reflexivity.
  - lia.
Qed.

Lemma first_key_below_later : forall d : docid,
    key_compare (Key.make_key []) (Key.make_key_did [] d) = Lt.
Proof.
  intro d. unfold Key.make_key, Key.make_key_did.
  apply NewListFacts.key_compare_strict_prefix.
  unfold Key.pack_uint_preserving_sort. discriminate.
Qed.

End DoclenKeyFacts.

(** ** A doclen list of several chunks *)

Module DoclenCursorFacts.
Import FixedWidthChunkReader.

Lemma last_in : forall (A : Type) (l : list A) (d : A),
    l <> [] -> In (last l d) l.
Proof.
  intros A l d. induction l as [|x l IH]; intro Hne; [contradiction|].
  destruct l as [|y l]; [left; reflexivity|].
  right. change (last (x :: y :: l) d) with (last (y :: l) d).
  apply IH. discriminate.
Qed.

Lemma map_bounds : forall m : doclen_map,
    well_formed_map m = true -> m <> [] ->
    1 <= fst (hd (0, 0) m) /\ is_u32 (fst (hd (0, 0) m))
    /\ is_u32 (fst (last m (0, 0)))
    /\ fst (hd (0, 0) m) <= fst (last m (0, 0))
    /\ (forall e : docid * termcount, In e m -> fst e <= fst (last m (0, 0)))
    /\ match m with
       | [] => True
       | (d, _) :: _ => fst (hd (0, 0) m) <= d
       end.
Proof.
  intros m Hwf Hne. destruct m as [|[d w] postings]; [contradiction|].
  destruct (PostingFacts.well_formed_map_first _ _ _ Hwf)
    as [H1 [Hd [Hw Ha]]].
  destruct (ChunkWalkFacts.chunk_last_docid d w postings Hd Ha) as [Hl Hle].
  cbn [hd fst]. split; [exact H1|]. split; [exact Hd|]. split; [exact Hl|].
  split; [exact Hle|]. split; [|lia].
  intros e He. rewrite DoclenListFacts.last_of_map.
  destruct He as [He|He].
  - subst e. cbn [fst]. apply last_docid_of_ascending. exact Ha.
  - pose proof (JumpRoundTrip.ascending_below_last postings d Ha) as Hb.
    rewrite Forall_forall in Hb. exact (Hb e He).
Qed.

Lemma well_formed_of_ascending : forall m : doclen_map,
    ascending_from 0 m = true -> well_formed_map m = true.
Proof.
  intros [|[d l] m] H; [reflexivity|].
  apply ascending_from_cons in H. destruct H as (Hd & Hu & Hl & Ha).
  unfold well_formed_map.
  rewrite Ha, Bool.andb_true_r.
  apply Bool.andb_true_iff. split; [|apply is_u32b_true; exact Hl].
  apply Bool.andb_true_iff. split; [apply Z.leb_le; lia|].
  apply is_u32b_true. exact Hu.
Qed.

(** The chunk [c] of a list whose docids ascend: its own docids ascend,
    those before it are below its first and those after it above its
    last. *)
Lemma split_facts : forall (done : list doclen_map) (c : doclen_map)
    (todo : list doclen_map),
    well_formed_map (concat (done ++ c :: todo)) = true -> c <> [] ->
    well_formed_map c = true
    /\ Forall (fun e => fst e < fst (hd (0, 0) c)) (concat done)
    /\ Forall (fun e => fst (last c (0, 0)) < fst e) (concat todo).
Proof.
  intros done c todo Hwf Hne.
  apply well_formed_map_ascending in Hwf.
  rewrite concat_app in Hwf. cbn [concat] in Hwf.
  apply ascending_from_app in Hwf. destruct Hwf as [Hdone Hrest].
  apply ascending_from_app in Hrest. destruct Hrest as [Hc Htodo].
  pose proof (last_docid_of_ascending _ _ Hdone) as Hl.
  destruct c as [|[d w] c']; [contradiction|].
  split; [|split].
  - apply well_formed_of_ascending.
    eapply ascending_from_weaken; [|exact Hc]. exact Hl.
  - apply ascending_from_cons in Hc. destruct Hc as (Hlt & _).
    cbn [hd fst].
    eapply Forall_impl;
      [|apply (JumpRoundTrip.ascending_below_last (concat done) 0 Hdone)].
    cbv beta. intros e He. lia.
  - apply ascending_from_below in Htodo.
    eapply Forall_impl; [|exact Htodo]. cbv beta. intros e He.
    rewrite last_docid_of_cons in He. rewrite DoclenListFacts.last_of_map.
    exact He.
Qed.

Lemma no_more_nil : forall (A : Type) (l : list A),
    match l with [] => true | _ :: _ => false end = true -> l = [].
Proof. intros A [|x l] H; [reflexivity|discriminate]. Qed.

Lemma no_more_cons : forall (A : Type) (l : list A),
    match l with [] => true | _ :: _ => false end = false -> l <> [].
Proof. intros A [|x l] H; [discriminate|discriminate]. Qed.

Section Entries.
Context {T : Tunables}.

Lemma later_entries_split :
  forall (xs : list doclen_map) (c : doclen_map) (todo : list doclen_map),
    exists pre : BrassTable.t,
      later_doclen_entries (xs ++ c :: todo)
      = pre ++ (Key.make_key_did [] (fst (hd (0, 0) c)),
                doclen_chunk (no_more todo) c)
            :: later_doclen_entries todo.
Proof.
  induction xs as [|x xs IH]; intros c todo.
  - exists []. reflexivity.
  - destruct (IH c todo) as [pre Hpre].
    eexists (_ :: pre). cbn [app later_doclen_entries]. rewrite Hpre.
    reflexivity.
Qed.

Lemma body_of_chunk : forall c : doclen_map,
    c <> [] ->
    snd (encode c []) = encode_loop (length c) c (fst (hd (0, 0) c)).
Proof.
  intros [|[d w] c] Hne; [contradiction|reflexivity].
Qed.

End Entries.

(** Which chunk holds a docid: the last one whose first docid is not
    above it, or the first chunk. *)
Lemma choose_chunk :
  forall (d : docid) (chunks : list doclen_map) (c : doclen_map),
    exists (done : list doclen_map) (c' : doclen_map) (todo : list doclen_map),
      c :: chunks = done ++ c' :: todo
      /\ (done = [] \/ fst (hd (0, 0) c') <= d)
      /\ (todo = [] \/ d < fst (hd (0, 0) (hd [] todo))).
Proof.
  intros d chunks. induction chunks as [|c2 chunks IH]; intro c.
  - exists [], c, []. split; [reflexivity|]. split; left; reflexivity.
  - destruct (Z_lt_le_dec d (fst (hd (0, 0) c2))) as [Hlt|Hle].
    + exists [], c, (c2 :: chunks). split; [reflexivity|].
      split; [left; reflexivity|right; exact Hlt].
    + destruct (IH c2) as [done [c' [todo [Hsplit [Hdone Htodo]]]]].
      exists (c :: done), c', todo. split; [rewrite Hsplit; reflexivity|].
      split; [|exact Htodo]. right.
      destruct Hdone as [Hdone|Hdone]; [|exact Hdone].
      subst done. cbn [app] in Hsplit. inversion Hsplit; subst. exact Hle.
Qed.

Lemma sorted_from_other_head :
  forall (b : BrassTable.t) (k k' : bytes),
    BrassTable.sorted_from k b = true ->
    match b with
    | [] => True
    | (k1, _) :: _ => BrassTable.key_compare k' k1 = Lt
    end ->
    BrassTable.sorted_from k' b = true.
Proof.
  intros [|[k1 t1] b] k k' Hs Hlt; [reflexivity|].
  apply TableFacts.sorted_from_cons in Hs. destruct Hs as [_ Hs].
  apply TableFacts.sorted_from_cons. split; assumption.
Qed.

Lemma head_above : forall (b : BrassTable.t) (key : bytes),
    (forall k t : bytes, In (k, t) b -> BrassTable.key_compare key k = Lt) ->
    match b with
    | [] => True
    | (k1, _) :: _ => BrassTable.key_compare key k1 = Lt
    end.
Proof.
  intros [|[k1 t1] b] key H; [exact I|]. apply (H k1 t1). left. reflexivity.
Qed.

Section List.
Context {T : Tunables}.
Variables (before after : BrassTable.t) (entries_ : doccount) (cf : termcount).
Variables (c0 : doclen_map) (cs : list doclen_map).
Hypothesis table_sorted :
  BrassTable.sorted (before ++ doclen_entries entries_ cf c0 cs ++ after) = true.
Hypothesis after_terms :
  forall key tag : bytes, In (key, tag) after -> carries_term key [] = false.
Hypothesis entries_range : is_u32 entries_.
Hypothesis cf_range : is_u32 cf.
Hypothesis list_well_formed : well_formed_map (concat (c0 :: cs)) = true.
Hypothesis chunks_sized :
  Forall (fun c => c <> [] /\ Z.of_nat (length c) < 65536) (c0 :: cs).
Hypothesis no_tombstone :
  Forall (fun e => snd e <> SEPERATOR) (concat (c0 :: cs)).

Let table := before ++ doclen_entries entries_ cf c0 cs ++ after.

Let chunk_tag (done : list doclen_map) (c : doclen_map)
    (todo : list doclen_map) : bytes :=
  (match done with
   | [] => make_start_of_first_chunk entries_ cf (fst (hd (0, 0) c))
   | _ :: _ => []
   end) ++ doclen_chunk (no_more todo) c.

Let first (c : doclen_map) : docid := fst (hd (0, 0) c).
Let last_ (c : doclen_map) : docid := fst (last c (0, 0)).
Let body (c : doclen_map) : bytes := encode_loop (length c) c (first c).

Section Chunk.
Variables (done : list doclen_map) (c : doclen_map) (todo : list doclen_map).
Hypothesis Hsplit : c0 :: cs = done ++ c :: todo.

Lemma chunk_sized : c <> [] /\ Z.of_nat (length c) < 65536.
Proof.
  pose proof chunks_sized as H. rewrite Hsplit in H.
  apply Forall_app in H. destruct H as [_ H]. inversion H; subst. assumption.
Qed.

Lemma chunk_ordered :
  well_formed_map c = true
  /\ Forall (fun e => fst e < first c) (concat done)
  /\ Forall (fun e => last_ c < fst e) (concat todo).
Proof.
  apply split_facts; [|apply chunk_sized].
  rewrite <- Hsplit. exact list_well_formed.
Qed.

Lemma chunk_bounds :
  1 <= first c /\ is_u32 (first c) /\ is_u32 (last_ c) /\ first c <= last_ c
  /\ (forall e : docid * termcount, In e c -> fst e <= last_ c).
Proof.
  destruct chunk_sized as [Hne _]. destruct chunk_ordered as [Hwf _].
  destruct (map_bounds c Hwf Hne) as (H1 & H2 & H3 & H4 & H5 & _).
  unfold first, last_. tauto.
Qed.

Lemma chunk_ascending : ascending_from 0 c = true.
Proof.
  apply well_formed_map_ascending. destruct chunk_ordered as [H _]. exact H.
Qed.

Lemma chunk_in_list : forall e : docid * termcount,
    In e c -> In e (concat (c0 :: cs)).
Proof.
  intros e He. rewrite Hsplit, concat_app. cbn [concat].
  apply in_or_app. right. apply in_or_app. left. exact He.
Qed.

Lemma body_laid_out : laid_out (first c) c (body c).
Proof.
  destruct chunk_sized as [Hne Hlen]. destruct chunk_ordered as [Hwf _].
  destruct (map_bounds c Hwf Hne) as (H1 & _ & _ & _ & _ & Hhd).
  unfold body, first. apply ChunkLayout.encode_loop_laid_out.
  - apply Nat.le_refl.
  - exact Hlen.
  - exact chunk_ascending.
  - exact H1.
  - exact Hhd.
Qed.

Lemma table_split :
  exists a : BrassTable.t,
    table = a ++ (chunk_key done c, chunk_tag done c todo)
              :: later_doclen_entries todo ++ after.
Proof.
  unfold table, chunk_tag, doclen_entries.
  destruct done as [|d0 done'].
  - cbn [app] in Hsplit. inversion Hsplit; subst. exists before. reflexivity.
  - cbn [app] in Hsplit. inversion Hsplit as [[Hc Hcs]].
    destruct (later_entries_split done' c todo) as [pre Hpre].
    rewrite Hpre. rewrite <- Hc.
    exists (before
              ++ (Key.make_key [],
                  make_start_of_first_chunk entries_ cf (fst (hd (0, 0) c0))
                    ++ doclen_chunk (no_more (done' ++ c :: todo)) c0)
              :: pre).
    cbn [chunk_key app]. rewrite <- ?app_assoc. cbn [app].
    rewrite <- ?app_assoc. reflexivity.
Qed.

Lemma read_chunk_header : forall d : docid,
    read_start_of_chunk (doclen_chunk (no_more todo) c) d
    = Ok (no_more todo, u32 (d + u32 (last_ c - first c)), body c).
Proof.
  intro d. unfold doclen_chunk.
  rewrite (body_of_chunk c (proj1 chunk_sized)).
  apply HeaderFacts.read_make_start_of_chunk.
Qed.

Lemma last_from_first : u32 (first c + u32 (last_ c - first c)) = last_ c.
Proof.
  destruct chunk_bounds as (_ & _ & Hl & _). unfold u32.
  rewrite Zplus_mod_idemp_r.
  replace (first c + (last_ c - first c)) with (last_ c) by lia.
  apply Z.mod_small. exact Hl.
Qed.

Lemma read_first_header :
  done = [] ->
  read_start_of_first_chunk (chunk_tag done c todo)
  = Ok (entries_, cf, first c, doclen_chunk (no_more todo) c).
Proof.
  intro Hd. unfold chunk_tag. rewrite Hd.
  destruct chunk_bounds as (_ & Hf & _).
  rewrite HeaderFacts.read_make_start_of_first_chunk by assumption.
  rewrite CodecFacts.u32_pred_succ by exact Hf. reflexivity.
Qed.

Lemma later_tag : done <> [] -> chunk_tag done c todo = doclen_chunk (no_more todo) c.
Proof.
  intro Hd. unfold chunk_tag.
  destruct done; [contradiction|reflexivity].
Qed.

Lemma up_to_last : forall d : docid,
    d <= last_ c -> Exists (fun e => d <= fst e) c.
Proof.
  intros d Hd. apply Exists_exists. exists (last c (0, 0)).
  split; [apply last_in; apply chunk_sized|exact Hd].
Qed.

(** Entering the chunk builds a reader on its body. *)
Lemma enter_chunk_on_list :
  forall (l : BrassPostList.t) (n : doccount) (ended : bool),
    BrassPostList.term l = [] -> BrassPostList.is_doclen_list l = true ->
    (ended = true -> todo = []) ->
    exists r : t,
      cur_did r = first c
      /\ BrassPostList.enter_chunk l
           (BrassCursor.mk (chunk_key done c) (chunk_tag done c todo) false)
           (no_more done) (no_more todo) (first c) (last_ c) n (body c)
         = Ok (BrassPostList.mk [] (BrassPostList.have_started l) false
                 (BrassCursor.mk (chunk_key done c) (chunk_tag done c todo)
                                 false)
                 (Some (body c)) (cur_did r) (cur_length r) n (first c)
                 (last_ c) (no_more done) (no_more todo) (Some r) true)
      /\ on_list done c todo
           (BrassPostList.mk [] (BrassPostList.have_started l) ended
              (BrassCursor.mk (chunk_key done c) (chunk_tag done c todo)
                              false)
              (Some (body c)) (cur_did r) (cur_length r) n (first c)
              (last_ c) (no_more done) (no_more todo) (Some r) true).
Proof.
  intros l n ended Hterm Hdl Hended.
  destruct (ReaderFacts.make_reads c (body c) (proj1 chunk_sized) body_laid_out)
    as [r [Hmake [Hon [Hend Hcur]]]].
  exists r. split; [exact Hcur|]. split.
  - unfold BrassPostList.enter_chunk. rewrite Hdl, Hterm. cbn [negb].
    cbn [BrassCursor.current_tag]. unfold DoclenChunkReader.make.
    assert (Hparse :
      (pos <- (if no_more done
               then '(_, _, _, pos) <-
                      read_start_of_first_chunk (chunk_tag done c todo) ;;
                    Ok pos
               else Ok (chunk_tag done c todo)) ;;
       '(_, _, pos) <- read_start_of_chunk pos 0 ;;
       FixedWidthChunkReader.make pos (first c)) = Ok r).
    { destruct (no_more done) eqn:Ed.
      - apply no_more_nil in Ed. rewrite (read_first_header Ed).
        cbn [bind]. rewrite read_chunk_header. cbn [bind]. exact Hmake.
      - apply no_more_cons in Ed. rewrite (later_tag Ed).
        cbn [bind]. rewrite read_chunk_header. cbn [bind]. exact Hmake. }
    rewrite Hparse. cbn [bind].
    unfold DoclenChunkReader.at_end, DoclenChunkReader.get_docid,
      DoclenChunkReader.get_doclen, at_end, get_docid, get_doclen.
    rewrite Hend. reflexivity.
  - unfold on_list.
    cbn [BrassPostList.term BrassPostList.is_doclen_list BrassPostList.pos
         BrassPostList.is_last_chunk BrassPostList.first_did_in_chunk
         BrassPostList.last_did_in_chunk BrassPostList.p_doclen_chunk_reader
         BrassPostList.is_at_end BrassPostList.did BrassPostList.wdf
         BrassPostList.cursor BrassCursor.current_key].
    do 7 (split; [first [reflexivity|discriminate]|]).
    exists r. split; [reflexivity|]. split; [exact Hon|].
    split; [|exact Hended].
    intros _. split; [exact Hend|]. split; reflexivity.
Qed.

End Chunk.

Lemma doclen_key_check : forall suffix : bytes,
    Key.check_tname_in_key_lite (x00 :: xe0 :: suffix) [] = (true, suffix).
Proof. intro suffix. reflexivity. Qed.

Lemma later_key : forall (done : list doclen_map) (c c2 : doclen_map),
    chunk_key (done ++ [c]) c2 = Key.make_key_did [] (first c2).
Proof. intros [|d0 done] c c2; reflexivity. Qed.

(** Opening the list. *)
Lemma init_on_list :
  exists l : BrassPostList.t,
    BrassPostList.init table [] = Ok l /\ on_list [] c0 cs l.
Proof.
  destruct (table_split [] c0 cs eq_refl) as [a Ha].
  destruct (enter_chunk_on_list [] c0 cs eq_refl
              (BrassPostList.mk [] false false BrassCursor.cursor_get None
                                0 0 0 0 0 false false None true)
              entries_ false eq_refl eq_refl ltac:(discriminate))
    as [r [Hcur [Henter Hon]]].
  eexists. split; [|exact Hon].
  assert (Hfind :
    BrassCursor.find_entry table (Key.make_key [])
    = (true, BrassCursor.mk (chunk_key [] c0) (chunk_tag [] c0 cs) false)).
  { pose proof table_sorted as Hs. fold table in Hs. rewrite Ha in Hs.
    apply CursorFacts.find_entry_exact; [exact table_sorted|].
    rewrite Ha. apply ChunkWalkFacts.get_exact_entry_middle. exact Hs. }
  unfold BrassPostList.init. rewrite Hfind.
  cbn [negb BrassCursor.current_tag].
  rewrite (read_first_header [] c0 cs eq_refl eq_refl). cbn [bind].
  rewrite (read_chunk_header [] c0 cs eq_refl). cbn [bind].
  rewrite (last_from_first [] c0 cs eq_refl).
  exact Henter.
Qed.

(** The move to the next chunk. *)
Lemma next_chunk_on_list :
  forall (done : list doclen_map) (c c2 : doclen_map) (todo : list doclen_map)
         (l : BrassPostList.t),
    c0 :: cs = done ++ c :: c2 :: todo ->
    BrassPostList.term l = [] -> BrassPostList.is_doclen_list l = true ->
    BrassPostList.is_last_chunk l = false ->
    BrassCursor.current_key (BrassPostList.cursor l) = chunk_key done c ->
    BrassPostList.did l < first c2 ->
    exists l' : BrassPostList.t,
      BrassPostList.next_chunk table l = Ok l'
      /\ on_list (done ++ [c]) c2 todo l'
      /\ BrassPostList.is_at_end l' = false
      /\ BrassPostList.have_started l' = BrassPostList.have_started l.
Proof.
  intros done c c2 todo l Hsplit Hterm Hdl Hlast Hkey Hdid.
  assert (Hsplit' : c0 :: cs = (done ++ [c]) ++ c2 :: todo)
    by (rewrite <- app_assoc; exact Hsplit).
  destruct (table_split done c (c2 :: todo) Hsplit) as [a Ha].
  cbn [later_doclen_entries app] in Ha.
  pose proof table_sorted as Hs. fold table in Hs. rewrite Ha in Hs.
  assert (Hnext :
    BrassCursor.higher_entry (chunk_key done c) table
    = Some (Key.make_key_did [] (first c2), doclen_chunk (no_more todo) c2)).
  { rewrite Ha. apply ChunkWalkFacts.higher_entry_next. exact Hs. }
  destruct (enter_chunk_on_list (done ++ [c]) c2 todo Hsplit' l
              (BrassPostList.number_of_entries l) false Hterm Hdl
              ltac:(discriminate))
    as [r [Hcur [Henter Hon]]].
  assert (Hne : done ++ [c] <> [])
    by (intro E; apply app_eq_nil in E; destruct E as [_ E]; discriminate).
  rewrite (later_tag (done ++ [c]) c2 todo Hsplit' Hne) in Henter, Hon.
  rewrite later_key in Henter, Hon.
  replace (no_more (done ++ [c])) with false in Henter, Hon
    by (destruct done; reflexivity).
  destruct (chunk_bounds (done ++ [c]) c2 todo Hsplit') as (_ & Hf2 & _).
  eexists. split; [|split; [exact Hon|split; reflexivity]].
  unfold BrassPostList.next_chunk. rewrite Hlast.
  unfold BrassCursor.next. rewrite Hkey, Hnext.
  cbn [BrassCursor.after_end BrassCursor.is_after_end BrassCursor.current_key
       BrassCursor.current_tag].
  rewrite Hterm. unfold Key.make_key_did at 1. cbn [app].
  rewrite doclen_key_check. cbn [negb].
  rewrite <- (app_nil_r (Key.pack_uint_preserving_sort (first c2))).
  rewrite CodecFacts.read_pack_uint_preserving_sort by exact Hf2.
  cbn [bind].
  destruct (first c2 <=? BrassPostList.did l) eqn:E;
    [apply Z.leb_le in E; lia|].
  rewrite (read_chunk_header (done ++ [c]) c2 todo Hsplit'). cbn [bind].
  rewrite (last_from_first (done ++ [c]) c2 todo Hsplit').
  exact Henter.
Qed.

(** The cursor finds the chunk that holds a docid. *)
Lemma find_chunk :
  forall (d : docid) (done : list doclen_map) (c : doclen_map)
         (todo : list doclen_map),
    c0 :: cs = done ++ c :: todo -> is_u32 d ->
    (done = [] \/ first c <= d) ->
    (todo = [] \/ d < first (hd [] todo)) ->
    exists found : bool,
      BrassCursor.find_entry table (Key.make_key_did [] d)
      = (found,
         BrassCursor.mk (chunk_key done c) (chunk_tag done c todo) false).
Proof.
  intros d done c todo Hsplit Hd Hdone Htodo.
  destruct (table_split done c todo Hsplit) as [a Ha].
  pose proof table_sorted as Hs. fold table in Hs. rewrite Ha in Hs.
  destruct (PreviousChunkFacts.sorted_split _ _ _ _ Hs) as [Hbelow Hafter].
  destruct (chunk_bounds done c todo Hsplit) as (_ & Hf & _).
  assert (Hcmp : chunk_key done c = Key.make_key_did [] d
                 \/ BrassTable.key_compare (chunk_key done c)
                      (Key.make_key_did [] d) = Lt).
  { destruct done as [|d0 done'].
    - right. apply DoclenKeyFacts.first_key_below_later.
    - destruct Hdone as [Hdone|Hdone]; [discriminate|].
      cbn [chunk_key]. fold (first c).
      destruct (Z.eq_dec (first c) d) as [E|E]; [left; rewrite E; reflexivity|].
      right. apply DoclenKeyFacts.make_key_did_order; [exact Hf|exact Hd|lia]. }
  destruct Hcmp as [Heq|Hlt].
  - exists true. rewrite <- Heq.
    apply CursorFacts.find_entry_exact; [exact table_sorted|].
    rewrite Ha. apply ChunkWalkFacts.get_exact_entry_middle. exact Hs.
  - unfold BrassCursor.find_entry.
    assert (Hfloor :
      BrassCursor.floor_entry (Key.make_key_did [] d) table ([], [])
      = (chunk_key done c, chunk_tag done c todo)).
    { rewrite Ha.
      change (a ++ (chunk_key done c, chunk_tag done c todo)
                :: later_doclen_entries todo ++ after)
        with (a ++ [(chunk_key done c, chunk_tag done c todo)]
                ++ later_doclen_entries todo ++ after).
      rewrite app_assoc.
      rewrite PreviousChunkFacts.floor_entry_gap.
      - apply last_last.
      - apply Forall_app. split.
        + eapply Forall_impl; [|exact Hbelow]. cbv beta. intros e He.
          eapply TableFacts.key_compare_trans; [exact He|exact Hlt].
        + constructor; [exact Hlt|constructor].
      - apply (sorted_from_other_head _ _ _ Hafter).
        destruct todo as [|c2 todo'].
        + cbn [later_doclen_entries app]. apply head_above.
          intros k1 t1 Hin. apply TableFacts.key_compare_gt_lt.
          unfold Key.make_key_did. cbn [app].
          apply DoclenListFacts.term_key_above_doclen_keys.
          exact (after_terms k1 t1 Hin).
        + cbn [later_doclen_entries app].
          destruct Htodo as [Htodo|Htodo]; [discriminate|].
          cbn [hd] in Htodo.
          assert (Hsplit' : c0 :: cs = (done ++ [c]) ++ c2 :: todo')
            by (rewrite <- app_assoc; exact Hsplit).
          destruct (chunk_bounds (done ++ [c]) c2 todo' Hsplit')
            as (_ & Hf2 & _).
          apply DoclenKeyFacts.make_key_did_order; assumption. }
    rewrite Hfloor. eexists. reflexivity.
Qed.

Lemma first_of_todo :
  forall (done : list doclen_map) (c c2 : doclen_map) (todo : list doclen_map),
    c0 :: cs = done ++ c :: c2 :: todo -> last_ c < first c2.
Proof.
  intros done c c2 todo Hsplit.
  destruct (chunk_ordered done c (c2 :: todo) Hsplit) as (_ & _ & Hafter).
  assert (Hsplit' : c0 :: cs = (done ++ [c]) ++ c2 :: todo)
    by (rewrite <- app_assoc; exact Hsplit).
  destruct (chunk_sized (done ++ [c]) c2 todo Hsplit') as [Hne _].
  rewrite Forall_forall in Hafter. unfold first.
  apply (Hafter (hd (0, 0) c2)). cbn [concat]. apply in_or_app. left.
  destruct c2; [contradiction|left; reflexivity].
Qed.

(** [next] keeps the list on a chunk. *)
Lemma next_on_list :
  forall (done : list doclen_map) (c : doclen_map) (todo : list doclen_map)
         (l : BrassPostList.t),
    c0 :: cs = done ++ c :: todo -> on_list done c todo l ->
    exists (l' : BrassPostList.t) (done' : list doclen_map) (c' : doclen_map)
           (todo' : list doclen_map),
      c0 :: cs = done' ++ c' :: todo'
      /\ BrassPostList.next table l = Ok l' /\ on_list done' c' todo' l'.
Proof.
  intros done c todo l Hsplit
         (Hterm & Hdl & Hpos & Hkey & Hlastc & Hfirst & Hlast & r & Hr & Hon
          & Hcur & Hended).
  unfold BrassPostList.next.
  destruct (BrassPostList.have_started l).
  - cbn [negb]. unfold BrassPostList.next_in_chunk. rewrite Hdl, Hr.
    unfold DoclenChunkReader.next.
    destruct (ReaderFacts.next_reads c r Hon (chunk_ascending done c todo Hsplit))
      as [moved [r' [Hnext [Hon' Hflag]]]].
    rewrite Hnext. cbn [bind].
    unfold DoclenChunkReader.at_end, DoclenChunkReader.get_docid,
      DoclenChunkReader.get_doclen, at_end, get_docid, get_doclen.
    destruct moved.
    + destruct Hflag as [_ Hend']. rewrite Hend'. cbn [bind].
      eexists _, done, c, todo. split; [exact Hsplit|].
      split; [reflexivity|]. unfold on_list.
      cbn [BrassPostList.term BrassPostList.is_doclen_list BrassPostList.pos
           BrassPostList.is_last_chunk BrassPostList.first_did_in_chunk
           BrassPostList.last_did_in_chunk BrassPostList.p_doclen_chunk_reader
           BrassPostList.is_at_end BrassPostList.did BrassPostList.wdf
           BrassPostList.cursor].
      do 7 (split; [first [assumption|reflexivity|discriminate]|]).
      exists r'. split; [reflexivity|]. split; [exact Hon'|].
      split; [|intro H; discriminate H].
      intros _. split; [exact Hend'|]. split; reflexivity.
    + rewrite Hflag. cbn [bind].
      destruct todo as [|c2 todo'].
      * (* the last chunk: the end of the list *)
        unfold BrassPostList.next_chunk. cbn [BrassPostList.is_last_chunk].
        rewrite Hlastc. cbn [no_more].
        eexists _, done, c, []. split; [exact Hsplit|].
        split; [reflexivity|]. unfold on_list.
        cbn [BrassPostList.term BrassPostList.is_doclen_list BrassPostList.pos
             BrassPostList.is_last_chunk BrassPostList.first_did_in_chunk
             BrassPostList.last_did_in_chunk
             BrassPostList.p_doclen_chunk_reader BrassPostList.is_at_end
             BrassPostList.did BrassPostList.wdf BrassPostList.cursor].
        do 7 (split; [first [assumption|reflexivity|discriminate]|]).
        exists r'. split; [reflexivity|]. split; [exact Hon'|].
        split; [intro H; discriminate H|reflexivity].
      * (* the next chunk *)
        assert (Hnot : BrassPostList.is_at_end l = false).
        { destruct (BrassPostList.is_at_end l); [|reflexivity].
          specialize (Hended eq_refl). discriminate Hended. }
        destruct (Hcur Hnot) as [_ [Hdid _]].
        destruct Hon as [_ [_ Hreads]].
        pose proof (ReaderFacts.reads_in c r Hreads) as Hin.
        destruct (chunk_bounds done c (c2 :: todo') Hsplit)
          as (_ & _ & _ & _ & Hle).
        specialize (Hle _ Hin). cbn [fst] in Hle.
        pose proof (first_of_todo done c c2 todo' Hsplit) as Hlt.
        match goal with
        | |- exists _ _ _ _, _ /\ BrassPostList.next_chunk _ ?l1 = _ /\ _ =>
            destruct (next_chunk_on_list done c c2 todo' l1 Hsplit)
              as [l' [Hnc [Hon2 _]]]
        end; cbn [BrassPostList.term BrassPostList.is_doclen_list
                  BrassPostList.is_last_chunk BrassPostList.cursor
                  BrassPostList.did]; try assumption; try reflexivity.
        -- rewrite Hdid. lia.
        -- exists l', (done ++ [c]), c2, todo'.
           split; [rewrite <- app_assoc; exact Hsplit|].
           split; [exact Hnc|exact Hon2].
  - cbn [negb]. eexists _, done, c, todo. split; [exact Hsplit|].
    split; [reflexivity|]. unfold on_list.
    cbn [BrassPostList.term BrassPostList.is_doclen_list BrassPostList.pos
         BrassPostList.is_last_chunk BrassPostList.first_did_in_chunk
         BrassPostList.last_did_in_chunk BrassPostList.p_doclen_chunk_reader
         BrassPostList.is_at_end BrassPostList.did BrassPostList.wdf
         BrassPostList.cursor].
    do 7 (split; [first [assumption|reflexivity|discriminate]|]).
    exists r. split; [exact Hr|]. split; [exact Hon|]. split; assumption.
Qed.

(** Moving to the chunk that holds a docid: the docids of the chunks
    before it are below the docid, and the list is at its end when the
    docid is past the last of the list. *)
Lemma move_on_list : forall (l : BrassPostList.t) (d : docid),
    BrassPostList.term l = [] -> BrassPostList.is_doclen_list l = true ->
    is_u32 d ->
    exists (l1 : BrassPostList.t) (done : list doclen_map) (c : doclen_map)
           (todo : list doclen_map),
      c0 :: cs = done ++ c :: todo
      /\ BrassPostList.move_to_chunk_containing table d l = Ok l1
      /\ on_list done c todo l1
      /\ Forall (fun e => fst e < d) (concat done)
      /\ (BrassPostList.is_at_end l1 = false -> d <= last_ c).
Proof.
  intros l d Hterm Hdl Hd.
  destruct (choose_chunk d cs c0) as [done [c [todo [Hsplit [Hdone Htodo]]]]].
  destruct (find_chunk d done c todo Hsplit Hd Hdone Htodo) as [found Hfind].
  destruct (chunk_bounds done c todo Hsplit) as (_ & Hf & _ & Hfl & Hle).
  destruct (chunk_ordered done c todo Hsplit) as (_ & Hbefore & _).
  assert (Hbelow : Forall (fun e => fst e < d) (concat done)).
  { destruct Hdone as [Hdone|Hdone]; [rewrite Hdone; constructor|].
    eapply Forall_impl; [|exact Hbefore]. cbv beta. intros e He.
    exact (Z.lt_le_trans _ _ _ He Hdone). }
  unfold BrassPostList.move_to_chunk_containing. rewrite Hterm, Hfind.
  cbn [BrassCursor.current_key BrassCursor.current_tag].
  (* the header of the chunk *)
  assert (Hhead :
    exists keypos : bytes,
      Key.check_tname_in_key_lite (chunk_key done c) [] = (true, keypos)
      /\ BrassPostList.is_empty keypos = no_more done
      /\ (if BrassPostList.is_empty keypos
          then '(_, _, did_, pos_) <-
                 read_start_of_first_chunk (chunk_tag done c todo) ;;
               Ok (did_, pos_)
          else '(did_, _) <- Key.read_uint_preserving_sort keypos ;;
               Ok (did_, chunk_tag done c todo))
         = Ok (first c, doclen_chunk (no_more todo) c)).
  { destruct (no_more done) eqn:Ed.
    - apply no_more_nil in Ed. exists []. rewrite Ed. cbn [chunk_key].
      split; [reflexivity|]. split; [reflexivity|].
      cbn [BrassPostList.is_empty]. rewrite <- Ed.
      rewrite (read_first_header done c todo Hsplit Ed). reflexivity.
    - apply no_more_cons in Ed.
      exists (Key.pack_uint_preserving_sort (first c)).
      assert (Hk : chunk_key done c = Key.make_key_did [] (first c))
        by (destruct done; [contradiction|reflexivity]).
      rewrite Hk. unfold Key.make_key_did at 1. cbn [app].
      rewrite doclen_key_check. split; [reflexivity|].
      split; [reflexivity|].
      change (BrassPostList.is_empty
                (Key.pack_uint_preserving_sort (first c))) with false.
      cbv iota.
      rewrite <- (app_nil_r (Key.pack_uint_preserving_sort (first c))).
      rewrite CodecFacts.read_pack_uint_preserving_sort by exact Hf.
      cbn [bind]. rewrite (later_tag done c todo Hsplit Ed). reflexivity. }
  destruct Hhead as [keypos [Hcheck [Hempty Hread]]].
  rewrite Hcheck. cbn [negb]. rewrite Hread. cbn [bind].
  rewrite (read_chunk_header done c todo Hsplit). cbn [bind].
  rewrite (last_from_first done c todo Hsplit). rewrite Hempty.
  destruct (last_ c <? d) eqn:Epast.
  - (* the docid is past the chunk *)
    apply Z.ltb_lt in Epast.
    destruct todo as [|c2 todo'].
    + destruct (enter_chunk_on_list done c [] Hsplit
                  (BrassPostList.mk [] (BrassPostList.have_started l) false
                     (BrassPostList.cursor l) (BrassPostList.pos l)
                     (BrassPostList.did l) (BrassPostList.wdf l)
                     (BrassPostList.number_of_entries l)
                     (BrassPostList.first_did_in_chunk l)
                     (BrassPostList.last_did_in_chunk l)
                     (BrassPostList.is_first_chunk l)
                     (BrassPostList.is_last_chunk l)
                     (BrassPostList.p_doclen_chunk_reader l)
                     (BrassPostList.is_doclen_list l))
                  (BrassPostList.number_of_entries l) true eq_refl Hdl
                  ltac:(reflexivity))
        as [r [Hcur [Henter Hon]]].
      rewrite Henter. cbn [bind BrassPostList.last_did_in_chunk].
      replace (last_ c <? d) with true by (symmetry; apply Z.ltb_lt; exact Epast).
      unfold BrassPostList.next_chunk. cbn [BrassPostList.is_last_chunk no_more].
      eexists _, done, c, []. split; [exact Hsplit|].
      split; [reflexivity|]. split; [exact Hon|]. split; [exact Hbelow|].
      cbn [BrassPostList.is_at_end]. intro H. discriminate H.
    + destruct (enter_chunk_on_list done c (c2 :: todo') Hsplit
                  (BrassPostList.mk [] (BrassPostList.have_started l) false
                     (BrassPostList.cursor l) (BrassPostList.pos l)
                     (BrassPostList.did l) (BrassPostList.wdf l)
                     (BrassPostList.number_of_entries l)
                     (BrassPostList.first_did_in_chunk l)
                     (BrassPostList.last_did_in_chunk l)
                     (BrassPostList.is_first_chunk l)
                     (BrassPostList.is_last_chunk l)
                     (BrassPostList.p_doclen_chunk_reader l)
                     (BrassPostList.is_doclen_list l))
                  (BrassPostList.number_of_entries l) false eq_refl Hdl
                  ltac:(discriminate))
        as [r [Hcur [Henter Hon]]].
      rewrite Henter. cbn [bind BrassPostList.last_did_in_chunk].
      replace (last_ c <? d) with true by (symmetry; apply Z.ltb_lt; exact Epast).
      pose proof (first_of_todo done c c2 todo' Hsplit) as Hlt.
      assert (Hsplit' : c0 :: cs = (done ++ [c]) ++ c2 :: todo')
        by (rewrite <- app_assoc; exact Hsplit).
      destruct (chunk_bounds (done ++ [c]) c2 todo' Hsplit')
        as (_ & _ & _ & Hfl2 & _).
      match goal with
      | |- exists _ _ _ _, _ /\ BrassPostList.next_chunk _ ?l1 = _ /\ _ =>
          destruct (next_chunk_on_list done c c2 todo' l1 Hsplit)
            as [l' [Hnc [Hon2 [Hend2 _]]]]
      end; cbn [BrassPostList.term BrassPostList.is_doclen_list
                BrassPostList.is_last_chunk BrassPostList.cursor
                BrassPostList.did BrassCursor.current_key no_more];
        try reflexivity.
      * rewrite Hcur. lia.
      * exists l', (done ++ [c]), c2, todo'. split; [exact Hsplit'|].
        split; [exact Hnc|]. split; [exact Hon2|]. split.
        -- rewrite concat_app. cbn [concat]. rewrite app_nil_r.
           apply Forall_app. split; [exact Hbelow|].
           apply Forall_forall. intros e He. specialize (Hle e He).
           exact (Z.le_lt_trans _ _ _ Hle Epast).
        -- intros _. destruct Htodo as [Htodo|Htodo]; [discriminate|].
           cbn [hd] in Htodo.
           exact (Z.le_trans _ _ _ (Z.lt_le_incl _ _ Htodo) Hfl2).
  - (* the docid is in the chunk or before it *)
    apply Z.ltb_ge in Epast.
    destruct (enter_chunk_on_list done c todo Hsplit
                (BrassPostList.mk [] (BrassPostList.have_started l) false
                   (BrassPostList.cursor l) (BrassPostList.pos l)
                   (BrassPostList.did l) (BrassPostList.wdf l)
                   (BrassPostList.number_of_entries l)
                   (BrassPostList.first_did_in_chunk l)
                   (BrassPostList.last_did_in_chunk l)
                   (BrassPostList.is_first_chunk l)
                   (BrassPostList.is_last_chunk l)
                   (BrassPostList.p_doclen_chunk_reader l)
                   (BrassPostList.is_doclen_list l))
                (BrassPostList.number_of_entries l) false eq_refl Hdl
                ltac:(discriminate))
      as [r [Hcur [Henter Hon]]].
    rewrite Henter. cbn [bind BrassPostList.last_did_in_chunk].
    replace (last_ c <? d) with false by (symmetry; apply Z.ltb_ge; exact Epast).
    eexists _, done, c, todo. split; [exact Hsplit|].
    split; [reflexivity|]. split; [exact Hon|]. split; [exact Hbelow|].
    intros _. exact Epast.
Qed.

(** [jump_to] on a doclen list: it finds the docid when the list holds
    it, and otherwise stops at the end of the list or on the smallest
    docid above it. *)
Lemma jump_to_on_list :
  forall (done : list doclen_map) (c : doclen_map) (todo : list doclen_map)
         (l : BrassPostList.t) (d : docid),
    c0 :: cs = done ++ c :: todo -> on_list done c todo l -> is_u32 d ->
    exists (found : bool) (l' : BrassPostList.t) (done' : list doclen_map)
           (c' : doclen_map) (todo' : list doclen_map),
      c0 :: cs = done' ++ c' :: todo'
      /\ BrassPostList.jump_to table d l = Ok (found, l')
      /\ on_list done' c' todo' l'
      /\ (found = true ->
          BrassPostList.is_at_end l' = false
          /\ BrassPostList.did l' = d
          /\ In (d, BrassPostList.wdf l') (concat (c0 :: cs)))
      /\ (found = false ->
          BrassPostList.is_at_end l' = true
          \/ smallest_above (concat (c0 :: cs)) d (BrassPostList.did l')).
Proof.
  intros done c todo l d Hsplit
         (Hterm & Hdl & Hpos & Hkey & Hlastc & Hfirst & Hlast & r & Hr & Hon
          & Hcur & Hended) Hd.
  unfold BrassPostList.jump_to.
  cbn [BrassPostList.pos BrassPostList.is_at_end BrassPostList.did
       BrassPostList.term BrassPostList.have_started BrassPostList.cursor
       BrassPostList.wdf BrassPostList.number_of_entries
       BrassPostList.first_did_in_chunk BrassPostList.last_did_in_chunk
       BrassPostList.is_first_chunk BrassPostList.is_last_chunk
       BrassPostList.p_doclen_chunk_reader BrassPostList.is_doclen_list].
  destruct (BrassPostList.pos l) as [p|] eqn:Ep; [|contradiction].
  (* the list after the move *)
  match goal with
  | |- exists _ _ _ _ _, _ /\ bind ?mv _ = _ /\ _ =>
      assert (Hmove : exists (l1 : BrassPostList.t) (done1 : list doclen_map)
                             (c1 : doclen_map) (todo1 : list doclen_map),
                 c0 :: cs = done1 ++ c1 :: todo1
                 /\ mv = Ok l1 /\ on_list done1 c1 todo1 l1
                 /\ Forall (fun e => fst e < d) (concat done1)
                 /\ (BrassPostList.is_at_end l1 = false -> d <= last_ c1))
  end.
  { destruct (BrassPostList.is_at_end l
              || negb (BrassPostList.current_chunk_contains d
                         (BrassPostList.mk (BrassPostList.term l) true
                            (BrassPostList.is_at_end l) (BrassPostList.cursor l)
                            (Some p) (BrassPostList.did l) (BrassPostList.wdf l)
                            (BrassPostList.number_of_entries l)
                            (BrassPostList.first_did_in_chunk l)
                            (BrassPostList.last_did_in_chunk l)
                            (BrassPostList.is_first_chunk l)
                            (BrassPostList.is_last_chunk l)
                            (BrassPostList.p_doclen_chunk_reader l)
                            (BrassPostList.is_doclen_list l)))
              || (d <? BrassPostList.did l)) eqn:Econd.
    - match goal with
      | |- exists _ _ _ _, _ /\ BrassPostList.move_to_chunk_containing _ _ ?l0 = _
                           /\ _ =>
          exact (move_on_list l0 d Hterm Hdl Hd)
      end.
    - apply Bool.orb_false_iff in Econd. destruct Econd as [Econd _].
      apply Bool.orb_false_iff in Econd. destruct Econd as [Hend Hc].
      apply Bool.negb_false_iff in Hc.
      unfold BrassPostList.current_chunk_contains in Hc.
      cbn [BrassPostList.first_did_in_chunk BrassPostList.last_did_in_chunk]
        in Hc.
      apply Bool.andb_true_iff in Hc. destruct Hc as [Hc1 Hc].
      apply Z.leb_le in Hc. apply Z.leb_le in Hc1.
      rewrite Hlast in Hc. rewrite Hfirst in Hc1.
      eexists _, done, c, todo. split; [exact Hsplit|].
      split; [reflexivity|]. split; [|split; [|intros _; exact Hc]].
      + unfold on_list.
        cbn [BrassPostList.term BrassPostList.is_doclen_list BrassPostList.pos
             BrassPostList.is_last_chunk BrassPostList.first_did_in_chunk
             BrassPostList.last_did_in_chunk
             BrassPostList.p_doclen_chunk_reader BrassPostList.is_at_end
             BrassPostList.did BrassPostList.wdf BrassPostList.cursor].
        do 7 (split; [first [assumption|reflexivity|discriminate]|]).
        exists r. split; [exact Hr|]. split; [exact Hon|].
        split; assumption.
      + destruct (chunk_ordered done c todo Hsplit) as (_ & Hbefore & _).
        eapply Forall_impl; [|exact Hbefore]. cbv beta. intros e He.
        exact (Z.lt_le_trans _ _ _ He Hc1). }
  destruct Hmove as [l1 [done1 [c1 [todo1 [Hsplit1 [Hmv [Hon1 [Hbelow1 Hd1]]]]]]]].
  rewrite Hmv. cbn [bind].
  clear Hmv Hterm Hdl Hpos Hkey Hlastc Hfirst Hlast r Hr Hon Hcur Hended Ep
        Hsplit.
  pose proof Hon1 as Hon1'.
  destruct Hon1 as (Hterm & Hdl & Hpos & Hkey & Hlastc & Hfirst & Hlast & r
                    & Hr & Hon & Hcur & Hended).
  destruct (BrassPostList.is_at_end l1) eqn:Hend.
  { exists false, l1, done1, c1, todo1. split; [exact Hsplit1|].
    split; [reflexivity|]. split; [exact Hon1'|].
    split; [intro H; discriminate H|]. intros _. left. exact Hend. }
  specialize (Hd1 eq_refl). destruct (Hcur eq_refl) as [Hrend [Hdid Hwdf]].
  rewrite Hr. unfold DoclenChunkReader.get_doclen_of.
  destruct (ReaderFacts.jump_to_reads c1 r d Hon
              (chunk_ascending done1 c1 todo1 Hsplit1)
              (up_to_last done1 c1 todo1 Hsplit1 d Hd1))
    as [found [r' [Hj [Hon' [Hend' Hland]]]]].
  rewrite Hj. cbn [bind].
  unfold DoclenChunkReader.at_end, DoclenChunkReader.get_docid,
    DoclenChunkReader.get_doclen, at_end, get_docid, get_doclen.
  destruct Hland as [s1 [s2 [Hm [Hbelow [Hle Hfound]]]]].
  assert (Hin1 : In (cur_did r', cur_length r') c1).
  { rewrite Hm. apply in_or_app. right. left. reflexivity. }
  pose proof (chunk_in_list done1 c1 todo1 Hsplit1 _ Hin1) as Hin.
  assert (Hchunk : forall w : termcount,
             w = cur_length r' ->
             on_list done1 c1 todo1
               (BrassPostList.mk (BrassPostList.term l1)
                  (BrassPostList.have_started l1) (is_at_end r')
                  (BrassPostList.cursor l1) (BrassPostList.pos l1) (cur_did r')
                  w (BrassPostList.number_of_entries l1)
                  (BrassPostList.first_did_in_chunk l1)
                  (BrassPostList.last_did_in_chunk l1)
                  (BrassPostList.is_first_chunk l1)
                  (BrassPostList.is_last_chunk l1) (Some r')
                  (BrassPostList.is_doclen_list l1))).
  { intros w Hw. unfold on_list.
    cbn [BrassPostList.term BrassPostList.is_doclen_list BrassPostList.pos
         BrassPostList.is_last_chunk BrassPostList.first_did_in_chunk
         BrassPostList.last_did_in_chunk BrassPostList.p_doclen_chunk_reader
         BrassPostList.is_at_end BrassPostList.did BrassPostList.wdf
         BrassPostList.cursor].
    do 7 (split; [first [assumption|reflexivity|discriminate]|]).
    exists r'. split; [reflexivity|]. split; [exact Hon'|].
    split.
    - intro He. split; [exact He|]. split; [reflexivity|exact Hw].
    - intro He. rewrite Hend', Hrend in He. discriminate He. }
  destruct found.
  - (* the docid is there *)
    symmetry in Hfound. apply Z.eqb_eq in Hfound.
    assert (Hlen : cur_length r' <> SEPERATOR).
    { pose proof no_tombstone as Hno. rewrite Forall_forall in Hno.
      exact (Hno _ Hin). }
    change (u32 (-1)) with SEPERATOR.
    replace (cur_length r' =? SEPERATOR) with false
      by (symmetry; apply Z.eqb_neq; exact Hlen).
    eexists true, _, done1, c1, todo1. split; [exact Hsplit1|].
    split; [reflexivity|].
    split; [apply Hchunk; reflexivity|].
    cbn [BrassPostList.did BrassPostList.wdf BrassPostList.is_at_end].
    split; [|intro H; discriminate H].
    intros _. split; [rewrite Hend'; exact Hrend|].
    split; [exact Hfound|]. rewrite <- Hfound. exact Hin.
  - (* the docid is not there *)
    symmetry in Hfound. apply Z.eqb_neq in Hfound.
    rewrite Z.eqb_refl.
    eexists false, _, done1, c1, todo1. split; [exact Hsplit1|].
    split; [reflexivity|].
    split; [apply Hchunk; reflexivity|].
    cbn [BrassPostList.did BrassPostList.is_at_end].
    split; [intro H; discriminate H|].
    intros _. right. unfold smallest_above.
    split; [lia|]. split; [exists (cur_length r'); exact Hin|].
    intros e He Hgt.
    pose proof (chunk_ascending done1 c1 todo1 Hsplit1) as Hasc.
    rewrite Hm in Hasc.
    destruct (ReaderFacts.ascending_split _ _ _ _ _ Hasc) as [_ Hafter].
    destruct (chunk_ordered done1 c1 todo1 Hsplit1) as (_ & _ & Htodo).
    destruct (chunk_bounds done1 c1 todo1 Hsplit1) as (_ & _ & _ & _ & Hmax).
    specialize (Hmax _ Hin1). cbn [fst] in Hmax.
    rewrite Hsplit1, concat_app in He. cbn [concat] in He.
    apply in_app_or in He. destruct He as [He|He].
    + rewrite Forall_forall in Hbelow1. specialize (Hbelow1 e He).
      cbv beta in Hbelow1. exfalso. apply (Z.lt_irrefl d).
      eapply Z.lt_trans; [exact Hgt|exact Hbelow1].
    + apply in_app_or in He. destruct He as [He|He].
      * rewrite Hm in He. apply in_app_or in He. destruct He as [He|[He|He]].
        -- rewrite Forall_forall in Hbelow. specialize (Hbelow e He).
           cbv beta in Hbelow. exfalso. apply (Z.lt_irrefl d).
           eapply Z.lt_trans; [exact Hgt|exact Hbelow].
        -- subst e. cbn [fst]. apply Z.le_refl.
        -- rewrite Forall_forall in Hafter. specialize (Hafter e He).
           cbv beta in Hafter. apply Z.lt_le_incl. exact Hafter.
      * rewrite Forall_forall in Htodo. specialize (Htodo e He).
        cbv beta in Htodo. apply Z.lt_le_incl.
        exact (Z.le_lt_trans _ _ _ Hmax Htodo).
Qed.

(** Any calls leave the list on a chunk. *)
Lemma do_calls_on_list :
  forall (calls : list doclen_call) (done : list doclen_map) (c : doclen_map)
         (todo : list doclen_map) (l : BrassPostList.t),
    Forall call_in_range calls ->
    c0 :: cs = done ++ c :: todo -> on_list done c todo l ->
    exists (l' : BrassPostList.t) (done' : list doclen_map) (c' : doclen_map)
           (todo' : list doclen_map),
      c0 :: cs = done' ++ c' :: todo'
      /\ do_calls table calls l = Ok l' /\ on_list done' c' todo' l'.
Proof.
  induction calls as [|call calls IH]; intros done c todo l Hcalls Hsplit Hon.
  - exists l, done, c, todo. split; [exact Hsplit|].
    split; [reflexivity|exact Hon].
  - inversion Hcalls as [|? ? Hcall Hrest]; subst.
    cbn [do_calls]. destruct call as [|d]; cbn [do_call].
    + destruct (next_on_list done c todo l Hsplit Hon)
        as [l1 [done1 [c1 [todo1 [Hsplit1 [Hn Hon1]]]]]].
      rewrite Hn. cbn [bind]. exact (IH done1 c1 todo1 l1 Hrest Hsplit1 Hon1).
    + destruct (jump_to_on_list done c todo l d Hsplit Hon Hcall)
        as [found [l1 [done1 [c1 [todo1 [Hsplit1 [Hj [Hon1 _]]]]]]]].
      rewrite Hj. cbn [bind]. exact (IH done1 c1 todo1 l1 Hrest Hsplit1 Hon1).
Qed.

(** A list on a chunk that is not at its end stands where its reader
    does. *)
Lemma on_list_reader :
  forall (done : list doclen_map) (c : doclen_map) (todo : list doclen_map)
         (l : BrassPostList.t),
    on_list done c todo l -> BrassPostList.is_at_end l = false ->
    exists r : DoclenChunkReader.t,
      BrassPostList.p_doclen_chunk_reader l = Some r
      /\ DoclenChunkReader.at_end r = false
      /\ DoclenChunkReader.get_docid r = BrassPostList.did l
      /\ DoclenChunkReader.get_doclen r = BrassPostList.wdf l.
Proof.
  intros done c todo l (_ & _ & _ & _ & _ & _ & _ & r & Hr & _ & Hcur & _) Hend.
  destruct (Hcur Hend) as [Hrend [Hdid Hwdf]].
  exists r. split; [exact Hr|].
  unfold DoclenChunkReader.at_end, DoclenChunkReader.get_docid,
    DoclenChunkReader.get_doclen, at_end, get_docid, get_doclen.
  split; [exact Hrend|]. split; symmetry; assumption.
Qed.

End List.

End DoclenCursorFacts.

(** ** The chunks of a doclen list as the writer lays them out *)

Module DoclenLayoutFacts.

(** The chunk [write_chunk] adds: the first under the key of the doclen
    list with the counts 0 and 0 before the header, a later one under
    the key of its first docid. *)
Lemma write_chunk_layout :
  forall (T : Tunables) (table : BrassTable.t) (c : doclen_map)
         (as_first_chunk as_last_chunk : bool),
    DoclenChunkWriter.write_chunk table c as_first_chunk as_last_chunk
    = if as_first_chunk
      then BrassTable.add (Key.make_key [])
             (make_start_of_first_chunk 0 0 (fst (hd (0, 0) c))
                ++ doclen_chunk as_last_chunk c) table
      else BrassTable.add (Key.make_key_did [] (fst (hd (0, 0) c)))
             (doclen_chunk as_last_chunk c) table.
Proof.
  intros T table c as_first_chunk as_last_chunk.
  unfold DoclenChunkWriter.write_chunk, doclen_chunk.
  assert (Henc : forall p : bytes, snd (encode c p) = p ++ snd (encode c [])).
  { intro p. unfold encode. destruct c as [|[d len] c'].
    - cbn [snd]. rewrite app_nil_r. reflexivity.
    - cbn [snd app]. reflexivity. }
  cbv zeta. rewrite Henc. reflexivity.
Qed.

(** [merge_doclen_changes] with a map over [MAX_ENTRIES_IN_CHUNK] entries
    on a table without doclen list: the first 2000 entries become the
    first chunk, the rest the second and last. *)
Example merge_doclen_changes_layout :
  @BrassPostListTable.merge_doclen_changes sample_tunables 1
    (BrassPostListTable.mk two_chunk_table None) long_doclens
  = Ok (BrassPostListTable.mk
          (@doclen_entries sample_tunables 0 0 (firstn 2000 long_doclens)
             [skipn 2000 long_doclens] ++ two_chunk_table) None).
Proof.
  vm_compute. reflexivity.
Qed.

End DoclenLayoutFacts.

(** C1: the guarantee of [jump_to] on a doclen list.  The list is made of
    one chunk or more, each with an entry at least and fewer than 65536,
    which together hold a well formed map with no length that is the
    deletion mark.  The chunks lie in a table in key order the way
    [merge_doclen_changes] writes them: the first under the key of the
    doclen list with the two counts before its header, every later one
    under the key of its first docid, the last one marked as the last,
    each with the body [encode] makes; no entry after them has a doclen
    key.  The list is opened and moved by any calls of [next] and
    [jump_to].  Then [jump_to(d)] returns, and if it returns true the
    list is not at its end and stands on [d], a docid of the map, with
    its length; if it returns false the list is at its end, or it stands
    on the smallest docid of the map that is greater than [d].  A list
    that is not at its end stands where its reader does: [get_docid()]
    and [get_doclen()] of the reader are the docid and the length of the
    list, and [at_end()] of the reader is false. *)
Theorem jump_to_guarantee :
  forall (T : Tunables) (before after : BrassTable.t) (entries : doccount)
         (collectionfreq : termcount) (c : doclen_map)
         (chunks : list doclen_map) (calls : list doclen_call) (d : docid),
    BrassTable.sorted
      (before ++ doclen_entries entries collectionfreq c chunks ++ after)
    = true ->
    (forall key tag : bytes,
        In (key, tag) after -> carries_term key [] = false) ->
    is_u32 entries -> is_u32 collectionfreq ->
    well_formed_map (concat (c :: chunks)) = true ->
    Forall (fun c' => c' <> [] /\ Z.of_nat (length c') < 65536) (c :: chunks) ->
    Forall (fun e => snd e <> SEPERATOR) (concat (c :: chunks)) ->
    Forall call_in_range calls -> is_u32 d ->
    let table :=
      before ++ doclen_entries entries collectionfreq c chunks ++ after in
    let m := concat (c :: chunks) in
    exists (l : BrassPostList.t) (found : bool) (l' : BrassPostList.t),
      (l0 <- BrassPostList.init table [] ;; do_calls table calls l0) = Ok l
      /\ BrassPostList.jump_to table d l = Ok (found, l')
      /\ (found = true ->
          BrassPostList.is_at_end l' = false
          /\ BrassPostList.did l' = d /\ In (d, BrassPostList.wdf l') m)
      /\ (found = false ->
          BrassPostList.is_at_end l' = true
          \/ smallest_above m d (BrassPostList.did l'))
      /\ (BrassPostList.is_at_end l' = false ->
          exists r : DoclenChunkReader.t,
            BrassPostList.p_doclen_chunk_reader l' = Some r
            /\ DoclenChunkReader.at_end r = false
            /\ DoclenChunkReader.get_docid r = BrassPostList.did l'
            /\ DoclenChunkReader.get_doclen r = BrassPostList.wdf l').
Proof.
  intros T before after entries collectionfreq c chunks calls d Hsorted Hterms
         Hentries Hcf Hwf Hsized Hnodel Hcalls Hd table m.
  destruct (DoclenCursorFacts.init_on_list before after entries collectionfreq
              c chunks Hsorted Hentries Hcf Hwf Hsized Hnodel)
    as [l0 [Hinit Hon0]].
  destruct (DoclenCursorFacts.do_calls_on_list before after entries
              collectionfreq c chunks Hsorted Hterms Hentries Hcf Hwf Hsized
              Hnodel calls [] c chunks l0 Hcalls eq_refl Hon0)
    as [l [done1 [c1 [todo1 [Hsplit1 [Hdo Hon]]]]]].
  destruct (DoclenCursorFacts.jump_to_on_list before after entries
              collectionfreq c chunks Hsorted Hterms Hentries Hcf Hwf Hsized
              Hnodel done1 c1 todo1 l d Hsplit1 Hon Hd)
    as [found [l' [done2 [c2 [todo2 [_ [Hjump [Hon2 [Htrue Hfalse]]]]]]]]].
  exists l, found, l'. subst table. rewrite Hinit. cbn [bind].
  split; [exact Hdo|]. split; [exact Hjump|].
  split; [exact Htrue|]. split; [exact Hfalse|].
  exact (DoclenCursorFacts.on_list_reader done2 c2 todo2 l' Hon2).
Qed.

Lemma jump_to_guarantee_witness :
  let chunks : list doclen_map := [[(30, 5); (31, 6)]; [(40, 1)]] in
  let table :=
    @doclen_entries sample_tunables 15 0 dense_run chunks ++ two_chunk_table in
  let m := concat (dense_run :: chunks) in
  exists (l : BrassPostList.t) (found : bool) (l' : BrassPostList.t),
    (l0 <- BrassPostList.init table [] ;;
     do_calls table [CallJumpTo 31; CallNext; CallJumpTo 7; CallJumpTo 100;
                     CallJumpTo 5] l0) = Ok l
    /\ BrassPostList.jump_to table 35 l = Ok (found, l')
    /\ (found = true ->
        BrassPostList.is_at_end l' = false
        /\ BrassPostList.did l' = 35 /\ In (35, BrassPostList.wdf l') m)
    /\ (found = false ->
        BrassPostList.is_at_end l' = true
        \/ smallest_above m 35 (BrassPostList.did l'))
    /\ (BrassPostList.is_at_end l' = false ->
        exists r : DoclenChunkReader.t,
          BrassPostList.p_doclen_chunk_reader l' = Some r
          /\ DoclenChunkReader.at_end r = false
          /\ DoclenChunkReader.get_docid r = BrassPostList.did l'
          /\ DoclenChunkReader.get_doclen r = BrassPostList.wdf l').
Proof.
  apply (jump_to_guarantee sample_tunables [] two_chunk_table 15 0 dense_run
           [[(30, 5); (31, 6)]; [(40, 1)]]
           [CallJumpTo 31; CallNext; CallJumpTo 7; CallJumpTo 100; CallJumpTo 5]
           35).
  - vm_compute. reflexivity.
  - intros key tag Hin. cbn in Hin.
    destruct Hin as [Heq|[Heq|[]]]; inversion Heq; subst; reflexivity.
  - unfold is_u32. lia.
  - unfold is_u32. lia.
  - reflexivity.
  - repeat constructor; try discriminate; vm_compute; reflexivity.
  - repeat constructor; cbn; discriminate.
  - repeat constructor; unfold is_u32; lia.
  - unfold is_u32. lia.
Defined.
